(** * facil.io core toolkit (fio-stl.h): a shallow embedding and its properties

    The development follows the layout of [lib/facil/fio-stl.h]:
    - [Mem]    : flat buffers (C arrays) indexed by [Z], fixed-width integers;
    - [Bits]   : byte order, rotations, constant-time selectors, bitmaps;
    - [Ary]    : the dynamic array template ([FIO_ARRAY_NAME]);
    - [Str]    : the binary-safe string template ([FIO_STRING_NAME]) with its
                 Base64 and JSON-escape codecs;
    - [Json]   : the streaming JSON recognizer ([fio_json_parse]);
    - [Fiobj]  : the soft-type JSON formatter ([fiobj___json_format_internal__]);
    - [Map]    : the ordered hash map / set template ([FIO_MAP_NAME]).

    Machine integers are [Z] with the wrap-around written where the C code
    computes in a fixed width.  Pointers into a buffer are offsets.  Reads and
    writes outside an allocation are undefined in C; the model makes them
    explicit: an out-of-range write leaves the buffer as it is and an
    out-of-range read yields the [junk] value of the enclosing section. *)

From Stdlib Require Import ZArith List Bool Lia Arith.
Import ListNotations.
Local Open Scope Z_scope.

(* ------------------------------------------------------------------------- *)
(** ** Buffers and fixed-width integers *)
(* ------------------------------------------------------------------------- *)

Module Mem.

Definition u8 (x : Z) : Z := x mod 256.
Definition u32 (x : Z) : Z := x mod 4294967296.
Definition u64 (x : Z) : Z := x mod 18446744073709551616.
(** two's complement reading of a 32-bit pattern *)
Definition i32 (x : Z) : Z :=
  let y := u32 x in if y <? 2147483648 then y else y - 4294967296.

Definition zlen {A} (l : list A) : Z := Z.of_nat (length l).

(** [p[i]] *)
Definition zget {A} (d : A) (l : list A) (i : Z) : A :=
  if i <? 0 then d else nth (Z.to_nat i) l d.

(** [p[i] = x] *)
Definition zset {A} (l : list A) (i : Z) (x : A) : list A :=
  if (0 <=? i) && (i <? zlen l)
  then firstn (Z.to_nat i) l ++ x :: skipn (S (Z.to_nat i)) l
  else l.

(** [memcpy(p + off, src, |src|)], one cell at a time *)
Fixpoint zblit {A} (l : list A) (off : Z) (src : list A) : list A :=
  match src with
  | [] => l
  | x :: src' => zblit (zset l off x) (off + 1) src'
  end.

(** [p[from .. from+n)] read as a list *)
Definition zsub {A} (l : list A) (from n : Z) : list A :=
  firstn (Z.to_nat n) (skipn (Z.to_nat from) l).

Definition zrepeat {A} (x : A) (n : Z) : list A := repeat x (Z.to_nat n).

Lemma zlen_nonneg {A} (l : list A) : 0 <= zlen l.
Proof. unfold zlen; lia. Qed.

Lemma zlen_app {A} (l1 l2 : list A) : zlen (l1 ++ l2) = zlen l1 + zlen l2.
Proof. unfold zlen; rewrite length_app; lia. Qed.

Lemma zlen_cons {A} (x : A) (l : list A) : zlen (x :: l) = 1 + zlen l.
Proof. unfold zlen; simpl length; lia. Qed.

Lemma zlen_zset {A} (l : list A) i x : zlen (zset l i x) = zlen l.
Proof.
  unfold zset.
  destruct ((0 <=? i) && (i <? zlen l)) eqn:E; [|reflexivity].
  apply andb_true_iff in E as [E1 E2].
  apply Z.leb_le in E1. apply Z.ltb_lt in E2.
  unfold zlen in *.
  rewrite length_app, length_firstn. cbn [length]. rewrite length_skipn. lia.
Qed.

Lemma zlen_zblit {A} (src l : list A) off : zlen (zblit l off src) = zlen l.
Proof.
  revert l off; induction src as [|x src IH]; intros l off; simpl.
  - reflexivity.
  - rewrite IH. apply zlen_zset.
Qed.

Lemma zlen_zrepeat {A} (x : A) n : 0 <= n -> zlen (zrepeat x n) = n.
Proof. intros; unfold zlen, zrepeat; rewrite repeat_length; lia. Qed.

Lemma firstn_length_app {A} (pre l : list A) : firstn (length pre) (pre ++ l) = pre.
Proof. induction pre; simpl; [destruct l|f_equal]; auto. Qed.

Lemma skipn_length_app {A} (pre l : list A) : skipn (length pre) (pre ++ l) = l.
Proof. induction pre; simpl; auto. Qed.

(** writing one cell of a buffer [pre ++ y :: post] at offset [|pre|] *)
Lemma zset_app_mid {A} (pre : list A) y (post : list A) x :
  zset (pre ++ y :: post) (zlen pre) x = pre ++ x :: post.
Proof.
  unfold zset.
  pose proof (zlen_nonneg pre).
  rewrite zlen_app, zlen_cons.
  pose proof (zlen_nonneg post).
  replace (0 <=? zlen pre) with true by (symmetry; apply Z.leb_le; lia).
  replace (zlen pre <? zlen pre + (1 + zlen post)) with true
    by (symmetry; apply Z.ltb_lt; lia).
  cbn [andb]. unfold zlen. rewrite Nat2Z.id.
  rewrite firstn_length_app. f_equal. f_equal.
  change (skipn (S (length pre)) (pre ++ y :: post)) with
    (skipn (S (length pre)) (pre ++ [y] ++ post)).
  rewrite app_assoc.
  replace (S (length pre)) with (length (pre ++ [y]))
    by (rewrite length_app; simpl; lia).
  apply skipn_length_app.
Qed.

Lemma zblit_app_mid {A} (src pre mid post : list A) :
  length mid = length src ->
  zblit (pre ++ mid ++ post) (zlen pre) src = pre ++ src ++ post.
Proof.
  revert pre mid; induction src as [|x src IH]; intros pre mid Hlen.
  - destruct mid; [reflexivity | discriminate].
  - destruct mid as [|y mid]; [discriminate|]. simpl in Hlen.
    simpl zblit. simpl app. rewrite zset_app_mid.
    replace (pre ++ x :: mid ++ post) with ((pre ++ [x]) ++ mid ++ post)
      by (rewrite <- app_assoc; reflexivity).
    replace (zlen pre + 1) with (zlen (pre ++ [x]))
      by (rewrite zlen_app; unfold zlen; simpl; lia).
    rewrite IH by lia. rewrite <- app_assoc. reflexivity.
Qed.

Lemma zsub_app_mid {A} (pre mid post : list A) :
  zsub (pre ++ mid ++ post) (zlen pre) (zlen mid) = mid.
Proof.
  unfold zsub, zlen. rewrite !Nat2Z.id.
  rewrite skipn_length_app. apply firstn_length_app.
Qed.

(** a store at or beyond the end of a window does not change the window *)
Lemma zsub_zset_after {A} (l : list A) from n i x :
  0 <= from -> 0 <= n -> from + n <= i ->
  zsub (zset l i x) from n = zsub l from n.
Proof.
  intros Hf Hn Hi. unfold zset.
  destruct ((0 <=? i) && (i <? zlen l)) eqn:E; [|reflexivity].
  apply andb_true_iff in E as [_ E2]. apply Z.ltb_lt in E2.
  unfold zsub, zlen in *.
  set (k := Z.to_nat i). set (f := Z.to_nat from). set (m := Z.to_nat n).
  assert (Hk : (f + m <= k)%nat) by (subst k f m; lia).
  assert (Hl : (k < length l)%nat) by (subst k; lia).
  rewrite <- (firstn_skipn k l) at 3.
  rewrite !skipn_app, !firstn_app.
  rewrite !length_skipn, !length_firstn.
  replace (m - (Nat.min k (length l) - f))%nat with 0%nat by lia.
  rewrite !firstn_O. reflexivity.
Qed.

(** a store below the start of a window does not change the window *)
Lemma zsub_zset_before {A} (l : list A) from n i x :
  0 <= i < from ->
  zsub (zset l i x) from n = zsub l from n.
Proof.
  intros Hi. unfold zset.
  destruct ((0 <=? i) && (i <? zlen l)) eqn:E; [|reflexivity].
  apply andb_true_iff in E as [_ E2]. apply Z.ltb_lt in E2.
  unfold zsub, zlen in *.
  set (k := Z.to_nat i). set (f := Z.to_nat from).
  assert (Hk : (k < f)%nat) by (subst k f; lia).
  assert (Hl : (k < length l)%nat) by (subst k; lia).
  f_equal.
  change (x :: skipn (S k) l) with ([x] ++ skipn (S k) l).
  rewrite app_assoc, skipn_app.
  rewrite length_app, length_firstn. cbn [length].
  rewrite (skipn_all2 (firstn k l ++ [x]))
    by (rewrite length_app, length_firstn; cbn [length]; lia).
  rewrite skipn_skipn. cbn [app]. f_equal. lia.
Qed.

Lemma zget_zset_same {A} (d : A) (l : list A) i x :
  0 <= i < zlen l -> zget d (zset l i x) i = x.
Proof.
  intros Hi. unfold zget, zset, zlen in *.
  replace (i <? 0) with false by (symmetry; apply Z.ltb_ge; lia).
  replace (0 <=? i) with true by (symmetry; apply Z.leb_le; lia).
  replace (i <? Z.of_nat (length l)) with true by (symmetry; apply Z.ltb_lt; lia).
  cbn [andb].
  rewrite app_nth2; rewrite length_firstn; [|lia].
  replace (Z.to_nat i - Nat.min (Z.to_nat i) (length l))%nat with 0%nat by lia.
  reflexivity.
Qed.

Lemma nth_splice {A} (l : list A) :
  forall (i j : nat) (x d : A),
    (i < length l)%nat ->
    nth j (firstn i l ++ x :: skipn (S i) l) d = if (j =? i)%nat then x else nth j l d.
Proof.
  induction l as [|a l IH]; intros i j x d Hi; cbn [length] in Hi; [lia|].
  destruct i as [|i]; destruct j as [|j]; cbn [firstn skipn app nth Nat.eqb]; try reflexivity.
  apply IH. lia.
Qed.

(** reading a buffer after one store *)
Lemma zget_zset_cases {A} (d : A) (l : list A) (i j : Z) (x : A) :
  zget d (zset l i x) j =
  if (j =? i) && (0 <=? i) && (i <? zlen l) then x else zget d l j.
Proof.
  unfold zget, zset, zlen.
  destruct (0 <=? i) eqn:E0; destruct (i <? Z.of_nat (length l)) eqn:E1;
    cbn [andb]; rewrite ?Bool.andb_false_r; try reflexivity.
  apply Z.leb_le in E0. apply Z.ltb_lt in E1. rewrite Bool.andb_true_r.
  destruct (j <? 0) eqn:Ej.
  - apply Z.ltb_lt in Ej. replace (j =? i) with false by (symmetry; apply Z.eqb_neq; lia).
    reflexivity.
  - apply Z.ltb_ge in Ej. rewrite nth_splice by lia.
    destruct (j =? i) eqn:Eji.
    + apply Z.eqb_eq in Eji. subst j. rewrite Nat.eqb_refl. reflexivity.
    + apply Z.eqb_neq in Eji.
      replace (Z.to_nat j =? Z.to_nat i)%nat with false
        by (symmetry; apply Nat.eqb_neq; lia).
      reflexivity.
Qed.

Lemma zget_zset_other {A} (d : A) (l : list A) (i j : Z) (x : A) :
  j <> i -> zget d (zset l i x) j = zget d l j.
Proof.
  intros H. rewrite zget_zset_cases.
  replace (j =? i) with false by (symmetry; apply Z.eqb_neq; lia). reflexivity.
Qed.

(** *** Reading windows cell by cell *)

Lemma zlen_zsub {A} (l : list A) from n :
  0 <= from -> 0 <= n -> from + n <= zlen l -> zlen (zsub l from n) = n.
Proof.
  intros Hf Hn Hl. unfold zsub, zlen in *.
  rewrite length_firstn, length_skipn. lia.
Qed.

Lemma zget_zsub {A} (d : A) (l : list A) from n i :
  0 <= from -> 0 <= i < n -> zget d (zsub l from n) i = zget d l (from + i).
Proof.
  intros Hf Hi. unfold zget, zsub.
  replace (i <? 0) with false by (symmetry; apply Z.ltb_ge; lia).
  replace (from + i <? 0) with false by (symmetry; apply Z.ltb_ge; lia).
  rewrite nth_firstn.
  replace (Z.to_nat i <? Z.to_nat n)%nat with true
    by (symmetry; apply Nat.ltb_lt; lia).
  rewrite nth_skipn. f_equal. lia.
Qed.

Lemma zget_app {A} (d : A) (l1 l2 : list A) i :
  zget d (l1 ++ l2) i = if i <? zlen l1 then zget d l1 i else zget d l2 (i - zlen l1).
Proof.
  unfold zget, zlen.
  destruct (i <? 0) eqn:E0.
  - apply Z.ltb_lt in E0.
    replace (i <? Z.of_nat (length l1)) with true by (symmetry; apply Z.ltb_lt; lia).
    reflexivity.
  - apply Z.ltb_ge in E0.
    destruct (i <? Z.of_nat (length l1)) eqn:E1.
    + apply Z.ltb_lt in E1. apply app_nth1. lia.
    + apply Z.ltb_ge in E1.
      replace (i - Z.of_nat (length l1) <? 0) with false by (symmetry; apply Z.ltb_ge; lia).
      rewrite app_nth2 by lia. f_equal. lia.
Qed.

Lemma zget_out {A} (d : A) (l : list A) i : zlen l <= i -> zget d l i = d.
Proof.
  intros H. unfold zget, zlen in *.
  destruct (i <? 0); [reflexivity|]. apply nth_overflow. lia.
Qed.

Lemma zget_fill {A} (d x : A) n i : 0 <= i < n -> zget d (zrepeat x n) i = x.
Proof.
  intros Hi. unfold zget, zrepeat.
  replace (i <? 0) with false by (symmetry; apply Z.ltb_ge; lia).
  apply nth_repeat_lt. lia.
Qed.

(** two buffers of one length with the same cells are the same buffer *)
Lemma zget_ext {A} (d : A) (l1 l2 : list A) :
  zlen l1 = zlen l2 ->
  (forall i, 0 <= i < zlen l1 -> zget d l1 i = zget d l2 i) ->
  l1 = l2.
Proof.
  intros Hl H. apply (nth_ext l1 l2 d d).
  - unfold zlen in Hl. lia.
  - intros n Hn. specialize (H (Z.of_nat n)). unfold zget, zlen in H.
    replace (Z.of_nat n <? 0) with false in H by (symmetry; apply Z.ltb_ge; lia).
    rewrite Nat2Z.id in H. apply H. lia.
Qed.

Lemma zget_zblit {A} (d : A) (src : list A) :
  forall (l : list A) off j,
    0 <= off -> off + zlen src <= zlen l ->
    zget d (zblit l off src) j =
    if (off <=? j) && (j <? off + zlen src) then zget d src (j - off) else zget d l j.
Proof.
  induction src as [|x src IH]; intros l off j Hoff Hl.
  - cbn [zblit]. change (zlen (@nil A)) with 0.
    replace ((off <=? j) && (j <? off + 0)) with false; [reflexivity|].
    symmetry. apply andb_false_iff.
    destruct (Z_le_gt_dec off j); [right; apply Z.ltb_ge|left; apply Z.leb_gt]; lia.
  - cbn [zblit]. rewrite zlen_cons in *. pose proof (zlen_nonneg src).
    rewrite IH by (rewrite ?zlen_zset; lia).
    rewrite zget_zset_cases.
    destruct (off + 1 <=? j) eqn:E1; [apply Z.leb_le in E1|apply Z.leb_gt in E1].
    + replace (off <=? j) with true by (symmetry; apply Z.leb_le; lia).
      replace (j <? off + (1 + zlen src)) with (j <? off + 1 + zlen src)
        by (f_equal; lia).
      cbn [andb]. destruct (j <? off + 1 + zlen src) eqn:E2.
      * apply Z.ltb_lt in E2. unfold zget.
        replace (j - (off + 1) <? 0) with false by (symmetry; apply Z.ltb_ge; lia).
        replace (j - off <? 0) with false by (symmetry; apply Z.ltb_ge; lia).
        replace (Z.to_nat (j - off)) with (S (Z.to_nat (j - (off + 1)))) by lia.
        reflexivity.
      * replace (j =? off) with false by (symmetry; apply Z.eqb_neq; lia).
        reflexivity.
    + cbn [andb]. destruct (j =? off) eqn:E3.
      * apply Z.eqb_eq in E3. subst j.
        replace (off <=? off) with true by (symmetry; apply Z.leb_le; lia).
        replace (off <? off + (1 + zlen src)) with true by (symmetry; apply Z.ltb_lt; lia).
        replace (0 <=? off) with true by (symmetry; apply Z.leb_le; lia).
        replace (off <? zlen l) with true by (symmetry; apply Z.ltb_lt; lia).
        cbn [andb]. rewrite Z.sub_diag. reflexivity.
      * apply Z.eqb_neq in E3.
        replace (off <=? j) with false by (symmetry; apply Z.leb_gt; lia).
        reflexivity.
Qed.

End Mem.
Import Mem.

(* ------------------------------------------------------------------------- *)
(** ** Bit and byte helpers ([FIO_BITWISE], [FIO_BITMAP]) *)
(* ------------------------------------------------------------------------- *)

Module Bits.

Definition u16 (x : Z) : Z := x mod 65536.

(** [fio_lrot32(i, bits)] *)
Definition fio_lrot32 (i bits : Z) : Z :=
  Z.lor (u32 (Z.shiftl (u32 i) (Z.land bits 31)))
        (Z.shiftr (u32 i) (Z.land (- bits) 31)).

(** [fio_rrot32(i, bits)] *)
Definition fio_rrot32 (i bits : Z) : Z :=
  Z.lor (Z.shiftr (u32 i) (Z.land bits 31))
        (u32 (Z.shiftl (u32 i) (Z.land (- bits) 31))).

(** [fio_lrot64(i, bits)] *)
Definition fio_lrot64 (i bits : Z) : Z :=
  Z.lor (u64 (Z.shiftl (u64 i) (Z.land bits 63)))
        (Z.shiftr (u64 i) (Z.land (- bits) 63)).

(** [fio_rrot64(i, bits)] *)
Definition fio_rrot64 (i bits : Z) : Z :=
  Z.lor (Z.shiftr (u64 i) (Z.land bits 63))
        (u64 (Z.shiftl (u64 i) (Z.land (- bits) 63))).

Section Buffer.

Variable junk : Z.   (* what a read outside the buffer yields *)

(** the [k]-th byte at [c], read as [uint8_t]; [c] is the buffer [p] at
    offset [off] *)
Definition byte_at (p : list Z) (off k : Z) : Z := u8 (zget junk p (off + k)).

(** [fio_string_to_u16(c)] *)
Definition fio_string_to_u16 (p : list Z) (off : Z) : Z :=
  u16 (Z.lor (Z.shiftl (u16 (byte_at p off 0)) 8) (u16 (byte_at p off 1))).

(** [fio_string_to_u32(c)] *)
Definition fio_string_to_u32 (p : list Z) (off : Z) : Z :=
  u32 (Z.lor (Z.lor (Z.lor
    (u32 (Z.shiftl (u32 (byte_at p off 0)) 24))
    (u32 (Z.shiftl (u32 (byte_at p off 1)) 16)))
    (u32 (Z.shiftl (u32 (byte_at p off 2)) 8)))
    (u32 (byte_at p off 3))).

(** [fio_string_to_u64(c)] *)
Definition fio_string_to_u64 (p : list Z) (off : Z) : Z :=
  u64 (Z.lor (Z.lor (Z.lor (Z.lor (Z.lor (Z.lor (Z.lor
    (u64 (Z.shiftl (u64 (byte_at p off 0)) 56))
    (u64 (Z.shiftl (u64 (byte_at p off 1)) 48)))
    (u64 (Z.shiftl (u64 (byte_at p off 2)) 40)))
    (u64 (Z.shiftl (u64 (byte_at p off 3)) 32)))
    (u64 (Z.shiftl (u64 (byte_at p off 4)) 24)))
    (u64 (Z.shiftl (u64 (byte_at p off 5)) 16)))
    (u64 (Z.shiftl (u64 (byte_at p off 6)) 8)))
    (byte_at p off 7)).

(** [fio_bitmap_get(map, bit)] *)
Definition fio_bitmap_get (map : list Z) (bit : Z) : Z :=
  Z.land (Z.shiftr (u8 (zget junk map (Z.shiftr bit 3))) (Z.land bit 7)) 1.

(** [fio_bitmap_set(map, bit)]: [fio_atomic_or] on the byte *)
Definition fio_bitmap_set (map : list Z) (bit : Z) : list Z :=
  let i := Z.shiftr bit 3 in
  zset map i (u8 (Z.lor (u8 (zget junk map i)) (u8 (Z.shiftl 1 (Z.land bit 7))))).

(** [fio_bitmap_unset(map, bit)]: [fio_atomic_and] on the byte *)
Definition fio_bitmap_unset (map : list Z) (bit : Z) : list Z :=
  let i := Z.shiftr bit 3 in
  zset map i (u8 (Z.land (u8 (zget junk map i))
                         (u8 (Z.lnot (Z.shiftl 1 (Z.land bit 7)))))).

End Buffer.

(** [fio_u2str16(buffer, i)] *)
Definition fio_u2str16 (p : list Z) (off i : Z) : list Z :=
  let p := zset p (off + 0) (u8 (Z.land (Z.shiftr (u16 i) 8) 255)) in
  zset p (off + 1) (u8 (Z.land (u16 i) 255)).

(** [fio_u2str32(buffer, i)] *)
Definition fio_u2str32 (p : list Z) (off i : Z) : list Z :=
  let p := zset p (off + 0) (u8 (Z.land (Z.shiftr (u32 i) 24) 255)) in
  let p := zset p (off + 1) (u8 (Z.land (Z.shiftr (u32 i) 16) 255)) in
  let p := zset p (off + 2) (u8 (Z.land (Z.shiftr (u32 i) 8) 255)) in
  zset p (off + 3) (u8 (Z.land (u32 i) 255)).

(** [fio_u2str64(buffer, i)] *)
Definition fio_u2str64 (p : list Z) (off i : Z) : list Z :=
  let p := zset p (off + 0) (u8 (Z.land (Z.shiftr (u64 i) 56) 255)) in
  let p := zset p (off + 1) (u8 (Z.land (Z.shiftr (u64 i) 48) 255)) in
  let p := zset p (off + 2) (u8 (Z.land (Z.shiftr (u64 i) 40) 255)) in
  let p := zset p (off + 3) (u8 (Z.land (Z.shiftr (u64 i) 32) 255)) in
  let p := zset p (off + 4) (u8 (Z.land (Z.shiftr (u64 i) 24) 255)) in
  let p := zset p (off + 5) (u8 (Z.land (Z.shiftr (u64 i) 16) 255)) in
  let p := zset p (off + 6) (u8 (Z.land (Z.shiftr (u64 i) 8) 255)) in
  zset p (off + 7) (u8 (Z.land (u64 i) 255)).

(** [fio_ct_true(cond)], [uintptr_t] being 64 bits wide *)
Definition fio_ct_true (cond : Z) : Z :=
  let cond := u64 cond in
  Z.shiftr (Z.lor cond (u64 (0 - cond))) (Z.shiftl 8 3 - 1).

(** [fio_ct_false(cond)] *)
Definition fio_ct_false (cond : Z) : Z := Z.lxor (fio_ct_true cond) 1.

(** [fio_ct_if(cond, a, b)]; [cond] is a [uint8_t] *)
Definition fio_ct_if (cond a b : Z) : Z :=
  let cond := u8 cond in
  let a := u64 a in
  let b := u64 b in
  Z.lxor b (Z.land (u64 (0 - Z.land cond 1)) (Z.lxor a b)).

(** [fio_ct_if2(cond, a, b)] *)
Definition fio_ct_if2 (cond a b : Z) : Z := fio_ct_if (fio_ct_true cond) a b.

(** [fio_popcount(n)], the portable loop [while (n) { ++c; n &= n - 1; }] *)
Fixpoint popcount_loop (fuel : nat) (n c : Z) : Z :=
  match fuel with
  | O => c
  | S f => if n =? 0 then c else popcount_loop f (Z.land n (u64 (n - 1))) (c + 1)
  end.

(** every round clears one of the 64 bits *)
Definition fio_popcount (n : Z) : Z := popcount_loop 64 (u64 n) 0.

(** the number of ones in the binary notation of a number *)
Fixpoint pos_ones (p : positive) : Z :=
  match p with
  | xH => 1
  | xO q => pos_ones q
  | xI q => 1 + pos_ones q
  end.

Definition ones_count (n : Z) : Z :=
  match n with
  | Zpos p => pos_ones p
  | _ => 0
  end.

(** *** Bit-level reasoning *)

Lemma u8_pow x : u8 x = x mod 2 ^ 8.
Proof. reflexivity. Qed.

Lemma u16_pow x : u16 x = x mod 2 ^ 16.
Proof. reflexivity. Qed.

Lemma u32_pow x : u32 x = x mod 2 ^ 32.
Proof. reflexivity. Qed.

Lemma u64_pow x : u64 x = x mod 2 ^ 64.
Proof. reflexivity. Qed.

Lemma testbit_255 n : Z.testbit 255 n = (0 <=? n) && (n <? 8).
Proof. change 255 with (Z.ones 8). apply Z.testbit_ones. lia. Qed.

(** decide the comparisons of a goal from the context *)
Ltac decide_cmp :=
  repeat match goal with
  | |- context [?a <? ?b] =>
      first [ replace (a <? b) with true by (symmetry; apply Z.ltb_lt; lia)
            | replace (a <? b) with false by (symmetry; apply Z.ltb_ge; lia) ]
  | |- context [?a <=? ?b] =>
      first [ replace (a <=? b) with true by (symmetry; apply Z.leb_le; lia)
            | replace (a <=? b) with false by (symmetry; apply Z.leb_gt; lia) ]
  | |- context [?a =? ?b] =>
      first [ replace (a =? b) with true by (symmetry; apply Z.eqb_eq; lia)
            | replace (a =? b) with false by (symmetry; apply Z.eqb_neq; lia) ]
  end.

(** unfold the bits of an expression built from the C operators *)
Ltac bits_of :=
  rewrite ?u8_pow, ?u16_pow, ?u32_pow, ?u64_pow;
  repeat first
    [ rewrite Z.lor_spec | rewrite Z.land_spec | rewrite Z.lxor_spec
    | rewrite testbit_255
    | rewrite Z.testbit_mod_pow2 by lia
    | rewrite Z.shiftl_spec by lia
    | rewrite Z.shiftr_spec by lia ].

Ltac bits_step :=
  first [ progress bits_of | progress decide_cmp
        | progress (cbn [andb orb negb])
        | progress (rewrite ?Bool.andb_false_r, ?Bool.orb_false_r,
                            ?Bool.andb_true_r, ?Bool.orb_true_r) ].

(** bring the index of every [Z.testbit x _] to the shape [n] *)
Ltac index_to n :=
  repeat match goal with
  | |- context [Z.testbit ?x ?e] =>
      lazymatch e with
      | n => fail
      | _ => replace e with n by lia
      end
  end.

Lemma u64_range (x : Z) : 0 <= u64 x < 2 ^ 64.
Proof. unfold u64. apply Z.mod_pos_bound. lia. Qed.

Lemma u64_id (x : Z) : 0 <= x < 2 ^ 64 -> u64 x = x.
Proof. intros H. unfold u64. apply Z.mod_small. lia. Qed.

(** *** Network byte order *)

Lemma u16_bytes (x : Z) :
  u16 (Z.lor (Z.shiftl (u16 (u8 (u8 (Z.land (Z.shiftr (u16 x) 8) 255)))) 8)
             (u16 (u8 (u8 (Z.land (u16 x) 255))))) = u16 x.
Proof.
  apply Z.bits_inj'. intros n Hn.
  assert (C : n < 8 \/ 8 <= n < 16 \/ 16 <= n) by lia.
  destruct C as [C|[C|C]]; repeat bits_step; index_to n; try reflexivity.
  all: destruct (Z.testbit x n); reflexivity.
Qed.

Lemma u32_bytes (x : Z) :
  u32 (Z.lor (Z.lor (Z.lor
    (u32 (Z.shiftl (u32 (u8 (u8 (Z.land (Z.shiftr (u32 x) 24) 255)))) 24))
    (u32 (Z.shiftl (u32 (u8 (u8 (Z.land (Z.shiftr (u32 x) 16) 255)))) 16)))
    (u32 (Z.shiftl (u32 (u8 (u8 (Z.land (Z.shiftr (u32 x) 8) 255)))) 8)))
    (u32 (u8 (u8 (Z.land (u32 x) 255))))) = u32 x.
Proof.
  apply Z.bits_inj'. intros n Hn.
  assert (C : n < 8 \/ 8 <= n < 16 \/ 16 <= n < 24 \/ 24 <= n < 32 \/ 32 <= n) by lia.
  destruct C as [C|[C|[C|[C|C]]]]; repeat bits_step; index_to n; try reflexivity.
  all: destruct (Z.testbit x n); reflexivity.
Qed.

Lemma u64_bytes (x : Z) :
  u64 (Z.lor (Z.lor (Z.lor (Z.lor (Z.lor (Z.lor (Z.lor
    (u64 (Z.shiftl (u64 (u8 (u8 (Z.land (Z.shiftr (u64 x) 56) 255)))) 56))
    (u64 (Z.shiftl (u64 (u8 (u8 (Z.land (Z.shiftr (u64 x) 48) 255)))) 48)))
    (u64 (Z.shiftl (u64 (u8 (u8 (Z.land (Z.shiftr (u64 x) 40) 255)))) 40)))
    (u64 (Z.shiftl (u64 (u8 (u8 (Z.land (Z.shiftr (u64 x) 32) 255)))) 32)))
    (u64 (Z.shiftl (u64 (u8 (u8 (Z.land (Z.shiftr (u64 x) 24) 255)))) 24)))
    (u64 (Z.shiftl (u64 (u8 (u8 (Z.land (Z.shiftr (u64 x) 16) 255)))) 16)))
    (u64 (Z.shiftl (u64 (u8 (u8 (Z.land (Z.shiftr (u64 x) 8) 255)))) 8)))
    (u8 (u8 (Z.land (u64 x) 255)))) = u64 x.
Proof.
  apply Z.bits_inj'. intros n Hn.
  assert (C : n < 8 \/ 8 <= n < 16 \/ 16 <= n < 24 \/ 24 <= n < 32 \/
              32 <= n < 40 \/ 40 <= n < 48 \/ 48 <= n < 56 \/ 56 <= n < 64 \/ 64 <= n)
    by lia.
  destruct C as [C|[C|[C|[C|[C|[C|[C|[C|C]]]]]]]];
    repeat bits_step; index_to n; try reflexivity.
  all: destruct (Z.testbit x n); reflexivity.
Qed.

(** the byte a read finds at [off + k] after the stores of one writer *)
Ltac read_back :=
  unfold byte_at;
  repeat (rewrite zget_zset_cases; rewrite ?zlen_zset; decide_cmp; cbn [andb]).

(** X1.  A number written in network byte order is read back as written:
    [fio_string_to_u16/32/64] after [fio_u2str16/32/64] at the same place
    returns the number, truncated to the width, whenever the bytes lie inside
    the buffer; the writer touches no other byte. *)
Theorem network_order_roundtrip (junk : Z) (p : list Z) (off i : Z) :
  0 <= off ->
  (off + 2 <= zlen p ->
   fio_string_to_u16 junk (fio_u2str16 p off i) off = u16 i) /\
  (off + 4 <= zlen p ->
   fio_string_to_u32 junk (fio_u2str32 p off i) off = u32 i) /\
  (off + 8 <= zlen p ->
   fio_string_to_u64 junk (fio_u2str64 p off i) off = u64 i) /\
  (forall j, j < off \/ off + 2 <= j ->
   zget junk (fio_u2str16 p off i) j = zget junk p j) /\
  (forall j, j < off \/ off + 4 <= j ->
   zget junk (fio_u2str32 p off i) j = zget junk p j) /\
  (forall j, j < off \/ off + 8 <= j ->
   zget junk (fio_u2str64 p off i) j = zget junk p j).
Proof.
  intros Hoff. repeat split.
  - intros H. unfold fio_string_to_u16, fio_u2str16. read_back. apply u16_bytes.
  - intros H. unfold fio_string_to_u32, fio_u2str32. read_back. apply u32_bytes.
  - intros H. unfold fio_string_to_u64, fio_u2str64. read_back. apply u64_bytes.
  - intros j Hj. unfold fio_u2str16. rewrite !zget_zset_other by lia. reflexivity.
  - intros j Hj. unfold fio_u2str32. rewrite !zget_zset_other by lia. reflexivity.
  - intros j Hj. unfold fio_u2str64. rewrite !zget_zset_other by lia. reflexivity.
Qed.

Lemma network_order_roundtrip_witness :
  fio_string_to_u16 0 (fio_u2str16 [9; 9; 9; 9; 9; 9; 9; 9; 9; 9] 1 4660) 1 = 4660 /\
  fio_string_to_u32 0 (fio_u2str32 [9; 9; 9; 9; 9; 9; 9; 9; 9; 9] 1 305419896) 1
    = 305419896 /\
  fio_string_to_u64 0 (fio_u2str64 [9; 9; 9; 9; 9; 9; 9; 9; 9; 9] 1 (-1)) 1
    = 18446744073709551615.
Proof.
  split; [|split].
  - apply (network_order_roundtrip 0 [9; 9; 9; 9; 9; 9; 9; 9; 9; 9] 1 4660);
      vm_compute; discriminate.
  - apply (network_order_roundtrip 0 [9; 9; 9; 9; 9; 9; 9; 9; 9; 9] 1 305419896);
      vm_compute; discriminate.
  - apply (network_order_roundtrip 0 [9; 9; 9; 9; 9; 9; 9; 9; 9; 9] 1 (-1));
      vm_compute; discriminate.
Defined.

(** *** Constant-time selectors *)

Lemma ct_true_value (c : Z) : fio_ct_true c = if u64 c =? 0 then 0 else 1.
Proof.
  unfold fio_ct_true. change (Z.shiftl 8 3 - 1) with 63.
  pose proof (u64_range c) as Hx.
  destruct (u64 c =? 0) eqn:E.
  - apply Z.eqb_eq in E. rewrite E. reflexivity.
  - apply Z.eqb_neq in E. set (x := u64 c) in *.
    assert (Hy : u64 (0 - x) = 2 ^ 64 - x).
    { unfold u64. change 18446744073709551616 with (2 ^ 64).
      replace (0 - x) with ((2 ^ 64 - x) + (-1) * 2 ^ 64) by lia.
      rewrite Z.mod_add by lia. apply Z.mod_small. lia. }
    rewrite Hy. rewrite Z.shiftr_div_pow2 by lia.
    assert (Hl : Z.log2 (Z.lor x (2 ^ 64 - x)) = 63).
    { rewrite Z.log2_lor by lia.
      assert (Z.log2 x < 64) by (apply Z.log2_lt_pow2; lia).
      assert (Z.log2 (2 ^ 64 - x) < 64) by (apply Z.log2_lt_pow2; lia).
      assert (63 <= Z.log2 x \/ 63 <= Z.log2 (2 ^ 64 - x)).
      { destruct (Z_le_gt_dec (2 ^ 63) x).
        - left. apply Z.log2_le_pow2; lia.
        - right. apply Z.log2_le_pow2; lia. }
      lia. }
    assert (Hn : 0 <= Z.lor x (2 ^ 64 - x)) by (apply Z.lor_nonneg; lia).
    assert (Hp : 0 < Z.lor x (2 ^ 64 - x)).
    { destruct (Z.eq_dec (Z.lor x (2 ^ 64 - x)) 0) as [E0|E0]; [|lia].
      rewrite E0 in Hl. discriminate. }
    pose proof (Z.log2_spec _ Hp) as Hs. rewrite Hl in Hs.
    change (Z.succ 63) with 64 in Hs.
    symmetry. apply Z.div_unique with (r := Z.lor x (2 ^ 64 - x) - 2 ^ 63); lia.
Qed.

Lemma lxor_u64 (a b : Z) : u64 (Z.lxor (u64 a) (u64 b)) = Z.lxor (u64 a) (u64 b).
Proof.
  apply Z.bits_inj'. intros n Hn. bits_of.
  destruct (n <? 64); reflexivity.
Qed.

Lemma ct_if_value (cond a b : Z) :
  fio_ct_if cond a b = if Z.odd (u8 cond) then u64 a else u64 b.
Proof.
  unfold fio_ct_if.
  assert (H1 : Z.land (u8 cond) 1 = if Z.odd (u8 cond) then 1 else 0).
  { change 1 with (Z.ones 1) at 1. rewrite Z.land_ones by lia.
    change (2 ^ 1) with 2. rewrite Zmod_odd. reflexivity. }
  rewrite H1. destruct (Z.odd (u8 cond)).
  - change (u64 (0 - 1)) with (Z.ones 64).
    rewrite Z.land_comm, Z.land_ones by lia.
    change (Z.lxor (u64 a) (u64 b) mod 2 ^ 64) with (u64 (Z.lxor (u64 a) (u64 b))).
    rewrite lxor_u64.
    rewrite (Z.lxor_comm (u64 a)), <- Z.lxor_assoc, Z.lxor_nilpotent.
    apply Z.lxor_0_l.
  - change (u64 (0 - 0)) with 0. rewrite Z.land_0_l. apply Z.lxor_0_r.
Qed.

(** X2.  The constant-time tests and selectors: [fio_ct_true] is 1 on every
    non-zero word and 0 on zero, [fio_ct_false] the opposite; [fio_ct_if]
    looks only at the lowest bit of its [uint8_t] condition (so the even
    condition 2 selects [b]), while [fio_ct_if2] selects [a] for every
    non-zero condition. *)
Theorem ct_select_spec (cond a b : Z) :
  fio_ct_true cond = (if u64 cond =? 0 then 0 else 1) /\
  fio_ct_false cond = (if u64 cond =? 0 then 1 else 0) /\
  fio_ct_if cond a b = (if Z.odd (u8 cond) then u64 a else u64 b) /\
  fio_ct_if2 cond a b = (if u64 cond =? 0 then u64 b else u64 a).
Proof.
  split; [apply ct_true_value|]. split; [|split; [apply ct_if_value|]].
  - unfold fio_ct_false. rewrite ct_true_value. destruct (u64 cond =? 0); reflexivity.
  - unfold fio_ct_if2. rewrite ct_if_value, ct_true_value.
    destruct (u64 cond =? 0); reflexivity.
Qed.

(** *** Rotations *)

Lemma land_mask (b k : Z) : 0 <= k -> Z.land b (Z.ones k) = b mod 2 ^ k.
Proof. intros. apply Z.land_ones. lia. Qed.

(** the two shift amounts of a rotation by [b] in a word of [2 ^ k] bits *)
Lemma rot_amounts (b k : Z) :
  0 < k ->
  let s := b mod 2 ^ k in
  let t := (- b) mod 2 ^ k in
  0 <= s < 2 ^ k /\ ((s = 0 /\ t = 0) \/ (0 < s /\ t = 2 ^ k - s)).
Proof.
  intros Hk s t. assert (Hp : 0 < 2 ^ k) by (apply Z.pow_pos_nonneg; lia).
  pose proof (Z.mod_pos_bound b (2 ^ k) Hp) as Hs. fold s in Hs.
  split; [exact Hs|].
  destruct (Z.eq_dec s 0) as [E|E].
  - left. split; [exact E|]. subst t. apply Z.mod_opp_l_z; [lia|exact E].
  - right. split; [lia|]. subst t. rewrite Z.mod_opp_l_nz by (subst s; lia).
    reflexivity.
Qed.

Lemma lrot64_bit (i b n : Z) :
  0 <= n ->
  Z.testbit (fio_lrot64 i b) n = (n <? 64) && Z.testbit i ((n - b) mod 64).
Proof.
  intros Hn. unfold fio_lrot64.
  change 63 with (Z.ones 6). rewrite !land_mask by lia. change (2 ^ 6) with 64.
  destruct (rot_amounts b 6 ltac:(lia)) as (Hs & Hst). change (2 ^ 6) with 64 in *.
  set (s := b mod 64) in *. set (t := (- b) mod 64) in *.
  assert (Eb : b = 64 * (b / 64) + s) by (subst s; apply Z.div_mod; lia).
  destruct (n <? 64) eqn:E64; [apply Z.ltb_lt in E64 | apply Z.ltb_ge in E64].
  - assert (C : n < s \/ s <= n) by lia. destruct C as [C|C].
    + replace ((n - b) mod 64) with (n + t).
      2:{ apply Z.mod_unique with (q := - (b / 64) - 1); lia. }
      repeat bits_step. rewrite (Z.testbit_neg_r _ (n - s)) by lia.
      repeat bits_step. reflexivity.
    + replace ((n - b) mod 64) with (n - s).
      2:{ apply Z.mod_unique with (q := - (b / 64)); lia. }
      destruct Hst as [(E0 & Et)|(E0 & Et)].
      * rewrite E0, Et. repeat bits_step. index_to (n - 0).
        destruct (Z.testbit i (n - 0)); reflexivity.
      * repeat bits_step. reflexivity.
  - repeat bits_step. reflexivity.
Qed.

Lemma rrot64_bit (i b n : Z) :
  0 <= n ->
  Z.testbit (fio_rrot64 i b) n = (n <? 64) && Z.testbit i ((n + b) mod 64).
Proof.
  intros Hn. unfold fio_rrot64.
  change 63 with (Z.ones 6). rewrite !land_mask by lia. change (2 ^ 6) with 64.
  destruct (rot_amounts b 6 ltac:(lia)) as (Hs & Hst). change (2 ^ 6) with 64 in *.
  set (s := b mod 64) in *. set (t := (- b) mod 64) in *.
  assert (Eb : b = 64 * (b / 64) + s) by (subst s; apply Z.div_mod; lia).
  destruct (n <? 64) eqn:E64; [apply Z.ltb_lt in E64 | apply Z.ltb_ge in E64].
  - assert (C : n + s < 64 \/ 64 <= n + s) by lia. destruct C as [C|C].
    + replace ((n + b) mod 64) with (n + s).
      2:{ apply Z.mod_unique with (q := b / 64); lia. }
      destruct Hst as [(E0 & Et)|(E0 & Et)].
      * rewrite E0, Et. repeat bits_step. index_to (n + 0).
        destruct (Z.testbit i (n + 0)); reflexivity.
      * repeat bits_step. rewrite (Z.testbit_neg_r _ (n - t)) by lia.
        repeat bits_step. reflexivity.
    + replace ((n + b) mod 64) with (n - t).
      2:{ apply Z.mod_unique with (q := b / 64 + 1); lia. }
      repeat bits_step. reflexivity.
  - repeat bits_step. reflexivity.
Qed.

Lemma lrot32_bit (i b n : Z) :
  0 <= n ->
  Z.testbit (fio_lrot32 i b) n = (n <? 32) && Z.testbit i ((n - b) mod 32).
Proof.
  intros Hn. unfold fio_lrot32.
  change 31 with (Z.ones 5). rewrite !land_mask by lia. change (2 ^ 5) with 32.
  destruct (rot_amounts b 5 ltac:(lia)) as (Hs & Hst). change (2 ^ 5) with 32 in *.
  set (s := b mod 32) in *. set (t := (- b) mod 32) in *.
  assert (Eb : b = 32 * (b / 32) + s) by (subst s; apply Z.div_mod; lia).
  destruct (n <? 32) eqn:E32; [apply Z.ltb_lt in E32 | apply Z.ltb_ge in E32].
  - assert (C : n < s \/ s <= n) by lia. destruct C as [C|C].
    + replace ((n - b) mod 32) with (n + t).
      2:{ apply Z.mod_unique with (q := - (b / 32) - 1); lia. }
      repeat bits_step. rewrite (Z.testbit_neg_r _ (n - s)) by lia.
      repeat bits_step. reflexivity.
    + replace ((n - b) mod 32) with (n - s).
      2:{ apply Z.mod_unique with (q := - (b / 32)); lia. }
      destruct Hst as [(E0 & Et)|(E0 & Et)].
      * rewrite E0, Et. repeat bits_step. index_to (n - 0).
        destruct (Z.testbit i (n - 0)); reflexivity.
      * repeat bits_step. reflexivity.
  - repeat bits_step. reflexivity.
Qed.

Lemma rrot32_bit (i b n : Z) :
  0 <= n ->
  Z.testbit (fio_rrot32 i b) n = (n <? 32) && Z.testbit i ((n + b) mod 32).
Proof.
  intros Hn. unfold fio_rrot32.
  change 31 with (Z.ones 5). rewrite !land_mask by lia. change (2 ^ 5) with 32.
  destruct (rot_amounts b 5 ltac:(lia)) as (Hs & Hst). change (2 ^ 5) with 32 in *.
  set (s := b mod 32) in *. set (t := (- b) mod 32) in *.
  assert (Eb : b = 32 * (b / 32) + s) by (subst s; apply Z.div_mod; lia).
  destruct (n <? 32) eqn:E32; [apply Z.ltb_lt in E32 | apply Z.ltb_ge in E32].
  - assert (C : n + s < 32 \/ 32 <= n + s) by lia. destruct C as [C|C].
    + replace ((n + b) mod 32) with (n + s).
      2:{ apply Z.mod_unique with (q := b / 32); lia. }
      destruct Hst as [(E0 & Et)|(E0 & Et)].
      * rewrite E0, Et. repeat bits_step. index_to (n + 0).
        destruct (Z.testbit i (n + 0)); reflexivity.
      * repeat bits_step. rewrite (Z.testbit_neg_r _ (n - t)) by lia.
        repeat bits_step. reflexivity.
    + replace ((n + b) mod 32) with (n - t).
      2:{ apply Z.mod_unique with (q := b / 32 + 1); lia. }
      repeat bits_step. reflexivity.
  - repeat bits_step. reflexivity.
Qed.

(** X3.  Rotations move bits around the word and lose none: bit [n] of
    [fio_lrot64 i bits] is bit [(n - bits) mod 64] of [i], for every shift
    amount (negative or beyond the width included), and [fio_rrot64] undoes
    [fio_lrot64]; likewise for the 32-bit pair. *)
Theorem rotations_spec (i bits : Z) :
  (forall n, 0 <= n < 64 ->
     Z.testbit (fio_lrot64 i bits) n = Z.testbit i ((n - bits) mod 64)) /\
  fio_rrot64 (fio_lrot64 i bits) bits = u64 i /\
  fio_lrot64 (fio_rrot64 i bits) bits = u64 i /\
  (forall n, 0 <= n < 32 ->
     Z.testbit (fio_lrot32 i bits) n = Z.testbit i ((n - bits) mod 32)) /\
  fio_rrot32 (fio_lrot32 i bits) bits = u32 i /\
  fio_lrot32 (fio_rrot32 i bits) bits = u32 i.
Proof.
  repeat split.
  - intros n Hn. rewrite lrot64_bit by lia. decide_cmp. reflexivity.
  - apply Z.bits_inj'. intros n Hn. rewrite rrot64_bit by lia.
    rewrite u64_pow, Z.testbit_mod_pow2 by lia.
    destruct (n <? 64) eqn:E; [apply Z.ltb_lt in E|reflexivity]. cbn [andb].
    pose proof (Z.mod_pos_bound (n + bits) 64 ltac:(lia)).
    rewrite lrot64_bit by lia. decide_cmp. cbn [andb].
    rewrite Zminus_mod_idemp_l. replace (n + bits - bits) with n by lia.
    rewrite Z.mod_small by lia. reflexivity.
  - apply Z.bits_inj'. intros n Hn. rewrite lrot64_bit by lia.
    rewrite u64_pow, Z.testbit_mod_pow2 by lia.
    destruct (n <? 64) eqn:E; [apply Z.ltb_lt in E|reflexivity]. cbn [andb].
    pose proof (Z.mod_pos_bound (n - bits) 64 ltac:(lia)).
    rewrite rrot64_bit by lia. decide_cmp. cbn [andb].
    rewrite Zplus_mod_idemp_l. replace (n - bits + bits) with n by lia.
    rewrite Z.mod_small by lia. reflexivity.
  - intros n Hn. rewrite lrot32_bit by lia. decide_cmp. reflexivity.
  - apply Z.bits_inj'. intros n Hn. rewrite rrot32_bit by lia.
    rewrite u32_pow, Z.testbit_mod_pow2 by lia.
    destruct (n <? 32) eqn:E; [apply Z.ltb_lt in E|reflexivity]. cbn [andb].
    pose proof (Z.mod_pos_bound (n + bits) 32 ltac:(lia)).
    rewrite lrot32_bit by lia. decide_cmp. cbn [andb].
    rewrite Zminus_mod_idemp_l. replace (n + bits - bits) with n by lia.
    rewrite Z.mod_small by lia. reflexivity.
  - apply Z.bits_inj'. intros n Hn. rewrite lrot32_bit by lia.
    rewrite u32_pow, Z.testbit_mod_pow2 by lia.
    destruct (n <? 32) eqn:E; [apply Z.ltb_lt in E|reflexivity]. cbn [andb].
    pose proof (Z.mod_pos_bound (n - bits) 32 ltac:(lia)).
    rewrite rrot32_bit by lia. decide_cmp. cbn [andb].
    rewrite Zplus_mod_idemp_l. replace (n - bits + bits) with n by lia.
    rewrite Z.mod_small by lia. reflexivity.
Qed.

(** *** Bitmaps *)

Lemma bit_of (x k : Z) : 0 <= k -> Z.land (Z.shiftr x k) 1 = Z.b2z (Z.testbit x k).
Proof.
  intros Hk. change 1 with (Z.ones 1). rewrite Z.land_ones by lia.
  rewrite Z.shiftr_div_pow2 by lia. change (2 ^ 1) with 2.
  symmetry. apply Z.testbit_spec'. exact Hk.
Qed.

Lemma bit_index (bit : Z) :
  0 <= bit ->
  0 <= Z.land bit 7 < 8 /\ 0 <= Z.shiftr bit 3 /\
  bit = 8 * Z.shiftr bit 3 + Z.land bit 7.
Proof.
  intros H. change 7 with (Z.ones 3). rewrite Z.land_ones by lia.
  rewrite Z.shiftr_div_pow2 by lia. change (2 ^ 3) with 8.
  pose proof (Z.mod_pos_bound bit 8 ltac:(lia)).
  pose proof (Z.div_mod bit 8 ltac:(lia)).
  pose proof (Z.div_pos bit 8 H ltac:(lia)). lia.
Qed.

Lemma bitmap_get_set (junk : Z) (map : list Z) (bit bit' : Z) :
  0 <= bit -> Z.shiftr bit 3 < zlen map -> 0 <= bit' ->
  fio_bitmap_get junk (fio_bitmap_set junk map bit) bit' =
  if bit' =? bit then 1 else fio_bitmap_get junk map bit'.
Proof.
  intros Hb Hin Hb'. unfold fio_bitmap_get, fio_bitmap_set.
  destruct (bit_index bit Hb) as (Hk & Hi & Eb).
  destruct (bit_index bit' Hb') as (Hk' & Hi' & Eb').
  set (k := Z.land bit 7) in *. set (i := Z.shiftr bit 3) in *.
  set (k' := Z.land bit' 7) in *. set (i' := Z.shiftr bit' 3) in *.
  rewrite !bit_of by lia. rewrite zget_zset_cases.
  replace ((0 <=? i) && (i <? zlen map)) with true
    by (symmetry; apply andb_true_iff; split; [apply Z.leb_le|apply Z.ltb_lt]; lia).
  rewrite Z.shiftl_1_l.
  destruct (i' =? i) eqn:Ei; [apply Z.eqb_eq in Ei|apply Z.eqb_neq in Ei].
  - rewrite Ei. cbn [andb]. repeat bits_step. rewrite Z.pow2_bits_eqb by lia.
    destruct (bit' =? bit) eqn:E; [apply Z.eqb_eq in E|apply Z.eqb_neq in E].
    + decide_cmp. rewrite Bool.orb_true_r. reflexivity.
    + decide_cmp. rewrite Bool.orb_false_r. reflexivity.
  - cbn [andb]. decide_cmp. reflexivity.
Qed.

Lemma bitmap_get_unset (junk : Z) (map : list Z) (bit bit' : Z) :
  0 <= bit -> Z.shiftr bit 3 < zlen map -> 0 <= bit' ->
  fio_bitmap_get junk (fio_bitmap_unset junk map bit) bit' =
  if bit' =? bit then 0 else fio_bitmap_get junk map bit'.
Proof.
  intros Hb Hin Hb'. unfold fio_bitmap_get, fio_bitmap_unset.
  destruct (bit_index bit Hb) as (Hk & Hi & Eb).
  destruct (bit_index bit' Hb') as (Hk' & Hi' & Eb').
  set (k := Z.land bit 7) in *. set (i := Z.shiftr bit 3) in *.
  set (k' := Z.land bit' 7) in *. set (i' := Z.shiftr bit' 3) in *.
  rewrite !bit_of by lia. rewrite zget_zset_cases.
  replace ((0 <=? i) && (i <? zlen map)) with true
    by (symmetry; apply andb_true_iff; split; [apply Z.leb_le|apply Z.ltb_lt]; lia).
  rewrite Z.shiftl_1_l.
  destruct (i' =? i) eqn:Ei; [apply Z.eqb_eq in Ei|apply Z.eqb_neq in Ei].
  - rewrite Ei. cbn [andb]. repeat bits_step. rewrite Z.lnot_spec by lia.
    rewrite Z.pow2_bits_eqb by lia.
    destruct (bit' =? bit) eqn:E; [apply Z.eqb_eq in E|apply Z.eqb_neq in E].
    + decide_cmp. cbn [negb]. rewrite Bool.andb_false_r. reflexivity.
    + decide_cmp. cbn [negb]. rewrite Bool.andb_true_r. reflexivity.
  - cbn [andb]. decide_cmp. reflexivity.
Qed.

(** X4.  Bitmaps: after [fio_bitmap_set] the bit reads 1, after
    [fio_bitmap_unset] it reads 0, and either way every other bit of the map
    reads as before (the byte of the bit must lie inside the map). *)
Theorem bitmap_set_get (junk : Z) (map : list Z) (bit bit' : Z) :
  0 <= bit -> Z.shiftr bit 3 < zlen map -> 0 <= bit' ->
  fio_bitmap_get junk (fio_bitmap_set junk map bit) bit' =
    (if bit' =? bit then 1 else fio_bitmap_get junk map bit') /\
  fio_bitmap_get junk (fio_bitmap_unset junk map bit) bit' =
    (if bit' =? bit then 0 else fio_bitmap_get junk map bit').
Proof.
  intros. split; [apply bitmap_get_set|apply bitmap_get_unset]; assumption.
Qed.

Lemma bitmap_set_get_witness :
  fio_bitmap_get 0 (fio_bitmap_set 0 [0; 255; 0] 13) 13 = 1 /\
  fio_bitmap_get 0 (fio_bitmap_unset 0 [0; 255; 0] 13) 13 = 0.
Proof.
  apply (bitmap_set_get 0 [0; 255; 0] 13 13); vm_compute; [discriminate|reflexivity|discriminate].
Defined.

(** *** Counting bits *)

Lemma land_odd_pred (a : Z) : Z.land (2 * a + 1) (2 * a) = 2 * a.
Proof.
  apply Z.bits_inj'. intros n Hn. rewrite Z.land_spec.
  destruct (Z.eq_dec n 0) as [E|E].
  - subst n. rewrite Z.testbit_even_0. apply Bool.andb_false_r.
  - replace n with (Z.succ (n - 1)) by lia.
    rewrite Z.testbit_odd_succ, Z.testbit_even_succ by lia.
    apply Bool.andb_diag.
Qed.

Lemma land_even_pred (a : Z) :
  Z.land (2 * a) (2 * (a - 1) + 1) = 2 * Z.land a (a - 1).
Proof.
  apply Z.bits_inj'. intros n Hn. rewrite Z.land_spec.
  destruct (Z.eq_dec n 0) as [E|E].
  - subst n. rewrite !Z.testbit_even_0. reflexivity.
  - replace n with (Z.succ (n - 1)) by lia.
    rewrite Z.testbit_odd_succ, !Z.testbit_even_succ by lia.
    rewrite Z.land_spec. reflexivity.
Qed.

Lemma ones_count_double (x : Z) : 0 <= x -> ones_count (2 * x) = ones_count x.
Proof. destruct x; intros; reflexivity. Qed.

Lemma pos_ones_pos (p : positive) : 1 <= pos_ones p.
Proof. induction p; cbn [pos_ones]; lia. Qed.

(** [n & (n - 1)] clears exactly one bit *)
Lemma clear_lowest (p : positive) :
  0 <= Z.land (Zpos p) (Zpos p - 1) <= Zpos p /\
  ones_count (Z.land (Zpos p) (Zpos p - 1)) = pos_ones p - 1.
Proof.
  induction p as [q IH|q IH|].
  - replace (Zpos q~1) with (2 * Zpos q + 1) by lia.
    replace (2 * Zpos q + 1 - 1) with (2 * Zpos q) by lia.
    rewrite land_odd_pred. split; [lia|].
    cbn [ones_count Z.mul Pos.mul pos_ones]. lia.
  - replace (Zpos q~0) with (2 * Zpos q) by lia.
    replace (2 * Zpos q - 1) with (2 * (Zpos q - 1) + 1) by lia.
    rewrite land_even_pred. destruct IH as (IH1 & IH2). split; [lia|].
    rewrite ones_count_double by lia. rewrite IH2. reflexivity.
  - split; [vm_compute; split; discriminate|reflexivity].
Qed.

Lemma popcount_loop_counts (fuel : nat) :
  forall n c, 0 <= n < 2 ^ 64 -> ones_count n <= Z.of_nat fuel ->
    popcount_loop fuel n c = c + ones_count n.
Proof.
  induction fuel as [|f IH]; intros n c Hn Hc.
  - destruct n as [|p|p]; cbn [ones_count popcount_loop] in *; try lia.
    pose proof (pos_ones_pos p). lia.
  - cbn [popcount_loop]. destruct n as [|p|p]; [cbn; lia| |lia].
    cbn [Z.eqb]. rewrite u64_id by lia.
    destruct (clear_lowest p) as ((L1 & L2) & L3).
    rewrite IH; [|lia|cbn [ones_count] in Hc; lia].
    rewrite L3. cbn [ones_count]. lia.
Qed.

Lemma pos_ones_size (k : nat) :
  forall p, Zpos p < 2 ^ Z.of_nat k -> pos_ones p <= Z.of_nat k.
Proof.
  induction k as [|k IH]; intros p Hp.
  - change (2 ^ Z.of_nat 0) with 1 in Hp. lia.
  - replace (2 ^ Z.of_nat (S k)) with (2 * 2 ^ Z.of_nat k) in Hp
      by (rewrite Nat2Z.inj_succ, Z.pow_succ_r; lia).
    destruct p as [q|q|]; cbn [pos_ones].
    + specialize (IH q). lia.
    + specialize (IH q). lia.
    + lia.
Qed.

(** X5.  [fio_popcount] (the portable loop) returns the number of ones in
    the binary notation of its 64-bit argument; the loop ends within 64
    rounds. *)
Theorem popcount_counts_ones (n : Z) : fio_popcount n = ones_count (u64 n).
Proof.
  unfold fio_popcount. pose proof (u64_range n) as Hn.
  rewrite popcount_loop_counts; [lia|exact Hn|].
  destruct (u64 n) as [|p|p]; cbn [ones_count]; [lia| |lia].
  apply (pos_ones_size 64). exact (proj2 Hn).
Qed.

(** *** Byte swapping *)

(** [fio_bswap16(i)], the portable macro *)
Definition fio_bswap16 (i : Z) : Z :=
  Z.lor (Z.shiftl (Z.land i 255) 8) (Z.shiftr (Z.land i 65280) 8).

(** [fio_bswap32(i)] *)
Definition fio_bswap32 (i : Z) : Z :=
  Z.lor (Z.lor (Z.lor
    (Z.shiftl (Z.land i 255) 24)
    (Z.shiftl (Z.land i 65280) 8))
    (Z.shiftr (Z.land i 16711680) 8))
    (Z.shiftr (Z.land i 4278190080) 24).

(** [fio_bswap64(i)] *)
Definition fio_bswap64 (i : Z) : Z :=
  Z.lor (Z.lor (Z.lor (Z.lor (Z.lor (Z.lor (Z.lor
    (Z.shiftl (Z.land i 255) 56)
    (Z.shiftl (Z.land i 65280) 40))
    (Z.shiftl (Z.land i 16711680) 24))
    (Z.shiftl (Z.land i 4278190080) 8))
    (Z.shiftr (Z.land i 1095216660480) 8))
    (Z.shiftr (Z.land i 280375465082880) 24))
    (Z.shiftr (Z.land i 71776119061217280) 40))
    (Z.shiftr (Z.land i 18374686479671623680) 56).

(** the byte of [x] at byte index [j] *)
Definition byte_of (x j : Z) : Z := Z.land (Z.shiftr x (8 * j)) 255.

Lemma testbit_byte_mask (k n : Z) :
  0 <= k -> Z.testbit (Z.shiftl 255 k) n = (k <=? n) && (n <? k + 8).
Proof.
  intros Hk. destruct (Z.ltb_spec n 0) as [Hn|Hn].
  - rewrite Z.testbit_neg_r by lia.
    replace (k <=? n) with false by (symmetry; apply Z.leb_gt; lia). reflexivity.
  - rewrite Z.shiftl_spec by lia. rewrite testbit_255.
    destruct (Z.leb_spec k n); destruct (Z.ltb_spec n (k + 8));
      destruct (Z.leb_spec 0 (n - k)); destruct (Z.ltb_spec (n - k) 8);
      try reflexivity; lia.
Qed.

Ltac byte_masks :=
  change 65280 with (Z.shiftl 255 8);
  change 16711680 with (Z.shiftl 255 16);
  change 4278190080 with (Z.shiftl 255 24);
  change 1095216660480 with (Z.shiftl 255 32);
  change 280375465082880 with (Z.shiftl 255 40);
  change 71776119061217280 with (Z.shiftl 255 48);
  change 18374686479671623680 with (Z.shiftl 255 56).

Ltac swap_bits :=
  repeat first
    [ rewrite Z.lor_spec | rewrite Z.land_spec
    | rewrite testbit_byte_mask by lia
    | rewrite testbit_255
    | rewrite Z.testbit_mod_pow2 by lia
    | rewrite Z.shiftl_spec by lia
    | rewrite Z.shiftr_spec by lia ].

Ltac swap_step :=
  first [ progress swap_bits | progress decide_cmp
        | progress (cbn [andb orb negb])
        | progress (rewrite ?Bool.andb_false_r, ?Bool.orb_false_r,
                            ?Bool.andb_true_r, ?Bool.orb_true_r,
                            ?Bool.orb_false_l, ?Bool.andb_false_l) ].

Lemma bswap16_bit (x n : Z) :
  0 <= n ->
  Z.testbit (fio_bswap16 x) n
  = if n <? 8 then Z.testbit x (n + 8) else if n <? 16 then Z.testbit x (n - 8) else false.
Proof.
  intros Hn. unfold fio_bswap16. byte_masks.
  assert (C : n < 8 \/ 8 <= n < 16 \/ 16 <= n) by lia.
  destruct C as [C|[C|C]]; repeat swap_step; reflexivity.
Qed.

Lemma bswap32_bit (x n : Z) :
  0 <= n ->
  Z.testbit (fio_bswap32 x) n
  = if n <? 8 then Z.testbit x (n + 24)
    else if n <? 16 then Z.testbit x (n + 8)
    else if n <? 24 then Z.testbit x (n - 8)
    else if n <? 32 then Z.testbit x (n - 24)
    else false.
Proof.
  intros Hn. unfold fio_bswap32. byte_masks.
  assert (C : n < 8 \/ 8 <= n < 16 \/ 16 <= n < 24 \/ 24 <= n < 32 \/ 32 <= n) by lia.
  destruct C as [C|[C|[C|[C|C]]]]; repeat swap_step; reflexivity.
Qed.

Lemma bswap64_bit (x n : Z) :
  0 <= n ->
  Z.testbit (fio_bswap64 x) n
  = if n <? 8 then Z.testbit x (n + 56)
    else if n <? 16 then Z.testbit x (n + 40)
    else if n <? 24 then Z.testbit x (n + 24)
    else if n <? 32 then Z.testbit x (n + 8)
    else if n <? 40 then Z.testbit x (n - 8)
    else if n <? 48 then Z.testbit x (n - 24)
    else if n <? 56 then Z.testbit x (n - 40)
    else if n <? 64 then Z.testbit x (n - 56)
    else false.
Proof.
  intros Hn. unfold fio_bswap64. byte_masks.
  assert (C : n < 8 \/ 8 <= n < 16 \/ 16 <= n < 24 \/ 24 <= n < 32 \/
              32 <= n < 40 \/ 40 <= n < 48 \/ 48 <= n < 56 \/ 56 <= n < 64 \/ 64 <= n)
    by lia.
  destruct C as [C|[C|[C|[C|[C|[C|[C|[C|C]]]]]]]]; repeat swap_step; reflexivity.
Qed.

Lemma byte_of_bit (x j n : Z) :
  0 <= j -> 0 <= n ->
  Z.testbit (byte_of x j) n = (n <? 8) && Z.testbit x (n + 8 * j).
Proof.
  intros Hj Hn. unfold byte_of. rewrite Z.land_spec, testbit_255, Z.shiftr_spec by lia.
  replace (0 <=? n) with true by (symmetry; apply Z.leb_le; lia).
  cbn [andb]. apply Bool.andb_comm.
Qed.

(** X27.  Byte swapping.  [fio_bswap16], [fio_bswap32] and [fio_bswap64]
    reverse the order of the bytes of the low 16, 32 and 64 bits of their
    argument and drop what is above; swapping twice gives the low bits
    back, so the conversions between local and network byte order, which
    are these swaps on a little-endian machine, undo one another. *)
Theorem bswap_reverses_bytes (x j : Z) :
  (0 <= j < 2 -> byte_of (fio_bswap16 x) j = byte_of x (1 - j)) /\
  (0 <= j < 4 -> byte_of (fio_bswap32 x) j = byte_of x (3 - j)) /\
  (0 <= j < 8 -> byte_of (fio_bswap64 x) j = byte_of x (7 - j)) /\
  fio_bswap16 (fio_bswap16 x) = u16 x /\
  fio_bswap32 (fio_bswap32 x) = u32 x /\
  fio_bswap64 (fio_bswap64 x) = u64 x.
Proof.
  repeat split.
  - intros Hj. apply Z.bits_inj'. intros n Hn.
    rewrite !byte_of_bit by lia. destruct (Z.ltb_spec n 8) as [H8|H8]; [|reflexivity].
    cbn [andb]. rewrite bswap16_bit by lia.
    assert (C : j = 0 \/ j = 1) by lia.
    destruct C as [-> | ->]; decide_cmp; f_equal; lia.
  - intros Hj. apply Z.bits_inj'. intros n Hn.
    rewrite !byte_of_bit by lia. destruct (Z.ltb_spec n 8) as [H8|H8]; [|reflexivity].
    cbn [andb]. rewrite bswap32_bit by lia.
    assert (C : j = 0 \/ j = 1 \/ j = 2 \/ j = 3) by lia.
    destruct C as [-> | [-> | [-> | ->]]]; decide_cmp; f_equal; lia.
  - intros Hj. apply Z.bits_inj'. intros n Hn.
    rewrite !byte_of_bit by lia. destruct (Z.ltb_spec n 8) as [H8|H8]; [|reflexivity].
    cbn [andb]. rewrite bswap64_bit by lia.
    assert (C : j = 0 \/ j = 1 \/ j = 2 \/ j = 3 \/ j = 4 \/ j = 5 \/ j = 6 \/ j = 7) by lia.
    destruct C as [-> | [-> | [-> | [-> | [-> | [-> | [-> | ->]]]]]]]; decide_cmp; f_equal; lia.
  - apply Z.bits_inj'. intros n Hn. rewrite bswap16_bit by lia.
    rewrite u16_pow, Z.testbit_mod_pow2 by lia.
    assert (C : n < 8 \/ 8 <= n < 16 \/ 16 <= n) by lia.
    destruct C as [C|[C|C]]; decide_cmp; cbn [andb]; try reflexivity;
      rewrite bswap16_bit by lia; decide_cmp; f_equal; lia.
  - apply Z.bits_inj'. intros n Hn. rewrite bswap32_bit by lia.
    rewrite u32_pow, Z.testbit_mod_pow2 by lia.
    assert (C : n < 8 \/ 8 <= n < 16 \/ 16 <= n < 24 \/ 24 <= n < 32 \/ 32 <= n) by lia.
    destruct C as [C|[C|[C|[C|C]]]]; decide_cmp; cbn [andb]; try reflexivity;
      rewrite bswap32_bit by lia; decide_cmp; f_equal; lia.
  - apply Z.bits_inj'. intros n Hn. rewrite bswap64_bit by lia.
    rewrite u64_pow, Z.testbit_mod_pow2 by lia.
    assert (C : n < 8 \/ 8 <= n < 16 \/ 16 <= n < 24 \/ 24 <= n < 32 \/
                32 <= n < 40 \/ 40 <= n < 48 \/ 48 <= n < 56 \/ 56 <= n < 64 \/ 64 <= n)
      by lia.
    destruct C as [C|[C|[C|[C|[C|[C|[C|[C|C]]]]]]]]; decide_cmp; cbn [andb];
      try reflexivity; rewrite bswap64_bit by lia; decide_cmp; f_equal; lia.
Qed.


Lemma bswap_reverses_bytes_witness :
  byte_of (fio_bswap32 305419896) 0 = byte_of 305419896 (3 - 0) /\
  fio_bswap32 (fio_bswap32 305419896) = u32 305419896.
Proof.
  destruct (bswap_reverses_bytes 305419896 0) as (_ & H & _ & _ & H' & _).
  split; [apply H; lia|exact H'].
Defined.

End Bits.

(* ------------------------------------------------------------------------- *)
(** ** Dynamic arrays ([FIO_ARRAY_NAME]) *)
(* ------------------------------------------------------------------------- *)

Module Ary.

Section Template.

(** The template parameters of one inclusion of the header. *)
Variable T : Type.                 (* FIO_ARRAY_TYPE *)
Variable INVALID : T.              (* FIO_ARRAY_TYPE_INVALID *)
Variable zero : T.                 (* the value of calloc'ed / memset-0 cells *)
Variable junk : T.                 (* cells no store has initialised *)
Variable sizeof_T : Z.             (* sizeof(FIO_ARRAY_TYPE) *)
Variable INVALID_SIMPLE : bool.    (* FIO_ARRAY_TYPE_INVALID_SIMPLE *)
Variable EXPONENTIAL : bool.       (* FIO_ARRAY_EXPONENTIAL *)
Variable COPY : T -> T.            (* FIO_ARRAY_TYPE_COPY(dest, src): dest := COPY src *)
Variable DESTROY : T -> T.         (* FIO_ARRAY_TYPE_DESTROY(obj), in place *)
Variable alloc_fails : Z -> bool.  (* does FIO_MEM_REALLOC_/CALLOC_ of n cells return NULL *)

Definition FIO_ARRAY_PADDING : Z := 4.

(** [FIO_ARRAY_SIZE2WORDS(size)], on a [uint32_t] *)
Definition FIO_ARRAY_SIZE2WORDS (size : Z) : Z :=
  if Z.testbit sizeof_T 0 then u32 (Z.land size (u32 (Z.lnot 15)) + 16)
  else if Z.testbit sizeof_T 1 then u32 (Z.land size (u32 (Z.lnot 7)) + 8)
  else if Z.testbit sizeof_T 2 then u32 (Z.land size (u32 (Z.lnot 3)) + 4)
  else if Z.testbit sizeof_T 3 then u32 (Z.land size (u32 (Z.lnot 1)) + 2)
  else size.

(** [typedef struct { T *ary; uint32_t capa, start, end; }]; [ary] holds the
    [capa] cells of the allocation ([[]] for NULL). *)
Record ary_s : Type := mk_ary {
  ary : list T;
  capa : Z;
  start : Z;
  end_ : Z
}.

Definition FIO_ARRAY_INIT : ary_s := mk_ary [] 0 0 0.

Definition count (a : ary_s) : Z := u32 (end_ a - start a).

(** the live region [ary[start .. end)] *)
Definition live (a : ary_s) : list T := zsub (ary a) (start a) (end_ a - start a).

Definition FIO_ARRAY_ADD2CAPA (a : ary_s) : Z :=
  if EXPONENTIAL then capa a + FIO_ARRAY_PADDING else FIO_ARRAY_PADDING.

(** [FIO_MEM_REALLOC_(p, old, new_capa, copy)]: the first [copy] cells survive *)
Definition mem_realloc (p : list T) (new_capa copy : Z) : list T :=
  zsub p 0 copy ++ zrepeat junk (new_capa - zlen (zsub p 0 copy)).

(** the non-simple fill loop [for (i = end; i <= index; ++i) ary[i] = INVALID] *)
Fixpoint fill_up (fuel : nat) (p : list T) (i index : Z) : list T :=
  match fuel with
  | O => p
  | S n => if i <=? index then fill_up n (zset p i (COPY INVALID)) (i + 1) index else p
  end.

(** the non-simple head loop [while (index < start) { --start; ary[start] = INVALID; }] *)
Fixpoint fill_down (fuel : nat) (p : list T) (st index : Z) : list T * Z :=
  match fuel with
  | O => (p, st)
  | S n => if index <? st
           then fill_down n (zset p (u32 (st - 1)) INVALID) (u32 (st - 1)) index
           else (p, st)
  end.

(** the tail of [set]: "copy object" *)
Definition set_store (a : ary_s) (index : Z) (pre_existing : bool) (data : T)
  : ary_s * option Z * T :=
  let old := COPY (zget junk (ary a) index) in
  let p1 := if pre_existing
            then zset (ary a) index (DESTROY (zget junk (ary a) index))
            else ary a in
  let p2 := zset p1 index INVALID in
  let p3 := zset p2 index (COPY data) in
  (mk_ary p3 (capa a) (start a) (end_ a), Some index, old).

(** [set(ary, index, data, old)]: returns the array, the position of the new
    object ([None] for the NULL of a failed allocation) and what [*old]
    receives. *)
Definition set (a : ary_s) (index : Z) (data : T) : ary_s * option Z * T :=
  if 0 <=? index then
    (* zero based (look forward) *)
    let index := i32 (index + start a) in
    let grow := capa a <=? u32 index in
    let new_capa := FIO_ARRAY_SIZE2WORDS (u32 (u32 index + FIO_ARRAY_ADD2CAPA a)) in
    if grow && alloc_fails new_capa then (a, None, junk) else
    let a1 := if grow
              then mk_ary (mem_realloc (ary a) new_capa (end_ a)) new_capa (start a) (end_ a)
              else a in
    let a2 := mk_ary (zset (ary a1) (end_ a1) INVALID) (capa a1) (start a1)
                     (u32 (end_ a1 + 1)) in
    if end_ a2 <=? u32 index then
      let p := if INVALID_SIMPLE
               then zblit (ary a2) (end_ a2) (zrepeat zero (u32 index - end_ a2))
               else fill_up (Z.to_nat (u32 index - end_ a2 + 1)) (ary a2) (end_ a2) (u32 index) in
      set_store (mk_ary p (capa a2) (start a2) (u32 (index + 1))) index false data
    else set_store a2 index true data
  else
    (* -1 based (look backwards) *)
    let index := i32 (index + end_ a) in
    if index <? 0 then
      let new_capa :=
        FIO_ARRAY_SIZE2WORDS (u32 (capa a + FIO_ARRAY_ADD2CAPA a + u32 (0 - index))) in
      let valid_data := u32 (end_ a - start a) in
      let index := i32 (index - end_ a) in
      if alloc_fails new_capa then (a, None, junk) else
      let tmp := zrepeat zero new_capa in
      let tmp := if valid_data =? 0 then tmp
                 else zblit tmp (new_capa - valid_data) (zsub (ary a) (start a) valid_data) in
      let index := i32 (index + new_capa) in
      let a1 := mk_ary tmp new_capa
                  (if INVALID_SIMPLE then u32 index else u32 (new_capa - valid_data))
                  new_capa in
      if u32 index <? start a1 then
        if INVALID_SIMPLE then
          set_store (mk_ary (zblit (ary a1) index (zrepeat zero (start a1 - index)))
                            (capa a1) (u32 index) (end_ a1)) index false data
        else
          let '(p, st) := fill_down (Z.to_nat (start a1 - u32 index)) (ary a1) (start a1) (u32 index) in
          set_store (mk_ary p (capa a1) st (end_ a1)) index false data
      else set_store a1 index true data
    else if u32 index <? start a then
      if INVALID_SIMPLE then
        set_store (mk_ary (zblit (ary a) index (zrepeat zero (start a - index)))
                          (capa a) (u32 index) (end_ a)) index false data
      else
        let '(p, st) := fill_down (Z.to_nat (start a - u32 index)) (ary a) (start a) (u32 index) in
        set_store (mk_ary p (capa a) st (end_ a)) index false data
    else set_store a index true data.

(** [push(ary, data)]: the array and the position of the new object *)
Definition push (a : ary_s) (data : T) : ary_s * option Z :=
  if capa a <=? end_ a then
    (* needs_memory *)
    let '(a', pos, _) := set a (i32 (end_ a)) data in (a', pos)
  else
    let pos := end_ a in
    let p := zset (ary a) pos INVALID in
    (mk_ary (zset p pos (COPY data)) (capa a) (start a) (u32 (end_ a + 1)), Some pos).

(** [pop(ary, &old)]: the array, the return code and what [*old] receives *)
Definition pop (a : ary_s) : ary_s * Z * T :=
  if start a =? end_ a then (a, -1, COPY INVALID)
  else
    let e := u32 (end_ a - 1) in
    let old := COPY (zget junk (ary a) e) in
    (mk_ary (zset (ary a) e (DESTROY (zget junk (ary a) e))) (capa a) (start a) e, 0, old).

(** [unshift(ary, data)] *)
Definition unshift (a : ary_s) (data : T) : ary_s * option Z :=
  if negb (start a =? 0) then
    let st := u32 (start a - 1) in
    let p := zset (ary a) st INVALID in
    (mk_ary (zset p st (COPY data)) (capa a) st (end_ a), Some st)
  else
    let '(a', pos, _) := set a (i32 (-1 - end_ a)) data in (a', pos).

(** [shift(ary, &old)] *)
Definition shift (a : ary_s) : ary_s * Z * T :=
  if start a =? end_ a then (a, -1, COPY INVALID)
  else
    let old := COPY (zget junk (ary a) (start a)) in
    (mk_ary (zset (ary a) (start a) (DESTROY (zget junk (ary a) (start a))))
            (capa a) (u32 (start a + 1)) (end_ a), 0, old).

(** The invariant of the data model: [0 <= start <= end <= capa], the buffer
    has [capa] cells and the sizes fit their [uint32_t] fields. *)
Definition wf (a : ary_s) : Prop :=
  0 <= start a /\ start a <= end_ a /\ end_ a <= capa a /\
  zlen (ary a) = capa a /\ capa a < 4294967296.

(** The in-place path of [push] (room left at the tail): a following [pop]
    hands the pushed object back and the live region is what it was. *)
Lemma push_pop_in_place (a : ary_s) (x : T) :
  wf a -> end_ a < capa a ->
  let a1 := fst (push a x) in
  let '(a2, rc, out) := pop a1 in
  rc = 0 /\ out = COPY (COPY x) /\ live a2 = live a /\
  start a2 = start a /\ end_ a2 = end_ a.
Proof.
  intros (H0 & H1 & H2 & H3 & H4) Hroom. unfold push.
  replace (capa a <=? end_ a) with false by (symmetry; apply Z.leb_gt; lia).
  cbn [fst]. unfold pop. cbn [start end_ ary capa].
  assert (E1 : u32 (end_ a + 1) = end_ a + 1)
    by (unfold u32; apply Z.mod_small; lia).
  rewrite E1.
  replace (start a =? end_ a + 1) with false by (symmetry; apply Z.eqb_neq; lia).
  replace (u32 (end_ a + 1 - 1)) with (end_ a)
    by (unfold u32; rewrite Z.mod_small; lia).
  repeat split.
  - rewrite zget_zset_same; [reflexivity|]. rewrite zlen_zset. lia.
  - unfold live. cbn [start end_ ary].
    rewrite !zsub_zset_after by lia. reflexivity.
Qed.

(** The in-place path of [unshift] (room left at the head): a following
    [shift] hands the object back and the live region is what it was. *)
Lemma unshift_shift_in_place (a : ary_s) (x : T) :
  wf a -> 0 < start a ->
  let a1 := fst (unshift a x) in
  let '(a2, rc, out) := shift a1 in
  rc = 0 /\ out = COPY (COPY x) /\ live a2 = live a /\
  start a2 = start a /\ end_ a2 = end_ a.
Proof.
  intros (H0 & H1 & H2 & H3 & H4) Hroom. unfold unshift.
  replace (start a =? 0) with false by (symmetry; apply Z.eqb_neq; lia).
  cbn [negb fst]. unfold shift. cbn [start end_ ary capa].
  assert (E1 : u32 (start a - 1) = start a - 1)
    by (unfold u32; apply Z.mod_small; lia).
  rewrite E1.
  replace (start a - 1 =? end_ a) with false by (symmetry; apply Z.eqb_neq; lia).
  replace (u32 (start a - 1 + 1)) with (start a)
    by (unfold u32; rewrite Z.mod_small; lia).
  repeat split.
  - rewrite zget_zset_same; [reflexivity|]. rewrite zlen_zset. lia.
  - unfold live. cbn [start end_ ary].
    rewrite !zsub_zset_before by lia. reflexivity.
Qed.

(** *** The remaining operations of the template *)

Variable COMPARE : T -> T -> bool.   (* FIO_ARRAY_TYPE_COMPARE *)

(** [FIO_ARRAY_AB_CT(cond, a, b)] on [uint32_t] operands *)
Definition FIO_ARRAY_AB_CT (cond : bool) (a b : Z) : Z :=
  Z.lxor b (Z.land (u32 (0 - Z.land (Z.b2z cond) 1)) (Z.lxor a b)).

(** [get(ary, index)] *)
Definition get (a : ary_s) (index : Z) : T :=
  let index := i32 (index + FIO_ARRAY_AB_CT (0 <=? index) (start a) (end_ a)) in
  if (index <? 0) || (end_ a <=? u32 index) then INVALID
  else zget junk (ary a) index.

(** the forward loop of [find]: [while ((uint32_t)start_at < end)] *)
Fixpoint find_forward (fuel : nat) (a : ary_s) (data : T) (start_at : Z) : Z :=
  match fuel with
  | O => -1
  | S n =>
    if u32 start_at <? end_ a then
      if COMPARE (zget junk (ary a) start_at) data then start_at
      else find_forward n a data (i32 (start_at + 1))
    else -1
  end.

(** the backward loop of [find]: [while (start_at > (int32_t)start)] *)
Fixpoint find_backward (fuel : nat) (a : ary_s) (data : T) (start_at : Z) : Z :=
  match fuel with
  | O => -1
  | S n =>
    if i32 (start a) <? start_at then
      if COMPARE (zget junk (ary a) start_at) data then start_at
      else find_backward n a data (i32 (start_at - 1))
    else -1
  end.

(** [find(ary, data, start_at)]; either loop makes at most [end] rounds *)
Definition find (a : ary_s) (data : T) (start_at : Z) : Z :=
  if 0 <=? start_at then find_forward (Z.to_nat (end_ a)) a data start_at
  else
    let start_at := i32 (start_at + end_ a) in
    let start_at := if i32 (end_ a) <=? start_at then i32 (end_ a - 1) else start_at in
    find_backward (Z.to_nat (end_ a)) a data start_at.

(** the loop of [remove2]; every round moves [i] up or [end] down *)
Fixpoint remove2_loop (fuel : nat) (p : list T) (i c e : Z) (data : T)
  : list T * Z * Z :=
  match fuel with
  | O => (p, c, e)
  | S n =>
    if i <? e then
      if negb (COMPARE (zget junk p (u32 (i + c))) data)
      then remove2_loop n (zset p i (zget junk p (u32 (i + c)))) (u32 (i + 1)) c e data
      else remove2_loop n (zset p (u32 (i + c)) (DESTROY (zget junk p (u32 (i + c)))))
                        i (u32 (c + 1)) (u32 (e - 1)) data
    else (p, c, e)
  end.

(** [remove2(ary, data)]: the array and the number of objects removed *)
Definition remove2 (a : ary_s) (data : T) : ary_s * Z :=
  let '(p, c, e) :=
    remove2_loop (Z.to_nat (end_ a - start a)) (ary a) (start a) 0 (end_ a) data in
  (mk_ary p (capa a) (start a) e, c).

(** [compact(ary)] *)
Definition compact (a : ary_s) : ary_s :=
  let n := u32 (end_ a - start a) in
  if n =? 0 then mk_ary [] n 0 n
  else if alloc_fails n then a
  else mk_ary (zblit (zrepeat zero n) 0 (zsub (ary a) (start a) n)) n 0 n.

(** [reserve(ary, capa)]: the array and the capacity returned *)
Definition reserve (a : ary_s) (capa_ : Z) : ary_s * Z :=
  let s := start a in
  let e := end_ a in
  if 0 <? capa_ then
    if u32 capa_ <=? capa a then (a, capa a)
    else
      let '(a1, _, _) := set a (i32 (capa_ - 1)) INVALID in
      let a2 := mk_ary (ary a1) (capa a1) (start a1) (u32 (start a1 + u32 (e - s))) in
      (a2, capa a2)
  else
    if u32 (0 - capa_) <=? capa a then (a, capa a)
    else
      let '(a1, _, _) := set a capa_ INVALID in
      let a2 := mk_ary (ary a1) (capa a1) (u32 (end_ a1 - u32 (e - s))) (end_ a1) in
      (a2, capa a2).

(** *** Facts about the word arithmetic *)

Lemma u32_id (x : Z) : 0 <= x < 4294967296 -> u32 x = x.
Proof. intros H. unfold u32. apply Z.mod_small. exact H. Qed.

Lemma i32_id (x : Z) : -2147483648 <= x < 2147483648 -> i32 x = x.
Proof.
  intros H. unfold i32, u32.
  destruct (Z_le_gt_dec 0 x).
  - rewrite Z.mod_small by lia.
    replace (x <? 2147483648) with true by (symmetry; apply Z.ltb_lt; lia). reflexivity.
  - replace (x mod 4294967296) with (x + 4294967296).
    2:{ apply Z.mod_unique with (q := -1); lia. }
    replace (x + 4294967296 <? 2147483648) with false by (symmetry; apply Z.ltb_ge; lia).
    lia.
Qed.

Lemma land_not_low (size k : Z) :
  0 <= k -> 0 <= size < 4294967296 ->
  Z.land size (u32 (Z.lnot (Z.ones k))) = 2 ^ k * (size / 2 ^ k).
Proof.
  intros Hk Hs. unfold u32. change 4294967296 with (2 ^ 32) in *.
  rewrite <- Z.land_ones by lia.
  rewrite Z.land_assoc, (Z.land_comm size), <- Z.land_assoc.
  rewrite (Z.land_ones size) by lia. rewrite Z.mod_small by lia.
  rewrite Z.land_comm, <- Z.ldiff_land, Z.ldiff_ones_r by lia.
  rewrite Z.shiftl_mul_pow2, Z.shiftr_div_pow2 by lia. lia.
Qed.

Lemma size2words_bound (size : Z) :
  0 <= size < 4294967280 ->
  size <= FIO_ARRAY_SIZE2WORDS size <= size + 16.
Proof.
  intros Hs. unfold FIO_ARRAY_SIZE2WORDS.
  change (Z.lnot 15) with (Z.lnot (Z.ones 4)).
  change (Z.lnot 7) with (Z.lnot (Z.ones 3)).
  change (Z.lnot 3) with (Z.lnot (Z.ones 2)).
  change (Z.lnot 1) with (Z.lnot (Z.ones 1)).
  rewrite (land_not_low size 4), (land_not_low size 3),
          (land_not_low size 2), (land_not_low size 1) by lia.
  change (2 ^ 4) with 16. change (2 ^ 3) with 8.
  change (2 ^ 2) with 4. change (2 ^ 1) with 2.
  pose proof (Z.div_mod size 16 ltac:(lia)). pose proof (Z.mod_pos_bound size 16 ltac:(lia)).
  pose proof (Z.div_mod size 8 ltac:(lia)). pose proof (Z.mod_pos_bound size 8 ltac:(lia)).
  pose proof (Z.div_mod size 4 ltac:(lia)). pose proof (Z.mod_pos_bound size 4 ltac:(lia)).
  pose proof (Z.div_mod size 2 ltac:(lia)). pose proof (Z.mod_pos_bound size 2 ltac:(lia)).
  destruct (Z.testbit sizeof_T 0); [rewrite u32_id; lia|].
  destruct (Z.testbit sizeof_T 1); [rewrite u32_id; lia|].
  destruct (Z.testbit sizeof_T 2); [rewrite u32_id; lia|].
  destruct (Z.testbit sizeof_T 3); [rewrite u32_id; lia|].
  lia.
Qed.

(** *** Facts about the buffer *)

Lemma zlen_mem_realloc (p : list T) (new_capa copy : Z) :
  0 <= copy <= zlen p -> copy <= new_capa ->
  zlen (mem_realloc p new_capa copy) = new_capa.
Proof.
  intros Hc Hn. unfold mem_realloc.
  rewrite zlen_app, zlen_zsub by lia. rewrite zlen_zrepeat by lia. lia.
Qed.

Lemma zget_mem_realloc (p : list T) (new_capa copy i : Z) :
  0 <= i < copy -> copy <= zlen p ->
  zget junk (mem_realloc p new_capa copy) i = zget junk p i.
Proof.
  intros Hi Hc. unfold mem_realloc.
  rewrite zget_app, zlen_zsub by lia.
  replace (i <? copy) with true by (symmetry; apply Z.ltb_lt; lia).
  rewrite zget_zsub by lia. reflexivity.
Qed.

Lemma zlen_live (a : ary_s) : wf a -> zlen (live a) = end_ a - start a.
Proof.
  intros (H0 & H1 & H2 & H3 & H4). unfold live. apply zlen_zsub; lia.
Qed.

Lemma zget_live (a : ary_s) (i : Z) :
  wf a -> 0 <= i < end_ a - start a ->
  zget junk (live a) i = zget junk (ary a) (start a + i).
Proof.
  intros (H0 & H1 & H2 & H3 & H4) Hi. unfold live. apply zget_zsub; lia.
Qed.

Lemma count_live (a : ary_s) : wf a -> count a = zlen (live a).
Proof.
  intros H. rewrite zlen_live by exact H.
  destruct H as (H0 & H1 & H2 & H3 & H4). unfold count. apply u32_id. lia.
Qed.

Lemma zget_one (d x : T) (i : Z) : i = 0 -> zget d [x] i = x.
Proof. intros ->. reflexivity. Qed.

(** the live region seen through the cells of the buffer *)
Lemma live_ext (p : list T) (s e : Z) (l : list T) :
  0 <= s <= e -> e <= zlen p -> zlen l = e - s ->
  (forall i, 0 <= i < e - s -> zget junk p (s + i) = zget junk l i) ->
  zsub p s (e - s) = l.
Proof.
  intros Hs He Hl H. apply (zget_ext junk).
  - rewrite zlen_zsub by lia. lia.
  - intros i Hi. rewrite zlen_zsub in Hi by lia.
    rewrite zget_zsub by lia. apply H. lia.
Qed.

Lemma live_snoc (a a' : ary_s) (y : T) :
  wf a -> start a' = start a -> end_ a' = end_ a + 1 -> end_ a < zlen (ary a') ->
  (forall j, start a <= j < end_ a -> zget junk (ary a') j = zget junk (ary a) j) ->
  zget junk (ary a') (end_ a) = y ->
  live a' = live a ++ [y].
Proof.
  intros Hwf Es Ee Hl Hj Hy. pose proof Hwf as (H0 & H1 & H2 & H3 & H4).
  unfold live at 1. rewrite Es, Ee. apply live_ext; try lia.
  - rewrite zlen_app, zlen_live by exact Hwf. change (zlen [y]) with 1. lia.
  - intros i Hi. rewrite zget_app, zlen_live by exact Hwf.
    destruct (i <? end_ a - start a) eqn:Ei; [apply Z.ltb_lt in Ei|apply Z.ltb_ge in Ei].
    + rewrite Hj by lia. rewrite zget_live by (try exact Hwf; lia). reflexivity.
    + replace (start a + i) with (end_ a) by lia. rewrite Hy.
      symmetry. apply zget_one. lia.
Qed.

Lemma live_cons (a a' : ary_s) (y : T) :
  wf a -> start a' + 1 + (end_ a - start a) = end_ a' -> 0 <= start a' ->
  end_ a' <= zlen (ary a') ->
  (forall i, 0 <= i < end_ a - start a ->
     zget junk (ary a') (start a' + 1 + i) = zget junk (ary a) (start a + i)) ->
  zget junk (ary a') (start a') = y ->
  live a' = y :: live a.
Proof.
  intros Hwf Ee Hs Hl Hj Hy. pose proof Hwf as (H0 & H1 & H2 & H3 & H4).
  unfold live at 1. apply live_ext; try lia.
  - rewrite zlen_cons, zlen_live by exact Hwf. lia.
  - intros i Hi. change (y :: live a) with ([y] ++ live a).
    rewrite zget_app. change (zlen [y]) with 1.
    destruct (i <? 1) eqn:Ei; [apply Z.ltb_lt in Ei|apply Z.ltb_ge in Ei].
    + replace (start a' + i) with (start a') by lia. rewrite Hy.
      symmetry. apply zget_one. lia.
    + rewrite zget_live by (try exact Hwf; lia).
      replace (start a' + i) with (start a' + 1 + (i - 1)) by lia.
      apply Hj. lia.
Qed.

Lemma live_same (a a' : ary_s) :
  wf a -> end_ a' - start a' = end_ a - start a -> 0 <= start a' ->
  end_ a' <= zlen (ary a') ->
  (forall i, 0 <= i < end_ a - start a ->
     zget junk (ary a') (start a' + i) = zget junk (ary a) (start a + i)) ->
  live a' = live a.
Proof.
  intros Hwf Ee Hs Hl Hj. pose proof Hwf as (H0 & H1 & H2 & H3 & H4).
  unfold live at 1. apply live_ext; try lia.
  - rewrite zlen_live by exact Hwf. lia.
  - intros i Hi. rewrite zget_live by (try exact Hwf; lia). apply Hj. lia.
Qed.

(** *** [push] appends *)

(** X6.  [push] appends to the live region.  On an array with room at its
    tail, or one that has never been shifted ([start = 0], where the
    [needs_memory] path reallocates), [push] either fails for want of memory,
    returning NULL and leaving the array as it was, or stores a copy of the
    object at position [end]: the live region grows by exactly that object
    and the array stays well formed. *)
Theorem push_appends (a : ary_s) (x : T) :
  wf a -> capa a < 1073741824 ->
  start a = 0 \/ end_ a < capa a ->
  let '(a', pos) := push a x in
  (pos = None /\ a' = a) \/
  (pos = Some (end_ a) /\ live a' = live a ++ [COPY x] /\
   start a' = start a /\ end_ a' = end_ a + 1 /\ wf a').
Proof.
  intros Hwf Hcap Hroom. pose proof Hwf as (H0 & H1 & H2 & H3 & H4).
  unfold push. destruct (capa a <=? end_ a) eqn:Efull.
  - (* needs_memory *)
    apply Z.leb_le in Efull.
    assert (Hs : start a = 0) by lia. assert (He : end_ a = capa a) by lia.
    unfold set. rewrite (i32_id (end_ a)) by lia.
    replace (0 <=? end_ a) with true by (symmetry; apply Z.leb_le; lia).
    replace (end_ a + start a) with (end_ a) by lia.
    rewrite (i32_id (end_ a)) by lia.
    rewrite (u32_id (end_ a)) by lia.
    replace (capa a <=? end_ a) with true by (symmetry; apply Z.leb_le; lia).
    cbn [andb].
    assert (Ha : 4 <= FIO_ARRAY_ADD2CAPA a <= capa a + 4).
    { unfold FIO_ARRAY_ADD2CAPA, FIO_ARRAY_PADDING. destruct EXPONENTIAL; lia. }
    rewrite (u32_id (end_ a + FIO_ARRAY_ADD2CAPA a)) by lia.
    pose proof (size2words_bound (end_ a + FIO_ARRAY_ADD2CAPA a) ltac:(lia)) as Hn.
    set (nc := FIO_ARRAY_SIZE2WORDS (end_ a + FIO_ARRAY_ADD2CAPA a)) in *.
    destruct (alloc_fails nc); [left; split; reflexivity|].
    cbn [ary capa start end_].
    rewrite (u32_id (end_ a + 1)) by lia.
    replace (end_ a + 1 <=? end_ a) with false by (symmetry; apply Z.leb_gt; lia).
    unfold set_store. cbn [ary capa start end_]. right.
    assert (Hl : zlen (mem_realloc (ary a) nc (end_ a)) = nc)
      by (apply zlen_mem_realloc; lia).
    split; [reflexivity|]. split; [|split; [reflexivity|split; [reflexivity|]]].
    + apply live_snoc; cbn [ary capa start end_]; try reflexivity; try exact Hwf.
      * rewrite !zlen_zset, Hl. lia.
      * intros j Hj. rewrite !zget_zset_other by lia.
        apply zget_mem_realloc; lia.
      * apply zget_zset_same. rewrite !zlen_zset, Hl. lia.
    + unfold wf. cbn [ary capa start end_]. rewrite !zlen_zset, Hl. lia.
  - (* room at the tail *)
    apply Z.leb_gt in Efull. right. cbn [ary capa start end_].
    rewrite (u32_id (end_ a + 1)) by lia.
    split; [reflexivity|]. split; [|split; [reflexivity|split; [reflexivity|]]].
    + apply live_snoc; cbn [ary capa start end_]; try reflexivity; try exact Hwf.
      * rewrite !zlen_zset. lia.
      * intros j Hj. rewrite !zget_zset_other by lia. reflexivity.
      * apply zget_zset_same. rewrite !zlen_zset. lia.
    + unfold wf. cbn [ary capa start end_]. rewrite !zlen_zset. lia.
Qed.

(** *** [unshift] prepends *)

(** X7.  [unshift] prepends to the live region, on every well-formed array:
    with room at the head it steps [start] back, without it a new buffer is
    allocated and the objects move to its end.  Either the allocation fails
    (NULL, array unchanged) or the live region is the copy of the object
    followed by the old live region. *)
Theorem unshift_prepends (a : ary_s) (x : T) :
  wf a -> capa a < 536870912 ->
  let '(a', pos) := unshift a x in
  (pos = None /\ a' = a) \/
  (pos = Some (start a') /\ live a' = COPY x :: live a /\ wf a').
Proof.
  intros Hwf Hcap. pose proof Hwf as (H0 & H1 & H2 & H3 & H4).
  unfold unshift. destruct (start a =? 0) eqn:Es; cbn [negb].
  - (* no room at the head: a new buffer *)
    apply Z.eqb_eq in Es.
    unfold set. cbv zeta. rewrite (i32_id (-1 - end_ a)) by lia.
    replace (0 <=? -1 - end_ a) with false by (symmetry; apply Z.leb_gt; lia).
    replace (-1 - end_ a + end_ a) with (-1) by lia.
    change (i32 (-1)) with (-1). change (-1 <? 0) with true. cbv iota.
    change (u32 (0 - -1)) with 1.
    rewrite (i32_id (-1 - end_ a)) by lia.
    assert (Ha : 4 <= FIO_ARRAY_ADD2CAPA a <= capa a + 4).
    { unfold FIO_ARRAY_ADD2CAPA, FIO_ARRAY_PADDING. destruct EXPONENTIAL; lia. }
    rewrite (u32_id (capa a + FIO_ARRAY_ADD2CAPA a + 1)) by lia.
    pose proof (size2words_bound (capa a + FIO_ARRAY_ADD2CAPA a + 1) ltac:(lia)) as Hn.
    set (nc := FIO_ARRAY_SIZE2WORDS (capa a + FIO_ARRAY_ADD2CAPA a + 1)) in *.
    destruct (alloc_fails nc); [left; split; reflexivity|].
    rewrite (u32_id (end_ a - start a)) by lia.
    rewrite (i32_id (-1 - end_ a + nc)) by lia.
    rewrite (u32_id (-1 - end_ a + nc)) by lia.
    cbn [ary capa start end_].
    set (tmp := if end_ a - start a =? 0 then zrepeat zero nc
                else zblit (zrepeat zero nc) (nc - (end_ a - start a))
                           (zsub (ary a) (start a) (end_ a - start a))).
    assert (Ht : zlen tmp = nc).
    { subst tmp. destruct (end_ a - start a =? 0);
        rewrite ?zlen_zblit; apply zlen_zrepeat; lia. }
    assert (Hcells : forall i, 0 <= i < end_ a - start a ->
              zget junk tmp (nc - (end_ a - start a) + i) = zget junk (ary a) (start a + i)).
    { intros i Hi. subst tmp.
      replace (end_ a - start a =? 0) with false by (symmetry; apply Z.eqb_neq; lia).
      rewrite zget_zblit; rewrite ?zlen_zsub, ?zlen_zrepeat; try lia.
      replace (nc - (end_ a - start a) <=? nc - (end_ a - start a) + i) with true
        by (symmetry; apply Z.leb_le; lia).
      replace (nc - (end_ a - start a) + i <? nc - (end_ a - start a) + (end_ a - start a))
        with true by (symmetry; apply Z.ltb_lt; lia).
      cbn [andb]. rewrite zget_zsub by lia. f_equal. lia. }
    clearbody tmp. set (idx := -1 - end_ a + nc) in *.
    assert (Hidx : idx = nc - (end_ a - start a) - 1) by (subst idx; lia).
    destruct INVALID_SIMPLE.
    + rewrite Z.ltb_irrefl. unfold set_store. cbn [ary capa start end_]. right.
      split; [reflexivity|]. split.
      * apply live_cons; cbn [ary capa start end_]; try exact Hwf;
          rewrite ?zlen_zset; try lia.
        -- intros i Hi. rewrite !zget_zset_other by lia.
           rewrite <- Hcells by lia. f_equal. lia.
        -- apply zget_zset_same. rewrite !zlen_zset. lia.
      * unfold wf. cbn [ary capa start end_]. rewrite !zlen_zset. lia.
    + rewrite (u32_id (nc - (end_ a - start a))) by lia.
      replace (idx <? nc - (end_ a - start a)) with true by (symmetry; apply Z.ltb_lt; lia).
      replace (Z.to_nat (nc - (end_ a - start a) - idx)) with 1%nat by lia.
      cbn [fill_down].
      replace (idx <? nc - (end_ a - start a)) with true by (symmetry; apply Z.ltb_lt; lia).
      rewrite (u32_id (nc - (end_ a - start a) - 1)) by lia.
      unfold set_store. cbn [ary capa start end_]. right.
      split; [f_equal; lia|]. split.
      * apply live_cons; cbn [ary capa start end_]; try exact Hwf;
          rewrite ?zlen_zset; try lia.
        -- intros i Hi. rewrite !zget_zset_other by lia.
           rewrite <- Hcells by lia. f_equal. lia.
        -- rewrite <- Hidx. apply zget_zset_same. rewrite !zlen_zset. lia.
      * unfold wf. cbn [ary capa start end_]. rewrite !zlen_zset. lia.
  - (* room at the head *)
    apply Z.eqb_neq in Es. right. cbn [ary capa start end_].
    rewrite (u32_id (start a - 1)) by lia.
    split; [reflexivity|]. split.
    + apply live_cons; cbn [ary capa start end_]; try exact Hwf;
        rewrite ?zlen_zset; try lia.
      * intros i Hi. rewrite !zget_zset_other by lia. f_equal. lia.
      * apply zget_zset_same. rewrite !zlen_zset. lia.
    + unfold wf. cbn [ary capa start end_]. rewrite !zlen_zset. lia.
Qed.

(** *** [pop] and [shift] *)

(** X8.  [pop] and [shift] take the live region apart at its ends.  On an
    empty array both return -1, hand out a copy of the INVALID object and
    leave the array as it is.  Otherwise they return 0 and a copy of the last
    (first) live object, and the live region is the old one without it. *)
Theorem pop_shift_spec (a : ary_s) :
  wf a ->
  (count a = 0 ->
   pop a = (a, -1, COPY INVALID) /\ shift a = (a, -1, COPY INVALID)) /\
  (0 < count a ->
   (let '(a', rc, old) := pop a in
    exists y, live a = live a' ++ [y] /\ rc = 0 /\ old = COPY y /\
              start a' = start a /\ wf a') /\
   (let '(a', rc, old) := shift a in
    exists y, live a = y :: live a' /\ rc = 0 /\ old = COPY y /\
              end_ a' = end_ a /\ wf a')).
Proof.
  intros Hwf. pose proof Hwf as (H0 & H1 & H2 & H3 & H4).
  unfold count. rewrite (u32_id (end_ a - start a)) by lia.
  split; intros Hc.
  - unfold pop, shift.
    replace (start a =? end_ a) with true by (symmetry; apply Z.eqb_eq; lia).
    split; reflexivity.
  - unfold pop, shift.
    replace (start a =? end_ a) with false by (symmetry; apply Z.eqb_neq; lia).
    rewrite (u32_id (end_ a - 1)), (u32_id (start a + 1)) by lia.
    split.
    + exists (zget junk (ary a) (end_ a - 1)).
      assert (Hwf' : wf (mk_ary (zset (ary a) (end_ a - 1)
                                      (DESTROY (zget junk (ary a) (end_ a - 1))))
                                (capa a) (start a) (end_ a - 1))).
      { unfold wf. cbn [ary capa start end_]. rewrite zlen_zset. lia. }
      split; [|split; [reflexivity|split; [reflexivity|split; [reflexivity|exact Hwf']]]].
      apply live_snoc; cbn [ary capa start end_];
        try exact Hwf'; try lia; try reflexivity.
      intros j Hj. rewrite zget_zset_other by lia. reflexivity.
    + exists (zget junk (ary a) (start a)).
      assert (Hwf' : wf (mk_ary (zset (ary a) (start a)
                                      (DESTROY (zget junk (ary a) (start a))))
                                (capa a) (start a + 1) (end_ a))).
      { unfold wf. cbn [ary capa start end_]. rewrite zlen_zset. lia. }
      split; [|split; [reflexivity|split; [reflexivity|split; [reflexivity|exact Hwf']]]].
      apply live_cons; cbn [ary capa start end_];
        try exact Hwf'; try lia; try reflexivity.
      intros i Hi. rewrite zget_zset_other by lia. f_equal; lia.
Qed.

(** *** [get] *)

Lemma ab_ct_selects (cond : bool) (x y : Z) :
  0 <= x < 4294967296 -> 0 <= y < 4294967296 ->
  FIO_ARRAY_AB_CT cond x y = if cond then x else y.
Proof.
  intros Hx Hy. unfold FIO_ARRAY_AB_CT. destruct cond; cbn [Z.b2z].
  - change (u32 (0 - Z.land 1 1)) with (Z.ones 32).
    rewrite Z.land_comm, Z.land_ones by lia.
    assert (E : Z.lxor x y mod 2 ^ 32 = Z.lxor x y).
    { rewrite <- (u32_id x), <- (u32_id y) by lia.
      apply Z.bits_inj'. intros n Hn. Bits.bits_of.
      destruct (n <? 32); reflexivity. }
    rewrite E, (Z.lxor_comm x), <- Z.lxor_assoc, Z.lxor_nilpotent.
    apply Z.lxor_0_l.
  - change (u32 (0 - Z.land 0 1)) with 0. rewrite Z.land_0_l. apply Z.lxor_0_r.
Qed.

(** X9.  What [get] returns, for every [int32_t] index.  A non-negative
    index counts from [start] and yields INVALID from [count] on.  A negative
    index counts back from [end]: down to [-count] it yields the live
    objects, below [-end] it yields INVALID, and in between it yields the
    cell [end + index], which lies below [start] and is not live. *)
Theorem get_spec (a : ary_s) (index : Z) :
  wf a -> capa a < 1073741824 -> -2147483648 <= index < 2147483648 ->
  get a index =
    if 0 <=? index then
      if index <? count a then zget junk (live a) index else INVALID
    else if - count a <=? index then zget junk (live a) (count a + index)
    else if - end_ a <=? index then zget junk (ary a) (end_ a + index)
    else INVALID.
Proof.
  intros Hwf Hcap Hi. pose proof Hwf as (H0 & H1 & H2 & H3 & H4).
  unfold get, count. rewrite (u32_id (end_ a - start a)) by lia.
  rewrite ab_ct_selects by lia.
  destruct (0 <=? index) eqn:E0; [apply Z.leb_le in E0|apply Z.leb_gt in E0].
  - destruct (Z_lt_ge_dec (index + start a) 2147483648) as [Hs|Hs].
    + rewrite (i32_id (index + start a)), (u32_id (index + start a)) by lia.
      replace (index + start a <? 0) with false by (symmetry; apply Z.ltb_ge; lia).
      cbn [orb].
      destruct (index <? end_ a - start a) eqn:E1;
        [apply Z.ltb_lt in E1|apply Z.ltb_ge in E1].
      * replace (end_ a <=? index + start a) with false by (symmetry; apply Z.leb_gt; lia).
        rewrite zget_live by (try exact Hwf; lia). f_equal. lia.
      * replace (end_ a <=? index + start a) with true by (symmetry; apply Z.leb_le; lia).
        reflexivity.
    + assert (E : i32 (index + start a) = index + start a - 4294967296).
      { unfold i32. rewrite (u32_id (index + start a)) by lia.
        replace (index + start a <? 2147483648) with false
          by (symmetry; apply Z.ltb_ge; lia). reflexivity. }
      rewrite E.
      replace (index + start a - 4294967296 <? 0) with true
        by (symmetry; apply Z.ltb_lt; lia).
      cbn [orb].
      replace (index <? end_ a - start a) with false by (symmetry; apply Z.ltb_ge; lia).
      reflexivity.
  - rewrite (i32_id (index + end_ a)) by lia.
    destruct (- end_ a <=? index) eqn:E1; [apply Z.leb_le in E1|apply Z.leb_gt in E1].
    + replace (index + end_ a <? 0) with false by (symmetry; apply Z.ltb_ge; lia).
      rewrite (u32_id (index + end_ a)) by lia.
      replace (end_ a <=? index + end_ a) with false by (symmetry; apply Z.leb_gt; lia).
      cbn [orb].
      destruct (- (end_ a - start a) <=? index) eqn:E2;
        [apply Z.leb_le in E2|apply Z.leb_gt in E2].
      * rewrite zget_live by (try exact Hwf; lia). f_equal. lia.
      * f_equal. lia.
    + replace (index + end_ a <? 0) with true by (symmetry; apply Z.ltb_lt; lia).
      cbn [orb].
      replace (- (end_ a - start a) <=? index) with false by (symmetry; apply Z.leb_gt; lia).
      reflexivity.
Qed.

(** *** [remove2] *)

Lemma zget_app_mid {A} (d : A) (pre : list A) (y : A) (post : list A) :
  zget d (pre ++ y :: post) (zlen pre) = y.
Proof.
  rewrite zget_app. rewrite Z.ltb_irrefl, Z.sub_diag. reflexivity.
Qed.

Lemma wf_split (a : ary_s) :
  wf a ->
  ary a = zsub (ary a) 0 (start a) ++ live a ++ skipn (Z.to_nat (end_ a)) (ary a) /\
  zlen (zsub (ary a) 0 (start a)) = start a.
Proof.
  intros (H0 & H1 & H2 & H3 & H4). split; [|apply zlen_zsub; lia].
  unfold live, zsub. cbn [Z.to_nat skipn].
  rewrite <- (firstn_skipn (Z.to_nat (start a)) (ary a)) at 1. f_equal.
  rewrite <- (firstn_skipn (Z.to_nat (end_ a - start a))
                           (skipn (Z.to_nat (start a)) (ary a))) at 1.
  f_equal. rewrite skipn_skipn. f_equal. lia.
Qed.

Lemma triple_eq {A B C} (x x' : A) (y y' : B) (z z' : C) :
  x = x' -> y = y' -> z = z' -> (x, y, z) = (x', y', z').
Proof. intros -> -> ->. reflexivity. Qed.

Lemma remove2_loop_len (data : T) (fuel : nat) :
  forall p i c e, zlen (fst (fst (remove2_loop fuel p i c e data))) = zlen p.
Proof.
  induction fuel as [|n IH]; intros p i c e; cbn [remove2_loop]; [reflexivity|].
  destruct (i <? e); [|reflexivity].
  destruct (negb (COMPARE (zget junk p (u32 (i + c))) data));
    rewrite IH; apply zlen_zset.
Qed.

(** The loop of [remove2] between two rounds: the buffer is [pre], the
    objects kept so far, a gap of [c] dead cells, the objects not yet seen
    and [post]. *)
Lemma remove2_loop_spec (data : T) (rest : list T) :
  forall (pre kept gap post : list T) (i c e : Z),
    zlen pre + zlen kept + zlen gap + zlen rest + zlen post < 4294967296 ->
    i = zlen pre + zlen kept -> c = zlen gap -> e = i + zlen rest ->
    exists gap',
      remove2_loop (length rest) (pre ++ kept ++ gap ++ rest ++ post) i c e data
      = (pre ++ (kept ++ filter (fun x => negb (COMPARE x data)) rest) ++ gap' ++ post,
         c + (zlen rest - zlen (filter (fun x => negb (COMPARE x data)) rest)),
         i + zlen (filter (fun x => negb (COMPARE x data)) rest)).
Proof.
  induction rest as [|x rest IH]; intros pre kept gap post i c e Hsz Hi Hc He.
  - exists gap. cbn [length remove2_loop filter app].
    change (zlen (@nil T)) with 0 in *.
    rewrite app_nil_r. apply triple_eq; try reflexivity; lia.
  - cbn [length remove2_loop]. rewrite zlen_cons in *.
    pose proof (zlen_nonneg pre). pose proof (zlen_nonneg kept).
    pose proof (zlen_nonneg gap). pose proof (zlen_nonneg rest).
    pose proof (zlen_nonneg post).
    replace (i <? e) with true by (symmetry; apply Z.ltb_lt; lia).
    rewrite (u32_id (i + c)) by lia.
    assert (Ecell : zget junk (pre ++ kept ++ gap ++ (x :: rest) ++ post) (i + c) = x).
    { replace (pre ++ kept ++ gap ++ (x :: rest) ++ post)
        with ((pre ++ kept ++ gap) ++ x :: (rest ++ post))
        by (rewrite <- !app_assoc; reflexivity).
      replace (i + c) with (zlen (pre ++ kept ++ gap))
        by (rewrite !zlen_app; lia).
      apply zget_app_mid. }
    rewrite Ecell. cbn [filter].
    destruct (COMPARE x data) eqn:Ex; cbn [negb].
    + (* the object goes: its cell joins the gap *)
      replace (zset (pre ++ kept ++ gap ++ (x :: rest) ++ post) (i + c) (DESTROY x))
        with (pre ++ kept ++ (gap ++ [DESTROY x]) ++ rest ++ post).
      2:{ replace (pre ++ kept ++ gap ++ (x :: rest) ++ post)
            with ((pre ++ kept ++ gap) ++ x :: (rest ++ post))
            by (rewrite <- !app_assoc; reflexivity).
          replace (i + c) with (zlen (pre ++ kept ++ gap))
            by (rewrite !zlen_app; lia).
          rewrite zset_app_mid. rewrite <- !app_assoc. reflexivity. }
      rewrite (u32_id (c + 1)), (u32_id (e - 1)) by lia.
      destruct (IH pre kept (gap ++ [DESTROY x]) post i (c + 1) (e - 1)) as (gap' & E);
        rewrite ?zlen_app; change (zlen [DESTROY x]) with 1; try lia.
      exists gap'. rewrite E. apply triple_eq; try reflexivity; lia.
    + (* the object stays: it moves down over the gap *)
      rewrite (u32_id (i + 1)) by lia.
      destruct gap as [|g gap].
      * replace (zset (pre ++ kept ++ [] ++ (x :: rest) ++ post) i x)
          with (pre ++ (kept ++ [x]) ++ [] ++ rest ++ post).
        2:{ replace (pre ++ kept ++ [] ++ (x :: rest) ++ post)
              with ((pre ++ kept) ++ x :: (rest ++ post))
              by (rewrite <- !app_assoc; reflexivity).
            replace i with (zlen (pre ++ kept)) by (rewrite !zlen_app; lia).
            rewrite zset_app_mid. rewrite <- !app_assoc. reflexivity. }
        change (zlen (@nil T)) with 0 in *.
        destruct (IH pre (kept ++ [x]) [] post (i + 1) c e) as (gap' & E);
          rewrite ?zlen_app; change (zlen [x]) with 1;
          change (zlen (@nil T)) with 0; try lia.
        exists gap'. rewrite E. rewrite ?zlen_cons. rewrite <- !app_assoc. cbn [app].
        apply triple_eq; try reflexivity; lia.
      * replace (zset (pre ++ kept ++ (g :: gap) ++ (x :: rest) ++ post) i x)
          with (pre ++ (kept ++ [x]) ++ (gap ++ [x]) ++ rest ++ post).
        2:{ replace (pre ++ kept ++ (g :: gap) ++ (x :: rest) ++ post)
              with ((pre ++ kept) ++ g :: (gap ++ x :: rest ++ post))
              by (rewrite <- !app_assoc; reflexivity).
            replace i with (zlen (pre ++ kept)) by (rewrite !zlen_app; lia).
            rewrite zset_app_mid. rewrite <- !app_assoc. reflexivity. }
        rewrite zlen_cons in *.
        destruct (IH pre (kept ++ [x]) (gap ++ [x]) post (i + 1) c e) as (gap' & E);
          rewrite ?zlen_app; change (zlen [x]) with 1; try lia.
        exists gap'. rewrite E. rewrite ?zlen_cons. rewrite <- !app_assoc. cbn [app].
        apply triple_eq; try reflexivity; lia.
Qed.

(** X10.  [remove2] removes every object that compares equal to [data] and
    nothing else: the live region becomes the old one filtered, in order;
    the number returned is the number of objects removed, and [start] stays
    where it was. *)
Theorem remove2_filters (a : ary_s) (data : T) :
  wf a ->
  let '(a', c) := remove2 a data in
  live a' = filter (fun x => negb (COMPARE x data)) (live a) /\
  c = count a - count a' /\ start a' = start a /\ wf a'.
Proof.
  intros Hwf. pose proof Hwf as (H0 & H1 & H2 & H3 & H4).
  destruct (wf_split a Hwf) as (Esplit & Hpre).
  pose proof (zlen_live a Hwf) as Hlive.
  set (pre := zsub (ary a) 0 (start a)) in *.
  set (post := skipn (Z.to_nat (end_ a)) (ary a)) in *.
  assert (Hsz : zlen pre + zlen (@nil T) + zlen (@nil T) + zlen (live a) + zlen post
                < 4294967296).
  { assert (E : zlen (ary a) = zlen pre + (zlen (live a) + zlen post))
      by (rewrite Esplit at 1; rewrite !zlen_app; reflexivity).
    change (zlen (@nil T)) with 0. lia. }
  destruct (remove2_loop_spec data (live a) pre [] [] post (start a) 0 (end_ a) Hsz)
    as (gap' & E); change (zlen (@nil T)) with 0; try lia.
  cbn [app] in E. rewrite <- Esplit in E. unfold remove2.
  replace (Z.to_nat (end_ a - start a)) with (length (live a))
    by (unfold zlen in Hlive; lia).
  set (kept := filter (fun x => negb (COMPARE x data)) (live a)) in *.
  assert (Hk : zlen kept <= zlen (live a)).
  { subst kept. unfold zlen. pose proof (filter_length_le (fun x => negb (COMPARE x data)) (live a)).
    lia. }
  pose proof (zlen_nonneg kept) as Hk0.
  assert (Hlen : zlen (pre ++ kept ++ gap' ++ post) = zlen (ary a)).
  { pose proof (remove2_loop_len data (length (live a)) (ary a) (start a) 0
                  (end_ a)) as L.
    rewrite E in L. exact L. }
  rewrite E.
  split; [|split; [|split]].
  - unfold live. cbn [ary start end_].
    replace (start a + zlen kept - start a) with (zlen kept) by lia.
    rewrite <- Hpre. apply (zsub_app_mid pre kept (gap' ++ post)).
  - unfold count. cbn [start end_].
    rewrite (u32_id (end_ a - start a)) by lia.
    rewrite (u32_id (start a + zlen kept - start a)) by lia. lia.
  - reflexivity.
  - unfold wf. cbn [ary capa start end_]. lia.
Qed.

(** *** [compact] *)

(** X11.  [compact] keeps the live objects and gives back the spare room:
    afterwards [start] is 0 and the capacity is exactly the count.  If the
    allocation of the smaller buffer fails the array is left as it was. *)
Theorem compact_spec (a : ary_s) :
  wf a ->
  let a' := compact a in
  live a' = live a /\ wf a' /\
  ((0 < count a /\ alloc_fails (count a) = true /\ a' = a) \/
   (start a' = 0 /\ end_ a' = count a /\ capa a' = count a)).
Proof.
  intros Hwf. pose proof Hwf as (H0 & H1 & H2 & H3 & H4).
  cbv zeta. unfold compact, count.
  rewrite (u32_id (end_ a - start a)) by lia.
  destruct (end_ a - start a =? 0) eqn:E0; [apply Z.eqb_eq in E0|apply Z.eqb_neq in E0].
  - split; [|split].
    + unfold live. cbn [ary start end_]. rewrite E0. reflexivity.
    + unfold wf. cbn [ary capa start end_]. change (zlen (@nil T)) with 0. lia.
    + right. cbn [capa start end_]. lia.
  - destruct (alloc_fails (end_ a - start a)) eqn:Ea.
    + split; [reflexivity|]. split; [exact Hwf|]. left.
      split; [lia|]. split; reflexivity.
    + assert (Hl : zlen (zblit (zrepeat zero (end_ a - start a)) 0
                               (zsub (ary a) (start a) (end_ a - start a)))
                   = end_ a - start a)
        by (rewrite zlen_zblit; apply zlen_zrepeat; lia).
      split; [|split].
      * apply live_same; cbn [ary capa start end_]; try exact Hwf; try lia.
        intros i Hi. rewrite zget_zblit; rewrite ?zlen_zsub, ?zlen_zrepeat; try lia.
        replace (0 <=? 0 + i) with true by (symmetry; apply Z.leb_le; lia).
        replace (0 + i <? 0 + (end_ a - start a)) with true
          by (symmetry; apply Z.ltb_lt; lia).
        cbn [andb]. rewrite zget_zsub by lia. f_equal. lia.
      * unfold wf. cbn [ary capa start end_]. lia.
      * right. cbn [capa start end_]. lia.
Qed.

(** *** [find] *)

Lemma find_forward_spec (a : ary_s) (data : T) (fuel : nat) :
  forall s,
    0 <= s < 2147483648 -> end_ a < 2147483648 -> end_ a - s <= Z.of_nat fuel ->
    let r := find_forward fuel a data s in
    (r = -1 /\
     forall j, s <= j < end_ a -> COMPARE (zget junk (ary a) j) data = false) \/
    (s <= r < end_ a /\ COMPARE (zget junk (ary a) r) data = true /\
     forall j, s <= j < r -> COMPARE (zget junk (ary a) j) data = false).
Proof.
  induction fuel as [|n IH]; intros s Hs He Hf; cbn [find_forward].
  - left. split; [reflexivity|]. intros j Hj. lia.
  - rewrite (u32_id s) by lia.
    destruct (s <? end_ a) eqn:E; [apply Z.ltb_lt in E|apply Z.ltb_ge in E].
    + destruct (COMPARE (zget junk (ary a) s) data) eqn:Ec.
      * right. split; [lia|]. split; [exact Ec|]. intros j Hj. lia.
      * rewrite (i32_id (s + 1)) by lia.
        destruct (IH (s + 1)) as [(Er & Hn)|(Hr & Hm & Hn)]; try lia.
        -- left. split; [exact Er|]. intros j Hj.
           destruct (Z.eq_dec j s) as [->|Hne]; [exact Ec|apply Hn; lia].
        -- right. split; [lia|]. split; [exact Hm|]. intros j Hj.
           destruct (Z.eq_dec j s) as [->|Hne]; [exact Ec|apply Hn; lia].
    + left. split; [reflexivity|]. intros j Hj. lia.
Qed.

Lemma find_backward_spec (a : ary_s) (data : T) (fuel : nat) :
  forall s,
    -2147483648 <= s < 2147483648 -> 0 <= start a < 2147483648 ->
    s - start a <= Z.of_nat fuel ->
    let r := find_backward fuel a data s in
    (r = -1 /\
     forall j, start a < j <= s -> COMPARE (zget junk (ary a) j) data = false) \/
    (start a < r <= s /\ COMPARE (zget junk (ary a) r) data = true /\
     forall j, r < j <= s -> COMPARE (zget junk (ary a) j) data = false).
Proof.
  induction fuel as [|n IH]; intros s Hs He Hf; cbn [find_backward].
  - left. split; [reflexivity|]. intros j Hj. lia.
  - rewrite (i32_id (start a)) by lia.
    destruct (start a <? s) eqn:E; [apply Z.ltb_lt in E|apply Z.ltb_ge in E].
    + destruct (COMPARE (zget junk (ary a) s) data) eqn:Ec.
      * right. split; [lia|]. split; [exact Ec|]. intros j Hj. lia.
      * rewrite (i32_id (s - 1)) by lia.
        destruct (IH (s - 1)) as [(Er & Hn)|(Hr & Hm & Hn)]; try lia.
        -- left. split; [exact Er|]. intros j Hj.
           destruct (Z.eq_dec j s) as [->|Hne]; [exact Ec|apply Hn; lia].
        -- right. split; [lia|]. split; [exact Hm|]. intros j Hj.
           destruct (Z.eq_dec j s) as [->|Hne]; [exact Ec|apply Hn; lia].
    + left. split; [reflexivity|]. intros j Hj. lia.
Qed.

(** X12.  [find] works on absolute positions.  With [start_at >= 0] it
    compares the cells [start_at .. end - 1] upwards (cells below [start],
    which are not live, included) and returns the first position that
    compares equal, or -1.  With [start_at < 0] it compares the cells
    [end + start_at] down to [start + 1] and returns the first match, or -1:
    the first live object, at [start], is never compared. *)
Theorem find_spec (a : ary_s) (data : T) (start_at : Z) :
  wf a -> capa a < 1073741824 -> -2147483648 <= start_at < 2147483648 ->
  let r := find a data start_at in
  let hit := fun j => COMPARE (zget junk (ary a) j) data in
  if 0 <=? start_at then
    (r = -1 /\ forall j, start_at <= j < end_ a -> hit j = false) \/
    (start_at <= r < end_ a /\ hit r = true /\
     forall j, start_at <= j < r -> hit j = false)
  else
    (r = -1 /\ forall j, start a < j <= end_ a + start_at -> hit j = false) \/
    (start a < r <= end_ a + start_at /\ hit r = true /\
     forall j, r < j <= end_ a + start_at -> hit j = false).
Proof.
  intros Hwf Hcap Hs. pose proof Hwf as (H0 & H1 & H2 & H3 & H4).
  cbv zeta. unfold find.
  destruct (0 <=? start_at) eqn:E0; [apply Z.leb_le in E0|apply Z.leb_gt in E0].
  - apply find_forward_spec; lia.
  - rewrite (i32_id (start_at + end_ a)), (i32_id (end_ a)) by lia.
    replace (end_ a <=? start_at + end_ a) with false by (symmetry; apply Z.leb_gt; lia).
    replace (end_ a + start_at) with (start_at + end_ a) by lia.
    apply find_backward_spec; lia.
Qed.

(** *** [reserve] *)

Lemma fill_up_frame (index : Z) (fuel : nat) :
  forall p i,
    zlen (fill_up fuel p i index) = zlen p /\
    forall j, j < i -> zget junk (fill_up fuel p i index) j = zget junk p j.
Proof.
  induction fuel as [|n IH]; intros p i; cbn [fill_up].
  - split; [reflexivity|]. intros; reflexivity.
  - destruct (i <=? index).
    + destruct (IH (zset p i (COPY INVALID)) (i + 1)) as (L & F).
      split; [rewrite L; apply zlen_zset|].
      intros j Hj. rewrite F by lia. apply zget_zset_other. lia.
    + split; [reflexivity|]. intros; reflexivity.
Qed.

Lemma fill_down_frame (index : Z) (fuel : nat) :
  forall p st,
    0 <= index <= st -> st < 4294967296 -> Z.of_nat fuel = st - index ->
    snd (fill_down fuel p st index) = index /\
    zlen (fst (fill_down fuel p st index)) = zlen p /\
    forall j, st <= j -> zget junk (fst (fill_down fuel p st index)) j = zget junk p j.
Proof.
  induction fuel as [|n IH]; intros p st Hi Hs Hf; cbn [fill_down].
  - cbn [fst snd]. split; [lia|]. split; [reflexivity|]. intros; reflexivity.
  - replace (index <? st) with true by (symmetry; apply Z.ltb_lt; lia).
    rewrite (u32_id (st - 1)) by lia.
    destruct (IH (zset p (st - 1) INVALID) (st - 1)) as (S1 & L & F); try lia.
    split; [exact S1|]. split; [rewrite L; apply zlen_zset|].
    intros j Hj. rewrite F by lia. apply zget_zset_other. lia.
Qed.

(** [set] beyond the capacity, counting from [start]: the buffer is
    reallocated and the cells below [end] are carried over *)
Lemma set_forward_grow (a : ary_s) (index : Z) (data : T) :
  wf a -> capa a < 536870912 -> 0 <= index < 536870912 ->
  capa a <= index + start a ->
  let '(a', pos, _) := set a index data in
  (pos = None /\ a' = a) \/
  (start a' = start a /\ index + start a < capa a' /\ capa a' < 4294967296 /\
   zlen (ary a') = capa a' /\
   forall j, 0 <= j < end_ a -> zget junk (ary a') j = zget junk (ary a) j).
Proof.
  intros Hwf Hcap Hi Hgrow. pose proof Hwf as (H0 & H1 & H2 & H3 & H4).
  unfold set. cbv zeta.
  replace (0 <=? index) with true by (symmetry; apply Z.leb_le; lia).
  rewrite (i32_id (index + start a)) by lia.
  rewrite (u32_id (index + start a)) by lia.
  replace (capa a <=? index + start a) with true by (symmetry; apply Z.leb_le; lia).
  cbn [andb].
  assert (Ha : 4 <= FIO_ARRAY_ADD2CAPA a <= capa a + 4).
  { unfold FIO_ARRAY_ADD2CAPA, FIO_ARRAY_PADDING. destruct EXPONENTIAL; lia. }
  rewrite (u32_id (index + start a + FIO_ARRAY_ADD2CAPA a)) by lia.
  pose proof (size2words_bound (index + start a + FIO_ARRAY_ADD2CAPA a) ltac:(lia)) as Hn.
  set (nc := FIO_ARRAY_SIZE2WORDS (index + start a + FIO_ARRAY_ADD2CAPA a)) in *.
  destruct (alloc_fails nc); [left; split; reflexivity|].
  cbn [ary capa start end_].
  rewrite (u32_id (end_ a + 1)), (u32_id (index + start a + 1)) by lia.
  assert (Hl : zlen (mem_realloc (ary a) nc (end_ a)) = nc)
    by (apply zlen_mem_realloc; lia).
  set (p1 := zset (mem_realloc (ary a) nc (end_ a)) (end_ a) INVALID).
  assert (Hp1 : zlen p1 = nc) by (subst p1; rewrite zlen_zset; exact Hl).
  assert (Fp1 : forall j, 0 <= j < end_ a -> zget junk p1 j = zget junk (ary a) j).
  { intros j Hj. subst p1. rewrite zget_zset_other by lia.
    apply zget_mem_realloc; lia. }
  clearbody p1.
  destruct (end_ a + 1 <=? index + start a) eqn:Efill;
    [apply Z.leb_le in Efill|apply Z.leb_gt in Efill].
  - destruct INVALID_SIMPLE.
    + unfold set_store. cbn [ary capa start end_]. right.
      split; [reflexivity|]. split; [lia|]. split; [lia|].
      split; [rewrite !zlen_zset, zlen_zblit; exact Hp1|].
      intros j Hj. rewrite !zget_zset_other by lia.
      rewrite zget_zblit; rewrite ?zlen_zrepeat; try lia.
      replace (end_ a + 1 <=? j) with false by (symmetry; apply Z.leb_gt; lia).
      cbn [andb]. apply Fp1. lia.
    + unfold set_store. cbn [ary capa start end_]. right.
      destruct (fill_up_frame (index + start a)
                  (Z.to_nat (index + start a - (end_ a + 1) + 1)) p1 (end_ a + 1))
        as (L & F).
      split; [reflexivity|]. split; [lia|]. split; [lia|].
      split; [rewrite !zlen_zset, L; exact Hp1|].
      intros j Hj. rewrite !zget_zset_other by lia.
      rewrite F by lia. apply Fp1. lia.
  - unfold set_store. cbn [ary capa start end_]. right.
    split; [reflexivity|]. split; [lia|]. split; [lia|].
    split; [rewrite !zlen_zset; exact Hp1|].
    intros j Hj. rewrite !zget_zset_other by lia. apply Fp1. lia.
Qed.

(** [set] beyond the capacity, counting back from [end]: a new buffer is
    allocated and the live objects move to its end *)
Lemma set_backward_grow (a : ary_s) (index : Z) (data : T) :
  wf a -> capa a < 268435456 -> -268435456 < index < 0 ->
  capa a < - index ->
  let '(a', pos, _) := set a index data in
  (pos = None /\ a' = a) \/
  (end_ a' = capa a' /\ - index <= capa a' /\ capa a' < 4294967296 /\
   zlen (ary a') = capa a' /\
   forall i, 0 <= i < end_ a - start a ->
     zget junk (ary a') (capa a' - (end_ a - start a) + i)
     = zget junk (ary a) (start a + i)).
Proof.
  intros Hwf Hcap Hi Hgrow. pose proof Hwf as (H0 & H1 & H2 & H3 & H4).
  unfold set. cbv zeta.
  replace (0 <=? index) with false by (symmetry; apply Z.leb_gt; lia).
  rewrite (i32_id (index + end_ a)) by lia.
  replace (index + end_ a <? 0) with true by (symmetry; apply Z.ltb_lt; lia).
  rewrite (u32_id (0 - (index + end_ a))) by lia.
  replace (index + end_ a - end_ a) with index by lia.
  rewrite (i32_id index) by lia.
  assert (Ha : 4 <= FIO_ARRAY_ADD2CAPA a <= capa a + 4).
  { unfold FIO_ARRAY_ADD2CAPA, FIO_ARRAY_PADDING. destruct EXPONENTIAL; lia. }
  rewrite (u32_id (capa a + FIO_ARRAY_ADD2CAPA a + (0 - (index + end_ a)))) by lia.
  pose proof (size2words_bound (capa a + FIO_ARRAY_ADD2CAPA a + (0 - (index + end_ a)))
                ltac:(lia)) as Hn.
  set (nc := FIO_ARRAY_SIZE2WORDS
               (capa a + FIO_ARRAY_ADD2CAPA a + (0 - (index + end_ a)))) in *.
  destruct (alloc_fails nc); [left; split; reflexivity|].
  rewrite (u32_id (end_ a - start a)) by lia.
  rewrite (i32_id (index + nc)) by lia.
  rewrite (u32_id (index + nc)) by lia.
  cbn [ary capa start end_].
  set (tmp := if end_ a - start a =? 0 then zrepeat zero nc
              else zblit (zrepeat zero nc) (nc - (end_ a - start a))
                         (zsub (ary a) (start a) (end_ a - start a))).
  assert (Ht : zlen tmp = nc).
  { subst tmp. destruct (end_ a - start a =? 0);
      rewrite ?zlen_zblit; apply zlen_zrepeat; lia. }
  assert (Hcells : forall i, 0 <= i < end_ a - start a ->
            zget junk tmp (nc - (end_ a - start a) + i) = zget junk (ary a) (start a + i)).
  { intros i Hi'. subst tmp.
    replace (end_ a - start a =? 0) with false by (symmetry; apply Z.eqb_neq; lia).
    rewrite zget_zblit; rewrite ?zlen_zsub, ?zlen_zrepeat; try lia.
    replace (nc - (end_ a - start a) <=? nc - (end_ a - start a) + i) with true
      by (symmetry; apply Z.leb_le; lia).
    replace (nc - (end_ a - start a) + i <? nc - (end_ a - start a) + (end_ a - start a))
      with true by (symmetry; apply Z.ltb_lt; lia).
    cbn [andb]. rewrite zget_zsub by lia. f_equal. lia. }
  clearbody tmp.
  destruct INVALID_SIMPLE.
  - rewrite Z.ltb_irrefl. unfold set_store. cbn [ary capa start end_]. right.
    split; [reflexivity|]. split; [lia|]. split; [lia|].
    split; [rewrite !zlen_zset; exact Ht|].
    intros i Hi'. rewrite !zget_zset_other by lia. apply Hcells. lia.
  - rewrite (u32_id (nc - (end_ a - start a))) by lia.
    replace (index + nc <? nc - (end_ a - start a)) with true
      by (symmetry; apply Z.ltb_lt; lia).
    destruct (fill_down_frame (index + nc)
                (Z.to_nat (nc - (end_ a - start a) - (index + nc))) tmp
                (nc - (end_ a - start a))) as (S1 & L & F); try lia.
    destruct (fill_down (Z.to_nat (nc - (end_ a - start a) - (index + nc))) tmp
                (nc - (end_ a - start a)) (index + nc)) as (p, st).
    cbn [fst snd] in S1, L, F. subst st.
    unfold set_store. cbn [ary capa start end_]. right.
    split; [reflexivity|]. split; [lia|]. split; [lia|].
    split; [rewrite !zlen_zset, L; exact Ht|].
    intros i Hi'. rewrite !zget_zset_other by lia.
    rewrite F by lia. apply Hcells. lia.
Qed.

(** X13.  [reserve] keeps the live objects.  Asked for [capa > 0] cells
    (room after the objects) or, with a negative argument, for [-capa]
    cells (room before them), it returns the capacity of the array
    afterwards; the live region is what it was, and the capacity is at least
    the one asked for unless the allocation failed, in which case the array
    is unchanged. *)
Theorem reserve_keeps_live (a : ary_s) (capa_ : Z) :
  wf a -> capa a < 268435456 -> -268435456 < capa_ < 268435456 ->
  let '(a', c) := reserve a capa_ in
  live a' = live a /\ wf a' /\ c = capa a' /\
  (Z.abs capa_ <= capa a' \/ a' = a).
Proof.
  intros Hwf Hcap Hc. pose proof Hwf as (H0 & H1 & H2 & H3 & H4).
  unfold reserve. cbv zeta.
  destruct (0 <? capa_) eqn:Epos; [apply Z.ltb_lt in Epos|apply Z.ltb_ge in Epos].
  - rewrite (u32_id capa_) by lia.
    destruct (capa_ <=? capa a) eqn:Ehave; [apply Z.leb_le in Ehave|apply Z.leb_gt in Ehave].
    + split; [reflexivity|]. split; [exact Hwf|]. split; [reflexivity|]. left. lia.
    + rewrite (i32_id (capa_ - 1)) by lia.
      pose proof (set_forward_grow a (capa_ - 1) INVALID Hwf ltac:(lia) ltac:(lia)
                    ltac:(lia)) as Hset.
      destruct (set a (capa_ - 1) INVALID) as ((a1 & pos) & old).
      rewrite (u32_id (end_ a - start a)) by lia.
      destruct Hset as [(_ & ->)|(Es & Hc1 & Hc2 & Hl & F)].
      * rewrite (u32_id (start a + (end_ a - start a))) by lia.
        replace (start a + (end_ a - start a)) with (end_ a) by lia.
        destruct a as [p c s e]. cbn [ary capa start end_] in *.
        split; [reflexivity|]. split; [exact Hwf|]. split; [reflexivity|].
        right. reflexivity.
      * rewrite Es. rewrite (u32_id (start a + (end_ a - start a))) by lia.
        replace (start a + (end_ a - start a)) with (end_ a) by lia.
        cbn [capa]. split; [|split; [|split; [reflexivity|left; lia]]].
        -- apply live_same; cbn [ary capa start end_]; try exact Hwf; try lia.
           intros i Hi. apply F. lia.
        -- unfold wf. cbn [ary capa start end_]. lia.
  - destruct (Z.eq_dec capa_ 0) as [E0|E0].
    { subst capa_. change (u32 (0 - 0)) with 0.
      replace (0 <=? capa a) with true by (symmetry; apply Z.leb_le; lia).
      split; [reflexivity|]. split; [exact Hwf|]. split; [reflexivity|]. left.
      change (Z.abs 0) with 0. lia. }
    rewrite (u32_id (0 - capa_)) by lia.
    destruct (0 - capa_ <=? capa a) eqn:Ehave;
      [apply Z.leb_le in Ehave|apply Z.leb_gt in Ehave].
    + split; [reflexivity|]. split; [exact Hwf|]. split; [reflexivity|]. left. lia.
    + pose proof (set_backward_grow a capa_ INVALID Hwf ltac:(lia) ltac:(lia)
                    ltac:(lia)) as Hset.
      destruct (set a capa_ INVALID) as ((a1 & pos) & old).
      rewrite (u32_id (end_ a - start a)) by lia.
      destruct Hset as [(_ & ->)|(Ee & Hc1 & Hc2 & Hl & F)].
      * rewrite (u32_id (end_ a - (end_ a - start a))) by lia.
        replace (end_ a - (end_ a - start a)) with (start a) by lia.
        destruct a as [p c s e]. cbn [ary capa start end_] in *.
        split; [reflexivity|]. split; [exact Hwf|]. split; [reflexivity|].
        right. reflexivity.
      * rewrite Ee. rewrite (u32_id (capa a1 - (end_ a - start a))) by lia.
        cbn [capa]. split; [|split; [|split; [reflexivity|left; lia]]].
        -- apply live_same; cbn [ary capa start end_]; try exact Hwf; try lia.
           intros i Hi. apply F. lia.
        -- unfold wf. cbn [ary capa start end_]. lia.
Qed.

(** *** [set] at an index that exists *)

Lemma zget_zset3 (p : list T) (k : Z) (u v w : T) (j : Z) :
  zget junk (zset (zset (zset p k u) k v) k w) j
  = if (j =? k) && (0 <=? k) && (k <? zlen p) then w else zget junk p j.
Proof.
  rewrite !zget_zset_cases, !zlen_zset.
  destruct ((j =? k) && (0 <=? k) && (k <? zlen p)); reflexivity.
Qed.

(** X26.  [set] at an index that exists.  With an index counted from the
    end, [-count <= index < 0], the object there is destroyed and replaced
    by a copy of the new one, its old value is handed out, and nothing else
    changes.  With an index counted from the start, [0 <= index < count],
    the object is replaced in the same way, but the function has first
    stored the invalid value at [ary[end]] and stepped [end]: the array is
    one object longer afterwards, an invalid one at its tail.  (That store
    needs room behind the objects, [end < capa].) *)
Theorem set_existing_index (a : ary_s) (index : Z) (data : T) :
  wf a -> capa a < 2147483648 ->
  (0 <= index < count a -> end_ a < capa a ->
   let '(a', pos, old) := set a index data in
   pos = Some (start a + index) /\
   old = COPY (zget junk (live a) index) /\
   live a' = zset (live a) index (COPY data) ++ [INVALID] /\
   count a' = count a + 1 /\ start a' = start a /\ wf a') /\
  (- count a <= index < 0 ->
   let '(a', pos, old) := set a index data in
   pos = Some (end_ a + index) /\
   old = COPY (zget junk (live a) (count a + index)) /\
   live a' = zset (live a) (count a + index) (COPY data) /\
   count a' = count a /\ start a' = start a /\ wf a').
Proof.
  intros Hwf Hcap. pose proof Hwf as (H0 & H1 & H2 & H3 & H4).
  pose proof (count_live a Hwf) as Hc. pose proof (zlen_live a Hwf) as Hl.
  rewrite Hl in Hc. split.
  - intros Hi Hroom. rewrite Hc in Hi. unfold set.
    replace (0 <=? index) with true by (symmetry; apply Z.leb_le; lia).
    rewrite (i32_id (index + start a)) by lia.
    rewrite (u32_id (index + start a)) by lia.
    replace (capa a <=? index + start a) with false by (symmetry; apply Z.leb_gt; lia).
    cbn [andb]. cbv zeta. cbn [end_ ary capa start].
    rewrite (u32_id (end_ a + 1)) by lia.
    replace (end_ a + 1 <=? index + start a) with false by (symmetry; apply Z.leb_gt; lia).
    unfold set_store. cbn [end_ ary capa start].
    set (k := index + start a).
    set (p0 := zset (ary a) (end_ a) INVALID).
    assert (Hp0 : zlen p0 = capa a) by (unfold p0; rewrite zlen_zset; exact H3).
    split; [f_equal; unfold k; lia|]. split; [|split; [|split; [|split]]].
    + f_equal. rewrite zget_live by (try exact Hwf; lia).
      unfold p0. rewrite zget_zset_other by (unfold k; lia).
      f_equal. unfold k. lia.
    + unfold live at 1. cbn [ary start end_].
      apply live_ext; try lia.
      * rewrite !zlen_zset. lia.
      * rewrite zlen_app, zlen_zset, Hl. change (zlen [INVALID]) with 1. lia.
      * intros j Hj. rewrite zget_zset3, Hp0.
        replace (0 <=? k) with true by (symmetry; apply Z.leb_le; unfold k; lia).
        replace (k <? capa a) with true by (symmetry; apply Z.ltb_lt; unfold k; lia).
        rewrite !Bool.andb_true_r.
        rewrite zget_app, zlen_zset, Hl.
        destruct (Z.eqb_spec (start a + j) k) as [E|E].
        -- replace (j <? end_ a - start a) with true
             by (symmetry; apply Z.ltb_lt; unfold k in E; lia).
           replace j with index by (unfold k in E; lia).
           symmetry. apply zget_zset_same. rewrite Hl. lia.
        -- destruct (Z.ltb_spec j (end_ a - start a)) as [Hlt|Hge].
           ++ rewrite zget_zset_other by (unfold k in E; lia).
              unfold p0. rewrite zget_zset_other by lia.
              symmetry. apply zget_live; [exact Hwf|lia].
           ++ replace (start a + j) with (end_ a) by lia.
              replace (j - (end_ a - start a)) with 0 by lia.
              unfold p0. rewrite zget_zset_same by lia. reflexivity.
    + unfold count. cbn [end_ start]. rewrite !u32_id by lia. lia.
    + reflexivity.
    + unfold wf. cbn [start end_ capa ary]. rewrite !zlen_zset.
      repeat split; lia.
  - intros Hi. rewrite Hc in Hi. rewrite !Hc. unfold set.
    replace (0 <=? index) with false by (symmetry; apply Z.leb_gt; lia).
    rewrite (i32_id (index + end_ a)) by lia.
    replace (index + end_ a <? 0) with false by (symmetry; apply Z.ltb_ge; lia).
    rewrite (u32_id (index + end_ a)) by lia.
    replace (index + end_ a <? start a) with false by (symmetry; apply Z.ltb_ge; lia).
    unfold set_store. cbn [end_ ary capa start].
    set (k := index + end_ a).
    split; [f_equal; unfold k; lia|]. split; [|split; [|split; [|split]]].
    + f_equal. rewrite zget_live by (try exact Hwf; lia).
      f_equal. unfold k. lia.
    + unfold live at 1. cbn [ary start end_].
      apply live_ext; try lia.
      * rewrite !zlen_zset. lia.
      * rewrite zlen_zset, Hl. reflexivity.
      * intros j Hj. rewrite zget_zset3, H3.
        replace (0 <=? k) with true by (symmetry; apply Z.leb_le; unfold k; lia).
        replace (k <? capa a) with true by (symmetry; apply Z.ltb_lt; unfold k; lia).
        rewrite !Bool.andb_true_r.
        destruct (Z.eqb_spec (start a + j) k) as [E|E].
        -- replace j with (end_ a - start a + index) by (unfold k in E; lia).
           symmetry. apply zget_zset_same. rewrite Hl. lia.
        -- rewrite zget_zset_other by (unfold k in E; lia).
           symmetry. apply zget_live; [exact Hwf|lia].
    + unfold count. cbn [end_ start]. apply u32_id. lia.
    + reflexivity.
    + unfold wf. cbn [start end_ capa ary]. rewrite !zlen_zset.
      repeat split; lia.
Qed.

End Template.

(** An instance: [FIO_ARRAY_TYPE int] with every other macro at its default
    (as [ary____test] in the header's own tests). *)
Module IntAry.
Definition INVALID : Z := 0.
Definition id_ (x : Z) : Z := x.
Definition never (_ : Z) : bool := false.
Definition push := push Z INVALID 0 (-1) 4 true false id_ id_ never.
Definition pop := pop Z INVALID (-1) id_ id_.
Definition unshift := unshift Z INVALID 0 (-1) 4 true false id_ id_ never.
Definition shift := shift Z INVALID (-1) id_ id_.
Definition live := live Z.
Definition count := count Z.
Definition push_all (a : ary_s Z) (xs : list Z) : ary_s Z :=
  fold_left (fun a x => fst (push a x)) xs a.
(** eight pushes fill the first allocation; one [shift] moves [start] *)
Definition full_shifted : ary_s Z :=
  fst (fst (shift (push_all (FIO_ARRAY_INIT Z) [1; 2; 3; 4; 5; 6; 7; 8]))).
Definition get := get Z INVALID (-1).
Definition find := find Z (-1) Z.eqb.
Definition remove2 := remove2 Z (-1) id_ Z.eqb.
Definition compact := compact Z 0 never.
Definition reserve := reserve Z INVALID 0 (-1) 4 true false id_ id_ never.
(** three pushes into an empty array: room is left at the tail *)
Definition three : ary_s Z := push_all (FIO_ARRAY_INIT Z) [5; 6; 5].
(** eight pushes fill the first allocation ([start = 0], [end = capa = 8]) *)
Definition full : ary_s Z := push_all (FIO_ARRAY_INIT Z) [1; 2; 3; 4; 5; 6; 7; 8].
End IntAry.

(** C8 (push/pop half fails on the code).  On an array whose tail is full and
    whose head was shifted ([start = 1], [end = capa = 8]), [push] takes its
    [needs_memory] path and hands the absolute [end] to [set], which reads it
    as an index relative to [start]: the object lands one cell too far and an
    INVALID filler joins the live region.  [pop] then returns the pushed 77
    with code 0, but the live region keeps the filler: it is not restored.
    The [unshift]/[shift] pair on the same array does restore it. *)
Theorem push_pop_full_shifted_array :
  IntAry.live IntAry.full_shifted = [2; 3; 4; 5; 6; 7; 8] /\
  start Z IntAry.full_shifted = 1 /\ end_ Z IntAry.full_shifted = 8 /\
  capa Z IntAry.full_shifted = 8 /\
  (let a1 := fst (IntAry.push IntAry.full_shifted 77) in
   IntAry.live a1 = [2; 3; 4; 5; 6; 7; 8; 0; 77] /\
   (let '(a2, rc, out) := IntAry.pop a1 in
    rc = 0 /\ out = 77 /\ IntAry.live a2 = [2; 3; 4; 5; 6; 7; 8; 0] /\
    IntAry.live a2 <> IntAry.live IntAry.full_shifted)) /\
  (let a1 := fst (IntAry.unshift IntAry.full_shifted 77) in
   let '(a2, rc, out) := IntAry.shift a1 in
   rc = 0 /\ out = 77 /\ IntAry.live a2 = IntAry.live IntAry.full_shifted).
Proof.
  vm_compute. repeat split; discriminate.
Qed.


(** *** The theorems of the template at the [int] instance *)

Ltac wf_by_computation :=
  unfold wf; vm_compute; repeat split; try reflexivity;
  let H := fresh in intro H; discriminate H.

Lemma push_appends_witness :
  let '(a', pos) := IntAry.push IntAry.full 9 in
  (pos = None /\ a' = IntAry.full) \/
  (pos = Some 8 /\ live Z a' = [1; 2; 3; 4; 5; 6; 7; 8] ++ [9] /\
   start Z a' = 0 /\ end_ Z a' = 8 + 1 /\ wf Z a').
Proof.
  apply (push_appends Z IntAry.INVALID 0 (-1) 4 true false IntAry.id_ IntAry.id_
           IntAry.never IntAry.full 9).
  - wf_by_computation.
  - reflexivity.
  - left. reflexivity.
Defined.

Lemma unshift_prepends_witness :
  let '(a', pos) := IntAry.unshift IntAry.full 9 in
  (pos = None /\ a' = IntAry.full) \/
  (pos = Some (start Z a') /\ live Z a' = 9 :: live Z IntAry.full /\ wf Z a').
Proof.
  apply (unshift_prepends Z IntAry.INVALID 0 (-1) 4 true false IntAry.id_ IntAry.id_
           IntAry.never IntAry.full 9).
  - wf_by_computation.
  - reflexivity.
Defined.

Lemma pop_shift_spec_witness :
  (let '(a', rc, old) := IntAry.pop IntAry.three in
   exists y, live Z IntAry.three = live Z a' ++ [y] /\ rc = 0 /\ old = y /\
             start Z a' = start Z IntAry.three /\ wf Z a') /\
  (let '(a', rc, old) := IntAry.shift IntAry.three in
   exists y, live Z IntAry.three = y :: live Z a' /\ rc = 0 /\ old = y /\
             end_ Z a' = end_ Z IntAry.three /\ wf Z a').
Proof.
  apply (pop_shift_spec Z IntAry.INVALID (-1) IntAry.id_ IntAry.id_ IntAry.three).
  - wf_by_computation.
  - reflexivity.
Defined.

Lemma get_spec_witness :
  IntAry.get IntAry.full_shifted (-8) = zget (-1) (ary Z IntAry.full_shifted) 0.
Proof.
  apply (get_spec Z IntAry.INVALID (-1) IntAry.full_shifted (-8)).
  - wf_by_computation.
  - reflexivity.
  - split; [intro H; discriminate H|reflexivity].
Defined.

Lemma remove2_filters_witness :
  let '(a', c) := IntAry.remove2 IntAry.three 5 in
  live Z a' = filter (fun x => negb (x =? 5)) (live Z IntAry.three) /\
  c = count Z IntAry.three - count Z a' /\
  start Z a' = start Z IntAry.three /\ wf Z a'.
Proof.
  apply (remove2_filters Z (-1) IntAry.id_ Z.eqb IntAry.three 5).
  wf_by_computation.
Defined.

Lemma compact_spec_witness :
  let a' := IntAry.compact IntAry.full_shifted in
  live Z a' = live Z IntAry.full_shifted /\ wf Z a' /\
  ((0 < count Z IntAry.full_shifted /\
    IntAry.never (count Z IntAry.full_shifted) = true /\ a' = IntAry.full_shifted) \/
   (start Z a' = 0 /\ end_ Z a' = count Z IntAry.full_shifted /\
    capa Z a' = count Z IntAry.full_shifted)).
Proof.
  apply (compact_spec Z 0 (-1) IntAry.never IntAry.full_shifted).
  wf_by_computation.
Defined.

Lemma find_spec_witness :
  let r := IntAry.find IntAry.full_shifted 2 (-1) in
  let hit := fun j => zget (-1) (ary Z IntAry.full_shifted) j =? 2 in
  (r = -1 /\ forall j, 1 < j <= 8 + -1 -> hit j = false) \/
  (1 < r <= 8 + -1 /\ hit r = true /\ forall j, r < j <= 8 + -1 -> hit j = false).
Proof.
  apply (find_spec Z (-1) Z.eqb IntAry.full_shifted 2 (-1)).
  - wf_by_computation.
  - reflexivity.
  - split; [intro H; discriminate H|reflexivity].
Defined.

Lemma reserve_keeps_live_witness :
  let '(a', c) := IntAry.reserve IntAry.full_shifted (-20) in
  live Z a' = live Z IntAry.full_shifted /\ wf Z a' /\ c = capa Z a' /\
  (Z.abs (-20) <= capa Z a' \/ a' = IntAry.full_shifted).
Proof.
  apply (reserve_keeps_live Z IntAry.INVALID 0 (-1) 4 true false IntAry.id_ IntAry.id_
           IntAry.never IntAry.full_shifted (-20)).
  - wf_by_computation.
  - reflexivity.
  - split; reflexivity.
Defined.

Lemma set_existing_index_witness :
  let a := IntAry.three in
  let set := set Z IntAry.INVALID 0 (-1) 4 true false IntAry.id_ IntAry.id_ IntAry.never in
  (0 <= 1 < count Z a -> end_ Z a < capa Z a ->
   let '(a', pos, old) := set a 1 42 in
   pos = Some (start Z a + 1) /\
   old = IntAry.id_ (zget (-1) (live Z a) 1) /\
   live Z a' = zset (live Z a) 1 (IntAry.id_ 42) ++ [IntAry.INVALID] /\
   count Z a' = count Z a + 1 /\ start Z a' = start Z a /\ wf Z a') /\
  (- count Z a <= 1 < 0 ->
   let '(a', pos, old) := set a 1 42 in
   pos = Some (end_ Z a + 1) /\
   old = IntAry.id_ (zget (-1) (live Z a) (count Z a + 1)) /\
   live Z a' = zset (live Z a) (count Z a + 1) (IntAry.id_ 42) /\
   count Z a' = count Z a /\ start Z a' = start Z a /\ wf Z a').
Proof.
  apply (set_existing_index Z IntAry.INVALID 0 (-1) 4 true false IntAry.id_ IntAry.id_
           IntAry.never IntAry.three 1 42).
  - wf_by_computation.
  - vm_compute. reflexivity.
Defined.

End Ary.


(* ------------------------------------------------------------------------- *)
(** ** Binary-safe strings ([FIO_STRING_NAME]) *)
(* ------------------------------------------------------------------------- *)

Module Str.

(** Bytes are [Z] in [0, 256).  The layout is the LP64 one: the struct is 48
    bytes ([special], 15 reserved bytes, [capa], [len], [data], [dealloc]),
    so a small string holds up to [sizeof - 2 = 46] bytes after [special].
    The inline bytes overlay the four large-mode fields in C ([capa] on the
    inline bytes 15..22, [len] on 23..30, [data] on 31..38 and [dealloc] on
    39..46, little-endian).  The record keeps the inline bytes and the fields
    side by side: a string whose bit 0 of [special] is set reads the inline
    bytes only, and a store through the inline pointer that leaves bit 0
    clear hands the bytes to the fields ([overlaid], used by [poke]). *)

Inductive ptr : Type :=
| Null : ptr
| Inline : ptr            (* FIO_STRING_SMALL_DATA(s): the byte after [special] *)
| Heap (addr : Z) : ptr.  (* a buffer outside the struct *)

Inductive dealloc_fn : Type :=
| DeallocNull        (* NULL: static / borrowed data *)
| DeallocDefault     (* FIO_NAME(FIO_STRING_NAME, _default_dealloc) *)
| DeallocUser.       (* a deallocator of the caller *)

Definition dealloc_is_default (d : dealloc_fn) : bool :=
  match d with DeallocDefault => true | _ => false end.
Definition dealloc_is_null (d : dealloc_fn) : bool :=
  match d with DeallocNull => true | _ => false end.
Definition ptr_is_null (p : ptr) : bool :=
  match p with Null => true | _ => false end.

(** [fio_string_info_s] *)
Record fio_string_info_s : Type := mk_info {
  i_capa : Z;
  i_len : Z;
  i_data : ptr
}.

(** the string struct; [s_heap] is the content of the buffer [s_data] points to *)
Record str_s : Type := mk_str {
  special : Z;
  small_data : list Z;
  s_capa : Z;
  s_len : Z;
  s_data : ptr;
  s_heap : list Z;
  s_dealloc : dealloc_fn
}.

Definition sizeof_str : Z := 48.
Definition sizeof_long_double : Z := 16.

(** [FIO_STRING_INIT]: [{ .special = 1 }] *)
Definition FIO_STRING_INIT : str_s :=
  mk_str 1 (zrepeat 0 (sizeof_str - 1)) 0 0 Null [] DeallocNull.

Definition FIO_STRING_IS_SMALL (s : str_s) : bool :=
  Z.testbit (special s) 0 || ptr_is_null (s_data s).
Definition FIO_STRING_SMALL_LEN (s : str_s) : Z := Z.shiftr (special s) 2.
Definition FIO_STRING_SMALL_CAPA : Z := sizeof_str - 2.
Definition FIO_STRING_IS_FROZEN (s : str_s) : bool := Z.testbit (special s) 1.

Definition set_special (s : str_s) (v : Z) : str_s :=
  mk_str v (small_data s) (s_capa s) (s_len s) (s_data s) (s_heap s) (s_dealloc s).
Definition set_small_data (s : str_s) (b : list Z) : str_s :=
  mk_str (special s) b (s_capa s) (s_len s) (s_data s) (s_heap s) (s_dealloc s).
Definition set_len (s : str_s) (n : Z) : str_s :=
  mk_str (special s) (small_data s) (s_capa s) n (s_data s) (s_heap s) (s_dealloc s).
Definition set_heap (s : str_s) (b : list Z) : str_s :=
  mk_str (special s) (small_data s) (s_capa s) (s_len s) (s_data s) b (s_dealloc s).

(** [FIO_STRING_SMALL_LEN_SET(s, l)] *)
Definition FIO_STRING_SMALL_LEN_SET (s : str_s) (l : Z) : str_s :=
  set_special s
    (Z.land (Z.lor (Z.lor (Z.land (special s) 2) (Z.shiftl (u8 l) 2)) 1) 255).

(** [FIO_STRING_FREEZE_(s)] *)
Definition freeze (s : str_s) : str_s := set_special s (Z.lor (special s) 2).
Definition is_frozen (s : str_s) : bool := FIO_STRING_IS_FROZEN s.

(** [FIO_STRING_CAPA2WORDS(num)] *)
Definition FIO_STRING_CAPA2WORDS (num : Z) : Z :=
  Z.lor (u64 (num + 1)) (sizeof_long_double - 1).

Definition info (s : str_s) : fio_string_info_s :=
  if FIO_STRING_IS_SMALL s
  then mk_info (if FIO_STRING_IS_FROZEN s then 0 else FIO_STRING_SMALL_CAPA)
               (FIO_STRING_SMALL_LEN s) Inline
  else mk_info (if FIO_STRING_IS_FROZEN s then 0 else s_capa s) (s_len s) (s_data s).

Definition len (s : str_s) : Z :=
  if FIO_STRING_IS_SMALL s then FIO_STRING_SMALL_LEN s else s_len s.

Definition data (s : str_s) : ptr :=
  if FIO_STRING_IS_SMALL s then Inline else s_data s.

Definition capa (s : str_s) : Z :=
  if FIO_STRING_IS_FROZEN s then 0
  else if FIO_STRING_IS_SMALL s then FIO_STRING_SMALL_CAPA else s_capa s.

(** the bytes a pointer obtained from the string refers to *)
Definition buffer_of (s : str_s) (p : ptr) : list Z :=
  match p with
  | Inline => small_data s
  | Heap _ => s_heap s
  | Null => []
  end.

(** the string's content: [len] bytes from [data] *)
Definition content (s : str_s) : list Z :=
  zsub (buffer_of s (data s)) 0 (len s).

(** the 64-bit little-endian word at [b[off .. off+8)] *)
Definition le64 (b : list Z) (off : Z) : Z :=
  fold_right (fun x acc => x + 256 * acc) 0 (zsub b off 8).

(** a pointer and a deallocator read back from the bytes of the struct: all
    that is known of a word that is not zero is that it is not NULL *)
Definition ptr_of_word (a : Z) : ptr := if a =? 0 then Null else Heap a.
Definition dealloc_of_word (a : Z) : dealloc_fn :=
  if a =? 0 then DeallocNull else DeallocUser.

(** the fields [capa], [len], [data] and [dealloc] as the inline bytes they
    overlay hold them *)
Definition overlaid (s : str_s) : str_s :=
  mk_str (special s) (small_data s)
         (le64 (small_data s) 15) (le64 (small_data s) 23)
         (ptr_of_word (le64 (small_data s) 31)) (s_heap s)
         (dealloc_of_word (le64 (small_data s) 39)).

(** [s->len] read from the struct whatever the mode of the string *)
Definition raw_len (s : str_s) : Z :=
  if Z.testbit (special s) 0 then le64 (small_data s) 23 else s_len s.

(** A store [memcpy(p + off, bytes, |bytes|)] through a pointer [p] that was
    read from the string's info.  The inline pointer is the address of the
    byte after [special]: offset [-1] is [special] itself, and the struct
    ends 47 bytes after the pointer (what falls outside the struct is not
    the string's).  When bit 0 of [special] is clear after the store the
    string is read through its fields, which are the bytes just written.
    The inline pointer is used only while the string is small. *)
Definition poke (s : str_s) (p : ptr) (off : Z) (bytes : list Z) : str_s :=
  match p with
  | Inline =>
    let w := zblit (special s :: small_data s) (off + 1) bytes in
    let s' := set_small_data (set_special s (hd 0 w)) (tl w) in
    if Z.testbit (special s') 0 then s' else overlaid s'
  | Heap _ => set_heap s (zblit (s_heap s) off bytes)
  | Null => s
  end.

Section Allocator.

(** [FIO_MEM_CALLOC_(1, n)] and [FIO_MEM_REALLOC_(p, _, n, _)]: the address of
    the block, [None] for NULL.  [junk] fills what no store initialised. *)
Variable calloc_ : Z -> option Z.
Variable realloc_ : ptr -> Z -> option Z.
Variable junk : Z.

Definition reserve (s : str_s) (amount : Z) : str_s * fio_string_info_s :=
  if FIO_STRING_IS_FROZEN s then (s, info s) else
  if FIO_STRING_IS_SMALL s then
    if amount <=? FIO_STRING_SMALL_CAPA then
      (s, mk_info FIO_STRING_SMALL_CAPA (FIO_STRING_SMALL_LEN s) Inline)
    else
      (* is_small: *)
      let amount := FIO_STRING_CAPA2WORDS amount in
      match calloc_ (u64 (amount + 1)) with
      | None => (s, info s) (* no_mem *)
      | Some a =>
        let tmp := zrepeat 0 (amount + 1) in
        let tmp := if negb (FIO_STRING_SMALL_LEN s =? 0)
                   then zblit tmp 0 (zsub (small_data s) 0 (FIO_STRING_SMALL_LEN s + 1))
                   else zset tmp 0 0 in
        let s' := mk_str 0 (zrepeat 0 (sizeof_str - 1)) amount
                         (FIO_STRING_SMALL_LEN s) (Heap a) tmp DeallocDefault in
        (* the returned [.len] is read from [*s] after the assignment *)
        (s', mk_info amount (FIO_STRING_SMALL_LEN s') (s_data s'))
      end
  else
    if amount <? s_capa s then (s, mk_info (s_capa s) (s_len s) (s_data s)) else
    let amount := FIO_STRING_CAPA2WORDS amount in
    if dealloc_is_default (s_dealloc s) then
      match realloc_ (s_data s) (u64 (amount + 1)) with
      | None => (s, info s)
      | Some a =>
        let kept := zsub (s_heap s) 0 (s_len s + 1) in
        let tmp := kept ++ zrepeat junk (amount + 1 - zlen kept) in
        let tmp := zset tmp amount 0 in
        let s' := mk_str (special s) (small_data s) amount (s_len s) (Heap a) tmp
                         (s_dealloc s) in
        (s', mk_info (s_capa s') (s_len s') (s_data s'))
      end
    else
      match calloc_ (u64 (amount + 1)) with
      | None => (s, info s)
      | Some a =>
        let tmp := zrepeat 0 (amount + 1) in
        let tmp := if negb (ptr_is_null (s_data s)) && negb (s_len s =? 0)
                   then zblit tmp 0 (zsub (s_heap s) 0 (s_len s + 1))
                   else tmp in
        let tmp := zset tmp amount 0 in
        let s' := mk_str (special s) (small_data s) amount (s_len s) (Heap a) tmp
                         DeallocDefault in
        (s', mk_info (s_capa s') (s_len s') (s_data s'))
      end.

(** the label [big:] of [resize] *)
Definition resize_big (s : str_s) (size : Z) : str_s * fio_string_info_s :=
  let s1 := set_len s size in
  let s2 := set_heap s1 (zset (s_heap s1) size 0) in
  (s2, mk_info (s_capa s2) size (s_data s2)).

Definition resize (s : str_s) (size : Z) : str_s * fio_string_info_s :=
  if FIO_STRING_IS_FROZEN s then (s, info s) else
  if FIO_STRING_IS_SMALL s then
    if size <=? FIO_STRING_SMALL_CAPA then
      let s1 := FIO_STRING_SMALL_LEN_SET s size in
      let s2 := set_small_data s1 (zset (small_data s1) size 0) in
      (s2, mk_info FIO_STRING_SMALL_CAPA size Inline)
    else
      let s1 := FIO_STRING_SMALL_LEN_SET s FIO_STRING_SMALL_CAPA in
      let s2 := fst (reserve s1 size) in
      resize_big s2 size
  else
    let s1 :=
      if s_capa s <=? size then
        let s0 := if negb (dealloc_is_null (s_dealloc s)) && negb (s_capa s =? 0)
                  then set_len s (s_capa s) else s in
        fst (reserve s0 size)
      else s in
    resize_big s1 size.

(** [write(s, src, src_len)] with [src_len = |src|] and [src] not NULL *)
Definition write (s : str_s) (src : list Z) : str_s * fio_string_info_s :=
  let src_len := zlen src in
  if (src_len =? 0) || FIO_STRING_IS_FROZEN s then (s, info s) else
  let '(s1, state) := resize s (u64 (src_len + len s)) in
  (poke s1 (i_data state) (i_len state - src_len) src, state).

Definition i64 (x : Z) : Z :=
  let y := u64 x in if y <? 9223372036854775808 then y else y - 18446744073709551616.

(** the digit loop of [write_i]: [buf] holds the digits, least significant first *)
Fixpoint write_i_digits (fuel : nat) (num t : Z) (buf : list Z) : list Z :=
  match fuel with
  | O => buf
  | S n =>
    if num =? 0 then buf
    else write_i_digits n t (Z.quot t 10) (buf ++ [u8 (48 + (num - i64 (t * 10)))])
  end.

(** [neg] is assigned only when [num < 0]; [uninit_neg] is what it holds otherwise *)
Variable uninit_neg : bool.

Definition write_i (s : str_s) (num : Z) : str_s * fio_string_info_s :=
  if FIO_STRING_IS_FROZEN s then (s, info s) else
  if num =? 0 then
    let '(s1, i) := resize s (u64 (len s + 1)) in
    (poke s1 (i_data i) (i_len i - 1) [48], i)
  else
    let t := Z.quot num 10 in
    let '(num, t, neg) :=
      if num <? 0 then (i64 (0 - num), i64 (0 - t), true) else (num, t, uninit_neg) in
    let buf := write_i_digits 22 num t [] in
    let buf := if neg then buf ++ [45] else buf in
    let l := zlen buf in
    let '(s1, i) := resize s (u64 (len s + l)) in
    (poke s1 (i_data i) (i_len i - l) (rev buf), i).

(** [concat(dest, src)], [src] a string other than [dest] *)
Definition concat (dest src : str_s) : str_s * fio_string_info_s :=
  if FIO_STRING_IS_FROZEN dest then (dest, info dest) else
  let src_state := info src in
  if i_len src_state =? 0 then (dest, info dest) else
  let old_len := len dest in
  let '(d1, state) := resize dest (u64 (i_len src_state + old_len)) in
  (poke d1 (i_data state) old_len (content src), state).

(** [replace(s, start_pos, old_len, src, src_len)] *)
Definition replace (s : str_s) (start_pos old_len : Z) (src : list Z)
  : str_s * fio_string_info_s :=
  let src_len := zlen src in
  let state := info s in
  if FIO_STRING_IS_FROZEN s || ((old_len =? 0) && (src_len =? 0)) then (s, state) else
  let start_pos :=
    if start_pos <? 0
    then let p := i64 (start_pos + raw_len s + 1) in if p <? 0 then 0 else p
    else start_pos in
  if i_len state <=? u64 (start_pos + old_len) then
    (* old_len overflows the end of the String *)
    let s' := if FIO_STRING_IS_SMALL s then FIO_STRING_SMALL_LEN_SET s start_pos
              else set_len s start_pos in
    write s' src
  else
    let new_size := u64 (i_len state + (src_len - old_len)) in
    let '(s1, state1) :=
      if negb (old_len =? src_len) then
        let '(s0, st0) :=
          if old_len <? src_len
          then resize s (u64 (i_len state + (src_len - old_len)))
          else (s, state) in
        let moved := zsub (buffer_of s0 (i_data st0)) (start_pos + old_len)
                          (i_len st0 - start_pos - old_len) in
        (poke s0 (i_data st0) (start_pos + src_len) moved, st0)
      else (s, state) in
    let s2 := if negb (src_len =? 0) then poke s1 (i_data state1) start_pos src else s1 in
    resize s2 new_size.

(** [vprintf]: [fmt_len] is what [vsnprintf(NULL, 0, ...)] returns and [text]
    the bytes the second [vsnprintf] produces (a NUL follows them) *)
Definition vprintf (s : str_s) (fmt_len : Z) (text : list Z) : str_s * fio_string_info_s :=
  if fmt_len <=? 0 then (s, info s) else
  let '(s1, state) := resize s (u64 (fmt_len + len s)) in
  (poke s1 (i_data state) (i_len state - fmt_len) (text ++ [0]), state).

Definition printf := vprintf.

(** *** C / JSON escaping *)

(** [fio__string_utf8_map] *)
Definition fio__string_utf8_map : list Z :=
  [1; 1; 1; 1; 1; 1; 1; 1; 1; 1; 1; 1; 1; 1; 1; 1;
   5; 5; 5; 5; 5; 5; 5; 5; 2; 2; 2; 2; 3; 3; 4; 0].

Definition utf8_map (c : Z) : Z := zget 0 fio__string_utf8_map (Z.shiftr c 3).

Definition escape_hex_chars : list Z :=
  [48; 49; 50; 51; 52; 53; 54; 55; 56; 57; 65; 66; 67; 68; 69; 70].

(** "skip valid ascii" *)
Definition escape_plain (c : Z) : bool :=
  ((34 <? c) && (c <? 127) && negb (c =? 92)) || (c =? 33) || (c =? 32).

(** "skip valid UTF-8": the first switch of both loops, at [src[i]] *)
Definition escape_utf8_ok (src : list Z) (i : Z) : bool :=
  let m := utf8_map (zget junk src i) in
  let c1 := utf8_map (zget junk src (i + 1)) =? 5 in
  let c2 := utf8_map (zget junk src (i + 2)) =? 5 in
  let c3 := utf8_map (zget junk src (i + 3)) =? 5 in
  if m =? 4 then c3 && c2 && c1
  else if m =? 3 then c2 && c1
  else if m =? 2 then c1
  else false.

(** the two-byte escapes: backspace, form feed, newline, carriage return, tab,
    double quote, backslash and slash map to the letter after the backslash *)
Definition escape_short (c : Z) : option Z :=
  if c =? 8 then Some 98 else if c =? 12 then Some 102
  else if c =? 10 then Some 110 else if c =? 13 then Some 114
  else if c =? 9 then Some 116 else if c =? 34 then Some 34
  else if c =? 92 then Some 92 else if c =? 47 then Some 47
  else None.

(** "collect escaping requirements": returns [(at, extra_len)] *)
Fixpoint escape_scan (fuel : nat) (src : list Z) (i at_ extra_len : Z) : Z * Z :=
  match fuel with
  | O => (at_, extra_len)
  | S n =>
    if zlen src <=? i then (at_, extra_len) else
    let c := zget junk src i in
    if escape_plain c then escape_scan n src (i + 1) at_ extra_len
    else if escape_utf8_ok src i then escape_scan n src (i + utf8_map c) at_ extra_len
    else
      let at_ := if negb (at_ =? 0) then at_ else i + 1 in
      let extra_len := match escape_short c with
                       | Some _ => extra_len + 1
                       | None => extra_len + 5
                       end in
      escape_scan n src (i + 1) at_ extra_len
  end.

(** "start escaping": [out] is what has been stored at [dest.data[0 .. at)] *)
Fixpoint escape_emit (fuel : nat) (src : list Z) (i : Z) (out : list Z) : list Z :=
  match fuel with
  | O => out
  | S n =>
    if zlen src <=? i then out else
    let c := zget junk src i in
    if escape_plain c then escape_emit n src (i + 1) (out ++ [c])
    else if escape_utf8_ok src i then
      escape_emit n src (i + utf8_map c) (out ++ zsub src i (utf8_map c))
    else
      let w :=
        match escape_short c with
        | Some e => [92; e]
        | None =>
          if c <? 127
          then [92; 117; 48; 48; zget 0 escape_hex_chars (Z.shiftr c 4);
                zget 0 escape_hex_chars (Z.land c 15)]
          else [92; 120; zget 0 escape_hex_chars (Z.shiftr c 4);
                zget 0 escape_hex_chars (Z.land c 15)]
        end in
      escape_emit n src (i + 1) (out ++ w)
  end.

Definition write_escape (s : str_s) (src : list Z) : str_s * fio_string_info_s :=
  let len_ := zlen src in
  let '(at_, extra_len) := escape_scan (length src) src 0 0 0 in
  if extra_len =? 0 then write s src else
  let '(s1, dest) := reserve s (u64 (len s + extra_len + len_)) in
  let at_ := u64 (at_ - 1) in
  let at_ := if 8 <=? at_ then at_ else 0 in
  let out := escape_emit (length src) src at_ (zsub src 0 at_) in
  let s2 := poke s1 (i_data dest) (i_len dest) out in
  resize s2 (u64 (i_len dest + zlen out)).

(** the [is_hex] table of [write_unescape]: a hex digit's value plus one *)
Definition is_hex_table : list Z :=
  [
   0; 0; 0; 0; 0; 0; 0; 0; 0; 0; 0; 0; 0; 0; 0; 0;
   0; 0; 0; 0; 0; 0; 0; 0; 0; 0; 0; 0; 0; 0; 0; 0;
   0; 0; 0; 0; 0; 0; 0; 0; 0; 0; 0; 0; 0; 0; 0; 0;
   1; 2; 3; 4; 5; 6; 7; 8; 9; 10; 0; 0; 0; 0; 0; 0;
   0; 11; 12; 13; 14; 15; 16; 0; 0; 0; 0; 0; 0; 0; 0; 0;
   0; 0; 0; 0; 0; 0; 0; 0; 0; 0; 0; 0; 0; 0; 0; 0;
   0; 11; 12; 13; 14; 15; 16; 0; 0; 0; 0; 0; 0; 0; 0; 0;
   0; 0; 0; 0; 0; 0; 0; 0; 0; 0; 0; 0; 0; 0; 0; 0;
   0; 0; 0; 0; 0; 0; 0; 0; 0; 0; 0; 0; 0; 0; 0; 0;
   0; 0; 0; 0; 0; 0; 0; 0; 0; 0; 0; 0; 0; 0; 0; 0;
   0; 0; 0; 0; 0; 0; 0; 0; 0; 0; 0; 0; 0; 0; 0; 0;
   0; 0; 0; 0; 0; 0; 0; 0; 0; 0; 0; 0; 0; 0; 0; 0;
   0; 0; 0; 0; 0; 0; 0; 0; 0; 0; 0; 0; 0; 0; 0; 0;
   0; 0; 0; 0; 0; 0; 0; 0; 0; 0; 0; 0; 0; 0; 0; 0;
   0; 0; 0; 0; 0; 0; 0; 0; 0; 0; 0; 0; 0; 0; 0; 0;
   0; 0; 0; 0; 0; 0; 0; 0; 0; 0; 0; 0; 0; 0; 0; 0 ].

Definition is_hex (c : Z) : Z := zget 0 is_hex_table c.

(** [memchr(src + pos, c, end - (src + pos))] as an offset; [end] when absent *)
Fixpoint memchr_from (src : list Z) (c : Z) (pos : Z) : Z :=
  match src with
  | [] => pos
  | x :: src' => if x =? c then pos else memchr_from src' c (pos + 1)
  end.
Definition memchr (src : list Z) (c pos : Z) : Z :=
  memchr_from (skipn (Z.to_nat pos) src) c pos.

(** the UTF-8 bytes stored for the code point [u] *)
Definition unescape_utf8 (u : Z) : list Z :=
  if u <=? 127 then [u8 u]
  else if u <=? 2047 then [u8 (Z.lor 192 (Z.shiftr u 6)); u8 (Z.lor 128 (Z.land u 63))]
  else if u <=? 65535 then
    [u8 (Z.lor 224 (Z.shiftr u 12)); u8 (Z.lor 128 (Z.land (Z.shiftr u 6) 63));
     u8 (Z.lor 128 (Z.land u 63))]
  else
    [u8 (Z.lor 240 (Z.land (Z.shiftr u 18) 7)); u8 (Z.lor 128 (Z.land (Z.shiftr u 12) 63));
     u8 (Z.lor 128 (Z.land (Z.shiftr u 6) 63)); u8 (Z.lor 128 (Z.land u 63))].

(** two hex digits at [src[p]], [src[p+1]] as a byte *)
Definition hex_pair (src : list Z) (p : Z) : Z :=
  Z.lor (Z.shiftl (is_hex (zget junk src p) - 1) 4) (is_hex (zget junk src (p + 1)) - 1).
Definition hex_ok (src : list Z) (p : Z) : bool := negb (is_hex (zget junk src p) =? 0).

(** the [switch (src[0])] after a backslash, [src[0]] at offset [p]: the bytes
    stored and the new offset *)
Definition unescape_one (src : list Z) (p : Z) : list Z * Z :=
  let c := zget junk src p in
  let invalid_escape := ([c], p + 1) in
  if c =? 98 then ([8], p + 1)
  else if c =? 102 then ([12], p + 1)
  else if c =? 110 then ([10], p + 1)
  else if c =? 114 then ([13], p + 1)
  else if c =? 116 then ([9], p + 1)
  else if c =? 117 then
    if hex_ok src (p + 1) && hex_ok src (p + 2) && hex_ok src (p + 3) && hex_ok src (p + 4)
    then
      let u := u32 (Z.lor (Z.shiftl (hex_pair src (p + 1)) 8) (hex_pair src (p + 3))) in
      if (hex_pair src (p + 1) =? 216) && (zget junk src (p + 5) =? 92) &&
         (zget junk src (p + 6) =? 117) && hex_ok src (p + 7) && hex_ok src (p + 8) &&
         hex_ok src (p + 9) && hex_ok src (p + 10)
      then
        (* surrogate-pair *)
        let u := u32 (Z.shiftl (Z.land u 1023) 10) in
        let u := Z.lor u (Z.land (Z.lor (Z.shiftl (hex_pair src (p + 7)) 8)
                                        (hex_pair src (p + 9))) 1023) in
        let u := u32 (u + 65536) in
        (unescape_utf8 u, p + 6 + 5)
      else (unescape_utf8 u, p + 5)
    else invalid_escape
  else if c =? 120 then
    if hex_ok src (p + 1) && hex_ok src (p + 2)
    then ([u8 (hex_pair src (p + 1))], p + 3)
    else invalid_escape
  else if (48 <=? c) && (c <=? 55) then
    let c1 := zget junk src (p + 1) in
    if (48 <=? c1) && (c1 <=? 55)
    then ([u8 (Z.lor (Z.shiftl (c - 48) 3) (c1 - 48))], p + 2)
    else invalid_escape
  else invalid_escape.

(** the [while (src < end)] loop; [out] is what was stored at [dest.data[0 .. at)] *)
Fixpoint unescape_loop (fuel : nat) (src : list Z) (pos : Z) (out : list Z) : list Z :=
  match fuel with
  | O => out
  | S n =>
    if zlen src <=? pos then out else
    let '(pos, out) :=
      if negb (zget junk src pos =? 92) then
        let escape_pos := memchr src 92 pos in
        (escape_pos, out ++ zsub src pos (escape_pos - pos))
      else (pos, out) in
    let '(pos, out) :=
      if zlen src - pos =? 1 then (pos + 1, out ++ [zget junk src pos]) else (pos, out) in
    if zlen src <=? pos then out else
    let '(w, pos) := unescape_one src (pos + 1) in
    unescape_loop n src pos (out ++ w)
  end.

Definition write_unescape (s : str_s) (src : list Z) : str_s * fio_string_info_s :=
  let '(s1, dest) := reserve s (u64 (len s + zlen src)) in
  let out := unescape_loop (S (length src)) src 0 [] in
  let s2 := poke s1 (i_data dest) (i_len dest) out in
  resize s2 (u64 (i_len dest + zlen out)).

(** *** Base64 *)

(** the two encoding arrays of [write_b64enc] (65 characters each) *)
Definition encoding_std : list Z :=
  [65; 66; 67; 68; 69; 70; 71; 72; 73; 74; 75; 76; 77; 78; 79; 80; 81; 82; 83; 84; 85; 86; 87; 88; 89; 90; 97; 98; 99; 100; 101; 102; 103; 104; 105; 106; 107; 108; 109; 110; 111; 112; 113; 114; 115; 116; 117; 118; 119; 120; 121; 122; 48; 49; 50; 51; 52; 53; 54; 55; 56; 57; 43; 47; 61].
Definition encoding_url : list Z :=
  [65; 66; 67; 68; 69; 70; 71; 72; 73; 74; 75; 76; 77; 78; 79; 80; 81; 82; 83; 84; 85; 86; 87; 88; 89; 90; 97; 98; 99; 100; 101; 102; 103; 104; 105; 106; 107; 108; 109; 110; 111; 112; 113; 114; 115; 116; 117; 118; 119; 120; 121; 122; 48; 49; 50; 51; 52; 53; 54; 55; 56; 57; 45; 95; 61].
Definition encoding (url_encoded : Z) : list Z :=
  if url_encoded =? 0 then encoding_std else encoding_url.

Section Encode.
Variable enc : list Z.
Definition enc_at (i : Z) : Z := zget 0 enc i.

(** one pass of [while (groups)]: three bytes read, four characters written *)
Definition b64enc_group (tmp1 tmp2 tmp3 : Z) : list Z :=
  [enc_at (Z.land (Z.shiftr tmp1 2) 63);
   enc_at (Z.lor (Z.shiftl (Z.land tmp1 3) 4) (Z.land (Z.shiftr tmp2 4) 15));
   enc_at (Z.lor (Z.shiftl (Z.land tmp2 15) 2) (Z.land (Z.shiftr tmp3 6) 3));
   enc_at (Z.land tmp3 63)].

Fixpoint b64enc_groups (groups : nat) (reader : list Z) : list Z * list Z :=
  match groups with
  | O => ([], reader)
  | S g =>
    let w := b64enc_group (nth 0 reader junk) (nth 1 reader junk) (nth 2 reader junk) in
    let '(ws, reader') := b64enc_groups g (skipn 3 reader) in
    (w ++ ws, reader')
  end.

(** "write padding / ending": [switch (mod)] *)
Definition b64enc_tail (mod_ : Z) (reader : list Z) : list Z :=
  if mod_ =? 2 then
    let tmp1 := nth 0 reader junk in
    let tmp2 := nth 1 reader junk in
    [enc_at (Z.land (Z.shiftr tmp1 2) 63);
     enc_at (Z.lor (Z.shiftl (Z.land tmp1 3) 4) (Z.land (Z.shiftr tmp2 4) 15));
     enc_at (Z.shiftl (Z.land tmp2 15) 2);
     61]
  else if mod_ =? 1 then
    let tmp1 := nth 0 reader junk in
    [enc_at (Z.land (Z.shiftr tmp1 2) 63);
     enc_at (Z.shiftl (Z.land tmp1 3) 4);
     61; 61]
  else [].
End Encode.

Definition write_b64enc (s : str_s) (data_ : list Z) (url_encoded : Z)
  : str_s * fio_string_info_s :=
  let len_ := zlen data_ in
  if len_ =? 0 then (s, info s) else
  let enc := encoding url_encoded in
  let groups := i32 (len_ / 3) in
  let mod_ := i32 (len_ - groups * 3) in
  let target_size := i32 ((groups + (if mod_ =? 0 then 0 else 1)) * 4) in
  let org_len := u32 (len s) in
  let '(s1, i) := resize s (u32 (org_len + target_size)) in
  let '(ws, reader) := b64enc_groups enc (Z.to_nat groups) data_ in
  let out := ws ++ b64enc_tail enc mod_ reader in
  (poke s1 (i_data i) org_len out, i).

(** the [base64_decodes] table of [write_b64dec] *)
Definition base64_decodes_table : list Z :=
  [
   0; 0; 0; 0; 0; 0; 0; 0; 0; 0; 0; 0; 0; 0; 0; 0;
   0; 0; 0; 0; 0; 0; 0; 0; 0; 0; 0; 0; 0; 0; 0; 0;
   0; 0; 0; 0; 0; 0; 0; 0; 0; 0; 0; 125; 127; 125; 0; 127;
   105; 107; 109; 111; 113; 115; 117; 119; 121; 123; 0; 0; 0; 129; 0; 0;
   0; 1; 3; 5; 7; 9; 11; 13; 15; 17; 19; 21; 23; 25; 27; 29;
   31; 33; 35; 37; 39; 41; 43; 45; 47; 49; 51; 0; 0; 0; 0; 127;
   0; 53; 55; 57; 59; 61; 63; 65; 67; 69; 71; 73; 75; 77; 79; 81;
   83; 85; 87; 89; 91; 93; 95; 97; 99; 101; 103; 0; 0; 0; 0; 0;
   0; 0; 0; 0; 0; 0; 0; 0; 0; 0; 0; 0; 0; 0; 0; 0;
   0; 0; 0; 0; 0; 0; 0; 0; 0; 0; 0; 0; 0; 0; 0; 0;
   0; 0; 0; 0; 0; 0; 0; 0; 0; 0; 0; 0; 0; 0; 0; 0;
   0; 0; 0; 0; 0; 0; 0; 0; 0; 0; 0; 0; 0; 0; 0; 0;
   0; 0; 0; 0; 0; 0; 0; 0; 0; 0; 0; 0; 0; 0; 0; 0;
   0; 0; 0; 0; 0; 0; 0; 0; 0; 0; 0; 0; 0; 0; 0; 0;
   0; 0; 0; 0; 0; 0; 0; 0; 0; 0; 0; 0; 0; 0; 0; 0;
   0; 0; 0; 0; 0; 0; 0; 0; 0; 0; 0; 0; 0; 0; 0; 0 ].

Definition base64_decodes (x : Z) : Z := zget 0 base64_decodes_table x.
Definition FIO_BASE64_BITVAL (x : Z) : Z := Z.land (Z.shiftr (base64_decodes x) 1) 63.

(** [isspace] in the C locale *)
Definition isspace (c : Z) : bool :=
  (c =? 32) || ((9 <=? c) && (c <=? 13)).

(** The decoder walks [encoded] with a pointer and a count that move together
    ([encoded++] comes with [len--]); the model keeps the [len] bytes still to
    read as a list [rest] and the bytes already stepped over as [back], the
    nearest first: [encoded[-1]] is the head of [back], and before the first
    byte of the caller's buffer lies [junk]. *)

Fixpoint drop_unknown (l : list Z) : list Z :=
  match l with
  | [] => []
  | x :: l' => if base64_decodes x =? 0 then drop_unknown l' else l
  end.

(** "skip unknown data at end": [len--] while the last byte is not in the table *)
Definition b64dec_strip (encoded : list Z) : list Z :=
  rev (drop_unknown (rev encoded)).

(** the loop that steps over white space: [len--; encoded++] while [len] is
    not zero and the current byte is a space *)
Fixpoint b64dec_skip (rest back : list Z) : list Z * list Z :=
  match rest with
  | [] => ([], back)
  | c :: rest' => if isspace c then b64dec_skip rest' (c :: back) else (rest, back)
  end.

(** the three bytes stored for a full group *)
Definition b64dec_group (tmp1 tmp2 tmp3 tmp4 : Z) : list Z :=
  [u8 (Z.lor (Z.shiftl (FIO_BASE64_BITVAL tmp1) 2) (Z.shiftr (FIO_BASE64_BITVAL tmp2) 4));
   u8 (Z.lor (Z.shiftl (FIO_BASE64_BITVAL tmp2) 4) (Z.shiftr (FIO_BASE64_BITVAL tmp3) 2));
   u8 (Z.lor (Z.shiftl (FIO_BASE64_BITVAL tmp3) 6) (FIO_BASE64_BITVAL tmp4))].

(** the result of a decoding stage: the bytes stored so far at [i.data], and
    where the reader stands; [None] when the stage left through
    [return (fio_string_info_s){.data = NULL}] *)
Definition dec_state : Type := list Z * option (list Z * list Z).

(** [while (len >= 4)] *)
Fixpoint b64dec_loop (fuel : nat) (rest back out : list Z) : dec_state :=
  match fuel with
  | O => (out, Some (rest, back))
  | S n =>
    match rest with
    | tmp1 :: tmp2 :: tmp3 :: tmp4 :: rest' =>
      if isspace tmp1 then
        let '(rest1, back1) := b64dec_skip rest back in
        b64dec_loop n rest1 back1 out
      else if (base64_decodes tmp1 =? 0) || (base64_decodes tmp2 =? 0) ||
              (base64_decodes tmp3 =? 0) || (base64_decodes tmp4 =? 0)
      then (out, None)
      else b64dec_loop n rest' (tmp4 :: tmp3 :: tmp2 :: tmp1 :: back)
                       (out ++ b64dec_group tmp1 tmp2 tmp3 tmp4)
    | _ => (out, Some (rest, back))
    end
  end.

(** "decode tail - if any": [switch (len)] *)
Definition b64dec_tail (rest back out : list Z) : dec_state :=
  match rest with
  | [tmp1] =>
    if base64_decodes tmp1 =? 0 then (out, None)
    else (out ++ [u8 (FIO_BASE64_BITVAL tmp1)], Some ([], tmp1 :: back))
  | [tmp1; tmp2] =>
    if (base64_decodes tmp1 =? 0) || (base64_decodes tmp2 =? 0) then (out, None)
    else (out ++ [u8 (Z.lor (Z.shiftl (FIO_BASE64_BITVAL tmp1) 2)
                            (Z.shiftr (FIO_BASE64_BITVAL tmp2) 6));
                  u8 (Z.shiftl (FIO_BASE64_BITVAL tmp2) 4)],
          Some ([], tmp2 :: tmp1 :: back))
  | [tmp1; tmp2; tmp3] =>
    if (base64_decodes tmp1 =? 0) || (base64_decodes tmp2 =? 0) ||
       (base64_decodes tmp3 =? 0) then (out, None)
    else (out ++ [u8 (Z.lor (Z.shiftl (FIO_BASE64_BITVAL tmp1) 2)
                            (Z.shiftr (FIO_BASE64_BITVAL tmp2) 6));
                  u8 (Z.lor (Z.shiftl (FIO_BASE64_BITVAL tmp2) 4)
                            (Z.shiftr (FIO_BASE64_BITVAL tmp3) 2));
                  u8 (Z.shiftl (FIO_BASE64_BITVAL tmp3) 6)],
          Some ([], tmp3 :: tmp2 :: tmp1 :: back))
  | _ => (out, Some (rest, back))
  end.

(** the padding test after the tail: [written] once [encoded[-1]] and
    [encoded[-2]] were compared with ['='] *)
Definition b64dec_written (back : list Z) (written : Z) : Z :=
  if nth 0 back junk =? 61 then
    let written := i32 (written - 1) in
    let written := if nth 1 back junk =? 61 then i32 (written - 1) else written in
    if written <? 0 then 0 else written
  else written.

(** everything between "skip unknown data at end" and the final [resize] *)
Definition b64dec_run (encoded : list Z) : dec_state :=
  let rest := b64dec_strip encoded in
  match b64dec_loop (S (length rest)) rest [] [] with
  | (out, None) => (out, None)
  | (out, Some (rest1, back1)) =>
    let '(rest2, back2) := b64dec_skip rest1 back1 in
    b64dec_tail rest2 back2 out
  end.

Definition null_info : fio_string_info_s := mk_info 0 0 Null.

Definition write_b64dec (s : str_s) (encoded : list Z) : str_s * fio_string_info_s :=
  if zlen encoded =? 0 then (s, info s) else
  let len_ := zlen (b64dec_strip encoded) in
  let org_len := u32 (len s) in
  let '(s1, i) := reserve s (u64 (org_len + Z.shiftr len_ 2 * 3 + 3)) in
  match b64dec_run encoded with
  | (out, None) => (poke s1 (i_data i) org_len out, null_info)
  | (out, Some (_, back)) =>
    let written := b64dec_written back (i32 (zlen out)) in
    resize (poke s1 (i_data i) org_len out) (u32 (org_len + written))
  end.

(** *** Frozen strings *)

Lemma frozen_freeze (s : str_s) : FIO_STRING_IS_FROZEN (freeze s) = true.
Proof.
  unfold FIO_STRING_IS_FROZEN, freeze, set_special; cbn [special].
  rewrite Z.lor_spec. change (Z.testbit 2 1) with true. apply orb_true_r.
Qed.

(** *** Stores that stay inside the buffer *)

Lemma zset_cons {A} (x : A) (l : list A) (i : Z) (y : A) :
  0 <= i -> zset (x :: l) (i + 1) y = x :: zset l i y.
Proof.
  intros Hi. unfold zset. rewrite zlen_cons.
  replace (0 <=? i + 1) with true by (symmetry; apply Z.leb_le; lia).
  replace (0 <=? i) with true by (symmetry; apply Z.leb_le; lia).
  replace (i + 1 <? 1 + zlen l) with (i <? zlen l)
    by (destruct (i <? zlen l) eqn:E; symmetry;
        [apply Z.ltb_lt; apply Z.ltb_lt in E | apply Z.ltb_ge; apply Z.ltb_ge in E]; lia).
  cbn [andb]. destruct (i <? zlen l); [|reflexivity].
  replace (Z.to_nat (i + 1)) with (S (Z.to_nat i)) by lia.
  reflexivity.
Qed.

Lemma zblit_cons {A} (src : list A) :
  forall (x : A) (l : list A) (off : Z),
    0 <= off -> zblit (x :: l) (off + 1) src = x :: zblit l off src.
Proof.
  induction src as [|y src IH]; intros x l off Hoff; cbn [zblit]; [reflexivity|].
  rewrite zset_cons by exact Hoff. apply IH. lia.
Qed.

(** on a string whose small flag is set, a store at or after the pointer to
    the inline bytes changes these bytes and nothing else *)
Lemma poke_inline (s : str_s) (off : Z) (bytes : list Z) :
  Z.testbit (special s) 0 = true -> 0 <= off ->
  poke s Inline off bytes = set_small_data s (zblit (small_data s) off bytes).
Proof.
  intros Hbit Hoff. unfold poke. rewrite zblit_cons by exact Hoff.
  cbn [hd tl special set_special set_small_data]. rewrite Hbit.
  destruct s; reflexivity.
Qed.

(** the pointer read from the info of [s] is one [s] is read through: the
    inline bytes of a string whose small flag is set, or a buffer outside
    the struct *)
Definition reads_through (s : str_s) (p : ptr) : Prop :=
  match p with
  | Inline => Z.testbit (special s) 0 = true
  | _ => True
  end.

Lemma poke_cases (s : str_s) p off bytes :
  reads_through s p -> 0 <= off ->
  poke s p off bytes =
  match p with
  | Inline => set_small_data s (zblit (small_data s) off bytes)
  | Heap _ => set_heap s (zblit (s_heap s) off bytes)
  | Null => s
  end.
Proof.
  intros Hp Hoff. destruct p; [reflexivity| |reflexivity].
  apply poke_inline; assumption.
Qed.

Lemma info_poke (s : str_s) p off bytes :
  reads_through s p -> 0 <= off -> info (poke s p off bytes) = info s.
Proof. intros Hp Hoff. rewrite poke_cases by assumption. destruct p; reflexivity. Qed.

Lemma frozen_poke (s : str_s) p off bytes :
  reads_through s p -> 0 <= off ->
  FIO_STRING_IS_FROZEN (poke s p off bytes) = FIO_STRING_IS_FROZEN s.
Proof. intros Hp Hoff. rewrite poke_cases by assumption. destruct p; reflexivity. Qed.

Section Frozen.
Variable s : str_s.
Hypothesis Hfrozen : FIO_STRING_IS_FROZEN s = true.

Lemma frozen_resize size : resize s size = (s, info s).
Proof. unfold resize. rewrite Hfrozen. reflexivity. Qed.

Lemma frozen_reserve amount : reserve s amount = (s, info s).
Proof. unfold reserve. rewrite Hfrozen. reflexivity. Qed.

Lemma frozen_write src : write s src = (s, info s).
Proof. unfold write. rewrite Hfrozen, orb_true_r. reflexivity. Qed.

Lemma frozen_write_i num : write_i s num = (s, info s).
Proof. unfold write_i. rewrite Hfrozen. reflexivity. Qed.

Lemma frozen_concat src : concat s src = (s, info s).
Proof. unfold concat. rewrite Hfrozen. reflexivity. Qed.

Lemma frozen_replace start_pos old_len src :
  replace s start_pos old_len src = (s, info s).
Proof. unfold replace. rewrite Hfrozen. reflexivity. Qed.

End Frozen.

End Allocator.

(** An allocator that never fails, for running the model. *)
Module Run.
Definition calloc_ (n : Z) : option Z := Some 4096.
Definition realloc_ (p : ptr) (n : Z) : option Z := Some 8192.
Definition write := write calloc_ realloc_ 170.
Definition write_b64enc := write_b64enc calloc_ realloc_ 170.
Definition write_b64dec := write_b64dec calloc_ realloc_ 170.
Definition write_escape := write_escape calloc_ realloc_ 170.
Definition write_unescape := write_unescape calloc_ realloc_ 170.
Definition printf := printf calloc_ realloc_ 170.
End Run.

(** *** Base64: the characters and the bit arithmetic, by enumeration *)

Definition zrange (n : nat) : list Z := map Z.of_nat (seq 0 n).

Lemma zrange_complete (n : nat) (x : Z) : 0 <= x < Z.of_nat n -> In x (zrange n).
Proof.
  intros Hx. unfold zrange. apply in_map_iff. exists (Z.to_nat x). split; [lia|].
  apply in_seq. lia.
Qed.

Lemma forallb_zrange (n : nat) (P : Z -> bool) :
  forallb P (zrange n) = true -> forall x, 0 <= x < Z.of_nat n -> P x = true.
Proof.
  intros H x Hx. rewrite forallb_forall in H. apply H, zrange_complete, Hx.
Qed.

Definition is_byte (x : Z) : Prop := 0 <= x < 256.

(** what the decoder needs of an encoded character *)
Definition char_ok (enc : list Z) (v : Z) : bool :=
  let c := enc_at enc v in
  negb (base64_decodes c =? 0) && (FIO_BASE64_BITVAL c =? v) &&
  negb (isspace c) && negb (c =? 61).

Lemma encoding_chars (url_encoded v : Z) :
  0 <= v < 64 -> char_ok (encoding url_encoded) v = true.
Proof.
  intros Hv. unfold encoding. destruct (url_encoded =? 0).
  - apply (forallb_zrange 64 (char_ok encoding_std)); [vm_compute; reflexivity | exact Hv].
  - apply (forallb_zrange 64 (char_ok encoding_url)); [vm_compute; reflexivity | exact Hv].
Qed.

Lemma pad_char :
  negb (base64_decodes 61 =? 0) && (FIO_BASE64_BITVAL 61 =? 0) && negb (isspace 61) = true.
Proof. vm_compute. reflexivity. Qed.

Lemma isspace_unknown (c : Z) : isspace c = true -> base64_decodes c = 0.
Proof.
  unfold isspace. intros H. apply orb_true_iff in H as [H|H].
  - apply Z.eqb_eq in H. subst. reflexivity.
  - apply andb_true_iff in H as [H1 H2]. apply Z.leb_le in H1. apply Z.leb_le in H2.
    assert (E : c = 9 \/ c = 10 \/ c = 11 \/ c = 12 \/ c = 13) by lia.
    destruct E as [E|[E|[E|[E|E]]]]; subst; reflexivity.
Qed.

(** the six-bit values of a group of three bytes *)
Definition sextet1 (t1 : Z) : Z := Z.land (Z.shiftr t1 2) 63.
Definition sextet2 (t1 t2 : Z) : Z :=
  Z.lor (Z.shiftl (Z.land t1 3) 4) (Z.land (Z.shiftr t2 4) 15).
Definition sextet3 (t2 t3 : Z) : Z :=
  Z.lor (Z.shiftl (Z.land t2 15) 2) (Z.land (Z.shiftr t3 6) 3).
Definition sextet4 (t3 : Z) : Z := Z.land t3 63.

Definition check2 (P : Z -> Z -> bool) : bool :=
  forallb (fun a => forallb (P a) (zrange 256)) (zrange 256).

Lemma check2_sound (P : Z -> Z -> bool) :
  check2 P = true -> forall a b, is_byte a -> is_byte b -> P a b = true.
Proof.
  intros H a b Ha Hb. unfold check2 in H.
  pose proof (forallb_zrange 256 _ H a Ha) as H1. cbv beta in H1.
  exact (forallb_zrange 256 _ H1 b Hb).
Qed.

Definition sextets_in_range (t1 t2 : Z) : bool :=
  (0 <=? sextet1 t1) && (sextet1 t1 <? 64) &&
  (0 <=? sextet2 t1 t2) && (sextet2 t1 t2 <? 64) &&
  (0 <=? sextet3 t1 t2) && (sextet3 t1 t2 <? 64) &&
  (0 <=? sextet4 t1) && (sextet4 t1 <? 64) &&
  (0 <=? Z.shiftl (Z.land t1 3) 4) && (Z.shiftl (Z.land t1 3) 4 <? 64) &&
  (0 <=? Z.shiftl (Z.land t1 15) 2) && (Z.shiftl (Z.land t1 15) 2 <? 64).

Lemma sextets_range : check2 sextets_in_range = true.
Proof. vm_compute. reflexivity. Qed.

(** the three stores of a full group give the three bytes back *)
Definition byte1_back (t1 t2 : Z) : bool :=
  u8 (Z.lor (Z.shiftl (sextet1 t1) 2) (Z.shiftr (sextet2 t1 t2) 4)) =? t1.
Definition byte3_back (t2 t3 : Z) : bool :=
  u8 (Z.lor (Z.shiftl (sextet3 t2 t3) 6) (sextet4 t3)) =? t3.
(** the padded groups: the first store with one byte, the first two with two *)
Definition pad1_back (t1 t2 : Z) : bool :=
  u8 (Z.lor (Z.shiftl (sextet1 t1) 2) (Z.shiftr (Z.shiftl (Z.land t1 3) 4) 4)) =? t1.
Definition pad2_back (t1 t2 : Z) : bool :=
  u8 (Z.lor (Z.shiftl (sextet2 t1 t2) 4) (Z.shiftr (Z.shiftl (Z.land t2 15) 2) 2)) =? t2.

Lemma byte1_check : check2 byte1_back = true.
Proof. vm_compute. reflexivity. Qed.
Lemma byte3_check : check2 byte3_back = true.
Proof. vm_compute. reflexivity. Qed.
Lemma pad1_check : check2 pad1_back = true.
Proof. vm_compute. reflexivity. Qed.
Lemma pad2_check : check2 pad2_back = true.
Proof. vm_compute. reflexivity. Qed.

Definition byte2_back3 : bool :=
  forallb (fun l => forallb (fun t2 => forallb (fun m =>
    u8 (Z.lor (Z.shiftl (Z.lor (Z.shiftl l 4) (Z.land (Z.shiftr t2 4) 15)) 4)
              (Z.shiftr (Z.lor (Z.shiftl (Z.land t2 15) 2) m) 2)) =? t2)
    (zrange 4)) (zrange 256)) (zrange 4).

Lemma byte2_check : byte2_back3 = true.
Proof. vm_compute. reflexivity. Qed.

Lemma land3_range (x : Z) : 0 <= Z.land x 3 < 4.
Proof. change 3 with (Z.ones 2). rewrite Z.land_ones by lia. apply Z.mod_pos_bound. lia. Qed.

Lemma byte2_back (t1 t2 t3 : Z) :
  is_byte t2 ->
  u8 (Z.lor (Z.shiftl (sextet2 t1 t2) 4) (Z.shiftr (sextet3 t2 t3) 2)) = t2.
Proof.
  intros H2. unfold sextet2, sextet3.
  pose proof (land3_range t1) as Hl. pose proof (land3_range (Z.shiftr t3 6)) as Hm.
  generalize dependent (Z.land t1 3). generalize dependent (Z.land (Z.shiftr t3 6) 3).
  intros m Hm l Hl.
  pose proof byte2_check as H. unfold byte2_back3 in H.
  pose proof (forallb_zrange 4 _ H l Hl) as Ha. cbv beta in Ha.
  pose proof (forallb_zrange 256 _ Ha t2 H2) as Hb. cbv beta in Hb.
  pose proof (forallb_zrange 4 _ Hb m Hm) as Hc. cbv beta in Hc.
  apply Z.eqb_eq in Hc. exact Hc.
Qed.

(** *** Base64: the decoding loop, one pass at a time *)

Definition known (c : Z) : Prop := (base64_decodes c =? 0) = false.
Definition all_space (ws : list Z) : Prop := Forall (fun c => isspace c = true) ws.

Lemma b64dec_skip_spaces (ws rest back : list Z) :
  all_space ws ->
  b64dec_skip (ws ++ rest) back = b64dec_skip rest (rev ws ++ back).
Proof.
  intros H. revert back. induction H as [|c ws Hc _ IH]; intros back.
  - reflexivity.
  - cbn [app b64dec_skip]. rewrite Hc, IH. cbn [rev]. rewrite <- app_assoc. reflexivity.
Qed.

Lemma b64dec_skip_stop (c : Z) (rest back : list Z) :
  isspace c = false -> b64dec_skip (c :: rest) back = (c :: rest, back).
Proof. intros H. cbn [b64dec_skip]. rewrite H. reflexivity. Qed.

(** a full group of known characters: three bytes are stored *)
Lemma b64dec_loop_group (n : nat) (c1 c2 c3 c4 : Z) (rest back out : list Z) :
  isspace c1 = false -> known c1 -> known c2 -> known c3 -> known c4 ->
  b64dec_loop (S n) (c1 :: c2 :: c3 :: c4 :: rest) back out =
  b64dec_loop n rest (c4 :: c3 :: c2 :: c1 :: back) (out ++ b64dec_group c1 c2 c3 c4).
Proof.
  intros Hs H1 H2 H3 H4. unfold known in *. cbn [b64dec_loop].
  rewrite Hs, H1, H2, H3, H4. reflexivity.
Qed.

(** white space in front of the next byte is stepped over, while at least
    four bytes are left *)
Lemma b64dec_loop_space (n : nat) (ws : list Z) (c1 : Z) (rest back out : list Z) :
  all_space ws -> ws <> [] -> isspace c1 = false ->
  (4 <= length (ws ++ c1 :: rest))%nat ->
  b64dec_loop (S n) (ws ++ c1 :: rest) back out =
  b64dec_loop n (c1 :: rest) (rev ws ++ back) out.
Proof.
  intros Hws Hne Hc1 Hlen.
  pose proof (b64dec_skip_spaces ws (c1 :: rest) back Hws) as Hskip.
  rewrite (b64dec_skip_stop c1 _ _ Hc1) in Hskip.
  destruct ws as [|w ws]; [contradiction|].
  assert (Hw : isspace w = true) by (inversion Hws; assumption).
  cbn [app] in *.
  remember (ws ++ c1 :: rest) as l eqn:El.
  cbn [length] in Hlen.
  destruct l as [|a [|b [|c l]]]; cbn [length] in Hlen; try lia.
  cbn [b64dec_loop]. rewrite Hw, Hskip. reflexivity.
Qed.

Lemma b64dec_loop_nil (n : nat) (back out : list Z) :
  b64dec_loop n [] back out = (out, Some ([], back)).
Proof. destruct n; reflexivity. Qed.

Lemma drop_unknown_app (l1 l2 : list Z) :
  Forall (fun c => base64_decodes c = 0) l1 ->
  drop_unknown (l1 ++ l2) = drop_unknown l2.
Proof.
  induction 1 as [|c l1 Hc _ IH]; [reflexivity|].
  cbn [app drop_unknown]. rewrite Hc. exact IH.
Qed.

(** trailing white space behind text that ends in a known character is
    what "skip unknown data at end" removes *)
Lemma b64dec_strip_trail (body trail : list Z) :
  all_space trail ->
  (body = [] \/ exists c X, rev body = c :: X /\ known c) ->
  b64dec_strip (body ++ trail) = body.
Proof.
  intros Ht Hb. unfold b64dec_strip. rewrite rev_app_distr.
  rewrite drop_unknown_app.
  - destruct Hb as [->|(c & X & E & Hc)]; [reflexivity|].
    rewrite E. cbn [drop_unknown]. unfold known in Hc. rewrite Hc.
    rewrite <- E. apply rev_involutive.
  - apply Forall_rev. eapply Forall_impl; [|exact Ht].
    intros c Hc. apply isspace_unknown, Hc.
Qed.

(** *** White space between the groups of an encoded text *)

(** [spaced wss text]: the runs of [wss] put in front of each group of four
    characters of [text], in order, and one more run behind the last group *)
Fixpoint spaced (wss : list (list Z)) (text : list Z) : list Z :=
  match text with
  | c1 :: c2 :: c3 :: c4 :: text' =>
    hd [] wss ++ c1 :: c2 :: c3 :: c4 :: spaced (tl wss) text'
  | _ => text ++ hd [] wss
  end.

(** [spaced] without its last run, and that run *)
Fixpoint spaced_body (wss : list (list Z)) (text : list Z) : list Z :=
  match text with
  | c1 :: c2 :: c3 :: c4 :: text' =>
    hd [] wss ++ c1 :: c2 :: c3 :: c4 :: spaced_body (tl wss) text'
  | _ => text
  end.

Fixpoint spaced_trail (wss : list (list Z)) (text : list Z) : list Z :=
  match text with
  | c1 :: c2 :: c3 :: c4 :: text' => spaced_trail (tl wss) text'
  | _ => hd [] wss
  end.

Lemma list_ind4 {A} (P : list A -> Prop) :
  P [] -> (forall x, P [x]) -> (forall x y, P [x; y]) -> (forall x y z, P [x; y; z]) ->
  (forall x y z w l, P l -> P (x :: y :: z :: w :: l)) ->
  forall l, P l.
Proof.
  intros H0 H1 H2 H3 H4.
  assert (H : forall l, P l /\ (forall x, P (x :: l)) /\ (forall x y, P (x :: y :: l)) /\
                       (forall x y z, P (x :: y :: z :: l))).
  { induction l as [|a l (IH0 & IH1 & IH2 & IH3)]; repeat split; auto. }
  intros l. apply H.
Qed.

Lemma spaced_split (text : list Z) :
  forall wss, spaced wss text = spaced_body wss text ++ spaced_trail wss text.
Proof.
  induction text as [| | | |c1 c2 c3 c4 text IH] using list_ind4; intros wss;
    try reflexivity.
  cbn [spaced spaced_body spaced_trail]. rewrite IH, <- app_assoc. reflexivity.
Qed.

Definition all_spaces (wss : list (list Z)) : Prop := Forall all_space wss.

Lemma all_spaces_hd wss : all_spaces wss -> all_space (hd [] wss).
Proof. destruct 1; [constructor | assumption]. Qed.

Lemma all_spaces_tl wss : all_spaces wss -> all_spaces (tl wss).
Proof. destruct 1; [constructor | assumption]. Qed.

Lemma spaced_trail_space (text : list Z) :
  forall wss, all_spaces wss -> all_space (spaced_trail wss text).
Proof.
  induction text as [| | | |c1 c2 c3 c4 text IH] using list_ind4; intros wss H;
    try (apply all_spaces_hd; exact H).
  cbn [spaced_trail]. apply IH, all_spaces_tl, H.
Qed.

Lemma i32_small (x : Z) : -2147483648 <= x < 2147483648 -> i32 x = x.
Proof.
  intros H. unfold i32, u32.
  destruct (Z.ltb_spec (x mod 4294967296) 2147483648); Z.div_mod_to_equations; lia.
Qed.

Lemma u32_small (x : Z) : 0 <= x < 4294967296 -> u32 x = x.
Proof. intros H. unfold u32. apply Z.mod_small. exact H. Qed.

Lemma u64_small (x : Z) : 0 <= x < 18446744073709551616 -> u64 x = x.
Proof. intros H. unfold u64. apply Z.mod_small. exact H. Qed.

(** how many stored bytes the padding test takes back *)
Definition padk (c4 c3 : Z) : Z :=
  if c4 =? 61 then (if c3 =? 61 then 2 else 1) else 0.

Lemma b64dec_written_value (junk c4 c3 : Z) (X : list Z) (n : Z) :
  0 <= n - padk c4 c3 -> n < 2147483648 ->
  b64dec_written junk (c4 :: c3 :: X) (i32 n) = n - padk c4 c3.
Proof.
  intros Hn Hlt. unfold b64dec_written, padk in *. cbn [nth].
  assert (0 <= padk c4 c3 <= 2) by (unfold padk; destruct (c4 =? 61), (c3 =? 61); lia).
  destruct (c4 =? 61).
  - destruct (c3 =? 61).
    + rewrite (i32_small n) by lia. rewrite (i32_small (n - 1)) by lia.
      rewrite (i32_small (n - 1 - 1)) by lia.
      destruct (Z.ltb_spec (n - 1 - 1) 0); lia.
    + rewrite (i32_small n) by lia. rewrite (i32_small (n - 1)) by lia.
      destruct (Z.ltb_spec (n - 1) 0); lia.
  - rewrite i32_small by lia. lia.
Qed.

(** nothing was read yet: [encoded[-1]] is [junk], nothing is stored *)
Lemma b64dec_written_none (junk : Z) : b64dec_written junk [] (i32 0) = 0.
Proof.
  unfold b64dec_written. cbn [nth]. destruct (junk =? 61); reflexivity.
Qed.

(** *** Base64: the encoder and the decoder as functions on byte lists *)

Lemma list_ind3 {A} (P : list A -> Prop) :
  P [] -> (forall x, P [x]) -> (forall x y, P [x; y]) ->
  (forall x y z l, P l -> P (x :: y :: z :: l)) ->
  forall l, P l.
Proof.
  intros H0 H1 H2 H3.
  assert (H : forall l, P l /\ (forall x, P (x :: l)) /\ (forall x y, P (x :: y :: l))).
  { induction l as [|a l [IH0 [IH1 IH2]]].
    - repeat split; auto.
    - repeat split; auto. }
  intros l. apply H.
Qed.

Section Pure.
Variable junk : Z.
Variable url_encoded : Z.
Let enc := encoding url_encoded.

(** the characters [write_b64enc] stores for [b] *)
Definition b64_text (b : list Z) : list Z :=
  let '(ws, reader) := b64enc_groups junk enc (Z.to_nat (zlen b / 3)) b in
  ws ++ b64enc_tail junk enc (zlen b mod 3) reader.

Lemma b64_text_nil : b64_text [] = [].
Proof. reflexivity. Qed.

Lemma b64_text_one t1 :
  b64_text [t1] = [enc_at enc (sextet1 t1); enc_at enc (Z.shiftl (Z.land t1 3) 4); 61; 61].
Proof. reflexivity. Qed.

Lemma b64_text_two t1 t2 :
  b64_text [t1; t2] = [enc_at enc (sextet1 t1); enc_at enc (sextet2 t1 t2);
                       enc_at enc (Z.shiftl (Z.land t2 15) 2); 61].
Proof. reflexivity. Qed.

Lemma b64_text_cons3 t1 t2 t3 l :
  b64_text (t1 :: t2 :: t3 :: l) = b64enc_group enc t1 t2 t3 ++ b64_text l.
Proof.
  unfold b64_text.
  assert (E : zlen (t1 :: t2 :: t3 :: l) = zlen l + 1 * 3)
    by (unfold zlen; cbn [length]; lia).
  rewrite E, Z.div_add, Z.mod_add by lia.
  pose proof (zlen_nonneg l).
  assert (0 <= zlen l / 3) by (apply Z.div_pos; lia).
  replace (Z.to_nat (zlen l / 3 + 1)) with (S (Z.to_nat (zlen l / 3))) by lia.
  cbn [b64enc_groups nth skipn].
  destruct (b64enc_groups junk enc (Z.to_nat (zlen l / 3)) l) as [ws reader].
  rewrite <- app_assoc. reflexivity.
Qed.

(** what the decoder stores for the text of [b]: [b], then up to two bytes
    that the padding test takes back *)
Fixpoint dec_out (b : list Z) : list Z :=
  match b with
  | t1 :: t2 :: t3 :: l => t1 :: t2 :: t3 :: dec_out l
  | [t1] => b64dec_group (enc_at enc (sextet1 t1)) (enc_at enc (Z.shiftl (Z.land t1 3) 4)) 61 61
  | [t1; t2] => b64dec_group (enc_at enc (sextet1 t1)) (enc_at enc (sextet2 t1 t2))
                             (enc_at enc (Z.shiftl (Z.land t2 15) 2)) 61
  | [] => []
  end.

Lemma enc_at_good (v : Z) :
  0 <= v < 64 ->
  isspace (enc_at enc v) = false /\ known (enc_at enc v) /\
  FIO_BASE64_BITVAL (enc_at enc v) = v /\ (enc_at enc v =? 61) = false.
Proof.
  intros Hv. pose proof (encoding_chars url_encoded v Hv) as H.
  unfold char_ok in H. fold enc in H.
  apply andb_true_iff in H as [H H4]. apply andb_true_iff in H as [H H3].
  apply andb_true_iff in H as [H1 H2].
  apply negb_true_iff in H1, H3, H4. apply Z.eqb_eq in H2.
  unfold known. auto.
Qed.

Lemma known_pad : known 61 /\ FIO_BASE64_BITVAL 61 = 0.
Proof. split; reflexivity. Qed.

Lemma sextet_ranges (t1 t2 : Z) :
  is_byte t1 -> is_byte t2 ->
  0 <= sextet1 t1 < 64 /\ 0 <= sextet2 t1 t2 < 64 /\ 0 <= sextet3 t1 t2 < 64 /\
  0 <= sextet4 t1 < 64 /\ 0 <= Z.shiftl (Z.land t1 3) 4 < 64 /\
  0 <= Z.shiftl (Z.land t1 15) 2 < 64.
Proof.
  intros H1 H2. pose proof (check2_sound _ sextets_range t1 t2 H1 H2) as H.
  unfold sextets_in_range in H.
  repeat match type of H with
         | (_ && _) = true => let Hr := fresh "Hr" in apply andb_true_iff in H as [H Hr]
         end.
  repeat match goal with
         | Hx : (_ <=? _) = true |- _ => apply Z.leb_le in Hx
         | Hx : (_ <? _) = true |- _ => apply Z.ltb_lt in Hx
         end.
  lia.
Qed.

Lemma group_back (t1 t2 t3 : Z) :
  is_byte t1 -> is_byte t2 -> is_byte t3 ->
  b64dec_group (enc_at enc (sextet1 t1)) (enc_at enc (sextet2 t1 t2))
               (enc_at enc (sextet3 t2 t3)) (enc_at enc (sextet4 t3)) = [t1; t2; t3].
Proof.
  intros H1 H2 H3. unfold b64dec_group.
  destruct (sextet_ranges t1 t2 H1 H2) as (R1 & R2 & _).
  destruct (sextet_ranges t2 t3 H2 H3) as (_ & _ & R3 & _).
  destruct (sextet_ranges t3 t3 H3 H3) as (_ & _ & _ & R4 & _).
  destruct (enc_at_good _ R1) as (_ & _ & -> & _).
  destruct (enc_at_good _ R2) as (_ & _ & -> & _).
  destruct (enc_at_good _ R3) as (_ & _ & -> & _).
  destruct (enc_at_good _ R4) as (_ & _ & -> & _).
  pose proof (check2_sound _ byte1_check t1 t2 H1 H2) as B1.
  pose proof (check2_sound _ byte3_check t2 t3 H2 H3) as B3.
  unfold byte1_back in B1. unfold byte3_back in B3.
  apply Z.eqb_eq in B1, B3. rewrite B1, B3, (byte2_back t1 t2 t3 H2). reflexivity.
Qed.

Lemma pad1_back_eq (t1 : Z) (x3 x4 : Z) :
  is_byte t1 ->
  exists p q, b64dec_group (enc_at enc (sextet1 t1)) (enc_at enc (Z.shiftl (Z.land t1 3) 4))
                           x3 x4 = [t1; p; q].
Proof.
  intros H1. unfold b64dec_group.
  destruct (sextet_ranges t1 t1 H1 H1) as (R1 & _ & _ & _ & R5 & _).
  destruct (enc_at_good _ R1) as (_ & _ & -> & _).
  destruct (enc_at_good _ R5) as (_ & _ & -> & _).
  pose proof (check2_sound _ pad1_check t1 t1 H1 H1) as B1.
  unfold pad1_back in B1. apply Z.eqb_eq in B1. rewrite B1. eauto.
Qed.

Lemma pad2_back_eq (t1 t2 : Z) (x4 : Z) :
  is_byte t1 -> is_byte t2 ->
  exists q, b64dec_group (enc_at enc (sextet1 t1)) (enc_at enc (sextet2 t1 t2))
                         (enc_at enc (Z.shiftl (Z.land t2 15) 2)) x4 = [t1; t2; q].
Proof.
  intros H1 H2. unfold b64dec_group.
  destruct (sextet_ranges t1 t2 H1 H2) as (R1 & R2 & _).
  destruct (sextet_ranges t2 t2 H2 H2) as (_ & _ & _ & _ & _ & R6).
  destruct (enc_at_good _ R1) as (_ & _ & -> & _).
  destruct (enc_at_good _ R2) as (_ & _ & -> & _).
  destruct (enc_at_good _ R6) as (_ & _ & -> & _).
  pose proof (check2_sound _ byte1_check t1 t2 H1 H2) as B1.
  pose proof (check2_sound _ pad2_check t1 t2 H1 H2) as B2.
  unfold byte1_back in B1. unfold pad2_back in B2.
  apply Z.eqb_eq in B1, B2. rewrite B1, B2. eauto.
Qed.

(** the stored bytes start with [b] *)
Lemma dec_out_prefix (b : list Z) :
  Forall is_byte b -> firstn (length b) (dec_out b) = b.
Proof.
  induction b as [|t1|t1 t2|t1 t2 t3 l IH] using list_ind3; intros Hb.
  - reflexivity.
  - inversion Hb as [|? ? H1 _]; subst. cbn [dec_out].
    destruct (pad1_back_eq t1 61 61 H1) as (p & q & ->). reflexivity.
  - inversion Hb as [|? ? H1 Hb']; subst. inversion Hb' as [|? ? H2 _]; subst.
    cbn [dec_out]. destruct (pad2_back_eq t1 t2 61 H1 H2) as (q & ->). reflexivity.
  - inversion Hb as [|? ? H1 Hb1]; subst. inversion Hb1 as [|? ? H2 Hb2]; subst.
    inversion Hb2 as [|? ? H3 Hb3]; subst.
    cbn [dec_out length firstn]. rewrite (IH Hb3). reflexivity.
Qed.

Lemma dec_out_length (b : list Z) :
  zlen b <= zlen (dec_out b) <= zlen b + 2.
Proof.
  induction b as [|t1|t1 t2|t1 t2 t3 l IH] using list_ind3;
    try (unfold zlen; cbn; lia).
  cbn [dec_out]. rewrite !zlen_cons. lia.
Qed.

Lemma loop_one_group (ws : list Z) (c1 c2 c3 c4 : Z) (rest : list Z) (fuel : nat)
      (back out : list Z) :
  all_space ws -> isspace c1 = false -> known c1 -> known c2 -> known c3 -> known c4 ->
  (length ws + 4 + length rest < fuel)%nat ->
  exists fuel', (length rest < fuel')%nat /\
    b64dec_loop fuel (ws ++ c1 :: c2 :: c3 :: c4 :: rest) back out =
    b64dec_loop fuel' rest (c4 :: c3 :: c2 :: c1 :: rev ws ++ back)
                (out ++ b64dec_group c1 c2 c3 c4).
Proof.
  intros Hws Hs K1 K2 K3 K4 Hf.
  destruct ws as [|w ws].
  - destruct fuel as [|n]; [lia|]. exists n. split; [cbn [length] in Hf; lia|].
    cbn [app rev]. apply b64dec_loop_group; assumption.
  - destruct fuel as [|[|n]]; cbn [length] in Hf; try lia.
    exists n. split; [lia|].
    rewrite b64dec_loop_space
      by (assumption || discriminate || (rewrite length_app; cbn [length]; lia)).
    apply b64dec_loop_group; assumption.
Qed.

Lemma rev_group (ws : list Z) (c1 c2 c3 c4 : Z) (rest back : list Z) :
  rev (ws ++ c1 :: c2 :: c3 :: c4 :: rest) ++ back =
  rev rest ++ c4 :: c3 :: c2 :: c1 :: rev ws ++ back.
Proof.
  rewrite rev_app_distr. cbn [rev]. rewrite <- !app_assoc. reflexivity.
Qed.

(** the decoding loop on the spaced text of [b] stores [dec_out b] and reads
    the text to its end *)
Lemma loop_spaced_body (b : list Z) :
  Forall is_byte b ->
  forall wss fuel back out,
  all_spaces wss ->
  (length (spaced_body wss (b64_text b)) < fuel)%nat ->
  b64dec_loop fuel (spaced_body wss (b64_text b)) back out =
  (out ++ dec_out b, Some ([], rev (spaced_body wss (b64_text b)) ++ back)).
Proof.
  induction b as [|t1|t1 t2|t1 t2 t3 l IH] using list_ind3;
    intros Hb wss fuel back out Hws Hf.
  - rewrite b64_text_nil. cbn [spaced_body rev app]. rewrite app_nil_r.
    apply b64dec_loop_nil.
  - inversion Hb as [|? ? H1 _]; subst.
    rewrite b64_text_one in *. cbn [spaced_body] in *.
    destruct (sextet_ranges t1 t1 H1 H1) as (R1 & _ & _ & _ & R5 & _).
    destruct (enc_at_good _ R1) as (S1 & K1 & _).
    destruct (enc_at_good _ R5) as (_ & K2 & _).
    destruct (loop_one_group (hd [] wss) _ _ 61 61 [] fuel back out
                (all_spaces_hd _ Hws) S1 K1 K2 (proj1 known_pad) (proj1 known_pad))
      as (fuel' & _ & ->).
    { rewrite length_app in Hf. cbn [length] in *. lia. }
    rewrite b64dec_loop_nil, rev_group. reflexivity.
  - inversion Hb as [|? ? H1 Hb']; subst. inversion Hb' as [|? ? H2 _]; subst.
    rewrite b64_text_two in *. cbn [spaced_body] in *.
    destruct (sextet_ranges t1 t2 H1 H2) as (R1 & R2 & _).
    destruct (sextet_ranges t2 t2 H2 H2) as (_ & _ & _ & _ & _ & R6).
    destruct (enc_at_good _ R1) as (S1 & K1 & _).
    destruct (enc_at_good _ R2) as (_ & K2 & _).
    destruct (enc_at_good _ R6) as (_ & K3 & _).
    destruct (loop_one_group (hd [] wss) _ _ _ 61 [] fuel back out
                (all_spaces_hd _ Hws) S1 K1 K2 K3 (proj1 known_pad))
      as (fuel' & _ & ->).
    { rewrite length_app in Hf. cbn [length] in *. lia. }
    rewrite b64dec_loop_nil, rev_group. reflexivity.
  - inversion Hb as [|? ? H1 Hb1]; subst. inversion Hb1 as [|? ? H2 Hb2]; subst.
    inversion Hb2 as [|? ? H3 Hb3]; subst.
    rewrite b64_text_cons3 in *. unfold b64enc_group in *.
    cbn [app spaced_body] in *.
    fold (sextet1 t1) in *. fold (sextet2 t1 t2) in *.
    fold (sextet3 t2 t3) in *. fold (sextet4 t3) in *.
    destruct (sextet_ranges t1 t2 H1 H2) as (R1 & R2 & _).
    destruct (sextet_ranges t2 t3 H2 H3) as (_ & _ & R3 & _).
    destruct (sextet_ranges t3 t3 H3 H3) as (_ & _ & _ & R4 & _).
    destruct (enc_at_good _ R1) as (S1 & K1 & _).
    destruct (enc_at_good _ R2) as (_ & K2 & _).
    destruct (enc_at_good _ R3) as (_ & K3 & _).
    destruct (enc_at_good _ R4) as (_ & K4 & _).
    destruct (loop_one_group (hd [] wss) _ _ _ _
                (spaced_body (tl wss) (b64_text l)) fuel back out
                (all_spaces_hd _ Hws) S1 K1 K2 K3 K4)
      as (fuel' & Hf' & ->).
    { rewrite length_app in Hf. cbn [length] in *. lia. }
    rewrite (IH Hb3 (tl wss) fuel' _ _ (all_spaces_tl _ Hws) Hf').
    rewrite group_back by assumption.
    rewrite rev_group, <- app_assoc. reflexivity.
Qed.

(** the last two characters of the spaced text decide the padding test *)
Lemma spaced_body_last (b : list Z) :
  Forall is_byte b -> b <> [] ->
  forall wss, exists c4 c3 X,
    rev (spaced_body wss (b64_text b)) = c4 :: c3 :: X /\ known c4 /\
    zlen (dec_out b) = zlen b + padk c4 c3.
Proof.
  induction b as [|t1|t1 t2|t1 t2 t3 l IH] using list_ind3; intros Hb Hne wss.
  - contradiction.
  - rewrite b64_text_one. cbn [spaced_body].
    exists 61, 61. eexists. split; [|split].
    + rewrite <- (app_nil_r (rev _)), rev_group. reflexivity.
    + reflexivity.
    + reflexivity.
  - inversion Hb as [|? ? H1 Hb']; subst. inversion Hb' as [|? ? H2 _]; subst.
    rewrite b64_text_two. cbn [spaced_body].
    destruct (sextet_ranges t2 t2 H2 H2) as (_ & _ & _ & _ & _ & R6).
    destruct (enc_at_good _ R6) as (_ & _ & _ & N3).
    exists 61. eexists. eexists. split; [|split].
    + rewrite <- (app_nil_r (rev _)), rev_group. reflexivity.
    + reflexivity.
    + unfold padk. rewrite N3. reflexivity.
  - inversion Hb as [|? ? H1 Hb1]; subst. inversion Hb1 as [|? ? H2 Hb2]; subst.
    inversion Hb2 as [|? ? H3 Hb3]; subst.
    rewrite b64_text_cons3. unfold b64enc_group. cbn [app spaced_body].
    fold (sextet1 t1). fold (sextet2 t1 t2). fold (sextet3 t2 t3). fold (sextet4 t3).
    destruct l as [|x l'].
    + rewrite b64_text_nil. cbn [spaced_body].
      destruct (sextet_ranges t3 t3 H3 H3) as (_ & _ & _ & R4 & _).
      destruct (enc_at_good _ R4) as (_ & K4 & _ & N4).
      eexists. eexists. eexists. split; [|split].
      * rewrite <- (app_nil_r (rev _)), rev_group. reflexivity.
      * exact K4.
      * unfold padk. rewrite N4. reflexivity.
    + destruct (IH Hb3 ltac:(discriminate) (tl wss)) as (c4 & c3 & X & E & K & L).
      exists c4, c3. eexists. split; [|split].
      * rewrite <- (app_nil_r (rev _)), rev_group, E. cbn [app]. reflexivity.
      * exact K.
      * cbn [dec_out]. cbn [dec_out] in L. rewrite !zlen_cons in *. lia.
Qed.

(** three stored bytes for each four characters read *)
Lemma dec_out_fits (b : list Z) :
  forall wss, 4 * zlen (dec_out b) <= 3 * zlen (spaced_body wss (b64_text b)).
Proof.
  induction b as [|t1|t1 t2|t1 t2 t3 l IH] using list_ind3; intros wss.
  - rewrite b64_text_nil. unfold zlen. cbn. lia.
  - rewrite b64_text_one. cbn [spaced_body dec_out]. unfold b64dec_group.
    rewrite zlen_app, !zlen_cons. pose proof (zlen_nonneg (hd [] wss)).
    change (zlen (@nil Z)) with 0. lia.
  - rewrite b64_text_two. cbn [spaced_body dec_out]. unfold b64dec_group.
    rewrite zlen_app, !zlen_cons. pose proof (zlen_nonneg (hd [] wss)).
    change (zlen (@nil Z)) with 0. lia.
  - rewrite b64_text_cons3. unfold b64enc_group. cbn [app spaced_body dec_out].
    rewrite zlen_app, !zlen_cons. pose proof (zlen_nonneg (hd [] wss)).
    specialize (IH (tl wss)). lia.
Qed.

(** the decoder on the spaced text of [b], up to the final [resize] *)
Lemma b64dec_run_spaced (b : list Z) (wss : list (list Z)) :
  Forall is_byte b -> all_spaces wss ->
  b64dec_strip (spaced wss (b64_text b)) = spaced_body wss (b64_text b) /\
  b64dec_run (spaced wss (b64_text b)) =
  (dec_out b, Some ([], rev (spaced_body wss (b64_text b)))).
Proof.
  intros Hb Hws.
  assert (Hstrip : b64dec_strip (spaced wss (b64_text b)) = spaced_body wss (b64_text b)).
  { rewrite spaced_split. apply b64dec_strip_trail.
    - apply spaced_trail_space, Hws.
    - destruct b as [|x b']; [left; reflexivity|].
      right. destruct (spaced_body_last (x :: b') Hb ltac:(discriminate) wss)
        as (c4 & c3 & X & E & K & _).
      exists c4, (c3 :: X). split; assumption. }
  split; [exact Hstrip|].
  unfold b64dec_run. rewrite Hstrip.
  rewrite (loop_spaced_body b Hb wss _ [] [] Hws) by lia.
  rewrite app_nil_r. reflexivity.
Qed.

End Pure.

(** *** Base64 on a fresh string *)

Lemma zlen_nil {A} : zlen (@nil A) = 0.
Proof. reflexivity. Qed.

Lemma zsub_all {A} (l post : list A) : zsub (l ++ post) 0 (zlen l) = l.
Proof. exact (zsub_app_mid [] l post). Qed.

Lemma zsub_app_l {A} (l post : list A) (w : Z) :
  w <= zlen l -> zsub (l ++ post) 0 w = zsub l 0 w.
Proof.
  intros Hw. unfold zsub, zlen in *. cbn [Z.to_nat skipn].
  rewrite firstn_app. replace (Z.to_nat w - length l)%nat with 0%nat by lia.
  cbn [firstn]. apply app_nil_r.
Qed.

(** a store at the front of a buffer that is long enough *)
Lemma zblit_front {A} (buf src : list A) :
  zlen src <= zlen buf ->
  zblit buf 0 src = src ++ skipn (length src) buf.
Proof.
  intros H. unfold zlen in H.
  rewrite <- (firstn_skipn (length src) buf) at 1.
  apply (zblit_app_mid src [] (firstn (length src) buf) (skipn (length src) buf)).
  rewrite length_firstn. lia.
Qed.

(** the special byte of a small string of [n] bytes made from [FIO_STRING_INIT] *)
Definition small_special_ok (n : Z) : bool :=
  let sp := special (FIO_STRING_SMALL_LEN_SET FIO_STRING_INIT n) in
  Z.testbit sp 0 && negb (Z.testbit sp 1) && (Z.shiftr sp 2 =? n).

Lemma small_special (n : Z) :
  0 <= n <= FIO_STRING_SMALL_CAPA ->
  let s := FIO_STRING_SMALL_LEN_SET FIO_STRING_INIT n in
  Z.testbit (special s) 0 = true /\ Z.testbit (special s) 1 = false /\
  FIO_STRING_SMALL_LEN s = n.
Proof.
  intros Hn.
  assert (H : small_special_ok n = true).
  { apply (forallb_zrange 47 small_special_ok); [vm_compute; reflexivity|].
    unfold FIO_STRING_SMALL_CAPA, sizeof_str in Hn. lia. }
  unfold small_special_ok in H.
  apply andb_true_iff in H as [H H3]. apply andb_true_iff in H as [H1 H2].
  apply negb_true_iff in H2. apply Z.eqb_eq in H3. auto.
Qed.

Lemma capa2words_bound (n : Z) :
  0 <= n < 4611686018427387904 ->
  n + 1 <= FIO_STRING_CAPA2WORDS n <= n + 16.
Proof.
  intros Hn. unfold FIO_STRING_CAPA2WORDS, sizeof_long_double.
  rewrite u64_small by lia. change (16 - 1) with 15.
  pose proof (Z.add_lor_land (n + 1) 15) as E.
  assert (0 <= Z.land (n + 1) 15 < 16).
  { change 15 with (Z.ones 4). rewrite Z.land_ones by lia. apply Z.mod_pos_bound. lia. }
  lia.
Qed.

(** [s] holds [n] bytes behind the pointer [p], in a buffer of at least [m] cells *)
Definition holds (s : str_s) (p : ptr) (n m : Z) : Prop :=
  data s = p /\ len s = n /\ m <= zlen (buffer_of s p) /\ p <> Null /\
  FIO_STRING_IS_FROZEN s = false /\ reads_through s p.

Lemma content_poke (s : str_s) (p : ptr) (n m : Z) (out : list Z) :
  holds s p n m -> zlen out = n -> n <= m ->
  content (poke s p 0 out) = out.
Proof.
  intros (Hd & Hl & Hm & Hp & _ & Hr) Ho Hn. unfold content.
  rewrite (poke_cases s p 0 out Hr ltac:(lia)).
  assert (E1 : data match p with
                    | Inline => set_small_data s (zblit (small_data s) 0 out)
                    | Heap _ => set_heap s (zblit (s_heap s) 0 out)
                    | Null => s
                    end = p) by (destruct p; exact Hd).
  assert (E2 : len match p with
                   | Inline => set_small_data s (zblit (small_data s) 0 out)
                   | Heap _ => set_heap s (zblit (s_heap s) 0 out)
                   | Null => s
                   end = n) by (destruct p; exact Hl).
  rewrite E1, E2.
  assert (E3 : buffer_of match p with
                         | Inline => set_small_data s (zblit (small_data s) 0 out)
                         | Heap _ => set_heap s (zblit (s_heap s) 0 out)
                         | Null => s
                         end p = zblit (buffer_of s p) 0 out)
    by (destruct p; [contradiction | reflexivity | reflexivity]).
  rewrite E3, zblit_front by lia. rewrite <- Ho. apply zsub_all.
Qed.

Section Fresh.
Variable calloc_ : Z -> option Z.
Variable realloc_ : ptr -> Z -> option Z.
Variable junk : Z.
(** allocation succeeds (the header's callers abort when it does not) *)
Hypothesis calloc_ok : forall n, calloc_ n <> None.

Definition size_ok (n : Z) : Prop := 0 <= n < 4611686018427387904.

Lemma resize_init_holds (n : Z) :
  size_ok n ->
  let '(s1, i) := resize calloc_ realloc_ junk FIO_STRING_INIT n in
  holds s1 (i_data i) n n.
Proof.
  intros Hn. unfold size_ok in Hn. unfold resize.
  change (FIO_STRING_IS_FROZEN FIO_STRING_INIT) with false.
  change (FIO_STRING_IS_SMALL FIO_STRING_INIT) with true. cbv iota.
  destruct (Z.leb_spec n FIO_STRING_SMALL_CAPA) as [Hs|Hs].
  - destruct (small_special n ltac:(lia)) as (B0 & B1 & L).
    unfold holds, data, len, FIO_STRING_IS_SMALL, FIO_STRING_IS_FROZEN.
    cbn [i_data special set_small_data buffer_of small_data].
    unfold FIO_STRING_SMALL_LEN in *. cbn [special set_small_data] in *.
    rewrite B0, B1, L. cbn [orb].
    repeat split; try discriminate; [|exact B0].
    rewrite zlen_zset. unfold FIO_STRING_SMALL_CAPA, sizeof_str in Hs.
    change (zlen (small_data (FIO_STRING_SMALL_LEN_SET FIO_STRING_INIT n))) with 47. lia.
  - destruct (small_special FIO_STRING_SMALL_CAPA ltac:(unfold FIO_STRING_SMALL_CAPA, sizeof_str; lia))
      as (B0 & B1 & L).
    unfold reserve, FIO_STRING_IS_FROZEN, FIO_STRING_IS_SMALL. rewrite B0, B1. cbn [orb].
    replace (n <=? FIO_STRING_SMALL_CAPA) with false by (symmetry; apply Z.leb_gt; lia).
    destruct (calloc_ (u64 (FIO_STRING_CAPA2WORDS n + 1))) as [a|] eqn:Ea;
      [|exfalso; exact (calloc_ok _ Ea)].
    cbn [fst]. unfold resize_big, holds, data, len, FIO_STRING_IS_SMALL, FIO_STRING_IS_FROZEN.
    cbn [special set_heap set_len s_data s_len s_heap i_data buffer_of ptr_is_null orb].
    change (Z.testbit 0 0) with false. change (Z.testbit 0 1) with false. cbn [orb].
    repeat split; try discriminate.
    rewrite zlen_zset.
    match goal with |- _ <= zlen (if ?c then _ else _) =>
      assert (E : forall x y : list Z, zlen x = zlen y -> zlen (if c then x else y) = zlen y)
        by (intros x y Hxy; destruct c; [exact Hxy | reflexivity]) end.
    pose proof (capa2words_bound n ltac:(lia)) as Hc.
    rewrite E.
    + rewrite zlen_zset, zlen_zrepeat by lia. lia.
    + rewrite zlen_zblit, zlen_zset. reflexivity.
Qed.

Lemma b64_text_length (url_encoded : Z) (b : list Z) :
  zlen (b64_text junk url_encoded b) = 4 * ((zlen b + 2) / 3).
Proof.
  induction b as [|t1|t1 t2|t1 t2 t3 l IH] using list_ind3; try reflexivity.
  rewrite b64_text_cons3, zlen_app, IH. unfold b64enc_group.
  rewrite !zlen_cons, zlen_nil.
  replace (1 + (1 + (1 + zlen l)) + 2) with (zlen l + 2 + 1 * 3) by lia.
  rewrite Z.div_add by lia. lia.
Qed.

(** [write_b64enc] on a fresh string leaves the encoded text as its content *)
Lemma write_b64enc_init (b : list Z) (url_encoded : Z) :
  b <> [] -> zlen b < 1073741824 ->
  content (fst (write_b64enc calloc_ realloc_ junk FIO_STRING_INIT b url_encoded)) =
  b64_text junk url_encoded b.
Proof.
  intros Hne Hlen. unfold write_b64enc.
  assert (Hpos : 0 < zlen b) by (destruct b; [contradiction | rewrite zlen_cons; pose proof (zlen_nonneg b); lia]).
  replace (zlen b =? 0) with false by (symmetry; apply Z.eqb_neq; lia).
  change (u32 (len FIO_STRING_INIT)) with 0.
  assert (Hg : i32 (zlen b / 3) = zlen b / 3)
    by (apply i32_small; Z.div_mod_to_equations; lia).
  rewrite Hg.
  assert (Hm : i32 (zlen b - zlen b / 3 * 3) = zlen b mod 3)
    by (rewrite i32_small; Z.div_mod_to_equations; lia).
  rewrite Hm.
  set (target := (zlen b / 3 + (if zlen b mod 3 =? 0 then 0 else 1)) * 4).
  assert (Ht : target = 4 * ((zlen b + 2) / 3)).
  { subst target. destruct (Z.eqb_spec (zlen b mod 3) 0); Z.div_mod_to_equations; lia. }
  assert (Ht2 : 0 <= target < 2147483648)
    by (rewrite Ht; Z.div_mod_to_equations; lia).
  rewrite (i32_small target) by lia. rewrite Z.add_0_l, (u32_small target) by lia.
  pose proof (resize_init_holds target ltac:(unfold size_ok; lia)) as Hh.
  destruct (resize calloc_ realloc_ junk FIO_STRING_INIT target) as [s1 i].
  pose proof (b64_text_length url_encoded b) as Hl. unfold b64_text in *.
  destruct (b64enc_groups junk (encoding url_encoded) (Z.to_nat (zlen b / 3)) b) as [ws reader].
  cbn [fst]. apply (content_poke s1 (i_data i) target target); [exact Hh | lia | lia].
Qed.

(** storing [out] in what [reserve] returned for a fresh string and setting
    the length to [w] leaves the first [w] bytes of [out] as the content *)
Lemma reserve_init_store (R w : Z) (out : list Z) :
  size_ok R -> zlen out <= R -> 0 <= w <= zlen out ->
  let '(s1, i) := reserve calloc_ realloc_ junk FIO_STRING_INIT R in
  content (fst (resize calloc_ realloc_ junk (poke s1 (i_data i) 0 out) w)) = zsub out 0 w.
Proof.
  intros HR Ho Hw. unfold size_ok in HR. unfold reserve.
  change (FIO_STRING_IS_FROZEN FIO_STRING_INIT) with false.
  change (FIO_STRING_IS_SMALL FIO_STRING_INIT) with true. cbv iota.
  destruct (Z.leb_spec R FIO_STRING_SMALL_CAPA) as [Hs|Hs].
  - cbn [i_data]. rewrite poke_inline by (reflexivity || lia). unfold resize.
    change (FIO_STRING_IS_FROZEN (set_small_data FIO_STRING_INIT _)) with false.
    change (FIO_STRING_IS_SMALL (set_small_data FIO_STRING_INIT _)) with true. cbv iota.
    replace (w <=? FIO_STRING_SMALL_CAPA) with true by (symmetry; apply Z.leb_le; lia).
    cbn [fst].
    destruct (small_special w ltac:(lia)) as (B0 & B1 & L).
    unfold content, data, len, FIO_STRING_IS_SMALL.
    unfold FIO_STRING_SMALL_LEN in *.
    cbn [special set_small_data FIO_STRING_SMALL_LEN_SET set_special small_data buffer_of] in *.
    rewrite B0, L. cbn [orb buffer_of small_data set_small_data].
    rewrite zsub_zset_after by lia.
    unfold FIO_STRING_SMALL_CAPA, sizeof_str in Hs.
    rewrite zblit_front by (change (zlen (small_data FIO_STRING_INIT)) with 47; lia).
    apply zsub_app_l. lia.
  - destruct (calloc_ (u64 (FIO_STRING_CAPA2WORDS R + 1))) as [a|] eqn:Ea;
      [|exfalso; exact (calloc_ok _ Ea)].
    change (FIO_STRING_SMALL_LEN FIO_STRING_INIT) with 0.
    cbn [negb Z.eqb s_data i_data poke]. unfold resize.
    pose proof (capa2words_bound R ltac:(lia)) as Hc.
    unfold FIO_STRING_IS_FROZEN, FIO_STRING_IS_SMALL.
    cbn [special set_heap s_data s_capa ptr_is_null].
    change (Z.testbit 0 0) with false. change (Z.testbit 0 1) with false. cbn [orb].
    replace (FIO_STRING_CAPA2WORDS R <=? w) with false by (symmetry; apply Z.leb_gt; lia).
    unfold resize_big. cbn [fst].
    unfold content, data, len, FIO_STRING_IS_SMALL.
    cbn [special set_heap set_len s_data s_len s_heap ptr_is_null buffer_of].
    change (Z.testbit 0 0) with false. cbn [orb buffer_of s_heap set_heap set_len].
    rewrite zsub_zset_after by lia.
    rewrite zblit_front by (rewrite zlen_zset, zlen_zrepeat; lia).
    apply zsub_app_l. lia.
Qed.

(** [write_b64dec] into a fresh string, from what the decoding stages give *)
Lemma write_b64dec_init (text out rest back : list Z) :
  text <> [] -> zlen text < 2147483648 ->
  b64dec_run text = (out, Some (rest, back)) ->
  zlen out <= 3 * (zlen (b64dec_strip text) / 4) + 3 ->
  0 <= b64dec_written junk back (i32 (zlen out)) <= zlen out ->
  content (fst (write_b64dec calloc_ realloc_ junk FIO_STRING_INIT text)) =
  zsub out 0 (b64dec_written junk back (i32 (zlen out))).
Proof.
  intros Hne Hlen Hrun Hfit Hw. unfold write_b64dec.
  assert (Hpos : 0 < zlen text)
    by (destruct text; [contradiction | rewrite zlen_cons; pose proof (zlen_nonneg text); lia]).
  replace (zlen text =? 0) with false by (symmetry; apply Z.eqb_neq; lia).
  change (u32 (len FIO_STRING_INIT)) with 0. rewrite Hrun.
  assert (Hstrip : 0 <= zlen (b64dec_strip text) <= zlen text).
  { split; [apply zlen_nonneg|]. unfold b64dec_strip, zlen. rewrite length_rev.
    assert (H : forall l, (length (drop_unknown l) <= length l)%nat).
    { induction l as [|x l IH]; [cbn; lia|]. cbn [drop_unknown].
      destruct (base64_decodes x =? 0); cbn [length]; lia. }
    specialize (H (rev text)). rewrite length_rev in H. lia. }
  rewrite Z.shiftr_div_pow2 by lia. change (2 ^ 2) with 4.
  set (n := zlen (b64dec_strip text)) in *.
  assert (Hn4 : 0 <= n / 4 <= n) by (Z.div_mod_to_equations; lia).
  rewrite (u64_small (0 + n / 4 * 3 + 3)) by lia.
  pose proof (zlen_nonneg out) as Hout.
  set (w := b64dec_written junk back (i32 (zlen out))) in *.
  clearbody n w.
  assert (Hn4' : 4 * (n / 4) <= n) by (Z.div_mod_to_equations; lia).
  replace (u32 (0 + w)) with w by (rewrite Z.add_0_l, u32_small; lia).
  pose proof (reserve_init_store (0 + n / 4 * 3 + 3) w out) as H.
  destruct (reserve calloc_ realloc_ junk FIO_STRING_INIT (0 + n / 4 * 3 + 3)) as [s1 i].
  apply H; unfold size_ok; lia.
Qed.

End Fresh.

Lemma spaced_nil (text : list Z) : spaced [] text = text.
Proof.
  induction text as [| | | |c1 c2 c3 c4 text IH] using list_ind4; try reflexivity.
  cbn [spaced hd tl app]. rewrite IH. reflexivity.
Qed.

Lemma zsub_firstn {A} (l : list A) (n : nat) : zsub l 0 (Z.of_nat n) = firstn n l.
Proof. unfold zsub. rewrite Nat2Z.id. reflexivity. Qed.

(** C7, as amended.  White space is stepped over only in front of a group of
    four characters (and behind the last one, with the unknown bytes
    stripped there): for every byte sequence [b], either alphabet, and any
    runs [wss] of white space put between the groups of the padded encoding
    of [b], [write_b64dec] into a fresh string gives back exactly [b].
    (Allocation succeeds; the sizes fit the [int] and [uint32_t] variables
    of the two functions.) *)
Theorem b64_spaced_roundtrip :
  forall (calloc_ : Z -> option Z) (realloc_ : ptr -> Z -> option Z) (junk : Z)
         (b : list Z) (url_encoded : Z) (wss : list (list Z)),
  (forall n, calloc_ n <> None) ->
  Forall is_byte b -> all_spaces wss -> zlen b < 1073741824 ->
  let text := content (fst (write_b64enc calloc_ realloc_ junk FIO_STRING_INIT b url_encoded)) in
  zlen (spaced wss text) < 2147483648 ->
  content (fst (write_b64dec calloc_ realloc_ junk FIO_STRING_INIT (spaced wss text))) = b.
Proof.
  intros calloc_ realloc_ junk b url_encoded wss Hc Hb Hws Hlen text Htlen.
  assert (Etext : text = b64_text junk url_encoded b).
  { subst text. destruct b as [|x b'] eqn:Eb; [reflexivity|].
    apply write_b64enc_init; [exact Hc | discriminate | exact Hlen]. }
  clearbody text. subst text.
  destruct (b64dec_run_spaced junk url_encoded b wss Hb Hws) as [Hstrip Hrun].
  pose proof (dec_out_fits junk url_encoded b wss) as Hfit.
  pose proof (dec_out_length url_encoded b) as Hol.
  pose proof (dec_out_prefix url_encoded b Hb) as Hpre.
  pose proof (zlen_nonneg b) as Hb0.
  set (sp := spaced wss (b64_text junk url_encoded b)) in *.
  set (body := spaced_body wss (b64_text junk url_encoded b)) in *.
  set (out := dec_out url_encoded b) in *.
  assert (Hbody : zlen body <= zlen sp).
  { subst sp body. rewrite spaced_split, zlen_app.
    pose proof (zlen_nonneg (spaced_trail wss (b64_text junk url_encoded b))). lia. }
  assert (Hw : b64dec_written junk (rev body) (i32 (zlen out)) = zlen b).
  { destruct b as [|x b'] eqn:Eb.
    - subst body out. cbn [dec_out]. rewrite b64_text_nil. cbn [spaced_body rev].
      apply b64dec_written_none.
    - destruct (spaced_body_last junk url_encoded (x :: b') Hb ltac:(discriminate) wss)
        as (c4 & c3 & X & E & _ & L).
      fold body in E. fold out in L. rewrite E.
      rewrite b64dec_written_value; [lia | lia |].
      assert (4 * zlen out <= 3 * zlen sp) by lia. lia. }
  destruct sp as [|c0 sp'] eqn:Esp.
  - (* nothing to decode: the text is empty, so is [b] *)
    change (zlen (@nil Z)) with 0 in *.
    pose proof (zlen_nonneg body). pose proof (zlen_nonneg out).
    destruct b as [|x b']; [reflexivity|].
    rewrite zlen_cons in Hol. pose proof (zlen_nonneg b'). lia.
  - rewrite (write_b64dec_init calloc_ realloc_ junk Hc (c0 :: sp') out [] (rev body)).
    + rewrite Hw. unfold zlen. rewrite zsub_firstn. exact Hpre.
    + discriminate.
    + exact Htlen.
    + exact Hrun.
    + rewrite Hstrip. Z.div_mod_to_equations. lia.
    + rewrite Hw. lia.
Qed.

Lemma b64_spaced_roundtrip_witness :
  content (fst (Run.write_b64dec FIO_STRING_INIT
    (spaced [[32]; [13; 10]; [9]]
       (content (fst (Run.write_b64enc FIO_STRING_INIT [72; 101; 108; 108; 111] 1))))))
  = [72; 101; 108; 108; 111].
Proof.
  apply (b64_spaced_roundtrip Run.calloc_ Run.realloc_ 170
           [72; 101; 108; 108; 111] 1 [[32]; [13; 10]; [9]]).
  - intros n. discriminate.
  - repeat constructor; unfold is_byte; lia.
  - repeat constructor.
  - vm_compute. reflexivity.
  - vm_compute. reflexivity.
Defined.

(** C7 as stated fails twice.  White space inside a group: ["QU I="] is
    ["QUI="] (the encoding of ["AB"]) with a space after the second
    character, and the decoder returns the NULL record.  Missing padding:
    ["QUI"] decodes to three bytes, the first of them wrong. *)
Lemma b64dec_inner_space_fails :
  content (fst (Run.write_b64enc FIO_STRING_INIT [65; 66] 0)) = [81; 85; 73; 61] /\
  all_space [32] /\
  snd (Run.write_b64dec FIO_STRING_INIT [81; 85; 32; 73; 61]) = null_info /\
  content (fst (Run.write_b64dec FIO_STRING_INIT [81; 85; 32; 73; 61])) <> [65; 66] /\
  content (fst (Run.write_b64dec FIO_STRING_INIT [81; 85; 73])) = [64; 66; 0].
Proof.
  repeat split; try (vm_compute; reflexivity); try (vm_compute; discriminate).
  repeat constructor.
Qed.

(** C6.  Round trip: the Base64 text that [write_b64enc] appends to an empty
    string for [b], with either alphabet, decodes with [write_b64dec] into
    another empty string to exactly [b].  (Allocation succeeds and [b] is
    shorter than 2^30 bytes, so that the encoder's [int] counters hold.) *)
Theorem b64_roundtrip :
  forall (calloc_ : Z -> option Z) (realloc_ : ptr -> Z -> option Z) (junk : Z)
         (b : list Z) (url_encoded : Z),
  (forall n, calloc_ n <> None) ->
  Forall is_byte b -> zlen b < 1073741824 ->
  content (fst (write_b64dec calloc_ realloc_ junk FIO_STRING_INIT
    (content (fst (write_b64enc calloc_ realloc_ junk FIO_STRING_INIT b url_encoded))))) = b.
Proof.
  intros calloc_ realloc_ junk b url_encoded Hc Hb Hlen.
  set (text := content (fst (write_b64enc calloc_ realloc_ junk FIO_STRING_INIT b url_encoded))).
  assert (Etext : text = b64_text junk url_encoded b).
  { subst text. destruct b as [|x b'] eqn:Eb; [reflexivity|].
    apply write_b64enc_init; [exact Hc | discriminate | exact Hlen]. }
  assert (Htl : zlen text < 2147483648).
  { rewrite Etext, b64_text_length. pose proof (zlen_nonneg b).
    Z.div_mod_to_equations. lia. }
  rewrite <- (spaced_nil text) at 1.
  assert (Hnil : zlen (spaced [] text) < 2147483648) by (rewrite spaced_nil; exact Htl).
  exact (b64_spaced_roundtrip calloc_ realloc_ junk b url_encoded [] Hc Hb
           (Forall_nil _) Hlen Hnil).
Qed.

Lemma b64_roundtrip_witness :
  content (fst (Run.write_b64dec FIO_STRING_INIT
    (content (fst (Run.write_b64enc FIO_STRING_INIT [0; 255; 16; 77] 0)))))
  = [0; 255; 16; 77].
Proof.
  apply (b64_roundtrip Run.calloc_ Run.realloc_ 170 [0; 255; 16; 77] 0).
  - intros n. discriminate.
  - repeat constructor; unfold is_byte; lia.
  - vm_compute. reflexivity.
Defined.

(** *** Base64: what the decoder rejects *)

(** the characters with an entry in the decode table: the letters, the
    digits, [+] and [/], [-] and [_], the comma, and the padding [=] *)
Definition b64_accepts (c : Z) : bool :=
  ((65 <=? c) && (c <=? 90)) || ((97 <=? c) && (c <=? 122)) ||
  ((48 <=? c) && (c <=? 57)) ||
  (c =? 43) || (c =? 47) || (c =? 45) || (c =? 95) || (c =? 44) || (c =? 61).

Lemma decodes_accepts (c : Z) : (base64_decodes c =? 0) = negb (b64_accepts c).
Proof.
  destruct (Z.ltb_spec c 0) as [Hneg|Hpos].
  - unfold base64_decodes, zget. replace (c <? 0) with true by (symmetry; apply Z.ltb_lt; lia).
    unfold b64_accepts.
    repeat match goal with
           | |- context [?a <=? ?b] => destruct (Z.leb_spec a b); try lia
           | |- context [?a =? ?b] => destruct (Z.eqb_spec a b); try lia
           end; reflexivity.
  - destruct (Z.ltb_spec c 256) as [Hlt|Hge].
    + assert (H : Bool.eqb (base64_decodes c =? 0) (negb (b64_accepts c)) = true).
      { apply (forallb_zrange 256
                 (fun c => Bool.eqb (base64_decodes c =? 0) (negb (b64_accepts c))));
          [vm_compute; reflexivity | lia]. }
      apply Bool.eqb_prop in H. exact H.
    + unfold base64_decodes, zget. replace (c <? 0) with false by (symmetry; apply Z.ltb_ge; lia).
      rewrite nth_overflow by (change (length base64_decodes_table) with 256%nat; lia).
      unfold b64_accepts.
      repeat match goal with
             | |- context [?a <=? ?b] => destruct (Z.leb_spec a b); try lia
             | |- context [?a =? ?b] => destruct (Z.eqb_spec a b); try lia
             end; reflexivity.
Qed.

Definition starts_nonspace (l : list Z) : Prop :=
  exists c l', l = c :: l' /\ isspace c = false.

(** The text holds a group with a byte the decoder does not accept.  White
    space in front of a group is stepped over; a group is the next four
    bytes, or the bytes that are left when fewer than four are. *)
Inductive bad_groups : list Z -> Prop :=
| bad_space (ws l : list Z) :
    all_space ws -> starts_nonspace l -> bad_groups l -> bad_groups (ws ++ l)
| bad_in_group (l : list Z) (c : Z) :
    starts_nonspace l -> In c (firstn 4 l) -> b64_accepts c = false -> bad_groups l
| bad_next (c1 c2 c3 c4 : Z) (l : list Z) :
    isspace c1 = false ->
    b64_accepts c1 = true -> b64_accepts c2 = true ->
    b64_accepts c3 = true -> b64_accepts c4 = true ->
    bad_groups l -> bad_groups (c1 :: c2 :: c3 :: c4 :: l).

Lemma accepts_known (c : Z) : b64_accepts c = true -> known c.
Proof. intros H. unfold known. rewrite decodes_accepts, H. reflexivity. Qed.

Lemma rejects_unknown (c : Z) : b64_accepts c = false -> (base64_decodes c =? 0) = true.
Proof. intros H. rewrite decodes_accepts, H. reflexivity. Qed.

(** the stages after the strip: loop, white space, tail *)
Definition b64dec_scan (fuel : nat) (rest back out : list Z) : dec_state :=
  match b64dec_loop fuel rest back out with
  | (out, None) => (out, None)
  | (out, Some (rest1, back1)) =>
    let '(rest2, back2) := b64dec_skip rest1 back1 in
    b64dec_tail rest2 back2 out
  end.

Lemma b64dec_loop_short (fuel : nat) (rest back out : list Z) :
  (length rest < 4)%nat -> b64dec_loop fuel rest back out = (out, Some (rest, back)).
Proof.
  intros H. destruct fuel; [reflexivity|].
  destruct rest as [|a [|b [|c [|d rest]]]]; cbn [length] in H; try lia; reflexivity.
Qed.

Lemma b64dec_tail_rejects (l : list Z) (c : Z) (back out : list Z) :
  (length l < 4)%nat -> In c l -> b64_accepts c = false ->
  snd (b64dec_tail l back out) = None.
Proof.
  intros Hl Hin Hc. apply rejects_unknown in Hc.
  destruct l as [|a [|b [|d [|e l]]]]; cbn [length] in Hl; try lia; cbn [In] in Hin.
  - contradiction.
  - destruct Hin as [->|[]]. cbn [b64dec_tail]. rewrite Hc. reflexivity.
  - cbn [b64dec_tail].
    destruct Hin as [->|[->|[]]]; rewrite Hc, ?orb_true_r; reflexivity.
  - cbn [b64dec_tail].
    destruct Hin as [->|[->|[->|[]]]]; rewrite Hc, ?orb_true_r; reflexivity.
Qed.

Lemma b64dec_scan_rejects (rest : list Z) :
  bad_groups rest ->
  forall fuel back out, (length rest < fuel)%nat ->
  snd (b64dec_scan fuel rest back out) = None.
Proof.
  induction 1 as [ws l Hws Hl Hbad IH | l c Hl Hin Hc | c1 c2 c3 c4 l Hs A1 A2 A3 A4 Hbad IH];
    intros fuel back out Hf.
  - destruct Hl as (c & l' & -> & Hc).
    destruct ws as [|w ws]; [apply IH; exact Hf|].
    destruct (Nat.lt_ge_cases (length ((w :: ws) ++ c :: l')) 4) as [Hshort|Hlong].
    + (* fewer than four bytes are left: the loop is over *)
      unfold b64dec_scan. rewrite b64dec_loop_short by exact Hshort.
      rewrite b64dec_skip_spaces, b64dec_skip_stop by assumption.
      assert (Hl3 : (length (c :: l') < 4)%nat)
        by (rewrite length_app in Hshort; cbn [length] in *; lia).
      specialize (IH fuel back out ltac:(rewrite length_app in Hf; cbn [length] in *; lia)).
      unfold b64dec_scan in IH. rewrite b64dec_loop_short in IH by exact Hl3.
      rewrite b64dec_skip_stop in IH by exact Hc.
      destruct l' as [|b [|d [|e l']]]; cbn [length] in Hl3; try lia;
        cbn [b64dec_tail] in *;
        repeat match goal with
               | H : snd (if ?x then _ else _) = None |- _ => destruct x; [|discriminate]
               | |- context [if ?x then _ else _] => destruct x
               end; reflexivity || discriminate.
    + destruct fuel as [|n]; [cbn [length] in Hf; lia|].
      unfold b64dec_scan.
      rewrite b64dec_loop_space by (assumption || discriminate).
      apply (IH n). rewrite length_app in Hf. cbn [length] in *. lia.
  - destruct Hl as (c0 & l' & -> & Hc0). apply rejects_unknown in Hc.
    destruct l' as [|b [|d [|e l']]].
    + unfold b64dec_scan. rewrite b64dec_loop_short by (cbn; lia).
      rewrite b64dec_skip_stop by exact Hc0. cbn [firstn In] in Hin.
      destruct Hin as [->|[]]. cbn [b64dec_tail]. rewrite Hc. reflexivity.
    + unfold b64dec_scan. rewrite b64dec_loop_short by (cbn; lia).
      rewrite b64dec_skip_stop by exact Hc0. cbn [firstn In] in Hin.
      cbn [b64dec_tail].
      destruct Hin as [->|[->|[]]]; rewrite Hc, ?orb_true_r; reflexivity.
    + unfold b64dec_scan. rewrite b64dec_loop_short by (cbn; lia).
      rewrite b64dec_skip_stop by exact Hc0. cbn [firstn In] in Hin.
      cbn [b64dec_tail].
      destruct Hin as [->|[->|[->|[]]]]; rewrite Hc, ?orb_true_r; reflexivity.
    + destruct fuel as [|n]; [cbn [length] in Hf; lia|].
      unfold b64dec_scan. cbn [b64dec_loop]. rewrite Hc0. cbn [firstn In] in Hin.
      destruct Hin as [->|[->|[->|[->|[]]]]]; rewrite Hc, ?orb_true_r; reflexivity.
  - destruct fuel as [|n]; [cbn [length] in Hf; lia|].
    unfold b64dec_scan.
    rewrite b64dec_loop_group by (assumption || apply accepts_known; assumption).
    apply (IH n). cbn [length] in Hf. lia.
Qed.

Lemma len_poke (s : str_s) p off bytes :
  reads_through s p -> 0 <= off -> len (poke s p off bytes) = len s.
Proof. intros Hp Hoff. rewrite poke_cases by assumption. destruct p; reflexivity. Qed.

(** The flag tells the mode of the string: bit 0 of [special] is set (the
    string is small), or [data] refers to a buffer outside the struct.  What
    is left out is the struct that is small only because its [data] is NULL:
    a zero-filled struct that no function has written to yet. *)
Definition flagged (s : str_s) : Prop :=
  Z.testbit (special s) 0 = true \/ exists a, s_data s = Heap a.

Lemma flagged_info (s : str_s) : flagged s -> reads_through s (i_data (info s)).
Proof.
  intros [Hbit|(a & Ha)]; unfold info, FIO_STRING_IS_SMALL.
  - rewrite Hbit. exact Hbit.
  - rewrite Ha. cbn [ptr_is_null]. rewrite orb_false_r.
    destruct (Z.testbit (special s) 0) eqn:E; cbn [i_data]; [exact E|exact I].
Qed.

(** [reserve] on such a string returns a pointer the string is read through *)
Lemma reserve_reads_through (calloc_ : Z -> option Z) (realloc_ : ptr -> Z -> option Z)
      (junk : Z) (s : str_s) (amount : Z) :
  flagged s ->
  reads_through (fst (reserve calloc_ realloc_ junk s amount))
                (i_data (snd (reserve calloc_ realloc_ junk s amount))).
Proof.
  intros Hf. pose proof (flagged_info s Hf) as Hi. unfold reserve.
  destruct (FIO_STRING_IS_FROZEN s); [exact Hi|].
  destruct (FIO_STRING_IS_SMALL s) eqn:Esmall.
  - destruct (amount <=? FIO_STRING_SMALL_CAPA).
    + cbn [fst snd i_data reads_through].
      destruct Hf as [Hbit|(a & Ha)]; [exact Hbit|].
      unfold FIO_STRING_IS_SMALL in Esmall. rewrite Ha in Esmall.
      cbn [ptr_is_null] in Esmall. rewrite orb_false_r in Esmall. exact Esmall.
    + destruct (calloc_ _); [exact I|exact Hi].
  - unfold FIO_STRING_IS_SMALL in Esmall. apply orb_false_iff in Esmall.
    destruct Esmall as [Hbit Hnull].
    assert (Hd : reads_through s (s_data s)).
    { destruct Hf as [Hb|(a & Ha)]; [congruence|]. rewrite Ha. exact I. }
    destruct (amount <? s_capa s); [exact Hd|].
    destruct (dealloc_is_default (s_dealloc s)).
    + destruct (realloc_ _ _); [exact I|exact Hi].
    + destruct (calloc_ _); [exact I|exact Hi].
Qed.

(** [reserve] never changes the length *)
Lemma reserve_len (calloc_ : Z -> option Z) (realloc_ : ptr -> Z -> option Z) (junk : Z)
      (s : str_s) (amount : Z) :
  len (fst (reserve calloc_ realloc_ junk s amount)) = len s.
Proof.
  unfold reserve.
  destruct (FIO_STRING_IS_FROZEN s); [reflexivity|].
  destruct (FIO_STRING_IS_SMALL s) eqn:Esmall.
  - destruct (amount <=? FIO_STRING_SMALL_CAPA); [reflexivity|].
    destruct (calloc_ _); [|reflexivity].
    cbn [fst]. unfold len at 1. unfold FIO_STRING_IS_SMALL. cbn [special s_data s_len ptr_is_null].
    change (Z.testbit 0 0) with false. cbn [orb].
    unfold len. rewrite Esmall. reflexivity.
  - assert (Hbit : Z.testbit (special s) 0 = false /\ ptr_is_null (s_data s) = false).
    { unfold FIO_STRING_IS_SMALL in Esmall. apply orb_false_iff in Esmall. exact Esmall. }
    destruct Hbit as [Hbit Hnull].
    destruct (amount <? s_capa s); [reflexivity|].
    destruct (dealloc_is_default (s_dealloc s)).
    + destruct (realloc_ _ _); [|reflexivity].
      cbn [fst]. unfold len, FIO_STRING_IS_SMALL. cbn [special s_data s_len ptr_is_null].
      rewrite Hbit, Hnull. reflexivity.
    + destruct (calloc_ _); [|reflexivity].
      cbn [fst]. unfold len, FIO_STRING_IS_SMALL. cbn [special s_data s_len ptr_is_null].
      rewrite Hbit, Hnull. reflexivity.
Qed.

(** C10, as amended.  When the text, before the trailing run of unknown bytes
    that is stripped, holds a group with a byte that has no entry in the
    decode table (any byte but a letter, a digit, [+], [/], [-], [_], the
    comma and [=]; white space counts as such a byte unless it stands in
    front of a group), [write_b64dec] returns the record with a NULL data
    pointer and zero [len] and [capa], and the length of the destination
    string is what it was: the failure path never calls [resize].  The
    destination is a string whose flag tells its mode ([flagged]): the bytes
    decoded before the failure are stored behind the content, and on a
    struct that is small only by its NULL [data] they would land on the
    fields that [len] is read from. *)
Theorem b64dec_rejects_unknown :
  forall (calloc_ : Z -> option Z) (realloc_ : ptr -> Z -> option Z) (junk : Z)
         (s : str_s) (text : list Z),
  flagged s -> text <> [] -> bad_groups (b64dec_strip text) ->
  let r := write_b64dec calloc_ realloc_ junk s text in
  snd r = mk_info 0 0 Null /\ len (fst r) = len s.
Proof.
  intros calloc_ realloc_ junk s text Hflag Hne Hbad. unfold write_b64dec.
  pose proof (reserve_reads_through calloc_ realloc_ junk s
                (u64 (u32 (len s) + Z.shiftr (zlen (b64dec_strip text)) 2 * 3 + 3)) Hflag)
    as Hthrough.
  assert (Hpos : 0 < zlen text)
    by (destruct text; [contradiction | rewrite zlen_cons; pose proof (zlen_nonneg text); lia]).
  replace (zlen text =? 0) with false by (symmetry; apply Z.eqb_neq; lia).
  pose proof (reserve_len calloc_ realloc_ junk s
                (u64 (u32 (len s) + Z.shiftr (zlen (b64dec_strip text)) 2 * 3 + 3))) as Hres.
  destruct (reserve calloc_ realloc_ junk s _) as [s1 i]. cbn [fst snd] in Hres, Hthrough.
  change (b64dec_run text)
    with (b64dec_scan (S (length (b64dec_strip text))) (b64dec_strip text) [] []).
  pose proof (b64dec_scan_rejects _ Hbad (S (length (b64dec_strip text))) [] []
                ltac:(lia)) as Hscan.
  destruct (b64dec_scan _ _ _ _) as [out [[rest back]|]]; [discriminate|].
  cbn [fst snd]. rewrite len_poke; [split; [reflexivity | exact Hres]|exact Hthrough|].
  unfold u32. apply Z.mod_pos_bound. lia.
Qed.

Lemma b64dec_rejects_unknown_witness :
  let r := Run.write_b64dec FIO_STRING_INIT [33; 33; 33; 65] in
  snd r = mk_info 0 0 Null /\ len (fst r) = len FIO_STRING_INIT.
Proof.
  apply (b64dec_rejects_unknown Run.calloc_ Run.realloc_ 170 FIO_STRING_INIT [33; 33; 33; 65]).
  - left. reflexivity.
  - discriminate.
  - change (b64dec_strip [33; 33; 33; 65]) with [33; 33; 33; 65].
    apply (bad_in_group _ 33).
    + exists 33, [33; 33; 65]. split; reflexivity.
    + left. reflexivity.
    + reflexivity.
Defined.

(** C10 as stated fails for the comma: it is in neither alphabet, it is not
    the padding and it is not white space, yet the table has an entry for it
    (63, as for [/] and [_]): ["AA,A"] decodes to three bytes and the call
    returns the destination's info, not the NULL record. *)
Lemma b64dec_accepts_comma :
  existsb (Z.eqb 44) encoding_std = false /\
  existsb (Z.eqb 44) encoding_url = false /\
  isspace 44 = false /\
  b64dec_strip [65; 65; 44; 65] = [65; 65; 44; 65] /\
  (let r := Run.write_b64dec FIO_STRING_INIT [65; 65; 44; 65] in
   i_data (snd r) <> Null /\ snd r <> mk_info 0 0 Null /\
   len (fst r) = 3 /\ content (fst r) = [0; 15; 192]).
Proof.
  vm_compute. repeat split; discriminate.
Qed.

(** Why the destination of C10 is a string whose flag tells its mode.  A
    zero-filled struct is an empty small string only because its [data] is
    NULL.  [reserve] returns its inline bytes without setting the flag, and
    the 33 bytes that eleven groups of slashes decode to, stored before the
    bad group is met, lie over [capa], [len] and the first two bytes of
    [data]: the call returns the NULL record, and the length read afterwards
    is no longer 0. *)
Definition zero_filled : str_s := mk_str 0 (zrepeat 0 (sizeof_str - 1)) 0 0 Null [] DeallocNull.

Lemma b64dec_on_zero_filled_struct :
  let slashes := List.concat (repeat [47; 47; 47; 47] 11) in
  let r := Run.write_b64dec zero_filled (slashes ++ [33; 65; 65; 65]) in
  len zero_filled = 0 /\ ~ flagged zero_filled /\
  snd r = mk_info 0 0 Null /\
  len (fst r) = 18446744073709551615 /\ data (fst r) = Heap 65535.
Proof.
  cbv zeta. split; [reflexivity|]. split.
  - intros [H|(a & H)]; discriminate H.
  - vm_compute. repeat split.
Qed.

(** C5 (fails on the code).  On a frozen string [resize], [reserve],
    [write], [write_i], [concat] and [replace] return at their guard: the
    string is untouched and the info returned is the current one.  [vprintf]
    has no guard of its own: it calls [resize], which gives back the frozen
    info, and then stores the formatted text [fmt_len] bytes before the end
    of the content.  On the frozen small string that holds the two bytes of
    the text hi, [printf] of the three bytes of xyz stores at [data - 1],
    which is the [special] byte: the flags are overwritten, the string is no
    longer frozen and its info reads length 30 and capacity 46, while the
    call returns the info of before.  [write_b64dec] has no guard either:
    on malformed text it returns the NULL record, not the current info. *)
Theorem frozen_printf_changes_info :
  (forall (calloc_ : Z -> option Z) (realloc_ : ptr -> Z -> option Z) (junk : Z)
          (uninit_neg : bool) (s0 : str_s) (n start_pos old_len num : Z)
          (src : list Z) (other : str_s),
     let s := freeze s0 in
     resize calloc_ realloc_ junk s n = (s, info s) /\
     reserve calloc_ realloc_ junk s n = (s, info s) /\
     write calloc_ realloc_ junk s src = (s, info s) /\
     write_i calloc_ realloc_ junk uninit_neg s num = (s, info s) /\
     concat calloc_ realloc_ junk s other = (s, info s) /\
     replace calloc_ realloc_ junk s start_pos old_len src = (s, info s)) /\
  (let s := freeze (fst (Run.write FIO_STRING_INIT [104; 105])) in
   let r := Run.printf s 3 [120; 121; 122] in
   is_frozen s = true /\ info s = mk_info 0 2 Inline /\
   snd r = mk_info 0 2 Inline /\
   special (fst r) = 120 /\ is_frozen (fst r) = false /\
   info (fst r) = mk_info 46 30 Inline /\ info (fst r) <> info s) /\
  (let s := freeze FIO_STRING_INIT in
   let r := Run.write_b64dec s [33; 33; 33; 65] in
   info (fst r) = info s /\ snd r = null_info /\ snd r <> info s).
Proof.
  split; [|split].
  - intros. pose proof (frozen_freeze s0) as Hf. fold s in Hf.
    repeat match goal with |- _ /\ _ => split end.
    + apply frozen_resize; assumption.
    + apply frozen_reserve; assumption.
    + apply frozen_write; assumption.
    + apply frozen_write_i; assumption.
    + apply frozen_concat; assumption.
    + apply frozen_replace; assumption.
  - vm_compute. repeat split; discriminate.
  - vm_compute. repeat split; discriminate.
Qed.

(** *** Appending to a string *)

Lemma zsub_zblit_before {A} (src : list A) :
  forall (l : list A) off k,
    0 <= k <= off -> zsub (zblit l off src) 0 k = zsub l 0 k.
Proof.
  induction src as [|x src IH]; intros l off k Hk; cbn [zblit]; [reflexivity|].
  rewrite IH by lia. apply zsub_zset_after; lia.
Qed.

Lemma zsub_zblit_exact {A} (l src : list A) (off : Z) :
  0 <= off -> off + zlen src <= zlen l ->
  zsub (zblit l off src) 0 (off + zlen src) = zsub l 0 off ++ src.
Proof.
  intros Ho Hl. unfold zlen in Hl.
  set (pre := firstn (Z.to_nat off) l).
  set (mid := firstn (length src) (skipn (Z.to_nat off) l)).
  set (post := skipn (length src) (skipn (Z.to_nat off) l)).
  assert (El : l = pre ++ mid ++ post).
  { unfold pre, mid, post. rewrite firstn_skipn, firstn_skipn. reflexivity. }
  assert (Hpre : zlen pre = off).
  { unfold pre, zlen. rewrite length_firstn. lia. }
  assert (Hmid : length mid = length src).
  { unfold mid. rewrite length_firstn, length_skipn. lia. }
  assert (Ez : zsub l 0 off = pre) by reflexivity.
  rewrite Ez. rewrite El at 1. rewrite <- Hpre at 1.
  rewrite (zblit_app_mid src pre mid post Hmid).
  replace (off + zlen src) with (zlen (pre ++ src)) by (rewrite zlen_app; lia).
  rewrite app_assoc. apply (zsub_app_mid [] (pre ++ src) post).
Qed.

Lemma zsub_zsub_prefix {A} (l : list A) (n k : Z) :
  0 <= k <= n -> zsub (zsub l 0 n) 0 k = zsub l 0 k.
Proof.
  intros Hk. unfold zsub. cbn [Z.to_nat skipn].
  rewrite firstn_firstn. f_equal. lia.
Qed.

Lemma zsub_whole {A} (l : list A) (n : Z) : zlen l <= n -> zsub l 0 n = l.
Proof.
  intros Hn. unfold zsub, zlen in *. cbn [Z.to_nat skipn]. apply firstn_all2. lia.
Qed.

Lemma zlen_zsub_le {A} (l : list A) (n : Z) :
  0 <= n <= zlen l -> zlen (zsub l 0 n) = n.
Proof. intros Hn. apply zlen_zsub; lia. Qed.

Lemma land_2_unset (x : Z) : Z.testbit x 1 = false -> Z.land x 2 = 0.
Proof.
  intros H. apply Z.bits_inj'. intros n Hn.
  rewrite Z.land_spec, Z.bits_0. change 2 with (2 ^ 1).
  rewrite Z.pow2_bits_eqb by lia.
  destruct (Z.eqb_spec 1 n) as [<-|]; [rewrite H; reflexivity|apply Bool.andb_false_r].
Qed.

Lemma small_len_set_special (s : str_s) (n : Z) :
  FIO_STRING_IS_FROZEN s = false ->
  special (FIO_STRING_SMALL_LEN_SET s n)
  = special (FIO_STRING_SMALL_LEN_SET FIO_STRING_INIT n).
Proof.
  unfold FIO_STRING_IS_FROZEN, FIO_STRING_SMALL_LEN_SET. intros H.
  cbn [special set_special FIO_STRING_INIT].
  rewrite (land_2_unset _ H). reflexivity.
Qed.

(** The shape of a string the functions leave behind: a small string keeps
    its bytes in the 47 cells after [special]; a large one has its [len]
    bytes and the NUL in its buffer, and a capacity that the buffer covers
    unless it is 0, as it is for static data. *)
Definition valid (s : str_s) : Prop :=
  if FIO_STRING_IS_SMALL s
  then zlen (small_data s) = sizeof_str - 1 /\
       0 <= FIO_STRING_SMALL_LEN s <= FIO_STRING_SMALL_CAPA
  else (exists a, s_data s = Heap a) /\ 0 <= s_len s /\ 0 <= s_capa s /\
       s_len s + 1 <= zlen (s_heap s) /\
       (s_capa s <> 0 -> s_len s <= s_capa s /\ s_capa s + 1 <= zlen (s_heap s)).

Lemma valid_init : valid FIO_STRING_INIT.
Proof. unfold valid. cbn. split; [reflexivity|]. split; discriminate. Qed.

Lemma valid_len (s : str_s) :
  valid s -> 0 <= len s /\ zlen (content s) = len s.
Proof.
  unfold valid, content, len, data. destruct (FIO_STRING_IS_SMALL s).
  - intros (Hz & Hl). split; [lia|]. cbn [buffer_of]. apply zlen_zsub_le.
    rewrite Hz. unfold FIO_STRING_SMALL_CAPA in Hl. lia.
  - intros ((a & Ea) & Hl & Hc & Hh & _). split; [exact Hl|].
    rewrite Ea. cbn [buffer_of]. apply zlen_zsub_le. lia.
Qed.

(** *** Decimal notation *)

(** the decimal digits of [n], least significant first, as ASCII *)
Fixpoint lsf (fuel : nat) (n : Z) : list Z :=
  match fuel with
  | O => []
  | S f => if n =? 0 then [] else (48 + n mod 10) :: lsf f (n / 10)
  end.

(** the number a string of ASCII digits denotes *)
Definition decimal_value (ds : list Z) : Z :=
  fold_left (fun acc d => 10 * acc + (d - 48)) ds 0.

Definition is_digit (d : Z) : Prop := 48 <= d <= 57.

Lemma decimal_value_snoc (ds : list Z) (d : Z) :
  decimal_value (ds ++ [d]) = 10 * decimal_value ds + (d - 48).
Proof. unfold decimal_value. rewrite fold_left_app. reflexivity. Qed.

Lemma lsf_length (fuel : nat) : forall n, (length (lsf fuel n) <= fuel)%nat.
Proof.
  induction fuel as [|f IH]; intros n; cbn [lsf length]; [lia|].
  destruct (n =? 0); cbn [length]; [lia|]. specialize (IH (n / 10)). lia.
Qed.

Lemma lsf_spec (fuel : nat) :
  forall n, 0 <= n < 10 ^ Z.of_nat fuel ->
    Forall is_digit (lsf fuel n) /\
    decimal_value (rev (lsf fuel n)) = n /\
    (0 < n -> lsf fuel n <> [] /\ hd 0 (rev (lsf fuel n)) <> 48).
Proof.
  induction fuel as [|f IH]; intros n Hn.
  - change (10 ^ Z.of_nat 0) with 1 in Hn. assert (n = 0) as -> by lia.
    cbn. split; [constructor|]. split; [reflexivity|lia].
  - cbn [lsf]. destruct (Z.eqb_spec n 0) as [->|Hne].
    { cbn. split; [constructor|]. split; [reflexivity|lia]. }
    assert (Hq : 0 <= n / 10 < 10 ^ Z.of_nat f).
    { rewrite Nat2Z.inj_succ, Z.pow_succ_r in Hn by lia.
      split; [apply Z.div_pos; lia|apply Z.div_lt_upper_bound; lia]. }
    destruct (IH (n / 10) Hq) as (I1 & I2 & I3).
    pose proof (Z.mod_pos_bound n 10 ltac:(lia)) as Hm.
    split; [constructor; [unfold is_digit; lia|exact I1]|].
    cbn [rev]. split.
    + rewrite decimal_value_snoc, I2.
      pose proof (Z.div_mod n 10 ltac:(lia)). lia.
    + intros _. split; [discriminate|].
      destruct (Z.eqb_spec (n / 10) 0) as [E0|E0].
      * assert (El : lsf f (n / 10) = []).
        { destruct f; [reflexivity|]. cbn [lsf]. rewrite E0. reflexivity. }
        rewrite El. cbn [rev app hd].
        pose proof (Z.div_mod n 10 ltac:(lia)). lia.
      * destruct (I3 ltac:(lia)) as (Hnn & Hhd).
        destruct (rev (lsf f (n / 10))) as [|x l] eqn:Er.
        -- exfalso. apply Hnn. apply (f_equal (@rev Z)) in Er.
           rewrite rev_involutive in Er. exact Er.
        -- exact Hhd.
Qed.

Section Append.
Variable calloc_ : Z -> option Z.
Variable realloc_ : ptr -> Z -> option Z.
Variable junk : Z.
(** the allocator does not fail *)
Hypothesis calloc_ok : forall n, calloc_ n <> None.
Hypothesis realloc_ok : forall p n, realloc_ p n <> None.

(** what [resize] to a length [n] at or above the current one leaves: a
    string of [n] bytes with room for the NUL, the old bytes in front *)
Definition grown_to (s : str_s) (n : Z) (r : str_s * fio_string_info_s) : Prop :=
  let s1 := fst r in
  valid s1 /\ FIO_STRING_IS_FROZEN s1 = false /\ snd r = info s1 /\
  len s1 = n /\ data s1 <> Null /\
  n + 1 <= zlen (buffer_of s1 (data s1)) /\
  zsub (buffer_of s1 (data s1)) 0 (len s) = content s.

(** ... and the flag of the string tells its mode *)
Definition grown (s : str_s) (n : Z) (r : str_s * fio_string_info_s) : Prop :=
  grown_to s n r /\ flagged (fst r).

Lemma flagged_data (s : str_s) : flagged s -> reads_through s (data s).
Proof.
  intros Hf. pose proof (flagged_info s Hf) as Hi.
  unfold info in Hi. unfold data. destruct (FIO_STRING_IS_SMALL s); exact Hi.
Qed.

Lemma resize_small_stays (s : str_s) (n : Z) :
  valid s -> FIO_STRING_IS_FROZEN s = false -> FIO_STRING_IS_SMALL s = true ->
  len s <= n -> n <= FIO_STRING_SMALL_CAPA ->
  grown s n (resize calloc_ realloc_ junk s n).
Proof.
  intros Hv Hfr Hsm Hn Hcap. unfold valid in Hv. rewrite Hsm in Hv.
  destruct Hv as (Hz & Hl).
  assert (Hlen : len s = FIO_STRING_SMALL_LEN s) by (unfold len; rewrite Hsm; reflexivity).
  rewrite Hlen in Hn.
  destruct (small_special n ltac:(lia)) as (B0 & B1 & L).
  unfold resize. rewrite Hfr, Hsm.
  replace (n <=? FIO_STRING_SMALL_CAPA) with true by (symmetry; apply Z.leb_le; lia).
  cbv zeta.
  set (s2 := set_small_data (FIO_STRING_SMALL_LEN_SET s n)
                            (zset (small_data (FIO_STRING_SMALL_LEN_SET s n)) n 0)).
  assert (Esp : special s2 = special (FIO_STRING_SMALL_LEN_SET FIO_STRING_INIT n))
    by (apply small_len_set_special, Hfr).
  assert (Hsm2 : FIO_STRING_IS_SMALL s2 = true)
    by (unfold FIO_STRING_IS_SMALL; rewrite Esp, B0; reflexivity).
  assert (Hfr2 : FIO_STRING_IS_FROZEN s2 = false)
    by (unfold FIO_STRING_IS_FROZEN; rewrite Esp; exact B1).
  assert (Hl2 : FIO_STRING_SMALL_LEN s2 = n)
    by (unfold FIO_STRING_SMALL_LEN in *; rewrite Esp; exact L).
  assert (Hd2 : small_data s2 = zset (small_data s) n 0) by reflexivity.
  split; [|left; cbn [fst]; rewrite Esp; exact B0].
  unfold grown_to. cbn [fst snd].
  unfold content, valid, info, len, data. rewrite Hsm2, Hfr2, Hl2, Hsm.
  cbn [buffer_of]. rewrite Hd2, zlen_zset.
  unfold FIO_STRING_SMALL_CAPA, sizeof_str in *.
  repeat split; try lia; try discriminate.
  apply zsub_zset_after; lia.
Qed.

Lemma resize_small_moves (s : str_s) (n : Z) :
  valid s -> FIO_STRING_IS_FROZEN s = false -> FIO_STRING_IS_SMALL s = true ->
  FIO_STRING_SMALL_CAPA < n < 4611686018427387904 ->
  grown s n (resize calloc_ realloc_ junk s n).
Proof.
  intros Hv Hfr Hsm Hn. unfold valid in Hv. rewrite Hsm in Hv.
  destruct Hv as (Hz & Hl).
  destruct (small_special FIO_STRING_SMALL_CAPA
              ltac:(unfold FIO_STRING_SMALL_CAPA, sizeof_str; lia)) as (B0 & B1 & L).
  pose proof (capa2words_bound n ltac:(unfold FIO_STRING_SMALL_CAPA, sizeof_str in *; lia))
    as Hc.
  unfold resize. rewrite Hfr, Hsm.
  replace (n <=? FIO_STRING_SMALL_CAPA) with false by (symmetry; apply Z.leb_gt; lia).
  cbv zeta.
  set (s1 := FIO_STRING_SMALL_LEN_SET s FIO_STRING_SMALL_CAPA).
  assert (Esp : special s1 = special (FIO_STRING_SMALL_LEN_SET FIO_STRING_INIT
                                                                FIO_STRING_SMALL_CAPA))
    by (apply small_len_set_special, Hfr).
  assert (Hsm1 : FIO_STRING_IS_SMALL s1 = true)
    by (unfold FIO_STRING_IS_SMALL; rewrite Esp, B0; reflexivity).
  assert (Hfr1 : FIO_STRING_IS_FROZEN s1 = false)
    by (unfold FIO_STRING_IS_FROZEN; rewrite Esp; exact B1).
  assert (Hl1 : FIO_STRING_SMALL_LEN s1 = FIO_STRING_SMALL_CAPA)
    by (unfold FIO_STRING_SMALL_LEN in *; rewrite Esp; exact L).
  unfold reserve. rewrite Hfr1, Hsm1.
  replace (n <=? FIO_STRING_SMALL_CAPA) with false by (symmetry; apply Z.leb_gt; lia).
  destruct (calloc_ (u64 (FIO_STRING_CAPA2WORDS n + 1))) as [a|] eqn:Ea;
    [|exfalso; exact (calloc_ok _ Ea)].
  rewrite Hl1. change (negb (FIO_STRING_SMALL_CAPA =? 0)) with true. cbv iota.
  change (small_data s1) with (small_data s).
  assert (Hall : zsub (small_data s) 0 (FIO_STRING_SMALL_CAPA + 1) = small_data s)
    by (apply zsub_whole; rewrite Hz; unfold FIO_STRING_SMALL_CAPA; lia).
  rewrite Hall.
  set (tmp := zblit (zrepeat 0 (FIO_STRING_CAPA2WORDS n + 1)) 0 (small_data s)).
  assert (Htmp : zlen tmp = FIO_STRING_CAPA2WORDS n + 1)
    by (unfold tmp; rewrite zlen_zblit, zlen_zrepeat; lia).
  split; [|right; exists a; reflexivity].
  unfold grown_to, resize_big. cbn [fst snd].
  unfold content, valid, info, len, data, FIO_STRING_IS_SMALL, FIO_STRING_IS_FROZEN.
  cbn [special set_heap set_len s_data s_len s_heap s_capa ptr_is_null].
  change (Z.testbit 0 0) with false. change (Z.testbit 0 1) with false.
  cbn [orb buffer_of s_heap set_heap set_len]. rewrite zlen_zset, Htmp.
  fold (FIO_STRING_IS_SMALL s). rewrite Hsm. cbn [buffer_of].
  unfold FIO_STRING_SMALL_CAPA, sizeof_str in *.
  repeat split; try lia; try discriminate.
  - exists a. reflexivity.
  - rewrite zsub_zset_after by lia. unfold tmp.
    rewrite zblit_front by (rewrite zlen_zrepeat; lia).
    apply zsub_app_l. lia.
Qed.

Lemma large_flags (s : str_s) (v : Z) (b : list Z) :
  FIO_STRING_IS_SMALL s = false ->
  FIO_STRING_IS_SMALL (set_heap (set_len s v) b) = false.
Proof. intros H. exact H. Qed.

Lemma resize_large_fits (s : str_s) (n : Z) :
  valid s -> FIO_STRING_IS_FROZEN s = false -> FIO_STRING_IS_SMALL s = false ->
  len s <= n -> n < s_capa s ->
  grown s n (resize calloc_ realloc_ junk s n).
Proof.
  intros Hv Hfr Hsm Hn Hcap. unfold valid in Hv. rewrite Hsm in Hv.
  destruct Hv as ((a & Ea) & Hl & Hc & Hh & Hcapa).
  assert (Hlen : len s = s_len s) by (unfold len; rewrite Hsm; reflexivity).
  rewrite Hlen in Hn.
  destruct (Hcapa ltac:(lia)) as (Hlc & Hch).
  unfold resize. rewrite Hfr, Hsm.
  replace (s_capa s <=? n) with false by (symmetry; apply Z.leb_gt; lia).
  split; [|right; exists a; exact Ea].
  unfold grown_to, resize_big. cbn [fst snd].
  set (s2 := set_heap (set_len s n) (zset (s_heap (set_len s n)) n 0)).
  assert (Hsm2 : FIO_STRING_IS_SMALL s2 = false) by exact Hsm.
  assert (Hfr2 : FIO_STRING_IS_FROZEN s2 = false) by exact Hfr.
  assert (E2 : s_heap s2 = zset (s_heap s) n 0 /\ s_data s2 = Heap a /\
               s_len s2 = n /\ s_capa s2 = s_capa s)
    by (repeat split; exact Ea).
  destruct E2 as (E21 & E22 & E23 & E24).
  unfold content, valid, info, len, data. rewrite Hsm2, Hfr2, Hsm, E22, E23, E24, Ea.
  cbn [buffer_of]. rewrite E21, zlen_zset.
  repeat split; try lia; try discriminate.
  - exists a. reflexivity.
  - apply zsub_zset_after; lia.
Qed.

Lemma resize_large_grows (s : str_s) (n : Z) :
  valid s -> FIO_STRING_IS_FROZEN s = false -> FIO_STRING_IS_SMALL s = false ->
  len s <= n -> s_capa s <= n -> n < 4611686018427387904 ->
  grown s n (resize calloc_ realloc_ junk s n).
Proof.
  intros Hv Hfr Hsm Hn Hcap Hmax. unfold valid in Hv. rewrite Hsm in Hv.
  destruct Hv as ((a & Ea) & Hl & Hc & Hh & Hcapa).
  assert (Hlen : len s = s_len s) by (unfold len; rewrite Hsm; reflexivity).
  rewrite Hlen in Hn.
  pose proof (capa2words_bound n ltac:(lia)) as Hw.
  unfold resize. rewrite Hfr, Hsm.
  replace (s_capa s <=? n) with true by (symmetry; apply Z.leb_le; lia).
  cbv zeta.
  set (s0 := if negb (dealloc_is_null (s_dealloc s)) && negb (s_capa s =? 0)
             then set_len s (s_capa s) else s).
  assert (H0 : FIO_STRING_IS_FROZEN s0 = false /\ FIO_STRING_IS_SMALL s0 = false /\
               s_capa s0 = s_capa s /\ s_heap s0 = s_heap s /\ s_data s0 = s_data s /\
               special s0 = special s /\ small_data s0 = small_data s /\
               s_dealloc s0 = s_dealloc s /\
               s_len s <= s_len s0 <= n /\ s_len s0 + 1 <= zlen (s_heap s)).
  { unfold s0. destruct (negb (dealloc_is_null (s_dealloc s)) && negb (s_capa s =? 0)) eqn:E.
    - apply Bool.andb_true_iff in E. destruct E as [_ E].
      apply Bool.negb_true_iff, Z.eqb_neq in E. destruct (Hcapa E) as (Hlc & Hch).
      cbn [set_len s_len s_capa s_heap s_data special small_data s_dealloc].
      repeat split; try assumption; lia.
    - repeat split; try assumption; lia. }
  destruct H0 as (F0 & S0 & C0 & P0 & D0 & X0 & Y0 & Z0 & L0 & B0).
  set (k := s_len s0) in *.
  set (amount := FIO_STRING_CAPA2WORDS n) in *.
  assert (Hkept : zlen (zsub (s_heap s) 0 (k + 1)) = k + 1) by (apply zlen_zsub_le; lia).
  assert (Hgoal : forall (a' : Z) (tmp : list Z) (dl : dealloc_fn),
             zlen tmp = amount + 1 ->
             zsub tmp 0 (s_len s) = zsub (s_heap s) 0 (s_len s) ->
             grown s n (resize_big (mk_str (special s) (small_data s) amount k (Heap a')
                                           (zset tmp amount 0) dl) n)).
  { intros a' tmp dl Ht Hp. split; [|right; exists a'; reflexivity].
    unfold grown_to, resize_big. cbn [fst snd].
    unfold content, valid, info, len, data, FIO_STRING_IS_SMALL, FIO_STRING_IS_FROZEN.
    cbn [special set_heap set_len s_data s_len s_heap s_capa ptr_is_null].
    fold (FIO_STRING_IS_FROZEN s). fold (FIO_STRING_IS_SMALL s).
    assert (Hb0 : Z.testbit (special s) 0 = false).
    { unfold FIO_STRING_IS_SMALL in Hsm. apply Bool.orb_false_iff in Hsm. apply Hsm. }
    rewrite Hfr, Hsm, Hb0, Ea. cbn [orb buffer_of s_heap set_heap set_len].
    rewrite !zlen_zset, Ht.
    repeat split; try lia; try discriminate.
    - exists a'. reflexivity.
    - rewrite !zsub_zset_after by lia. exact Hp. }
  unfold reserve. rewrite F0, S0, C0.
  replace (n <? s_capa s) with false by (symmetry; apply Z.ltb_ge; lia).
  fold amount. rewrite Z0, D0, P0, X0, Y0. fold k.
  destruct (dealloc_is_default (s_dealloc s)).
  - destruct (realloc_ (s_data s) (u64 (amount + 1))) as [a'|] eqn:Er;
      [|exfalso; exact (realloc_ok _ _ Er)].
    cbn [fst s_capa s_len s_data]. apply Hgoal.
    + rewrite zlen_app, zlen_zrepeat, Hkept by (rewrite Hkept; lia). lia.
    + rewrite zsub_app_l by (rewrite Hkept; lia).
      apply zsub_zsub_prefix. lia.
  - destruct (calloc_ (u64 (amount + 1))) as [a'|] eqn:Ec;
      [|exfalso; exact (calloc_ok _ Ec)].
    cbn [fst s_capa s_len s_data]. apply Hgoal.
    + destruct (negb (ptr_is_null (s_data s)) && negb (k =? 0));
        rewrite ?zlen_zblit, zlen_zrepeat by lia; reflexivity.
    + rewrite Ea. cbn [ptr_is_null negb andb].
      destruct (Z.eqb_spec k 0) as [Ek|Ek]; cbn [negb].
      * replace (s_len s) with 0 by lia. reflexivity.
      * rewrite zblit_front by (rewrite zlen_zrepeat, Hkept; lia).
        rewrite zsub_app_l by (rewrite Hkept; lia).
        apply zsub_zsub_prefix. lia.
Qed.

Lemma resize_grows (s : str_s) (n : Z) :
  valid s -> FIO_STRING_IS_FROZEN s = false ->
  len s <= n < 4611686018427387904 ->
  grown s n (resize calloc_ realloc_ junk s n).
Proof.
  intros Hv Hfr Hn. destruct (FIO_STRING_IS_SMALL s) eqn:Hsm.
  - destruct (Z.le_gt_cases n FIO_STRING_SMALL_CAPA).
    + apply resize_small_stays; try assumption. lia.
    + apply resize_small_moves; try assumption. lia.
  - destruct (Z.lt_ge_cases n (s_capa s)).
    + apply resize_large_fits; try assumption. lia.
    + apply resize_large_grows; try assumption; lia.
Qed.

(** the bytes stored behind what [resize] left *)
Lemma poke_grown (s : str_s) (src : list Z) (r : str_s * fio_string_info_s) :
  valid s -> grown s (len s + zlen src) r ->
  let s' := poke (fst r) (i_data (snd r)) (i_len (snd r) - zlen src) src in
  valid s' /\ FIO_STRING_IS_FROZEN s' = false /\ snd r = info s' /\
  len s' = len s + zlen src /\ content s' = content s ++ src.
Proof.
  intros Hv ((G1 & G2 & G3 & G4 & G5 & G6 & G7) & G8). destruct r as [s1 i].
  cbn [fst snd] in *. subst i.
  destruct (valid_len s Hv) as (Hl0 & Hlc).
  pose proof (zlen_nonneg src) as Hs0.
  assert (Ei : i_data (info s1) = data s1 /\ i_len (info s1) = len s1).
  { unfold info, data, len. destruct (FIO_STRING_IS_SMALL s1); split; reflexivity. }
  destruct Ei as (Ei1 & Ei2). rewrite Ei1, Ei2, G4.
  replace (len s + zlen src - zlen src) with (len s) by lia.
  cbv zeta. set (s' := poke s1 (data s1) (len s) src).
  assert (Hsame : special s' = special s1 /\ s_data s' = s_data s1 /\
                  s_len s' = s_len s1 /\ s_capa s' = s_capa s1 /\
                  zlen (small_data s') = zlen (small_data s1) /\
                  zlen (s_heap s') = zlen (s_heap s1) /\
                  buffer_of s' (data s1) = zblit (buffer_of s1 (data s1)) (len s) src).
  { unfold s'. rewrite (poke_cases s1 (data s1) (len s) src (flagged_data s1 G8) Hl0).
    destruct (data s1) eqn:Ed; [contradiction| |];
      cbn [special set_small_data set_heap s_data s_len s_capa small_data s_heap
           buffer_of]; rewrite ?zlen_zblit; repeat split. }
  destruct Hsame as (E1 & E2 & E3 & E4 & E5 & E6 & E7).
  assert (Hsm : FIO_STRING_IS_SMALL s' = FIO_STRING_IS_SMALL s1)
    by (unfold FIO_STRING_IS_SMALL; rewrite E1, E2; reflexivity).
  assert (Hfr : FIO_STRING_IS_FROZEN s' = FIO_STRING_IS_FROZEN s1)
    by (unfold FIO_STRING_IS_FROZEN; rewrite E1; reflexivity).
  assert (Hsl : FIO_STRING_SMALL_LEN s' = FIO_STRING_SMALL_LEN s1)
    by (unfold FIO_STRING_SMALL_LEN; rewrite E1; reflexivity).
  assert (Hinfo : info s' = info s1)
    by (unfold info; rewrite Hsm, Hfr, Hsl, E2, E3, E4; reflexivity).
  assert (Hlen : len s' = len s1) by (unfold len; rewrite Hsm, Hsl, E3; reflexivity).
  assert (Hdat : data s' = data s1) by (unfold data; rewrite Hsm, E2; reflexivity).
  split; [|split; [|split; [|split]]].
  - unfold valid in *. rewrite Hsm, Hsl, E2, E3, E4, E5, E6. exact G1.
  - rewrite Hfr. exact G2.
  - symmetry. exact Hinfo.
  - rewrite Hlen. exact G4.
  - unfold content at 1. rewrite Hdat, Hlen, G4, E7.
    rewrite zsub_zblit_exact by lia. rewrite G7. reflexivity.
Qed.

Lemma info_len (s : str_s) : i_len (info s) = len s.
Proof. unfold info, len. destruct (FIO_STRING_IS_SMALL s); reflexivity. Qed.

(** [write] on a string that is not frozen: the bytes are appended *)
Lemma write_grows (s : str_s) (src : list Z) :
  valid s -> FIO_STRING_IS_FROZEN s = false ->
  len s + zlen src < 4611686018427387904 ->
  let r := write calloc_ realloc_ junk s src in
  valid (fst r) /\ FIO_STRING_IS_FROZEN (fst r) = false /\ snd r = info (fst r) /\
  len (fst r) = len s + zlen src /\ content (fst r) = content s ++ src.
Proof.
  intros Hv Hfr Hn. destruct (valid_len s Hv) as (Hl0 & _).
  pose proof (zlen_nonneg src) as Hs0. unfold write. cbv zeta. rewrite Hfr.
  destruct (Z.eqb_spec (zlen src) 0) as [E|E]; cbn [orb fst snd].
  - assert (src = []) as -> by (destruct src; [reflexivity|rewrite zlen_cons in E;
                                  pose proof (zlen_nonneg src); lia]).
    rewrite app_nil_r, zlen_nil, Z.add_0_r. repeat split; assumption.
  - rewrite u64_small by lia.
    pose proof (resize_grows s (len s + zlen src) Hv Hfr ltac:(lia)) as Hg.
    replace (zlen src + len s) with (len s + zlen src) by lia.
    pose proof (poke_grown s src _ Hv Hg) as Hp.
    destruct (resize calloc_ realloc_ junk s (len s + zlen src)) as [s1 i].
    cbn [fst snd] in *. exact Hp.
Qed.

(** X21.  [write] appends.  On a string that is not frozen, the allocator
    not failing, the content after [write] is the old content followed by
    the bytes written, whether the string stays small, moves from the
    struct to the heap, fits its buffer or has to grow it; the length grows
    by the number of bytes, the info record returned is that of the string,
    and the shape is kept. *)
Theorem write_appends (s : str_s) (src : list Z) :
  valid s -> FIO_STRING_IS_FROZEN s = false ->
  len s + zlen src < 4611686018427387904 ->
  let r := write calloc_ realloc_ junk s src in
  valid (fst r) /\ FIO_STRING_IS_FROZEN (fst r) = false /\ snd r = info (fst r) /\
  len (fst r) = len s + zlen src /\ content (fst r) = content s ++ src.
Proof. exact (write_grows s src). Qed.

(** X22.  [concat] appends the content of the source.  For a destination
    that is not frozen and a source that is another string, the content
    after [concat] is the content of the destination followed by the
    content of the source. *)
Theorem concat_appends (dest src : str_s) :
  valid dest -> FIO_STRING_IS_FROZEN dest = false -> valid src ->
  len dest + len src < 4611686018427387904 ->
  let r := concat calloc_ realloc_ junk dest src in
  valid (fst r) /\ FIO_STRING_IS_FROZEN (fst r) = false /\ snd r = info (fst r) /\
  len (fst r) = len dest + len src /\ content (fst r) = content dest ++ content src.
Proof.
  intros Hv Hfr Hvs Hn. destruct (valid_len dest Hv) as (Hl0 & _).
  destruct (valid_len src Hvs) as (Hs0 & Hsc).
  unfold concat. cbv zeta. rewrite Hfr, info_len.
  destruct (Z.eqb_spec (len src) 0) as [E|E]; cbn [fst snd].
  - assert (content src = []) as ->
        by (destruct (content src); [reflexivity|rewrite zlen_cons in Hsc;
              pose proof (zlen_nonneg l); lia]).
    rewrite app_nil_r, E, Z.add_0_r. repeat split; assumption.
  - rewrite u64_small by lia.
    replace (len src + len dest) with (len dest + zlen (content src)) by lia.
    pose proof (resize_grows dest (len dest + zlen (content src)) Hv Hfr ltac:(lia)) as Hg.
    pose proof (poke_grown dest (content src) _ Hv Hg) as Hp.
    destruct (resize calloc_ realloc_ junk dest (len dest + zlen (content src)))
      as [s1 i] eqn:Er.
    cbn [fst snd] in *.
    assert (Eoff : i_len i - zlen (content src) = len dest).
    { destruct Hg as ((_ & _ & G3 & G4 & _) & _). cbn [fst snd] in *.
      rewrite G3, info_len, G4. lia. }
    rewrite Eoff in Hp. rewrite <- Hsc at 1. exact Hp.
Qed.

(** the digit loop of [write_i] on a number that is not negative *)
Lemma digits_loop (fuel : nat) :
  forall n buf, 0 <= n < 9223372036854775808 ->
    write_i_digits fuel n (Z.quot n 10) buf = buf ++ lsf fuel n.
Proof.
  induction fuel as [|f IH]; intros n buf Hn; cbn [write_i_digits lsf].
  - symmetry. apply app_nil_r.
  - destruct (Z.eqb_spec n 0) as [->|Hne]; [symmetry; apply app_nil_r|].
    rewrite Z.quot_div_nonneg by lia.
    pose proof (Z.div_mod n 10 ltac:(lia)) as Hdm.
    pose proof (Z.mod_pos_bound n 10 ltac:(lia)) as Hm.
    assert (Hq : 0 <= n / 10 < 9223372036854775808).
    { split; [apply Z.div_pos; lia|apply Z.div_lt_upper_bound; lia]. }
    assert (Ei : i64 (n / 10 * 10) = n / 10 * 10).
    { unfold i64. rewrite u64_small by lia.
      replace (n / 10 * 10 <? 9223372036854775808) with true
        by (symmetry; apply Z.ltb_lt; lia). reflexivity. }
    rewrite Ei.
    replace (48 + (n - n / 10 * 10)) with (48 + n mod 10) by lia.
    assert (Eu : u8 (48 + n mod 10) = 48 + n mod 10)
      by (unfold u8; apply Z.mod_small; lia).
    rewrite Eu. rewrite IH by lia. rewrite <- app_assoc. reflexivity.
Qed.

(** the same for a negative number, whose negation may overflow *)
Lemma digits_negated (num : Z) :
  -9223372036854775808 <= num < 0 ->
  write_i_digits 22 (i64 (0 - num)) (i64 (0 - Z.quot num 10)) [] = lsf 22 (- num).
Proof.
  intros Hn. set (a := - num).
  assert (Ha : 0 < a <= 9223372036854775808) by (unfold a; lia).
  replace (0 - num) with a by (unfold a; lia).
  replace (0 - Z.quot num 10) with (a / 10).
  2:{ replace num with (- a) by (unfold a; lia).
      rewrite Z.quot_opp_l by lia. rewrite Z.quot_div_nonneg by lia. lia. }
  pose proof (Z.div_mod a 10 ltac:(lia)) as Hdm.
  pose proof (Z.mod_pos_bound a 10 ltac:(lia)) as Hm.
  assert (Hq : 0 <= a / 10 < 9223372036854775808).
  { split; [apply Z.div_pos; lia|apply Z.div_lt_upper_bound; lia]. }
  assert (Et : i64 (a / 10) = a / 10).
  { unfold i64. rewrite u64_small by lia.
    replace (a / 10 <? 9223372036854775808) with true
      by (symmetry; apply Z.ltb_lt; lia). reflexivity. }
  assert (Ei : i64 (a / 10 * 10) = a / 10 * 10).
  { unfold i64. rewrite u64_small by lia.
    replace (a / 10 * 10 <? 9223372036854775808) with true
      by (symmetry; apply Z.ltb_lt; lia). reflexivity. }
  assert (Ea : exists c, i64 a = a - 18446744073709551616 * c /\ i64 a <> 0).
  { unfold i64. rewrite u64_small by lia.
    destruct (a <? 9223372036854775808) eqn:E.
    - exists 0. split; lia.
    - exists 1. apply Z.ltb_ge in E. split; lia. }
  destruct Ea as (c & Ec & Hnz).
  rewrite Et. change 22%nat with (S 21). cbn [write_i_digits lsf].
  replace (i64 a =? 0) with false by (symmetry; apply Z.eqb_neq; exact Hnz).
  replace (a =? 0) with false by (symmetry; apply Z.eqb_neq; lia).
  rewrite Ei, Ec.
  assert (Eu : u8 (48 + (a - 18446744073709551616 * c - a / 10 * 10)) = 48 + a mod 10).
  { unfold u8.
    replace (48 + (a - 18446744073709551616 * c - a / 10 * 10))
      with (48 + a mod 10 + (- c * 72057594037927936) * 256) by lia.
    rewrite Z_mod_plus_full. apply Z.mod_small. lia. }
  rewrite Eu. apply (digits_loop 21 (a / 10) [48 + a mod 10] Hq).
Qed.

(** X23.  [write_i] appends the decimal notation.  On a string that is not
    frozen the content grows by a minus sign, if any, and the decimal digits
    of the absolute value: ASCII digits without a leading zero that denote
    it, also for the least 64-bit number, whose negation overflows.  The
    sign is written for every negative number and never for 0; for a
    positive number it is written when the variable [neg], which the
    function sets only for negative numbers, happens to hold a non-zero
    value. *)
Theorem write_i_decimal (uninit_neg : bool) (s : str_s) (num : Z) :
  valid s -> FIO_STRING_IS_FROZEN s = false ->
  len s < 2305843009213693952 ->
  -9223372036854775808 <= num < 9223372036854775808 ->
  let r := write_i calloc_ realloc_ junk uninit_neg s num in
  let neg := (num <? 0) || ((0 <? num) && uninit_neg) in
  exists ds,
    content (fst r) = content s ++ (if neg then [45] else []) ++ ds /\
    ds <> [] /\ Forall is_digit ds /\ decimal_value ds = Z.abs num /\
    (num <> 0 -> hd 0 ds <> 48) /\
    valid (fst r) /\ snd r = info (fst r).
Proof.
  intros Hv Hfr Hlen Hnum. destruct (valid_len s Hv) as (Hl0 & _).
  unfold write_i. cbv zeta. rewrite Hfr.
  assert (Hstore : forall src, zlen src <= 23 ->
            let '(s1, i) := resize calloc_ realloc_ junk s (u64 (len s + zlen src)) in
            let s' := poke s1 (i_data i) (i_len i - zlen src) src in
            content s' = content s ++ src /\ valid s' /\ i = info s').
  { intros src Hs. pose proof (zlen_nonneg src) as Hs0.
    rewrite u64_small by lia.
    pose proof (resize_grows s (len s + zlen src) Hv Hfr ltac:(lia)) as Hg.
    pose proof (poke_grown s src _ Hv Hg) as Hp.
    destruct (resize calloc_ realloc_ junk s (len s + zlen src)) as [s1 i].
    cbn [fst snd] in *. destruct Hp as (P1 & P2 & P3 & P4 & P5).
    split; [exact P5|]. split; [exact P1|exact P3]. }
  destruct (Z.eqb_spec num 0) as [->|Hne].
  - specialize (Hstore [48] ltac:(cbn; lia)). change (zlen [48]) with 1 in Hstore.
    destruct (resize calloc_ realloc_ junk s (u64 (len s + 1))) as [s1 i].
    cbn [fst snd]. destruct Hstore as (S1 & S2 & S3).
    exists [48]. cbn [orb andb Z.ltb Z.compare app].
    split; [exact S1|]. split; [discriminate|].
    split; [constructor; [unfold is_digit; lia|constructor]|].
    split; [reflexivity|]. split; [congruence|]. split; assumption.
  - set (a := Z.abs num).
    assert (Ha : 0 < a <= 9223372036854775808) by (unfold a; lia).
    assert (Hpow : a < 10 ^ Z.of_nat 22) by (change (10 ^ Z.of_nat 22) with
                                              10000000000000000000000; lia).
    destruct (lsf_spec 22 a ltac:(lia)) as (D1 & D2 & D3).
    destruct (D3 ltac:(lia)) as (D4 & D5).
    pose proof (lsf_length 22 a) as Dl.
    assert (Hbuf : forall (neg : bool),
              let buf := if neg then lsf 22 a ++ [45] else lsf 22 a in
              zlen buf <= 23 /\
              rev buf = (if neg then [45] else []) ++ rev (lsf 22 a)).
    { intros neg. destruct neg; cbv zeta.
      - rewrite zlen_app, rev_app_distr. unfold zlen. cbn [length rev app]. split; [lia|].
        reflexivity.
      - unfold zlen. split; [lia|reflexivity]. }
    assert (Hfinish : forall (neg : bool),
              let buf := if neg then lsf 22 a ++ [45] else lsf 22 a in
              let r := (let '(s1, i) :=
                              resize calloc_ realloc_ junk s (u64 (len s + zlen buf)) in
                            (poke s1 (i_data i) (i_len i - zlen buf) (rev buf), i)) in
              exists ds,
                content (fst r) = content s ++ (if neg then [45] else []) ++ ds /\
                ds <> [] /\ Forall is_digit ds /\ decimal_value ds = a /\
                (num <> 0 -> hd 0 ds <> 48) /\
                valid (fst r) /\ snd r = info (fst r)).
    { intros neg. cbv zeta. destruct (Hbuf neg) as (B1 & B2). cbv zeta in B1, B2.
      set (buf := if neg then lsf 22 a ++ [45] else lsf 22 a) in *.
      pose proof (Hstore (rev buf)) as Hs.
      assert (Ez : zlen (rev buf) = zlen buf) by (unfold zlen; rewrite length_rev; reflexivity).
      rewrite Ez in Hs. specialize (Hs B1).
      destruct (resize calloc_ realloc_ junk s (u64 (len s + zlen buf))) as [s1 i].
      cbn [fst snd]. destruct Hs as (S1 & S2 & S3).
      exists (rev (lsf 22 a)).
      split; [rewrite S1, B2; reflexivity|].
      split; [intros E; apply D4; apply (f_equal (@rev Z)) in E;
              rewrite rev_involutive in E; exact E|].
      split; [apply Forall_rev; exact D1|].
      split; [exact D2|]. split; [intros _; exact D5|]. split; assumption. }
    destruct (Z.ltb_spec num 0) as [Hneg|Hpos].
    + cbn [orb]. rewrite digits_negated by lia.
      replace (- num) with a by (unfold a; lia).
      exact (Hfinish true).
    + replace (0 <? num) with true by (symmetry; apply Z.ltb_lt; lia).
      cbn [orb andb].
      rewrite (digits_loop 22 num []) by lia. cbn [app].
      replace (lsf 22 num) with (lsf 22 a) by (unfold a; rewrite Z.abs_eq by lia; reflexivity).
      exact (Hfinish uninit_neg).
Qed.

(** X25.  [resize] to a smaller length truncates.  On a string that is not
    frozen and is small or has a capacity of its own, the content after
    [resize] to [n] bytes, [n] at most the length, is the first [n] bytes of
    the old content, and the info returned is that of the string.  (For
    static data, whose capacity is 0, the function goes on to [reserve],
    which copies the whole old string into a buffer allocated for [n]
    bytes.) *)
Theorem resize_truncates (s : str_s) (n : Z) :
  valid s -> FIO_STRING_IS_FROZEN s = false ->
  0 <= n <= len s -> len s < 4611686018427387904 ->
  FIO_STRING_IS_SMALL s = true \/ s_capa s <> 0 ->
  let r := resize calloc_ realloc_ junk s n in
  valid (fst r) /\ FIO_STRING_IS_FROZEN (fst r) = false /\ snd r = info (fst r) /\
  len (fst r) = n /\ content (fst r) = zsub (content s) 0 n.
Proof.
  intros Hv Hfr Hn Hmax Hkind. cbv zeta.
  destruct (FIO_STRING_IS_SMALL s) eqn:Hsm.
  - pose proof Hv as Hv'. unfold valid in Hv'. rewrite Hsm in Hv'.
    destruct Hv' as (Hz & Hl).
    assert (Hlen : len s = FIO_STRING_SMALL_LEN s) by (unfold len; rewrite Hsm; reflexivity).
    rewrite Hlen in Hn.
    destruct (small_special n ltac:(lia)) as (B0 & B1 & L).
    unfold resize. rewrite Hfr, Hsm.
    replace (n <=? FIO_STRING_SMALL_CAPA) with true by (symmetry; apply Z.leb_le; lia).
    cbv zeta.
    set (s2 := set_small_data (FIO_STRING_SMALL_LEN_SET s n)
                              (zset (small_data (FIO_STRING_SMALL_LEN_SET s n)) n 0)).
    assert (Esp : special s2 = special (FIO_STRING_SMALL_LEN_SET FIO_STRING_INIT n))
      by (apply small_len_set_special, Hfr).
    assert (Hsm2 : FIO_STRING_IS_SMALL s2 = true)
      by (unfold FIO_STRING_IS_SMALL; rewrite Esp, B0; reflexivity).
    assert (Hfr2 : FIO_STRING_IS_FROZEN s2 = false)
      by (unfold FIO_STRING_IS_FROZEN; rewrite Esp; exact B1).
    assert (Hl2 : FIO_STRING_SMALL_LEN s2 = n)
      by (unfold FIO_STRING_SMALL_LEN in *; rewrite Esp; exact L).
    assert (Hd2 : small_data s2 = zset (small_data s) n 0) by reflexivity.
    cbn [fst snd].
    unfold content, valid, info, len, data. rewrite Hsm2, Hfr2, Hl2, Hsm.
    cbn [buffer_of]. rewrite Hd2, zlen_zset.
    unfold FIO_STRING_SMALL_CAPA, sizeof_str in *.
    repeat split; try lia.
    rewrite zsub_zsub_prefix by lia. apply zsub_zset_after; lia.
  - destruct Hkind as [Hk|Hk]; [discriminate Hk|].
    pose proof Hv as Hv'. unfold valid in Hv'. rewrite Hsm in Hv'.
    destruct Hv' as ((a & Ea) & Hl & Hc & Hh & Hcapa).
    destruct (Hcapa Hk) as (Hlc & Hch).
    assert (Hlen : len s = s_len s) by (unfold len; rewrite Hsm; reflexivity).
    rewrite Hlen in Hn, Hmax.
    assert (Hcont : content s = zsub (s_heap s) 0 (s_len s)).
    { unfold content, data. rewrite Hsm, Hlen, Ea. reflexivity. }
    destruct (Z.lt_ge_cases n (s_capa s)) as [Hlt|Hge].
    + unfold resize. rewrite Hfr, Hsm.
      replace (s_capa s <=? n) with false by (symmetry; apply Z.leb_gt; lia).
      unfold resize_big. cbn [fst snd].
      set (s2 := set_heap (set_len s n) (zset (s_heap (set_len s n)) n 0)).
      assert (Hsm2 : FIO_STRING_IS_SMALL s2 = false) by exact Hsm.
      assert (Hfr2 : FIO_STRING_IS_FROZEN s2 = false) by exact Hfr.
      assert (E2 : s_heap s2 = zset (s_heap s) n 0 /\ s_data s2 = Heap a /\
                   s_len s2 = n /\ s_capa s2 = s_capa s)
        by (repeat split; exact Ea).
      destruct E2 as (E21 & E22 & E23 & E24).
      rewrite Hcont.
      unfold content, valid, info, len, data. rewrite Hsm2, Hfr2, E22, E23, E24.
      cbn [buffer_of]. rewrite E21, zlen_zset.
      repeat split; try lia.
      * exists a. reflexivity.
      * rewrite zsub_zsub_prefix by lia. apply zsub_zset_after; lia.
    + assert (En : n = len s) by lia.
      destruct (resize_grows s n Hv Hfr ltac:(lia)) as ((G1 & G2 & G3 & G4 & G5 & G6 & G7) & _).
      split; [exact G1|]. split; [exact G2|]. split; [exact G3|]. split; [exact G4|].
      unfold content at 1. rewrite G4.
      replace (zsub (content s) 0 n) with (content s)
        by (symmetry; apply zsub_whole; destruct (valid_len s Hv) as (_ & E); lia).
      rewrite <- G7, <- En. reflexivity.
Qed.

(** *** Reserving room and storing behind the content *)

(** the string has room for [n] bytes and the NUL without a new buffer *)
Definition has_room (s : str_s) (n : Z) : Prop :=
  (FIO_STRING_IS_SMALL s = true /\ n <= FIO_STRING_SMALL_CAPA) \/
  (FIO_STRING_IS_SMALL s = false /\ n < s_capa s).

Lemma zsub_zblit_part {A} (l src : list A) (off w : Z) :
  0 <= off -> off + zlen src <= zlen l -> 0 <= w <= zlen src ->
  zsub (zblit l off src) 0 (off + w) = zsub l 0 off ++ zsub src 0 w.
Proof.
  intros Ho Hl Hw.
  rewrite <- (zsub_zsub_prefix (zblit l off src) (off + zlen src) (off + w)) by lia.
  rewrite zsub_zblit_exact by lia.
  assert (Hz : zlen (zsub l 0 off) = off) by (apply zlen_zsub_le; lia).
  unfold zsub. cbn [Z.to_nat skipn]. rewrite firstn_app.
  replace (length (firstn (Z.to_nat off) l)) with (Z.to_nat off)
    by (unfold zsub, zlen in Hz; cbn [Z.to_nat skipn] in Hz; lia).
  rewrite firstn_firstn.
  replace (Init.Nat.min (Z.to_nat (off + w)) (Z.to_nat off)) with (Z.to_nat off) by lia.
  f_equal. f_equal. lia.
Qed.

(** [resize] within the room at hand keeps the bytes of the buffer *)
Lemma resize_within (s : str_s) (n : Z) :
  valid s -> FIO_STRING_IS_FROZEN s = false -> 0 <= n -> has_room s n ->
  let r := resize calloc_ realloc_ junk s n in
  valid (fst r) /\ FIO_STRING_IS_FROZEN (fst r) = false /\ snd r = info (fst r) /\
  len (fst r) = n /\ content (fst r) = zsub (buffer_of s (data s)) 0 n.
Proof.
  intros Hv Hfr Hn [[Hsm Hr]|[Hsm Hr]]; cbv zeta.
  - pose proof Hv as Hv'. unfold valid in Hv'. rewrite Hsm in Hv'.
    destruct Hv' as (Hz & Hl).
    destruct (small_special n ltac:(lia)) as (B0 & B1 & L).
    unfold resize. rewrite Hfr, Hsm.
    replace (n <=? FIO_STRING_SMALL_CAPA) with true by (symmetry; apply Z.leb_le; lia).
    cbv zeta.
    set (s2 := set_small_data (FIO_STRING_SMALL_LEN_SET s n)
                              (zset (small_data (FIO_STRING_SMALL_LEN_SET s n)) n 0)).
    assert (Esp : special s2 = special (FIO_STRING_SMALL_LEN_SET FIO_STRING_INIT n))
      by (apply small_len_set_special, Hfr).
    assert (Hsm2 : FIO_STRING_IS_SMALL s2 = true)
      by (unfold FIO_STRING_IS_SMALL; rewrite Esp, B0; reflexivity).
    assert (Hfr2 : FIO_STRING_IS_FROZEN s2 = false)
      by (unfold FIO_STRING_IS_FROZEN; rewrite Esp; exact B1).
    assert (Hl2 : FIO_STRING_SMALL_LEN s2 = n)
      by (unfold FIO_STRING_SMALL_LEN in *; rewrite Esp; exact L).
    assert (Hd2 : small_data s2 = zset (small_data s) n 0) by reflexivity.
    cbn [fst snd].
    unfold content, valid, info, len, data. rewrite Hsm2, Hfr2, Hl2, Hsm.
    cbn [buffer_of]. rewrite Hd2, zlen_zset.
    unfold FIO_STRING_SMALL_CAPA, sizeof_str in *.
    repeat split; try lia.
    apply zsub_zset_after; lia.
  - pose proof Hv as Hv'. unfold valid in Hv'. rewrite Hsm in Hv'.
    destruct Hv' as ((a & Ea) & Hl & Hc & Hh & Hcapa).
    destruct (Hcapa ltac:(lia)) as (Hlc & Hch).
    unfold resize. rewrite Hfr, Hsm.
    replace (s_capa s <=? n) with false by (symmetry; apply Z.leb_gt; lia).
    unfold resize_big. cbn [fst snd].
    set (s2 := set_heap (set_len s n) (zset (s_heap (set_len s n)) n 0)).
    assert (Hsm2 : FIO_STRING_IS_SMALL s2 = false) by exact Hsm.
    assert (Hfr2 : FIO_STRING_IS_FROZEN s2 = false) by exact Hfr.
    assert (E2 : s_heap s2 = zset (s_heap s) n 0 /\ s_data s2 = Heap a /\
                 s_len s2 = n /\ s_capa s2 = s_capa s)
      by (repeat split; exact Ea).
    destruct E2 as (E21 & E22 & E23 & E24).
    unfold content, valid, info, len, data. rewrite Hsm2, Hfr2, Hsm, E22, E23, E24, Ea.
    cbn [buffer_of]. rewrite E21, zlen_zset.
    repeat split; try lia.
    + exists a. reflexivity.
    + apply zsub_zset_after; lia.
Qed.

(** what [reserve] leaves: the same content, and room for [n] bytes *)
Definition reserved (s : str_s) (n : Z) (r : str_s * fio_string_info_s) : Prop :=
  let s1 := fst r in
  valid s1 /\ FIO_STRING_IS_FROZEN s1 = false /\
  i_data (snd r) = data s1 /\ data s1 <> Null /\ len s1 = len s /\
  zsub (buffer_of s1 (data s1)) 0 (len s) = content s /\
  n + 1 <= zlen (buffer_of s1 (data s1)) /\ has_room s1 n.

Lemma reserve_room (s : str_s) (n : Z) :
  valid s -> FIO_STRING_IS_FROZEN s = false ->
  len s <= n < 4611686018427387904 ->
  reserved s n (reserve calloc_ realloc_ junk s n).
Proof.
  intros Hv Hfr Hn. pose proof (capa2words_bound n) as Hw.
  destruct (valid_len s Hv) as (Hl0 & _).
  specialize (Hw ltac:(lia)).
  set (amount := FIO_STRING_CAPA2WORDS n) in *.
  destruct (FIO_STRING_IS_SMALL s) eqn:Hsm.
  - pose proof Hv as Hv'. unfold valid in Hv'. rewrite Hsm in Hv'.
    destruct Hv' as (Hz & Hl).
    assert (Hlen : len s = FIO_STRING_SMALL_LEN s) by (unfold len; rewrite Hsm; reflexivity).
    assert (Hcont : content s = zsub (small_data s) 0 (FIO_STRING_SMALL_LEN s)).
    { unfold content, data. rewrite Hsm, Hlen. reflexivity. }
    unfold reserve. rewrite Hfr, Hsm.
    destruct (Z.leb_spec n FIO_STRING_SMALL_CAPA) as [Hle|Hgt].
    + unfold reserved. cbn [fst snd i_data]. unfold data. rewrite Hsm. cbn [buffer_of].
      rewrite Hlen, Hcont.
      unfold FIO_STRING_SMALL_CAPA, sizeof_str in *.
      repeat split; try assumption; try discriminate; try lia.
      left. split; [exact Hsm|unfold FIO_STRING_SMALL_CAPA, sizeof_str; lia].
    + fold amount.
      destruct (calloc_ (u64 (amount + 1))) as [a|] eqn:Ea;
        [|exfalso; exact (calloc_ok _ Ea)].
      set (k := FIO_STRING_SMALL_LEN s) in *.
      set (tmp := if negb (k =? 0)
                  then zblit (zrepeat 0 (amount + 1)) 0 (zsub (small_data s) 0 (k + 1))
                  else zset (zrepeat 0 (amount + 1)) 0 0).
      assert (Htmp : zlen tmp = amount + 1).
      { unfold tmp. destruct (negb (k =? 0));
          rewrite ?zlen_zblit, ?zlen_zset, zlen_zrepeat by lia; reflexivity. }
      assert (Hpre : zsub tmp 0 k = zsub (small_data s) 0 k).
      { unfold tmp. destruct (Z.eqb_spec k 0) as [E|E]; cbn [negb].
        - rewrite E. reflexivity.
        - unfold FIO_STRING_SMALL_CAPA, sizeof_str in *.
          assert (Hk : zlen (zsub (small_data s) 0 (k + 1)) = k + 1)
            by (apply zlen_zsub_le; lia).
          rewrite zblit_front by (rewrite zlen_zrepeat, Hk; lia).
          rewrite zsub_app_l by (rewrite Hk; lia).
          apply zsub_zsub_prefix. lia. }
      unfold reserved. cbn [fst snd i_data s_data].
      unfold valid, data, len, has_room, FIO_STRING_IS_SMALL, FIO_STRING_IS_FROZEN.
      cbn [special s_data s_len s_heap s_capa ptr_is_null].
      change (Z.testbit 0 0) with false. change (Z.testbit 0 1) with false.
      cbn [orb buffer_of s_heap].
      fold (FIO_STRING_IS_SMALL s). rewrite Hsm. fold k. rewrite Htmp, Hcont.
      unfold FIO_STRING_SMALL_CAPA, sizeof_str in *.
      repeat split; try lia; try discriminate.
      * exists a. reflexivity.
      * exact Hpre.
  - pose proof Hv as Hv'. unfold valid in Hv'. rewrite Hsm in Hv'.
    destruct Hv' as ((a & Ea) & Hl & Hc & Hh & Hcapa).
    assert (Hlen : len s = s_len s) by (unfold len; rewrite Hsm; reflexivity).
    assert (Hcont : content s = zsub (s_heap s) 0 (s_len s)).
    { unfold content, data. rewrite Hsm, Hlen, Ea. reflexivity. }
    assert (Hb0 : Z.testbit (special s) 0 = false).
    { unfold FIO_STRING_IS_SMALL in Hsm. apply Bool.orb_false_iff in Hsm. apply Hsm. }
    rewrite Hlen in Hn.
    unfold reserve. rewrite Hfr, Hsm.
    destruct (Z.ltb_spec n (s_capa s)) as [Hlt|Hge].
    + destruct (Hcapa ltac:(lia)) as (Hlc & Hch).
      unfold reserved. cbn [fst snd i_data]. unfold data. rewrite Hsm, Ea. cbn [buffer_of].
      rewrite Hlen, Hcont.
      repeat split; try assumption; try discriminate; try lia.
      right. split; [exact Hsm|exact Hlt].
    + fold amount.
      assert (Hkept : zlen (zsub (s_heap s) 0 (s_len s + 1)) = s_len s + 1)
        by (apply zlen_zsub_le; lia).
      assert (Hgoal : forall (a' : Z) (tmp : list Z) (dl : dealloc_fn),
                 zlen tmp = amount + 1 ->
                 zsub tmp 0 (s_len s) = zsub (s_heap s) 0 (s_len s) ->
                 let s' := mk_str (special s) (small_data s) amount (s_len s) (Heap a')
                                  (zset tmp amount 0) dl in
                 reserved s n (s', mk_info (s_capa s') (s_len s') (s_data s'))).
      { intros a' tmp dl Ht Hp. cbv zeta. unfold reserved. cbn [fst snd i_data s_data].
        unfold valid, data, len, has_room, FIO_STRING_IS_SMALL, FIO_STRING_IS_FROZEN.
        cbn [special s_data s_len s_heap s_capa ptr_is_null].
        fold (FIO_STRING_IS_FROZEN s). fold (FIO_STRING_IS_SMALL s).
        rewrite Hfr, Hsm, Hb0. cbn [orb buffer_of s_heap]. rewrite !zlen_zset, Ht, Hcont.
        repeat split; try lia; try discriminate.
        - exists a'. reflexivity.
        - rewrite zsub_zset_after by lia. exact Hp. }
      destruct (dealloc_is_default (s_dealloc s)).
      * destruct (realloc_ (s_data s) (u64 (amount + 1))) as [a'|] eqn:Er;
          [|exfalso; exact (realloc_ok _ _ Er)].
        apply Hgoal.
        -- rewrite zlen_app, zlen_zrepeat, Hkept by (rewrite Hkept; lia). lia.
        -- rewrite zsub_app_l by (rewrite Hkept; lia).
           apply zsub_zsub_prefix. lia.
      * destruct (calloc_ (u64 (amount + 1))) as [a'|] eqn:Ec;
          [|exfalso; exact (calloc_ok _ Ec)].
        apply Hgoal.
        -- destruct (negb (ptr_is_null (s_data s)) && negb (s_len s =? 0));
             rewrite ?zlen_zblit, zlen_zrepeat by lia; reflexivity.
        -- rewrite Ea. cbn [ptr_is_null negb andb].
           destruct (Z.eqb_spec (s_len s) 0) as [Ek|Ek]; cbn [negb].
           ++ rewrite Ek. reflexivity.
           ++ rewrite zblit_front by (rewrite zlen_zrepeat, Hkept; lia).
              rewrite zsub_app_l by (rewrite Hkept; lia).
              apply zsub_zsub_prefix. lia.
Qed.

(** bytes stored behind the content of a string with room for them, and the
    length set to cover the first [w] of them *)
Lemma reserve_store (s : str_s) (R w : Z) (out : list Z) :
  valid s -> flagged s -> FIO_STRING_IS_FROZEN s = false ->
  len s + zlen out <= R -> R < 4611686018427387904 -> 0 <= w <= zlen out ->
  let '(s1, i) := reserve calloc_ realloc_ junk s R in
  let r := resize calloc_ realloc_ junk (poke s1 (i_data i) (len s) out) (len s + w) in
  valid (fst r) /\ FIO_STRING_IS_FROZEN (fst r) = false /\ snd r = info (fst r) /\
  len (fst r) = len s + w /\ content (fst r) = content s ++ zsub out 0 w.
Proof.
  intros Hv Hflag Hfr HR Hmax Hw. destruct (valid_len s Hv) as (Hl0 & _).
  pose proof (zlen_nonneg out) as Ho0.
  pose proof (reserve_room s R Hv Hfr ltac:(lia)) as Hres.
  pose proof (reserve_reads_through calloc_ realloc_ junk s R Hflag) as Hthrough.
  destruct (reserve calloc_ realloc_ junk s R) as [s1 i].
  destruct Hres as (G1 & G2 & G3 & G4 & G5 & G6 & G7 & G8). cbn [fst snd] in *.
  rewrite G3 in *. set (s2 := poke s1 (data s1) (len s) out).
  assert (Hsame : special s2 = special s1 /\ s_data s2 = s_data s1 /\
                  s_len s2 = s_len s1 /\ s_capa s2 = s_capa s1 /\
                  zlen (small_data s2) = zlen (small_data s1) /\
                  zlen (s_heap s2) = zlen (s_heap s1) /\
                  buffer_of s2 (data s1) = zblit (buffer_of s1 (data s1)) (len s) out).
  { unfold s2. rewrite (poke_cases s1 (data s1) (len s) out Hthrough Hl0).
    destruct (data s1) eqn:Ed; [contradiction| |];
      cbn [special set_small_data set_heap s_data s_len s_capa small_data s_heap
           buffer_of]; rewrite ?zlen_zblit; repeat split. }
  destruct Hsame as (E1 & E2 & E3 & E4 & E5 & E6 & E7).
  assert (Hsm : FIO_STRING_IS_SMALL s2 = FIO_STRING_IS_SMALL s1)
    by (unfold FIO_STRING_IS_SMALL; rewrite E1, E2; reflexivity).
  assert (Hfr2 : FIO_STRING_IS_FROZEN s2 = false)
    by (unfold FIO_STRING_IS_FROZEN; rewrite E1; exact G2).
  assert (Hsl : FIO_STRING_SMALL_LEN s2 = FIO_STRING_SMALL_LEN s1)
    by (unfold FIO_STRING_SMALL_LEN; rewrite E1; reflexivity).
  assert (Hdat : data s2 = data s1) by (unfold data; rewrite Hsm, E2; reflexivity).
  assert (Hv2 : valid s2)
    by (unfold valid in *; rewrite Hsm, Hsl, E2, E3, E4, E5, E6; exact G1).
  assert (Hroom : has_room s2 (len s + w)).
  { unfold has_room in *. rewrite Hsm, E4.
    destruct G8 as [[A B]|[A B]]; [left|right]; (split; [exact A|lia]). }
  destruct (resize_within s2 (len s + w) Hv2 Hfr2 ltac:(lia) Hroom)
    as (R1 & R2 & R3 & R4 & R5).
  cbv zeta. split; [exact R1|]. split; [exact R2|]. split; [exact R3|].
  split; [exact R4|].
  rewrite R5, Hdat, E7, zsub_zblit_part by lia. rewrite G6. reflexivity.
Qed.

(** X28.  [write_b64enc] appends the Base64 text.  On a string that is not
    frozen, the content after the call is the old content followed by the
    encoding of the bytes given: four characters for every three bytes or
    part of three. *)
Theorem b64enc_appends (s : str_s) (b : list Z) (url_encoded : Z) :
  valid s -> FIO_STRING_IS_FROZEN s = false ->
  zlen b < 1073741824 -> len s < 2147483648 ->
  let r := write_b64enc calloc_ realloc_ junk s b url_encoded in
  content (fst r) = content s ++ b64_text junk url_encoded b /\
  len (fst r) = len s + 4 * ((zlen b + 2) / 3) /\
  valid (fst r) /\ FIO_STRING_IS_FROZEN (fst r) = false /\ snd r = info (fst r).
Proof.
  intros Hv Hfr Hlen Hls. destruct (valid_len s Hv) as (Hl0 & _).
  pose proof (zlen_nonneg b) as Hb0. cbv zeta. unfold write_b64enc.
  destruct (Z.eqb_spec (zlen b) 0) as [E|E].
  - assert (b = []) as -> by (destruct b; [reflexivity|rewrite zlen_cons in E;
                                pose proof (zlen_nonneg b); lia]).
    cbn [fst snd]. rewrite b64_text_nil, app_nil_r. change (zlen (@nil Z)) with 0.
    change ((0 + 2) / 3) with 0. rewrite Z.mul_0_r, Z.add_0_r.
    repeat split; assumption.
  - cbv zeta.
    assert (Hg : i32 (zlen b / 3) = zlen b / 3)
      by (apply i32_small; Z.div_mod_to_equations; lia).
    rewrite Hg.
    assert (Hm : i32 (zlen b - zlen b / 3 * 3) = zlen b mod 3)
      by (rewrite i32_small; Z.div_mod_to_equations; lia).
    rewrite Hm.
    set (target := (zlen b / 3 + (if zlen b mod 3 =? 0 then 0 else 1)) * 4).
    assert (Ht : target = 4 * ((zlen b + 2) / 3)).
    { subst target. destruct (Z.eqb_spec (zlen b mod 3) 0); Z.div_mod_to_equations; lia. }
    assert (Ht2 : 0 <= target < 2147483648)
      by (rewrite Ht; Z.div_mod_to_equations; lia).
    rewrite (i32_small target) by lia. rewrite (u32_small (len s)) by lia.
    rewrite (u32_small (len s + target)) by lia.
    pose proof (b64_text_length junk url_encoded b) as Hl. unfold b64_text in *.
    destruct (b64enc_groups junk (encoding url_encoded) (Z.to_nat (zlen b / 3)) b)
      as [ws reader].
    set (out := ws ++ b64enc_tail junk (encoding url_encoded) (zlen b mod 3) reader) in *.
    assert (Ho : zlen out = target) by lia.
    pose proof (resize_grows s (len s + zlen out) Hv Hfr ltac:(lia)) as Hg'.
    pose proof (poke_grown s out _ Hv Hg') as Hp.
    rewrite Ho in Hg', Hp.
    destruct (resize calloc_ realloc_ junk s (len s + target)) as [s1 i].
    cbn [fst snd] in *.
    assert (Eoff : i_len i - target = len s).
    { destruct Hg' as ((_ & _ & G3 & G4 & _) & _). cbn [fst snd] in *.
      rewrite G3, info_len, G4. lia. }
    rewrite Eoff in Hp. destruct Hp as (P1 & P2 & P3 & P4 & P5).
    split; [exact P5|]. split; [rewrite P4, Ht; reflexivity|].
    split; [exact P1|]. split; [exact P2|exact P3].
Qed.

(** [write_b64dec] into a string, from what the decoding stages give *)
Lemma write_b64dec_store (s : str_s) (text out rest back : list Z) :
  valid s -> flagged s -> FIO_STRING_IS_FROZEN s = false -> len s < 2147483648 ->
  text <> [] -> zlen text < 2147483648 ->
  b64dec_run text = (out, Some (rest, back)) ->
  zlen out <= 3 * (zlen (b64dec_strip text) / 4) + 3 ->
  0 <= b64dec_written junk back (i32 (zlen out)) <= zlen out ->
  let r := write_b64dec calloc_ realloc_ junk s text in
  content (fst r) = content s ++ zsub out 0 (b64dec_written junk back (i32 (zlen out))) /\
  valid (fst r) /\ FIO_STRING_IS_FROZEN (fst r) = false /\ snd r = info (fst r).
Proof.
  intros Hv Hflag Hfr Hls Hne Hlen Hrun Hfit Hw. cbv zeta. unfold write_b64dec.
  destruct (valid_len s Hv) as (Hl0 & _).
  assert (Hpos : 0 < zlen text)
    by (destruct text; [contradiction | rewrite zlen_cons; pose proof (zlen_nonneg text); lia]).
  replace (zlen text =? 0) with false by (symmetry; apply Z.eqb_neq; lia).
  rewrite (u32_small (len s)) by lia. rewrite Hrun.
  assert (Hstrip : 0 <= zlen (b64dec_strip text) <= zlen text).
  { split; [apply zlen_nonneg|]. unfold b64dec_strip, zlen. rewrite length_rev.
    assert (H : forall l, (length (drop_unknown l) <= length l)%nat).
    { induction l as [|x l IH]; [cbn; lia|]. cbn [drop_unknown].
      destruct (base64_decodes x =? 0); cbn [length]; lia. }
    specialize (H (rev text)). rewrite length_rev in H. lia. }
  rewrite Z.shiftr_div_pow2 by lia. change (2 ^ 2) with 4.
  set (n := zlen (b64dec_strip text)) in *.
  assert (Hn4 : 0 <= n / 4 <= n) by (Z.div_mod_to_equations; lia).
  rewrite (u64_small (len s + n / 4 * 3 + 3)) by lia.
  pose proof (zlen_nonneg out) as Hout.
  set (w := b64dec_written junk back (i32 (zlen out))) in *.
  assert (Hn4' : 4 * (n / 4) <= n) by (Z.div_mod_to_equations; lia).
  rewrite (u32_small (len s + w)) by lia.
  pose proof (reserve_store s (len s + n / 4 * 3 + 3) w out Hv Hflag Hfr ltac:(lia)
                            ltac:(lia) Hw) as H.
  destruct (reserve calloc_ realloc_ junk s (len s + n / 4 * 3 + 3)) as [s1 i].
  cbv zeta in H. destruct H as (H1 & H2 & H3 & H4 & H5).
  split; [exact H5|]. split; [exact H1|]. split; [exact H2|exact H3].
Qed.

(** X29.  Base64 text decodes behind what the string holds.  For every byte
    sequence [b], either alphabet, and any runs of white space put between
    the groups of its padded encoding, [write_b64dec] on a string that is
    not frozen and whose flag tells its mode ([flagged]: bit 0 of [special]
    is set, or [data] refers to a buffer) leaves the old content followed by
    exactly [b].  The struct that is small only by its NULL [data] is left
    out: [reserve] does not set its flag, and the bytes decoded into it
    reach the fields the string is then read through. *)
Theorem b64dec_appends_decoded (s : str_s) (b : list Z) (url_encoded : Z)
        (wss : list (list Z)) :
  valid s -> flagged s -> FIO_STRING_IS_FROZEN s = false -> len s < 2147483648 ->
  Forall is_byte b -> all_spaces wss -> zlen b < 1073741824 ->
  zlen (spaced wss (b64_text junk url_encoded b)) < 2147483648 ->
  let r := write_b64dec calloc_ realloc_ junk s (spaced wss (b64_text junk url_encoded b)) in
  content (fst r) = content s ++ b /\
  (b <> [] -> valid (fst r) /\ snd r = info (fst r)).
Proof.
  intros Hv Hflag Hfr Hls Hb Hws Hlen Htlen.
  destruct (b64dec_run_spaced junk url_encoded b wss Hb Hws) as [Hstrip Hrun].
  pose proof (dec_out_fits junk url_encoded b wss) as Hfit.
  pose proof (dec_out_length url_encoded b) as Hol.
  pose proof (dec_out_prefix url_encoded b Hb) as Hpre.
  pose proof (zlen_nonneg b) as Hb0.
  set (sp := spaced wss (b64_text junk url_encoded b)) in *.
  set (body := spaced_body wss (b64_text junk url_encoded b)) in *.
  set (out := dec_out url_encoded b) in *.
  assert (Hbody : zlen body <= zlen sp).
  { subst sp body. rewrite spaced_split, zlen_app.
    pose proof (zlen_nonneg (spaced_trail wss (b64_text junk url_encoded b))). lia. }
  assert (Hw : b64dec_written junk (rev body) (i32 (zlen out)) = zlen b).
  { destruct b as [|x b'] eqn:Eb.
    - subst body out. cbn [dec_out]. rewrite b64_text_nil. cbn [spaced_body rev].
      apply b64dec_written_none.
    - destruct (spaced_body_last junk url_encoded (x :: b') Hb ltac:(discriminate) wss)
        as (c4 & c3 & X & E & _ & L).
      fold body in E. fold out in L. rewrite E.
      rewrite b64dec_written_value; [lia | lia |].
      assert (4 * zlen out <= 3 * zlen sp) by lia. lia. }
  cbv zeta. destruct sp as [|c0 sp'] eqn:Esp.
  - change (zlen (@nil Z)) with 0 in *.
    pose proof (zlen_nonneg body). pose proof (zlen_nonneg out).
    destruct b as [|x b'].
    + split; [symmetry; apply app_nil_r|]. intros Hnn. exfalso. apply Hnn. reflexivity.
    + rewrite zlen_cons in Hol. pose proof (zlen_nonneg b'). lia.
  - destruct (write_b64dec_store s (c0 :: sp') out [] (rev body) Hv Hflag Hfr Hls)
      as (S1 & S2 & S3 & S4).
    + discriminate.
    + exact Htlen.
    + exact Hrun.
    + rewrite Hstrip. Z.div_mod_to_equations. lia.
    + rewrite Hw. lia.
    + split; [|intros _; split; assumption].
      rewrite S1, Hw. unfold zlen. rewrite zsub_firstn, Hpre. reflexivity.
Qed.

End Append.

Lemma write_appends_witness :
  let r := Run.write FIO_STRING_INIT [104; 105] in
  valid (fst r) /\ FIO_STRING_IS_FROZEN (fst r) = false /\ snd r = info (fst r) /\
  len (fst r) = len FIO_STRING_INIT + zlen [104; 105] /\
  content (fst r) = content FIO_STRING_INIT ++ [104; 105].
Proof.
  apply (write_appends Run.calloc_ Run.realloc_ 170).
  - intros n. discriminate.
  - intros p n. discriminate.
  - exact valid_init.
  - reflexivity.
  - vm_compute. reflexivity.
Defined.

Lemma concat_appends_witness :
  let dest := fst (Run.write FIO_STRING_INIT [104; 105]) in
  let src := fst (Run.write FIO_STRING_INIT [33]) in
  let r := concat Run.calloc_ Run.realloc_ 170 dest src in
  valid (fst r) /\ FIO_STRING_IS_FROZEN (fst r) = false /\ snd r = info (fst r) /\
  len (fst r) = len dest + len src /\ content (fst r) = content dest ++ content src.
Proof.
  apply (concat_appends Run.calloc_ Run.realloc_ 170).
  - intros n. discriminate.
  - intros p n. discriminate.
  - vm_compute. split; [reflexivity|]. split; discriminate.
  - reflexivity.
  - vm_compute. split; [reflexivity|]. split; discriminate.
  - vm_compute. reflexivity.
Defined.

Lemma write_i_decimal_witness :
  let r := write_i Run.calloc_ Run.realloc_ 170 false FIO_STRING_INIT (-9223372036854775808) in
  let neg := (-9223372036854775808 <? 0) || ((0 <? -9223372036854775808) && false) in
  exists ds,
    content (fst r) = content FIO_STRING_INIT ++ (if neg then [45] else []) ++ ds /\
    ds <> [] /\ Forall is_digit ds /\
    decimal_value ds = Z.abs (-9223372036854775808) /\
    (-9223372036854775808 <> 0 -> hd 0 ds <> 48) /\
    valid (fst r) /\ snd r = info (fst r).
Proof.
  apply (write_i_decimal Run.calloc_ Run.realloc_ 170).
  - intros n. discriminate.
  - intros p n. discriminate.
  - exact valid_init.
  - reflexivity.
  - vm_compute. reflexivity.
  - lia.
Defined.

Lemma resize_truncates_witness :
  let s := fst (Run.write FIO_STRING_INIT [104; 101; 108; 108; 111]) in
  let r := resize Run.calloc_ Run.realloc_ 170 s 2 in
  valid (fst r) /\ FIO_STRING_IS_FROZEN (fst r) = false /\ snd r = info (fst r) /\
  len (fst r) = 2 /\ content (fst r) = zsub (content s) 0 2.
Proof.
  apply (resize_truncates Run.calloc_ Run.realloc_ 170).
  - intros n. discriminate.
  - intros p n. discriminate.
  - vm_compute. split; [reflexivity|]. split; discriminate.
  - reflexivity.
  - vm_compute. split; discriminate.
  - vm_compute. reflexivity.
  - left. reflexivity.
Defined.

Lemma b64enc_appends_witness :
  let s := fst (Run.write FIO_STRING_INIT [104; 105]) in
  let r := Run.write_b64enc s [72; 101; 108; 108; 111] 0 in
  content (fst r) = content s ++ b64_text 170 0 [72; 101; 108; 108; 111] /\
  len (fst r) = len s + 4 * ((zlen [72; 101; 108; 108; 111] + 2) / 3) /\
  valid (fst r) /\ FIO_STRING_IS_FROZEN (fst r) = false /\ snd r = info (fst r).
Proof.
  apply (b64enc_appends Run.calloc_ Run.realloc_ 170).
  - intros n. discriminate.
  - intros p n. discriminate.
  - vm_compute. split; [reflexivity|]. split; discriminate.
  - reflexivity.
  - vm_compute. reflexivity.
  - vm_compute. reflexivity.
Defined.

Lemma b64dec_appends_decoded_witness :
  let s := fst (Run.write FIO_STRING_INIT [104; 105]) in
  let b := [72; 101; 108; 108; 111] in
  let r := Run.write_b64dec s (spaced [[32]; [13; 10]] (b64_text 170 1 b)) in
  content (fst r) = content s ++ b /\
  (b <> [] -> valid (fst r) /\ snd r = info (fst r)).
Proof.
  apply (b64dec_appends_decoded Run.calloc_ Run.realloc_ 170).
  - intros n. discriminate.
  - intros p n. discriminate.
  - vm_compute. split; [reflexivity|]. split; discriminate.
  - left. vm_compute. reflexivity.
  - reflexivity.
  - vm_compute. reflexivity.
  - repeat constructor; unfold is_byte; lia.
  - repeat constructor.
  - vm_compute. reflexivity.
  - vm_compute. reflexivity.
Defined.

End Str.


(* ------------------------------------------------------------------------- *)
(** ** Soft types: the JSON formatter ([fiobj___json_format_internal__]) *)
(* ------------------------------------------------------------------------- *)

Module Fiobj.
Import Str.

(** A soft value as [FIOBJ_TYPE(o)] classifies it.  Numbers and floats carry
    the text [fiobj2cstr] returns for them (the number/string conversions are
    outside the core); [FOther] is any other type id with the text of its
    [to_s].  An array is its live elements; a hash is its couplets in ring
    (insertion) order, [fiobj_hash_count] being their number. *)
#[local] Unset Elimination Schemes.
Inductive FIOBJ : Type :=
| FNull | FTrue | FFalse
| FNumber (text : list Z)
| FFloat (text : list Z)
| FString (bytes : list Z)
| FOther (text : list Z)
| FArray (items : list FIOBJ)
| FHash (couplets : list (FIOBJ * FIOBJ)).
#[local] Set Elimination Schemes.

Definition FIOBJ_JSON_MAX_NESTING : Z := 28.
Definition FIOBJ2CSTR_BUFFER_LIMIT : Z := 4096.

Section Format.
Variable calloc_ : Z -> option Z.
Variable realloc_ : ptr -> Z -> option Z.
Variable junk : Z.

Definition fiobj_string_write (json : str_s) (src : list Z) : str_s :=
  fst (write calloc_ realloc_ junk json src).
Definition fiobj_string_write_escape (json : str_s) (src : list Z) : str_s :=
  fst (write_escape calloc_ realloc_ junk json src).

(** [fiobj___json_format_internal_beauty_pad] *)
Definition fiobj___json_format_internal_beauty_pad (json : str_s) (level : Z) : str_s :=
  let pos := u32 (len json) in
  let '(json1, tmp) := resize calloc_ realloc_ junk json (u64 (level + pos + 2)) in
  poke json1 (i_data tmp) pos (13 :: 10 :: zrepeat 9 level).

(** [fiobj2cstr] on a value that is not a container *)
Definition cstr_leaf (o : FIOBJ) : list Z :=
  match o with
  | FNull => [110; 117; 108; 108]
  | FTrue => [116; 114; 117; 101]
  | FFalse => [102; 97; 108; 115; 101]
  | FNumber text => text
  | FFloat text => text
  | FString bytes => bytes
  | FOther text => text
  | FArray _ => []
  | FHash _ => []
  end.

(** The two loops of the formatter, over the elements of an array and over
    the couplets of a hash ([FIO_MAP_EACH]); [item] formats a child one level
    down, [pad] is the beautifier's padding at that level and [key_text] is
    [fiobj2cstr] on a key.  A comma follows every child but the last. *)
Section Each.
Variable item : str_s -> FIOBJ -> str_s.
Variable pad : str_s -> str_s.
Variable key_text : FIOBJ -> list Z.

Fixpoint array_each (json : str_s) (items : list FIOBJ) {struct items} : str_s :=
  match items with
  | [] => json
  | child :: rest =>
    let json := pad json in
    let json := item json child in
    let json := match rest with
                | [] => json
                | _ => fiobj_string_write json [44]
                end in
    array_each json rest
  end.

Fixpoint hash_each (json : str_s) (couplets : list (FIOBJ * FIOBJ))
         {struct couplets} : str_s :=
  match couplets with
  | [] => json
  | (key, value) :: rest =>
    let json := pad json in
    let json := fiobj_string_write json [34] in
    let json := fiobj_string_write_escape json (key_text key) in
    let json := fiobj_string_write json [34; 58] in
    let json := item json value in
    let json := match rest with
                | [] => json
                | _ => fiobj_string_write json [44]
                end in
    hash_each json rest
  end.
End Each.

Definition beauty (beautify : bool) (level : Z) (json : str_s) : str_s :=
  if beautify then fiobj___json_format_internal_beauty_pad json level else json.

(** [fiobj___json_format_internal__(json, o, level, beautify)]; the inner
    [cstr] is [fiobj2cstr], which formats a container key through [fiobj2json]
    into a new string and gives up at [FIOBJ2CSTR_BUFFER_LIMIT] *)
Fixpoint fiobj___json_format_internal__ (json : str_s) (o : FIOBJ) (level : Z)
         (beautify : bool) {struct o} : str_s :=
  let cstr (k : FIOBJ) : list Z :=
    match k with
    | FArray _ =>
      let j := fiobj___json_format_internal__ FIO_STRING_INIT k 0 false in
      if FIOBJ2CSTR_BUFFER_LIMIT <=? len j then [91; 46; 46; 46; 93] else content j
    | FHash _ =>
      let j := fiobj___json_format_internal__ FIO_STRING_INIT k 0 false in
      if FIOBJ2CSTR_BUFFER_LIMIT <=? len j then [123; 46; 46; 46; 125] else content j
    | _ => cstr_leaf k
    end in
  match o with
  | FTrue | FFalse | FNull | FNumber _ | FFloat _ =>
    fiobj_string_write json (cstr_leaf o)
  | FString _ | FOther _ =>
    let json := fiobj_string_write json [34] in
    let json := fiobj_string_write_escape json (cstr_leaf o) in
    fiobj_string_write json [34]
  | FArray items =>
    if level =? FIOBJ_JSON_MAX_NESTING then fiobj_string_write json [91; 32; 93]
    else
      let level := u8 (level + 1) in
      let json := fiobj_string_write json [91] in
      let json :=
        array_each (fun json child =>
                      fiobj___json_format_internal__ json child level beautify)
                   (beauty beautify level) json items in
      let level := u8 (level - 1) in
      let json := beauty beautify level json in
      fiobj_string_write json [93]
  | FHash couplets =>
    if level =? FIOBJ_JSON_MAX_NESTING then fiobj_string_write json [123; 32; 125]
    else
      let level := u8 (level + 1) in
      let json := fiobj_string_write json [123] in
      let json :=
        hash_each (fun json value =>
                     fiobj___json_format_internal__ json value level beautify)
                  (beauty beautify level) cstr json couplets in
      let level := u8 (level - 1) in
      let json := beauty beautify level json in
      fiobj_string_write json [125]
  end.

(** [fiobj2json(dest, o, beautify)]: [dest] is [None] when the caller passes
    something that is not a String *)
Definition fiobj2json (dest : option str_s) (o : FIOBJ) (beautify : bool) : str_s :=
  let dest := match dest with Some d => d | None => FIO_STRING_INIT end in
  fiobj___json_format_internal__ dest o 0 beautify.

End Format.

(** [n] arrays, one inside the other, around [o] *)
Fixpoint nest (n : nat) (o : FIOBJ) : FIOBJ :=
  match n with
  | O => o
  | S k => FArray [nest k o]
  end.

Definition to_json (o : FIOBJ) : list Z :=
  content (fiobj2json Run.calloc_ Run.realloc_ 170 None o false).

(** Induction on a soft value, with the hypothesis on every element of an
    array and on every key and value of a hash *)
Section FIOBJ_ind.
Variable P : FIOBJ -> Prop.
Hypothesis HNull : P FNull.
Hypothesis HTrue : P FTrue.
Hypothesis HFalse : P FFalse.
Hypothesis HNumber : forall t, P (FNumber t).
Hypothesis HFloat : forall t, P (FFloat t).
Hypothesis HString : forall b, P (FString b).
Hypothesis HOther : forall t, P (FOther t).
Hypothesis HArray : forall items, Forall P items -> P (FArray items).
Hypothesis HHash :
  forall couplets, Forall (fun kv => P (fst kv) /\ P (snd kv)) couplets ->
                   P (FHash couplets).

Fixpoint FIOBJ_nested_ind (o : FIOBJ) : P o :=
  match o with
  | FNull => HNull
  | FTrue => HTrue
  | FFalse => HFalse
  | FNumber t => HNumber t
  | FFloat t => HFloat t
  | FString b => HString b
  | FOther t => HOther t
  | FArray items =>
    HArray items
      ((fix go (l : list FIOBJ) : Forall P l :=
          match l with
          | [] => Forall_nil _
          | x :: r => Forall_cons x (FIOBJ_nested_ind x) (go r)
          end) items)
  | FHash couplets =>
    HHash couplets
      ((fix go (l : list (FIOBJ * FIOBJ))
          : Forall (fun kv => P (fst kv) /\ P (snd kv)) l :=
          match l with
          | [] => Forall_nil _
          | kv :: r =>
            Forall_cons kv (conj (FIOBJ_nested_ind (fst kv)) (FIOBJ_nested_ind (snd kv)))
                        (go r)
          end) couplets)
  end.
End FIOBJ_ind.

(** What the formatter looks at when [o] is formatted at nesting level
    [level]: the level goes up by one into the elements of an array and the
    values of a hash, and a container that sits at the nesting limit is
    emptied; a key is formatted on its own ([fiobj2cstr] calls [fiobj2json]),
    from level 0 again. *)
Fixpoint prune (level : Z) (o : FIOBJ) {struct o} : FIOBJ :=
  match o with
  | FArray items =>
    if level =? FIOBJ_JSON_MAX_NESTING then FArray []
    else FArray (map (prune (u8 (level + 1))) items)
  | FHash couplets =>
    if level =? FIOBJ_JSON_MAX_NESTING then FHash []
    else FHash (map (fun kv => (prune 0 (fst kv), prune (u8 (level + 1)) (snd kv)))
                    couplets)
  | _ => o
  end.

(** the number of containers one inside the other, through the elements of
    arrays and the values of hashes *)
Fixpoint value_depth (o : FIOBJ) : Z :=
  match o with
  | FArray items => 1 + fold_right (fun c d => Z.max (value_depth c) d) 0 items
  | FHash couplets =>
    1 + fold_right (fun kv d => Z.max (value_depth (snd kv)) d) 0 couplets
  | _ => 0
  end.

(** ... and through the keys of hashes as well *)
Fixpoint depth (o : FIOBJ) : Z :=
  match o with
  | FArray items => 1 + fold_right (fun c d => Z.max (depth c) d) 0 items
  | FHash couplets =>
    1 + fold_right (fun kv d => Z.max (Z.max (depth (fst kv)) (depth (snd kv))) d)
                   0 couplets
  | _ => 0
  end.

Lemma prune_depth (o : FIOBJ) :
  forall level, 0 <= level <= FIOBJ_JSON_MAX_NESTING ->
    value_depth (prune level o) <= FIOBJ_JSON_MAX_NESTING + 1 - level.
Proof.
  unfold FIOBJ_JSON_MAX_NESTING.
  induction o as [| | | | | | |items IH|couplets IH] using FIOBJ_nested_ind;
    intros level Hl; cbn [prune value_depth]; try lia.
  - unfold FIOBJ_JSON_MAX_NESTING.
    destruct (Z.eqb_spec level 28) as [E|E]; cbn [value_depth fold_right]; [lia|].
    assert (Hu : u8 (level + 1) = level + 1) by (unfold u8; apply Z.mod_small; lia).
    rewrite Hu.
    assert (H : fold_right (fun c d => Z.max (value_depth c) d) 0
                           (map (prune (level + 1)) items) <= 28 - level).
    { induction IH as [|x r Hx Hr IHr]; cbn [map fold_right]; [lia|].
      specialize (Hx (level + 1) ltac:(lia)). lia. }
    lia.
  - unfold FIOBJ_JSON_MAX_NESTING.
    destruct (Z.eqb_spec level 28) as [E|E]; cbn [value_depth fold_right]; [lia|].
    assert (Hu : u8 (level + 1) = level + 1) by (unfold u8; apply Z.mod_small; lia).
    rewrite Hu.
    assert (H : fold_right (fun kv d => Z.max (value_depth (snd kv)) d) 0
                  (map (fun kv => (prune 0 (fst kv), prune (level + 1) (snd kv)))
                       couplets) <= 28 - level).
    { induction IH as [|x r [_ Hx] Hr IHr]; cbn [map fold_right snd]; [lia|].
      specialize (Hx (level + 1) ltac:(lia)). lia. }
    lia.
Qed.

Section FormatFacts.
Variable calloc_ : Z -> option Z.
Variable realloc_ : ptr -> Z -> option Z.
Variable junk : Z.

Lemma array_each_ext (f g : str_s -> FIOBJ -> str_s) (h : FIOBJ -> FIOBJ) pad items :
  Forall (fun x => forall json, f json x = g json (h x)) items ->
  forall json,
    array_each calloc_ realloc_ junk f pad json items =
    array_each calloc_ realloc_ junk g pad json (map h items).
Proof.
  induction 1 as [|x r Hx Hr IH]; intros json; [reflexivity|].
  cbn [array_each map]. rewrite Hx.
  destruct r as [|y r']; [reflexivity|].
  cbn [map] in *. apply IH.
Qed.

Lemma hash_each_ext (f g : str_s -> FIOBJ -> str_s) (hk hv : FIOBJ -> FIOBJ) pad kt
      couplets :
  Forall (fun kv => kt (fst kv) = kt (hk (fst kv)) /\
                    forall json, f json (snd kv) = g json (hv (snd kv))) couplets ->
  forall json,
    hash_each calloc_ realloc_ junk f pad kt json couplets =
    hash_each calloc_ realloc_ junk g pad kt json
              (map (fun kv => (hk (fst kv), hv (snd kv))) couplets).
Proof.
  induction 1 as [|[k v] r [Hk Hx] Hr IH]; intros json; [reflexivity|].
  cbn [hash_each map fst snd] in *. rewrite Hx, Hk.
  destruct r as [|y r']; [reflexivity|].
  cbn [map] in *. apply IH.
Qed.

Lemma format_prune (o : FIOBJ) :
  forall json level beautify,
    fiobj___json_format_internal__ calloc_ realloc_ junk json o level beautify =
    fiobj___json_format_internal__ calloc_ realloc_ junk json (prune level o) level
                                   beautify.
Proof.
  induction o as [| | | | | | |items IH|couplets IH] using FIOBJ_nested_ind;
    intros json level beautify; try reflexivity.
  - cbn [prune fiobj___json_format_internal__].
    destruct (level =? FIOBJ_JSON_MAX_NESTING) eqn:E.
    + cbn [fiobj___json_format_internal__]. rewrite E. reflexivity.
    + cbn [fiobj___json_format_internal__]. rewrite E.
      cbv zeta. f_equal. f_equal.
      apply array_each_ext.
      eapply Forall_impl; [|exact IH]. intros x Hx j. apply Hx.
  - cbn [prune fiobj___json_format_internal__].
    destruct (level =? FIOBJ_JSON_MAX_NESTING) eqn:E.
    + cbn [fiobj___json_format_internal__]. rewrite E. reflexivity.
    + cbn [fiobj___json_format_internal__]. rewrite E.
      cbv zeta. f_equal. f_equal.
      apply (hash_each_ext _ _ (prune 0) (prune (u8 (level + 1)))).
      eapply Forall_impl; [|exact IH]. intros [k v] [Hk Hv]. cbn [fst snd] in *.
      split; [|intros j; apply Hv].
      destruct k; try reflexivity.
      * rewrite (Hk FIO_STRING_INIT 0 false). reflexivity.
      * rewrite (Hk FIO_STRING_INIT 0 false). reflexivity.
Qed.

End FormatFacts.

(** the text of the innermost array, around which the examples nest *)
Definition brackets (n : nat) (c : Z) : list Z := map (fun _ => c) (seq 0 n).

(** C3, as amended.  The nesting level counts the containers entered through
    array elements and hash values.  An array that sits at level
    [FIOBJ_JSON_MAX_NESTING] = 28 is written as the three bytes of the text
    bracket, space, bracket and a hash as brace, space, brace, whatever they
    hold and with or without the beautifier.  The text written for any value
    from any level is the text written for [prune level o]: the same value
    with the containers at level 28 emptied and every key that is a
    container pruned from level 0, as [fiobj2cstr] formats it; no child of a
    container at level 28 is visited.  From a level within the limit the
    pruned value is at most 29 - level containers deep through elements and
    values.  Through keys there is no such bound: see
    [json_limit_placeholder_has_no_dots].  [writable] is what the placeholder
    needs to land in the destination: a string that is not frozen, and an
    allocator that does not fail. *)
Definition writable (calloc_ : Z -> option Z) (realloc_ : ptr -> Z -> option Z)
           (json : str_s) : Prop :=
  (forall n, calloc_ n <> None) /\ (forall p n, realloc_ p n <> None) /\
  valid json /\ FIO_STRING_IS_FROZEN json = false /\
  len json + 3 < 4611686018427387904.

Theorem json_nesting_limit calloc_ realloc_ junk :
  (forall json items beautify,
      fiobj___json_format_internal__ calloc_ realloc_ junk json (FArray items)
                                     FIOBJ_JSON_MAX_NESTING beautify =
      fiobj_string_write calloc_ realloc_ junk json [91; 32; 93] /\
      (writable calloc_ realloc_ json ->
       content (fiobj___json_format_internal__ calloc_ realloc_ junk json (FArray items)
                                               FIOBJ_JSON_MAX_NESTING beautify)
       = content json ++ [91; 32; 93])) /\
  (forall json couplets beautify,
      fiobj___json_format_internal__ calloc_ realloc_ junk json (FHash couplets)
                                     FIOBJ_JSON_MAX_NESTING beautify =
      fiobj_string_write calloc_ realloc_ junk json [123; 32; 125] /\
      (writable calloc_ realloc_ json ->
       content (fiobj___json_format_internal__ calloc_ realloc_ junk json (FHash couplets)
                                               FIOBJ_JSON_MAX_NESTING beautify)
       = content json ++ [123; 32; 125])) /\
  (forall json o level beautify,
      fiobj___json_format_internal__ calloc_ realloc_ junk json o level beautify =
      fiobj___json_format_internal__ calloc_ realloc_ junk json (prune level o)
                                     level beautify) /\
  (forall dest o beautify,
      fiobj2json calloc_ realloc_ junk dest o beautify =
      fiobj2json calloc_ realloc_ junk dest (prune 0 o) beautify) /\
  (forall o level,
      0 <= level <= FIOBJ_JSON_MAX_NESTING ->
      value_depth (prune level o) <= FIOBJ_JSON_MAX_NESTING + 1 - level).
Proof.
  split; [|split; [|split; [|split]]]; intros.
  - split; [reflexivity|]. intros (Hc & Hr & Hv & Hf & Hl).
    apply (write_grows calloc_ realloc_ junk Hc Hr json [91; 32; 93] Hv Hf Hl).
  - split; [reflexivity|]. intros (Hc & Hr & Hv & Hf & Hl).
    apply (write_grows calloc_ realloc_ junk Hc Hr json [123; 32; 125] Hv Hf Hl).
  - apply format_prune.
  - unfold fiobj2json. apply format_prune.
  - apply prune_depth. assumption.
Qed.

Lemma json_nesting_limit_witness :
  let o := nest 40 (FArray [FNull]) in
  let json := fst (Run.write FIO_STRING_INIT [91]) in
  value_depth (prune 0 o) <= FIOBJ_JSON_MAX_NESTING + 1 - 0 /\
  fiobj2json Run.calloc_ Run.realloc_ 170 None o false =
  fiobj2json Run.calloc_ Run.realloc_ 170 None (prune 0 o) false /\
  content (fiobj___json_format_internal__ Run.calloc_ Run.realloc_ 170 json
                                          (FArray [FNull]) FIOBJ_JSON_MAX_NESTING false)
  = content json ++ [91; 32; 93].
Proof.
  destruct (json_nesting_limit Run.calloc_ Run.realloc_ 170) as (H1 & _ & _ & H4 & H5).
  split; [apply H5; unfold FIOBJ_JSON_MAX_NESTING; lia|]. split; [apply H4|].
  apply H1. split; [intros n; discriminate|]. split; [intros p n; discriminate|].
  split; [vm_compute; split; [reflexivity|split; discriminate]|].
  split; vm_compute; reflexivity.
Defined.

(** C3 as stated does not hold.  29 arrays, one inside the other, serialize
    to 28 opening brackets, the placeholder bracket-space-bracket and 28
    closing brackets; the text with three dots is not written (nor is it for
    a hash).  And the recursion is not bounded at depth 28: a hash inside 20
    arrays whose key is 21 arrays is 42 containers deep, and all of them are
    written in full, the key being formatted from level 0. *)
Lemma json_limit_placeholder_has_no_dots :
  to_json (nest 28 (FArray [FNull])) =
    brackets 28 91 ++ [91; 32; 93] ++ brackets 28 93 /\
  to_json (nest 28 (FArray [FNull])) <>
    brackets 28 91 ++ [91; 46; 46; 46; 93] ++ brackets 28 93 /\
  to_json (nest 28 (FHash [(FString [107], FNull)])) =
    brackets 28 91 ++ [123; 32; 125] ++ brackets 28 93 /\
  to_json (nest 28 (FHash [(FString [107], FNull)])) <>
    brackets 28 91 ++ [123; 46; 46; 46; 125] ++ brackets 28 93 /\
  (let o := nest 20 (FHash [(nest 20 (FArray [FNull]), FNull)]) in
   depth o = 42 /\ value_depth o = 21 /\
   to_json o =
     brackets 20 91 ++ [123; 34] ++
     brackets 20 91 ++ [91; 110; 117; 108; 108; 93] ++ brackets 20 93 ++
     [34; 58; 110; 117; 108; 108; 125] ++ brackets 20 93).
Proof.
  vm_compute. repeat split; discriminate.
Qed.

End Fiobj.



(* ------------------------------------------------------------------------- *)
(** ** The streaming JSON parser ([fio_json_parse]) *)
(* ------------------------------------------------------------------------- *)

Module Json.

(** [nesting] is a 32-bit bitmap, [depth] and [expect] are 8-bit counters *)
Record fio_json_parser_s : Type := mk_parser {
  nesting : Z;
  depth : Z;
  expect : Z
}.

Definition FIO_JSON_INIT : fio_json_parser_s := mk_parser 0 0 0.
Definition JSON_MAX_DEPTH : Z := 31.

Definition set_nesting (q : fio_json_parser_s) (v : Z) : fio_json_parser_s :=
  mk_parser (u32 v) (depth q) (expect q).
Definition set_depth (q : fio_json_parser_s) (v : Z) : fio_json_parser_s :=
  mk_parser (nesting q) (u8 v) (expect q).
Definition set_expect (q : fio_json_parser_s) (v : Z) : fio_json_parser_s :=
  mk_parser (nesting q) (depth q) (u8 v).

Section Parser.
(** The number conversions belong to another module of the library: here
    they map the buffer and a position to the value read and the position
    reached.  [base] is the address of the first byte of the buffer, [junk]
    what a read outside the buffer finds. *)
Variable double : Type.
Variable fio_atol : list Z -> Z -> Z * Z.
Variable fio_atof : list Z -> Z -> double * Z.
Variable base : Z.
Variable junk : Z.

(** The callbacks, each recorded with the parser it is handed.  The callbacks
    are taken not to write to the parser. *)
Inductive callback : Type :=
| on_null | on_true | on_false
| on_number (i : Z)
| on_float (f : double)
| on_string (start length : Z)
| on_start_object | on_end_object
| on_start_array | on_end_array
| on_json | on_error.

Record run : Type := mk_run {
  p : fio_json_parser_s;
  log : list (callback * fio_json_parser_s)
}.

Definition fire (r : run) (cb : callback) : run :=
  mk_run (p r) (log r ++ [(cb, p r)]).
Definition upd (r : run) (f : fio_json_parser_s -> fio_json_parser_s) : run :=
  mk_run (f (p r)) (log r).

Section Buffer.
Variable buf : list Z.
Let stop : Z := zlen buf.
Let at_ (i : Z) : Z := zget junk buf i.

(** [memchr(buf + pos, c, stop - pos)]: the position found, if any *)
Fixpoint memchr_from (src : list Z) (c : Z) (pos : Z) : option Z :=
  match src with
  | [] => None
  | x :: src' => if x =? c then Some pos else memchr_from src' c (pos + 1)
  end.
Definition memchr (c pos : Z) : option Z :=
  if stop <? pos then None else memchr_from (skipn (Z.to_nat pos) buf) c pos.

(** the inner loop of the block comment: find a slash, step over it, stop
    when the byte before it is a star *)
Fixpoint skip_block (fuel : nat) (pos : Z) : option Z :=
  match fuel with
  | O => None
  | S fuel' =>
    match memchr 47 pos with
    | None => None
    | Some q => if at_ (q + 1 - 2) =? 42 then Some (q + 1) else skip_block fuel' (q + 1)
    end
  end.

Definition fio_json_____skip_comments (pos : Z) : option Z :=
  if (at_ pos =? 35)
     || ((2 <? stop - pos) && (at_ pos =? 47) && (at_ (pos + 1) =? 47))
  then memchr 10 (pos + 1)
  else if (3 <? stop - pos) && (at_ pos =? 47) && (at_ (pos + 1) =? 42)
  then skip_block (S (length buf)) pos
  else None.

(** the number of backslashes counted back from the quote at [q], plus one *)
Fixpoint count_escaped (fuel : nat) (q escaped : Z) : Z :=
  match fuel with
  | O => escaped
  | S fuel' =>
    if at_ (q - escaped) =? 92 then count_escaped fuel' q (escaped + 1) else escaped
  end.

Fixpoint string_end (fuel : nat) (pos : Z) : option Z :=
  match fuel with
  | O => None
  | S fuel' =>
    match memchr 34 pos with
    | None => None
    | Some q =>
      if Z.odd (count_escaped (S (length buf)) q 1) then Some q
      else string_end fuel' (q + 1)
    end
  end.

Definition fio_json_____consume_string (r : run) (pos : Z) : option Z * run :=
  let start := pos + 1 in
  match string_end (S (length buf)) start with
  | None => (None, r)
  | Some q => (Some (q + 1), fire r (on_string start (q - start)))
  end.

Definition fio_json_____consume_number (r : run) (pos : Z) : option Z * run :=
  let was := pos in
  let '(i, pos1) := fio_atol buf pos in
  let c := at_ pos1 in
  if (pos1 <? stop)
     && ((c =? 46) || (Z.lor c 32 =? 101) || (Z.lor c 32 =? 120)
         || (Z.lor c 32 =? 112) || (Z.lor c 32 =? 105))
  then let '(f, pos2) := fio_atof buf was in (Some pos2, fire r (on_float f))
  else (Some pos1, fire r (on_number i)).

(** the eight bytes at [pos] as one 64-bit word *)
Definition word64 (pos : Z) : Z :=
  fold_right (fun i acc => Z.lor (at_ (pos + Z.of_nat i)) (Z.shiftl acc 8)) 0 (seq 0 8).

Definition not64 (x : Z) : Z := 18446744073709551615 - u64 x.

(** the test of the eight-byte step: every byte of the word is white space *)
Definition all_white8 (w : Z) : bool :=
  let ones := 72340172838076673 in
  let lo := 9187201950435737471 in
  let hi := 9259542123273814144 in
  let b (c : Z) :=
    let t := not64 (Z.lxor (u64 (ones * c)) w) in
    Z.land (u64 (Z.land t lo + ones)) (Z.land t hi) in
  Z.lor (Z.lor (Z.lor (b 9) (b 10)) (b 13)) (b 32) =? hi.

Fixpoint skip_white8 (fuel : nat) (pos : Z) : Z :=
  match fuel with
  | O => pos
  | S fuel' =>
    if pos + 8 <? stop
    then if all_white8 (word64 pos) then skip_white8 fuel' (pos + 8) else pos
    else pos
  end.

Definition skip_whitespace (pos : Z) : Z :=
  let pos := pos + 1 in
  if Z.land (base + pos) 7 =? 0 then skip_white8 (length buf) pos else pos.

(** what follows a [break] in the switch *)
Definition after_value (r : run) : run :=
  upd r (fun q => set_expect q (Z.shiftl (expect q) 1
                                + Z.shiftr (Z.lxor (expect q) 2) 1)).

Definition needs_separator (r : run) : bool :=
  negb (depth (p r) =? 0) && (Z.land (expect (p r)) 2 =? 0).

(** every error label: the error callback and a NULL return *)
Definition error_ (r : run) : option Z * run := (None, fire r on_error).

Definition value_ (res : option Z * run) : option Z * run :=
  (fst res, after_value (snd res)).

(** [fio_json_____identify(p, buffer, stop)] *)
Definition fio_json_____identify (r : run) (pos : Z) : option Z * run :=
  let c := at_ pos in
  let q := p r in
  if (c =? 9) || (c =? 10) || (c =? 13) || (c =? 32) then
    (Some (skip_whitespace pos), r)
  else if c =? 44 then
    if (depth q =? 0) || (Z.land (expect q) 4 =? 0) then error_ r
    else (Some (pos + 1),
          upd r (fun q => set_expect q (Z.shiftl (Z.land (nesting q) 1) 1)))
  else if c =? 58 then
    if (depth q =? 0) || (Z.land (expect q) 1 =? 0) then error_ r
    else (Some (pos + 1), upd r (fun q => set_expect q 2))
  else if c =? 34 then
    if negb (depth q =? 0) && negb (Z.land (expect q) 5 =? 0) then error_ r
    else
      match fio_json_____consume_string r pos with
      | (None, r1) => error_ r1
      | res => value_ res
      end
  else if c =? 123 then
    if needs_separator r then error_ r
    else
      let r := upd r (fun q => set_expect q 0) in
      let r := upd r (fun q => set_nesting q (Z.shiftl (nesting q) 1)) in
      if depth (p r) =? JSON_MAX_DEPTH then error_ r
      else
        let r := upd r (fun q => set_depth q (depth q + 1)) in
        let r := fire r on_start_object in
        (Some (pos + 1), r)
  else if c =? 125 then
    if negb (Z.land (nesting q) 1 =? 0) || (depth q =? 0)
       || negb (Z.land (expect q) 3 =? 0)
    then error_ r
    else
      let r := upd r (fun q => set_nesting q (Z.shiftr (nesting q) 1)) in
      let r := upd r (fun q => set_expect q 4) in
      let r := upd r (fun q => set_depth q (depth q - 1)) in
      let r := fire r on_end_object in
      (Some (pos + 1), r)
  else if c =? 91 then
    if needs_separator r then error_ r
    else
      let r := fire r on_start_array in
      let r := upd r (fun q => set_expect q 2) in
      let r := upd r (fun q => set_nesting q (Z.lor (Z.shiftl (nesting q) 1) 1)) in
      if depth (p r) =? JSON_MAX_DEPTH then error_ r
      else
        let r := upd r (fun q => set_depth q (depth q + 1)) in
        (Some (pos + 1), r)
  else if c =? 93 then
    if (Z.land (nesting q) 1 =? 0) || (depth q =? 0) then error_ r
    else
      let r := upd r (fun q => set_nesting q (Z.shiftr (nesting q) 1)) in
      let r := upd r (fun q => set_expect q 4) in
      let r := upd r (fun q => set_depth q (depth q - 1)) in
      let r := fire r on_end_array in
      (Some (pos + 1), r)
  else if (c =? 78) || (c =? 110) then
    if needs_separator r then error_ r
    else if (stop <? pos + 4) || negb (at_ (pos + 1) =? 117)
            || negb (at_ (pos + 2) =? 108) || negb (at_ (pos + 3) =? 108)
    then
      if (stop <? pos + 3) || negb (Z.lor (at_ (pos + 1)) 32 =? 97)
         || negb (Z.lor (at_ (pos + 2)) 32 =? 110)
      then (None, r)
      else value_ (Some (pos + 3), r)
    else value_ (Some (pos + 4), fire r on_null)
  else if c =? 116 then
    if needs_separator r then error_ r
    else if (stop <? pos + 4) || negb (at_ (pos + 1) =? 114)
            || negb (at_ (pos + 2) =? 117) || negb (at_ (pos + 3) =? 101)
    then (None, r)
    else value_ (Some (pos + 4), fire r on_true)
  else if c =? 102 then
    if needs_separator r then error_ r
    else if (stop <? pos + 5) || negb (at_ (pos + 1) =? 97)
            || negb (at_ (pos + 2) =? 108) || negb (at_ (pos + 3) =? 115)
            || negb (at_ (pos + 4) =? 101)
    then (None, r)
    else value_ (Some (pos + 5), fire r on_false)
  else if (c =? 43) || (c =? 45) || ((48 <=? c) && (c <=? 57)) || (c =? 120)
          || (c =? 46) || (c =? 101) || (c =? 69) || (c =? 105) || (c =? 73)
  then
    if needs_separator r then error_ r
    else value_ (fio_json_____consume_number r pos)
  else if (c =? 35) || (c =? 47) then
    (fio_json_____skip_comments pos, r)
  else (None, r).

(** How a call of [fio_json_parse] ends: with the number of bytes consumed,
    at the [failed] label with the offset of the token that failed, or, in
    the model only, with the steps allowed used up. *)
Inductive outcome : Type :=
| Consumed (n : Z)
| Failed (n : Z)
| OutOfFuel.

(** the second loop, [while (p->depth && buffer < stop)], and the return *)
Fixpoint parse_nested (fuel : nat) (r : run) (pos : Z) : outcome * run :=
  if negb (depth (p r) =? 0) && (pos <? stop) then
    match fuel with
    | O => (OutOfFuel, r)
    | S fuel' =>
      match fio_json_____identify r pos with
      | (None, r1) => (Failed pos, r1)
      | (Some pos1, r1) => parse_nested fuel' r1 pos1
      end
    end
  else if depth (p r) =? 0
  then (Consumed pos, fire (upd r (fun q => set_expect q 0)) on_json)
  else (Consumed pos, r).

(** the first loop, [do ... while (!p->expect && buffer < stop)] *)
Fixpoint parse_top (fuel : nat) (r : run) (pos : Z) : outcome * run :=
  match fuel with
  | O => (OutOfFuel, r)
  | S fuel' =>
    match fio_json_____identify r pos with
    | (None, r1) => (Failed pos, r1)
    | (Some pos1, r1) =>
      if (expect (p r1) =? 0) && (pos1 <? stop)
      then parse_top fuel' r1 pos1
      else parse_nested fuel' r1 pos1
    end
  end.

End Buffer.

(** [fio_json_parse(p, buffer, length)], [length] being the length of [buf] *)
Definition fio_json_parse (fuel : nat) (q : fio_json_parser_s) (buf : list Z)
  : outcome * run :=
  parse_top buf fuel (mk_run q []) 0.

End Parser.

Arguments on_null {double}.
Arguments on_true {double}.
Arguments on_false {double}.
Arguments on_number {double} i.
Arguments on_string {double} start length.
Arguments on_start_object {double}.
Arguments on_end_object {double}.
Arguments on_start_array {double}.
Arguments on_end_array {double}.
Arguments on_json {double}.
Arguments on_error {double}.
Arguments mk_run {double} p log.
Arguments p {double} r.
Arguments log {double} r.
Arguments fire {double} r cb.
Arguments upd {double} r f.

Definition depth_ok (q : fio_json_parser_s) : Prop := 0 <= depth q <= JSON_MAX_DEPTH.

(** the parser of a run and the parser every callback was handed have a
    depth within the cap *)
Definition run_ok {double} (r : run double) : Prop :=
  depth_ok (p r) /\ Forall (fun e => depth_ok (snd e)) (log r).

Ltac bool_hyps :=
  repeat match goal with
         | H : (_ || _) = false |- _ => apply Bool.orb_false_iff in H; destruct H
         | H : (_ && _) = true |- _ => apply Bool.andb_true_iff in H; destruct H
         | H : negb _ = false |- _ => apply Bool.negb_false_iff in H
         | H : negb _ = true |- _ => apply Bool.negb_true_iff in H
         | H : (_ =? _) = true |- _ => apply Z.eqb_eq in H
         | H : (_ =? _) = false |- _ => apply Z.eqb_neq in H
         | H : (_ <? _) = true |- _ => apply Z.ltb_lt in H
         | H : (_ <? _) = false |- _ => apply Z.ltb_ge in H
         end.

Section ParserFacts.
Variable double : Type.
Variable fio_atol : list Z -> Z -> Z * Z.
Variable fio_atof : list Z -> Z -> double * Z.
Variable base : Z.
Variable junk : Z.
Variable buf : list Z.

Let identify := fio_json_____identify double fio_atol fio_atof base junk buf.

Lemma fire_ok (r : run double) cb : run_ok r -> run_ok (fire r cb).
Proof.
  intros [H1 H2]. split; [exact H1|].
  cbn [fire log]. apply Forall_app. split; [exact H2|].
  constructor; [exact H1|constructor].
Qed.

Lemma upd_ok (r : run double) f : run_ok r -> depth_ok (f (p r)) -> run_ok (upd r f).
Proof. intros [H1 H2] H. split; [exact H|exact H2]. Qed.

Lemma consume_string_ok (r : run double) (pos : Z) :
  run_ok r -> run_ok (snd (fio_json_____consume_string double junk buf r pos)).
Proof.
  intros H. unfold fio_json_____consume_string.
  destruct (string_end junk buf (S (length buf)) (pos + 1)); cbn [snd];
    [apply fire_ok|]; exact H.
Qed.

Lemma consume_number_ok (r : run double) (pos : Z) :
  run_ok r ->
  run_ok (snd (fio_json_____consume_number double fio_atol fio_atof junk buf r pos)).
Proof.
  intros H. unfold fio_json_____consume_number.
  destruct (fio_atol buf pos) as [i pos1].
  match goal with |- context [if ?b then _ else _] => destruct b end.
  - destruct (fio_atof buf pos) as [f pos2]. cbn [snd]. apply fire_ok, H.
  - cbn [snd]. apply fire_ok, H.
Qed.

Lemma identify_ok (r : run double) (pos : Z) :
  run_ok r -> run_ok (snd (identify r pos)).
Proof.
  intros H. pose proof H as [Hd _]. unfold depth_ok, JSON_MAX_DEPTH in Hd.
  pose proof (consume_string_ok r pos H) as Hs.
  pose proof (consume_number_ok r pos H) as Hn.
  unfold identify, fio_json_____identify, error_, value_, after_value, needs_separator,
    JSON_MAX_DEPTH.
  repeat match goal with
         | |- context [if ?b then _ else _] => destruct b eqn:?
         | |- context [match ?x with _ => _ end] => destruct x eqn:?
         end;
    repeat match goal with
           | Hx : ?t = (_, _), Hy : context [?t] |- _ => rewrite Hx in Hy; cbn [snd] in Hy
           end;
    cbn [snd fst];
    repeat first [ apply fire_ok | apply upd_ok | assumption ];
    cbn [upd fire p log depth set_expect set_nesting set_depth] in *;
    unfold depth_ok, JSON_MAX_DEPTH; cbn [depth set_expect set_nesting set_depth];
    try match goal with
        | Hy : run_ok ?r0 |- _ <= depth (p ?r0) <= _ => destruct Hy as [Hy _]; exact Hy
        end;
    bool_hyps; unfold u8; try rewrite Z.mod_small by lia; try lia.
Qed.

Lemma parse_nested_ok (fuel : nat) :
  forall (r : run double) pos,
    run_ok r ->
    run_ok (snd (parse_nested double fio_atol fio_atof base junk buf fuel r pos)).
Proof.
  induction fuel as [|fuel IH]; intros r pos H.
  - cbn [parse_nested].
    destruct (negb (depth (p r) =? 0) && (pos <? zlen buf)); [exact H|].
    destruct (depth (p r) =? 0); [|exact H].
    apply fire_ok, upd_ok; [exact H|]. destruct H as [H _]. exact H.
  - cbn [parse_nested].
    destruct (negb (depth (p r) =? 0) && (pos <? zlen buf)).
    + pose proof (identify_ok r pos H) as Hi. unfold identify in *.
      destruct (fio_json_____identify double fio_atol fio_atof base junk buf r pos)
        as [[pos1|] r1]; cbn [snd] in *; [|exact Hi].
      apply IH, Hi.
    + destruct (depth (p r) =? 0); [|exact H].
      apply fire_ok, upd_ok; [exact H|]. destruct H as [H _]. exact H.
Qed.

Lemma parse_top_ok (fuel : nat) :
  forall (r : run double) pos,
    run_ok r ->
    run_ok (snd (parse_top double fio_atol fio_atof base junk buf fuel r pos)).
Proof.
  induction fuel as [|fuel IH]; intros r pos H; [exact H|].
  cbn [parse_top].
  pose proof (identify_ok r pos H) as Hi. unfold identify in *.
  destruct (fio_json_____identify double fio_atol fio_atof base junk buf r pos)
        as [[pos1|] r1]; cbn [snd] in *; [|exact Hi].
  destruct ((expect (p r1) =? 0) && (pos1 <? zlen buf)).
  - apply IH, Hi.
  - apply parse_nested_ok, Hi.
Qed.

(** a bracket or a brace met at the cap: the error callback and NULL *)
Lemma identify_at_cap (r : run double) (pos : Z) :
  depth (p r) = JSON_MAX_DEPTH ->
  zget junk buf pos = 123 \/ zget junk buf pos = 91 ->
  exists r1,
    identify r pos = (None, r1) /\
    depth (p r1) = JSON_MAX_DEPTH /\
    exists evs, log r1 = log r ++ evs ++ [(on_error, p r1)].
Proof.
  intros Hd [Hc|Hc]; unfold identify, fio_json_____identify; rewrite Hc; cbn [Z.eqb Pos.eqb orb];
    unfold needs_separator, error_.
  - destruct (negb (depth (p r) =? 0) && (Z.land (expect (p r)) 2 =? 0)).
    + eexists. split; [reflexivity|]. split; [exact Hd|]. exists []. reflexivity.
    + cbn [upd fire p log depth set_expect set_nesting]. rewrite Hd, Z.eqb_refl.
      eexists. split; [reflexivity|]. split; [exact Hd|]. exists []. reflexivity.
  - destruct (negb (depth (p r) =? 0) && (Z.land (expect (p r)) 2 =? 0)).
    + eexists. split; [reflexivity|]. split; [exact Hd|]. exists []. reflexivity.
    + cbn [upd fire p log depth set_expect set_nesting]. rewrite Hd, Z.eqb_refl.
      eexists. split; [reflexivity|]. split; [exact Hd|].
      exists [(on_start_array, p r)]. unfold fire, upd. cbn [log p].
      rewrite <- app_assoc. reflexivity.
Qed.

(** more steps than a call needs change nothing *)
Lemma parse_nested_mono (fuel : nat) :
  forall fuel' (r : run double) pos,
    (fuel <= fuel')%nat ->
    fst (parse_nested double fio_atol fio_atof base junk buf fuel r pos) <> OutOfFuel ->
    parse_nested double fio_atol fio_atof base junk buf fuel' r pos =
    parse_nested double fio_atol fio_atof base junk buf fuel r pos.
Proof.
  induction fuel as [|fuel IH]; intros fuel' r pos Hle Hout.
  - cbn [parse_nested] in *.
    destruct (negb (depth (p r) =? 0) && (pos <? zlen buf)) eqn:E.
    + exfalso. apply Hout. reflexivity.
    + destruct fuel'; cbn [parse_nested]; rewrite E; reflexivity.
  - destruct fuel' as [|fuel']; [lia|]. cbn [parse_nested] in *.
    destruct (negb (depth (p r) =? 0) && (pos <? zlen buf)); [|reflexivity].
    destruct (fio_json_____identify double fio_atol fio_atof base junk buf r pos)
      as [[pos1|] r1]; [|reflexivity].
    apply IH; [lia|exact Hout].
Qed.

Lemma parse_top_mono (fuel : nat) :
  forall fuel' (r : run double) pos,
    (fuel <= fuel')%nat ->
    fst (parse_top double fio_atol fio_atof base junk buf fuel r pos) <> OutOfFuel ->
    parse_top double fio_atol fio_atof base junk buf fuel' r pos =
    parse_top double fio_atol fio_atof base junk buf fuel r pos.
Proof.
  induction fuel as [|fuel IH]; intros fuel' r pos Hle Hout.
  - exfalso. apply Hout. reflexivity.
  - destruct fuel' as [|fuel']; [lia|]. cbn [parse_top] in *.
    destruct (fio_json_____identify double fio_atol fio_atof base junk buf r pos)
      as [[pos1|] r1]; [|reflexivity].
    destruct ((expect (p r1) =? 0) && (pos1 <? zlen buf)).
    + apply IH; [lia|exact Hout].
    + apply parse_nested_mono; [lia|exact Hout].
Qed.

End ParserFacts.

(** the text of [n] opening brackets *)
Definition brackets (n : nat) : list Z := repeat 91 n.

(** a run with the stand-ins used for the number conversions in examples *)
Definition atol_ (buf : list Z) (pos : Z) : Z * Z := (0, pos + 1).
Definition parse_ (fuel : nat) (q : fio_json_parser_s) (buf : list Z) : outcome * run Z :=
  fio_json_parse Z atol_ atol_ 0 0 fuel q buf.

(** C2, as amended.  The cap is [JSON_MAX_DEPTH] = 31.  Started with a depth
    within the cap, a call of the parser on any input, cut after any number
    of tokens, leaves a depth within 0..31 and every callback saw one; and
    when a brace or a bracket is the next byte while the depth is 31, the
    token is refused: NULL after the error callback, the depth still 31, and
    either loop of the parser returns from there through its failed label
    with the offset of that byte.  A depth of 31 is reached: a new parser
    given 31 opening brackets consumes them all, with any 32 steps or more. *)
Theorem json_depth_cap (double : Type) (fio_atol : list Z -> Z -> Z * Z)
        (fio_atof : list Z -> Z -> double * Z) (base junk : Z)
        (buf : list Z) (q : fio_json_parser_s) (fuel : nat)
        (r : run double) (pos : Z) (steps n : nat) :
  depth_ok q ->
  depth (p r) = JSON_MAX_DEPTH ->
  0 <= pos < zlen buf ->
  zget junk buf pos = 123 \/ zget junk buf pos = 91 ->
  (32 <= n)%nat ->
  run_ok (snd (fio_json_parse double fio_atol fio_atof base junk fuel q buf)) /\
  (exists r1,
    fio_json_____identify double fio_atol fio_atof base junk buf r pos = (None, r1) /\
    depth (p r1) = JSON_MAX_DEPTH /\
    (exists evs, log r1 = log r ++ evs ++ [(on_error, p r1)]) /\
    parse_nested double fio_atol fio_atof base junk buf (S steps) r pos
      = (Failed pos, r1) /\
    parse_top double fio_atol fio_atof base junk buf (S steps) r pos
      = (Failed pos, r1)) /\
  (let res := fio_json_parse double fio_atol fio_atof base junk n FIO_JSON_INIT
                             (brackets 31) in
   fst res = Consumed 31 /\ depth (p (snd res)) = JSON_MAX_DEPTH).
Proof.
  intros Hq Hd Hpos Hc Hn. split; [|split].
  - unfold fio_json_parse. apply parse_top_ok. split; [exact Hq|constructor].
  - destruct (identify_at_cap double fio_atol fio_atof base junk buf r pos Hd Hc)
      as (r1 & Hid & Hd1 & Hlog).
    exists r1. split; [exact Hid|]. split; [exact Hd1|]. split; [exact Hlog|].
    cbn [parse_nested parse_top]. rewrite Hid, Hd.
    replace (pos <? zlen buf) with true by (symmetry; apply Z.ltb_lt; lia).
    split; reflexivity.
  - cbv zeta. unfold fio_json_parse.
    assert (H32 : let res := parse_top double fio_atol fio_atof base junk (brackets 31) 32
                                       (mk_run FIO_JSON_INIT []) 0 in
                  fst res = Consumed 31 /\ depth (p (snd res)) = JSON_MAX_DEPTH)
      by (vm_compute; split; reflexivity).
    cbv zeta in H32.
    rewrite (parse_top_mono double fio_atol fio_atof base junk (brackets 31) 32 n);
      [exact H32|exact Hn|].
    destruct H32 as [H32 _]. rewrite H32. discriminate.
Qed.

Lemma json_depth_cap_witness :
  let r := mk_run (mk_parser 2147483647 31 2) (@nil (callback Z * fio_json_parser_s)) in
  run_ok (snd (parse_ 40 FIO_JSON_INIT (brackets 32))) /\
  (exists r1,
    fio_json_____identify Z atol_ atol_ 0 0 (brackets 32) r 31 = (None, r1) /\
    depth (p r1) = JSON_MAX_DEPTH /\
    (exists evs, log r1 = log r ++ evs ++ [(on_error, p r1)]) /\
    parse_nested Z atol_ atol_ 0 0 (brackets 32) 1 r 31 = (Failed 31, r1) /\
    parse_top Z atol_ atol_ 0 0 (brackets 32) 1 r 31 = (Failed 31, r1)) /\
  (let res := parse_ 100 FIO_JSON_INIT (brackets 31) in
   fst res = Consumed 31 /\ depth (p (snd res)) = JSON_MAX_DEPTH).
Proof.
  apply (json_depth_cap Z atol_ atol_ 0 0 (brackets 32) FIO_JSON_INIT 40
                        (mk_run (mk_parser 2147483647 31 2) []) 31 0 100).
  - unfold depth_ok, JSON_MAX_DEPTH. simpl. lia.
  - reflexivity.
  - vm_compute. split; [discriminate|reflexivity].
  - right. reflexivity.
  - lia.
Defined.

(** C2 as stated does not hold: a depth of 32 is never reached.  Of 32
    opening brackets given to a new parser 31 are consumed; the 32nd fires
    the error callback and the call returns 31, the offset of that byte, with
    the depth at 31.  31 brackets are all consumed. *)
Lemma json_depth_32_not_reached :
  (let res := parse_ 40 FIO_JSON_INIT (brackets 31) in
   fst res = Consumed 31 /\ depth (p (snd res)) = 31) /\
  (let res := parse_ 40 FIO_JSON_INIT (brackets 32) in
   fst res = Failed 31 /\ depth (p (snd res)) = 31 /\
   Forall (fun e => depth (snd e) <> 32) (log (snd res)) /\
   option_map fst (last (map Some (log (snd res))) None) = Some on_error).
Proof.
  split.
  - vm_compute. split; reflexivity.
  - split; [vm_compute; reflexivity|]. split; [vm_compute; reflexivity|]. split.
    + apply Forall_forall. intros e He.
      assert (Hok : run_ok (snd (parse_ 40 FIO_JSON_INIT (brackets 32)))).
      { apply parse_top_ok. split; [unfold depth_ok, JSON_MAX_DEPTH; simpl; lia|constructor]. }
      destruct Hok as [_ Hall]. rewrite Forall_forall in Hall.
      specialize (Hall e He). unfold depth_ok, JSON_MAX_DEPTH in Hall. lia.
    + vm_compute. reflexivity.
Qed.

(** *** The container callbacks are well nested *)

(** The containers open after a list of callbacks, innermost first ([false]
    an object, [true] an array); [None] when an end callback does not close
    the innermost open container. *)
Fixpoint replay {double} (evs : list (callback double)) (st : list bool)
  : option (list bool) :=
  match evs with
  | [] => Some st
  | on_start_object :: evs' => replay evs' (false :: st)
  | on_start_array :: evs' => replay evs' (true :: st)
  | on_end_object :: evs' =>
    match st with false :: st' => replay evs' st' | _ => None end
  | on_end_array :: evs' =>
    match st with true :: st' => replay evs' st' | _ => None end
  | _ :: evs' => replay evs' st
  end.

(** the bitmap of a stack of containers, the innermost at bit 0 *)
Fixpoint bits (st : list bool) : Z :=
  match st with
  | [] => 0
  | b :: st' => 2 * bits st' + (if b then 1 else 0)
  end.

(** the parser's [depth] and [nesting] stand for the stack [st] *)
Definition tracks (q : fio_json_parser_s) (st : list bool) : Prop :=
  depth q = zlen st /\ nesting q = bits st /\ zlen st <= JSON_MAX_DEPTH.

(** the callbacks fired so far lead from the stack [st0] to the one the
    parser stands for *)
Definition nested {double} (st0 : list bool) (r : run double) : Prop :=
  exists st, replay (map fst (log r)) st0 = Some st /\ tracks (p r) st.

Definition plain {double} (cb : callback double) : bool :=
  match cb with
  | on_start_object | on_end_object | on_start_array | on_end_array => false
  | _ => true
  end.

Lemma replay_app {double} (a b : list (callback double)) :
  forall st, replay (a ++ b) st
             = match replay a st with Some st1 => replay b st1 | None => None end.
Proof.
  induction a as [|cb a IH]; intros st; [reflexivity|].
  destruct cb; cbn [app replay]; try apply IH;
    destruct st as [|[|] st]; try reflexivity; apply IH.
Qed.

Lemma bits_range (st : list bool) : 0 <= bits st < 2 ^ zlen st.
Proof.
  induction st as [|b st IH]; [cbn; lia|].
  cbn [bits]. rewrite zlen_cons.
  replace (1 + zlen st) with (Z.succ (zlen st)) by lia.
  rewrite Z.pow_succ_r by apply zlen_nonneg. destruct b; lia.
Qed.

Section Nesting.
Variable double : Type.
Variable fio_atol : list Z -> Z -> Z * Z.
Variable fio_atof : list Z -> Z -> double * Z.
Variable base : Z.
Variable junk : Z.
Variable buf : list Z.
Variable st0 : list bool.

Lemma nested_fire (r : run double) (cb : callback double) :
  plain cb = true -> nested st0 r -> nested st0 (fire r cb).
Proof.
  intros Hp (st & Hr & Ht). exists st. split; [|exact Ht].
  cbn [fire log]. rewrite map_app, replay_app, Hr. cbn [map fst].
  destruct cb; try discriminate Hp; reflexivity.
Qed.

Lemma nested_upd (r : run double) (f : fio_json_parser_s -> fio_json_parser_s) :
  (forall q, depth (f q) = depth q /\ nesting (f q) = nesting q) ->
  nested st0 r -> nested st0 (upd r f).
Proof.
  intros Hf (st & Hr & Hd & Hn & Hl). exists st. split; [exact Hr|].
  unfold tracks. cbn [upd p]. destruct (Hf (p r)) as [E1 E2]. rewrite E1, E2.
  repeat split; assumption.
Qed.

(** the end callbacks fired so far closed the innermost open container *)
Definition opens (r : run double) : Prop :=
  exists st, replay (map fst (log r)) st0 = Some st.

Lemma nested_opens (r : run double) : nested st0 r -> opens r.
Proof. intros (st & Hr & _). exists st. exact Hr. Qed.

Lemma opens_fire (r : run double) (cb : callback double) :
  match cb with on_end_object | on_end_array => false | _ => true end = true ->
  opens r -> opens (fire r cb).
Proof.
  intros Hc (st & Hr). unfold opens. cbn [fire log].
  rewrite map_app, replay_app, Hr. cbn [map fst].
  destruct cb; try discriminate Hc; eexists; reflexivity.
Qed.

Lemma opens_upd (r : run double) (f : fio_json_parser_s -> fio_json_parser_s) :
  opens r -> opens (upd r f).
Proof. intros H. exact H. Qed.

(** a container is opened: [more] is its kind *)
Lemma nested_open (r : run double) (more : bool) (q' : fio_json_parser_s)
      (cb : callback double) (seen : fio_json_parser_s) (evs : list (callback double * fio_json_parser_s)) :
  nested st0 r ->
  depth (p r) <> JSON_MAX_DEPTH ->
  cb = (if more then on_start_array else on_start_object) ->
  depth q' = u8 (depth (p r) + 1) ->
  nesting q' = u32 (if more then Z.lor (Z.shiftl (nesting (p r)) 1) 1
                    else Z.shiftl (nesting (p r)) 1) ->
  evs = log r ++ [(cb, seen)] ->
  nested st0 (mk_run q' evs).
Proof.
  intros (st & Hr & Hd & Hn & Hl) Hcap -> Hd' Hn' ->. exists (more :: st).
  unfold JSON_MAX_DEPTH in *. pose proof (zlen_nonneg st) as H0.
  pose proof (bits_range st) as Hb.
  assert (Hpow : 2 ^ zlen st <= 2 ^ 30) by (apply Z.pow_le_mono_r; lia).
  change (2 ^ 30) with 1073741824 in Hpow.
  split.
  - cbn [log]. rewrite map_app, replay_app, Hr. cbn [map fst].
    destruct more; reflexivity.
  - unfold tracks, JSON_MAX_DEPTH. cbn [p]. rewrite Hd', Hn', Hd, Hn, zlen_cons.
    rewrite Hd in Hcap.
    unfold u8. rewrite Z.mod_small by lia. split; [lia|]. split; [|lia].
    cbn [bits]. rewrite Z.shiftl_mul_pow2 by lia. change (2 ^ 1) with 2.
    destruct more.
    + replace (Z.lor (bits st * 2) 1) with (2 * bits st + 1).
      * unfold u32. apply Z.mod_small. lia.
      * pose proof (Z.add_lor_land (bits st * 2) 1) as E.
        assert (E0 : Z.land (bits st * 2) 1 = 0).
        { change 1 with (Z.ones 1). rewrite Z.land_ones by lia.
          change (2 ^ 1) with 2. apply Z_mod_mult. }
        lia.
    + rewrite Z.add_0_r, Z.mul_comm. unfold u32. apply Z.mod_small. lia.
Qed.

(** a container is closed: [more] is the kind the closing byte asks for *)
Lemma nested_close (r : run double) (more : bool) (q' : fio_json_parser_s)
      (cb : callback double) (seen : fio_json_parser_s) (evs : list (callback double * fio_json_parser_s)) :
  nested st0 r ->
  depth (p r) <> 0 ->
  (Z.land (nesting (p r)) 1 =? 0) = negb more ->
  cb = (if more then on_end_array else on_end_object) ->
  depth q' = u8 (depth (p r) - 1) ->
  nesting q' = u32 (Z.shiftr (nesting (p r)) 1) ->
  evs = log r ++ [(cb, seen)] ->
  nested st0 (mk_run q' evs).
Proof.
  intros (st & Hr & Hd & Hn & Hl) Hne Hbit -> Hd' Hn' ->.
  unfold JSON_MAX_DEPTH in *.
  destruct st as [|b st]; [exfalso; apply Hne; rewrite Hd; reflexivity|].
  rewrite zlen_cons in *. pose proof (zlen_nonneg st) as H0.
  pose proof (bits_range st) as Hb.
  assert (Hpow : 2 ^ zlen st <= 2 ^ 30) by (apply Z.pow_le_mono_r; lia).
  change (2 ^ 30) with 1073741824 in Hpow.
  cbn [bits] in Hn.
  assert (Eb : b = more).
  { rewrite Hn in Hbit. change 1 with (Z.ones 1) in Hbit at 2.
    rewrite Z.land_ones in Hbit by lia. change (2 ^ 1) with 2 in Hbit.
    destruct b, more; try reflexivity; exfalso.
    - replace ((2 * bits st + 1) mod 2) with 1 in Hbit
        by (rewrite Z.add_comm, Z.mul_comm, Z_mod_plus_full; reflexivity).
      discriminate Hbit.
    - replace ((2 * bits st + 0) mod 2) with 0 in Hbit
        by (rewrite Z.add_comm, Z.mul_comm, Z_mod_plus_full; reflexivity).
      discriminate Hbit. }
  subst b. exists st. split.
  - cbn [log]. rewrite map_app, replay_app, Hr. cbn [map fst].
    destruct more; reflexivity.
  - unfold tracks, JSON_MAX_DEPTH. cbn [p]. rewrite Hd', Hn', Hd, Hn.
    unfold u8. rewrite Z.mod_small by lia. split; [lia|]. split; [|lia].
    rewrite Z.shiftr_div_pow2 by lia. change (2 ^ 1) with 2.
    replace ((2 * bits st + (if more then 1 else 0)) / 2) with (bits st)
      by (destruct more; Z.div_mod_to_equations; lia).
    unfold u32. apply Z.mod_small. lia.
Qed.

Let identify := fio_json_____identify double fio_atol fio_atof base junk buf.

Lemma consume_string_nested (r : run double) (pos : Z) :
  nested st0 r -> nested st0 (snd (fio_json_____consume_string double junk buf r pos)).
Proof.
  intros H. unfold fio_json_____consume_string.
  destruct (string_end junk buf (S (length buf)) (pos + 1)); cbn [snd];
    [apply nested_fire; [reflexivity|]|]; exact H.
Qed.

Lemma consume_number_nested (r : run double) (pos : Z) :
  nested st0 r ->
  nested st0 (snd (fio_json_____consume_number double fio_atol fio_atof junk buf r pos)).
Proof.
  intros H. unfold fio_json_____consume_number.
  destruct (fio_atol buf pos) as [i pos1].
  match goal with |- context [if ?b then _ else _] => destruct b end.
  - destruct (fio_atof buf pos) as [f pos2]. cbn [snd].
    apply nested_fire; [reflexivity|exact H].
  - cbn [snd]. apply nested_fire; [reflexivity|exact H].
Qed.

(** a token that is accepted keeps the callbacks well nested; one that is
    refused fires no end callback *)
Lemma identify_nested (r : run double) (pos : Z) :
  nested st0 r ->
  match identify r pos with
  | (Some _, r1) => nested st0 r1
  | (None, r1) => opens r1
  end.
Proof.
  intros H.
  pose proof (consume_string_nested r pos H) as Hs.
  pose proof (consume_number_nested r pos H) as Hn.
  pose proof (nested_opens r H) as Ho.
  unfold identify, fio_json_____identify, error_, value_, after_value, needs_separator.
  repeat match goal with
         | |- context [if ?b then _ else _] => destruct b eqn:?
         | |- context [match ?x with _ => _ end] => destruct x eqn:?
         end;
    repeat match goal with
           | Hx : ?t = (_, _), Hy : context [?t] |- _ => rewrite Hx in Hy; cbn [snd] in Hy
           end;
    cbn [snd fst];
    repeat first [ assumption
                 | apply nested_upd; [intros q0; split; reflexivity|]
                 | apply nested_fire; [reflexivity|]
                 | apply opens_upd
                 | apply opens_fire; [reflexivity|] ];
    try (apply nested_opens; assumption).
  - destruct (fio_json_____consume_string double junk buf r pos) as [o1 r1].
    cbn [snd fst] in *. destruct o1 as [z1|]; inversion Heqp0; subst.
    apply nested_upd; [intros q0; split; reflexivity|exact Hs].
  - destruct (fio_json_____consume_string double junk buf r pos) as [o1 r1].
    cbn [snd fst] in *. destruct o1 as [z1|]; inversion Heqp0; subst.
    apply opens_fire; [reflexivity|]. apply nested_opens. exact Hs.
  - cbn [fire upd p log].
    eapply (nested_open r false); [exact H| |reflexivity..].
    match goal with
    | Hc : (depth _ =? JSON_MAX_DEPTH) = false |- _ =>
      cbn [upd fire p depth set_expect set_nesting] in Hc; apply Z.eqb_neq in Hc; exact Hc
    end.
  - bool_hyps.
    cbn [fire upd p log].
    eapply (nested_close r false); [exact H| | |reflexivity..].
    + assumption.
    + apply Z.eqb_eq. assumption.
  - cbn [fire upd p log].
    eapply (nested_open r true); [exact H| |reflexivity..].
    match goal with
    | Hc : (depth _ =? JSON_MAX_DEPTH) = false |- _ =>
      cbn [upd fire p depth set_expect set_nesting] in Hc; apply Z.eqb_neq in Hc; exact Hc
    end.
  - bool_hyps.
    cbn [fire upd p log].
    eapply (nested_close r true); [exact H| | |reflexivity..].
    + assumption.
    + apply Z.eqb_neq. assumption.
Qed.

(** where a call stands when it ends: well nested, or at the failed label
    with no end callback out of place *)
Definition ends_well (res : outcome * run double) : Prop :=
  match fst res with
  | Failed _ => opens (snd res)
  | _ => nested st0 (snd res)
  end.

Lemma parse_nested_nested (fuel : nat) :
  forall (r : run double) pos,
    nested st0 r ->
    ends_well (parse_nested double fio_atol fio_atof base junk buf fuel r pos).
Proof.
  assert (Hend : forall (r : run double) pos,
             nested st0 r ->
             ends_well (if depth (p r) =? 0
                        then (Consumed pos, fire (upd r (fun q => set_expect q 0)) on_json)
                        else (Consumed pos, r))).
  { intros r pos H. destruct (depth (p r) =? 0); unfold ends_well; cbn [fst snd];
      [|exact H].
    apply nested_fire; [reflexivity|].
    apply nested_upd; [intros q0; split; reflexivity|exact H]. }
  induction fuel as [|fuel IH]; intros r pos H; cbn [parse_nested].
  - destruct (negb (depth (p r) =? 0) && (pos <? zlen buf)); [exact H|].
    exact (Hend r pos H).
  - destruct (negb (depth (p r) =? 0) && (pos <? zlen buf)).
    + pose proof (identify_nested r pos H) as Hi. unfold identify in Hi.
      destruct (fio_json_____identify double fio_atol fio_atof base junk buf r pos)
        as [[pos1|] r1]; [exact (IH r1 pos1 Hi)|exact Hi].
    + exact (Hend r pos H).
Qed.

Lemma parse_top_nested (fuel : nat) :
  forall (r : run double) pos,
    nested st0 r ->
    ends_well (parse_top double fio_atol fio_atof base junk buf fuel r pos).
Proof.
  induction fuel as [|fuel IH]; intros r pos H; cbn [parse_top]; [exact H|].
  pose proof (identify_nested r pos H) as Hi. unfold identify in Hi.
  destruct (fio_json_____identify double fio_atol fio_atof base junk buf r pos)
    as [[pos1|] r1]; [|exact Hi].
  destruct ((expect (p r1) =? 0) && (pos1 <? zlen buf)).
  - exact (IH r1 pos1 Hi).
  - exact (parse_nested_nested fuel r1 pos1 Hi).
Qed.

End Nesting.

(** X24.  The container callbacks are well nested.  Whatever the input and
    however the call ends, the start and end callbacks the parser fired,
    read in order from the containers open before the call, never close a
    container that is not the innermost open one or is of the other kind.
    Unless the call ends at the failed label, the containers left open are
    the ones the parser's [depth] and [nesting] bitmap stand for; so with a
    final depth of 0 every container opened was closed. *)
Theorem callbacks_well_nested (double : Type) (fio_atol : list Z -> Z -> Z * Z)
        (fio_atof : list Z -> Z -> double * Z) (base junk : Z)
        (fuel : nat) (q : fio_json_parser_s) (buf : list Z) (st0 : list bool) :
  tracks q st0 ->
  let res := fio_json_parse double fio_atol fio_atof base junk fuel q buf in
  exists st,
    replay (map fst (log (snd res))) st0 = Some st /\
    ((forall k, fst res <> Failed k) ->
     tracks (p (snd res)) st /\ (depth (p (snd res)) = 0 -> st = [])).
Proof.
  intros Hq res. unfold fio_json_parse in res.
  assert (H0 : nested st0 (mk_run q (@nil (callback double * fio_json_parser_s))))
    by (exists st0; split; [reflexivity|exact Hq]).
  pose proof (parse_top_nested double fio_atol fio_atof base junk buf st0 fuel _ 0 H0)
    as Hw.
  fold res in Hw. unfold ends_well in Hw.
  assert (Hn : (forall k, fst res <> Failed k) -> nested st0 (snd res)).
  { intros Hk. destruct (fst res) as [k|k|]; [exact Hw| |exact Hw].
    exfalso. apply (Hk k). reflexivity. }
  assert (Ho : opens double st0 (snd res)).
  { destruct (fst res); [| exact Hw |]; apply nested_opens; exact Hw. }
  destruct Ho as (st & Hr). exists st. split; [exact Hr|].
  intros Hk. destruct (Hn Hk) as (st' & Hr' & Ht).
  assert (st' = st) by congruence. subst st'. split; [exact Ht|].
  intros Hd. destruct Ht as (Ed & _). rewrite Hd in Ed.
  destruct st as [|b st]; [reflexivity|].
  rewrite zlen_cons in Ed. pose proof (zlen_nonneg st). lia.
Qed.

(** the text [[{}]] for a new parser *)
Lemma callbacks_well_nested_witness :
  let res := parse_ 10 FIO_JSON_INIT [91; 123; 125; 93] in
  exists st,
    replay (map fst (log (snd res))) [] = Some st /\
    ((forall k, fst res <> Failed k) ->
     tracks (p (snd res)) st /\ (depth (p (snd res)) = 0 -> st = [])).
Proof.
  apply (callbacks_well_nested Z atol_ atol_ 0 0 10 FIO_JSON_INIT [91; 123; 125; 93] []).
  split; [reflexivity|]. split; [reflexivity|]. unfold JSON_MAX_DEPTH. cbn. lia.
Defined.

End Json.

(* ------------------------------------------------------------------------- *)
(** ** The ordered hash map ([FIO_MAP_NAME] with [FIO_MAP_KEY] defined) *)
(* ------------------------------------------------------------------------- *)

Module Map.

Definition FIO_MAP_MAX_SEEK : Z := 96.
Definition FIO_MAP_MAX_FULL_COLLISIONS : Z := 96.
(** 0x43F82D0B *)
Definition FIO_MAP_CUCKOO_STEPS : Z := 1140337931.
Definition FIO_MAP_HASH_INVALID : Z := 0.
(** [(uint32_t)-1], the index that links nothing *)
Definition NIL : Z := 4294967295.

(** the 64-bit hash rotated left by [offset] bits and mixed with itself *)
Definition FIO_MAP_HASH_OFFSET (hash offset : Z) : Z :=
  Z.lxor (Z.lor (u64 (Z.shiftl hash (Z.land offset 63)))
                (Z.shiftr hash (Z.land (- offset) 63)))
         hash.

(** a call that may not come back: the ring walk of the rehash has no bound
    of its own *)
Definition bind {A B} (a : option A) (f : A -> option B) : option B :=
  match a with
  | Some x => f x
  | None => None
  end.

Notation "x <- a ;; b" := (bind a (fun x => b))
  (at level 61, a at next level, right associativity).
Notation "' pat <- a ;; b" := (bind a (fun x => match x with pat => b end))
  (at level 61, pat pattern, a at next level, right associativity).

Section Template.
(** The template parameters: the key and value types, what zeroed memory
    holds for each, the invalid value, the key comparison (when it is not
    defined every comparison is true and the comparison is simple) and the
    allocator's failures by number of slots.  Copies are assignments and
    destructors do nothing, as by default. *)
Variable K V : Type.
Variable key0 : K.
Variable value0 : V.
Variable FIO_MAP_TYPE_INVALID : V.
Variable FIO_MAP_KEY_COMPARE : option (K -> K -> bool).
Variable calloc_fails : Z -> bool.

Record couplet_s : Type := mk_couplet { key : K; value : V }.

Record _map_s : Type := mk_slot {
  prev : Z;
  next : Z;
  hash : Z;
  obj : couplet_s
}.

Record map_s : Type := mk_map {
  map : option (list _map_s);
  head : Z;
  count : Z;
  used_bits : Z;
  has_collisions : Z;
  under_attack : Z
}.

(** what a read outside the table finds *)
Variable junk : _map_s.

Definition FIO_MAP_INIT : map_s := mk_map None 0 0 0 0 0.

Definition FIO_MAP_OBJ_COMPARE (a b : couplet_s) : bool :=
  match FIO_MAP_KEY_COMPARE with
  | Some cmp => cmp (key a) (key b)
  | None => true
  end.
Definition FIO_MAP_OBJ_COMPARE_SIMPLE : bool :=
  match FIO_MAP_KEY_COMPARE with
  | Some _ => false
  | None => true
  end.

Definition table (m : map_s) : list _map_s :=
  match map m with
  | Some t => t
  | None => []
  end.
Definition slot (m : map_s) (i : Z) : _map_s := zget junk (table m) i.

Definition set_table (m : map_s) (t : list _map_s) : map_s :=
  mk_map (match map m with Some _ => Some t | None => None end)
         (head m) (count m) (used_bits m) (has_collisions m) (under_attack m).
Definition set_head (m : map_s) (v : Z) : map_s :=
  mk_map (map m) (u32 v) (count m) (used_bits m) (has_collisions m) (under_attack m).
Definition set_count (m : map_s) (v : Z) : map_s :=
  mk_map (map m) (head m) (u32 v) (used_bits m) (has_collisions m) (under_attack m).
Definition set_has_collisions (m : map_s) (v : Z) : map_s :=
  mk_map (map m) (head m) (count m) (used_bits m) (u8 v) (under_attack m).
Definition set_under_attack (m : map_s) (v : Z) : map_s :=
  mk_map (map m) (head m) (count m) (used_bits m) (has_collisions m) (u8 v).

(** [m->map[i] = f(m->map[i])] *)
Definition poke (m : map_s) (i : Z) (f : _map_s -> _map_s) : map_s :=
  set_table m (zset (table m) i (f (slot m i))).

Definition set_prev (v : Z) (s : _map_s) : _map_s := mk_slot (u32 v) (next s) (hash s) (obj s).
Definition set_next (v : Z) (s : _map_s) : _map_s := mk_slot (prev s) (u32 v) (hash s) (obj s).
Definition set_hash (v : Z) (s : _map_s) : _map_s := mk_slot (prev s) (next s) v (obj s).
Definition set_obj (o : couplet_s) (s : _map_s) : _map_s := mk_slot (prev s) (next s) (hash s) o.

(** a hash equal to [FIO_MAP_HASH_INVALID] is replaced by all ones *)
Definition valid_hash (hash : Z) : Z :=
  if hash =? FIO_MAP_HASH_INVALID then 18446744073709551615 else hash.

(** The seek loop of [_find_map_pos], with [n] attempts left: the index of
    the slot chosen (if any), the map with its flags, and
    [full_attack_counter]. *)
Fixpoint seek (n : nat) (m : map_s) (o : couplet_s) (hash_ pos_key mask counter : Z)
  : option Z * map_s * Z :=
  match n with
  | O => (None, m, counter)
  | S n' =>
    let pos := slot m pos_key in
    if hash pos =? FIO_MAP_HASH_INVALID then (Some pos_key, m, counter)
    else
      let next_key := Z.land (u64 (pos_key + FIO_MAP_CUCKOO_STEPS)) mask in
      if hash pos =? hash_ then
        if (next pos =? NIL) || negb (under_attack m =? 0)
           || FIO_MAP_OBJ_COMPARE (obj pos) o
        then (Some pos_key, m, counter)
        else
          let m := set_has_collisions m (Z.lor (has_collisions m) 1) in
          let counter := u8 (counter + 1) in
          let m := if FIO_MAP_MAX_FULL_COLLISIONS <=? counter
                   then set_under_attack m 1 else m in
          seek n' m o hash_ next_key mask counter
      else seek n' m o hash_ next_key mask counter
  end.

(** [_find_map_pos] from the computation of the mask on, with the counter *)
Definition seek_from_key (m : map_s) (o : couplet_s) (hash_ : Z) : option Z * map_s * Z :=
  let mask := u64 (Z.shiftl 1 (used_bits m) - 1) in
  let pos_key := Z.land (FIO_MAP_HASH_OFFSET hash_ (used_bits m)) mask in
  let max_seek := u8 (if FIO_MAP_MAX_SEEK <? mask then FIO_MAP_MAX_SEEK else mask) in
  seek (S (Z.to_nat max_seek)) m o hash_ pos_key mask 0.

(** [_find_map_pos] on a map with no rehash pending *)
Definition find_settled (m : map_s) (o : couplet_s) (hash_ : Z) : option Z * map_s :=
  let hash_ := valid_hash hash_ in
  match map m with
  | None => (None, m)
  | Some _ => let '(pos, m, _) := seek_from_key m o hash_ in (pos, m)
  end.

(** [___link_node(m, n)], [n] being the index of the node *)
Definition ___link_node (m : map_s) (n : Z) : map_s :=
  if head m =? NIL then
    let m := set_head m n in
    let m := poke m n (set_next (head m)) in
    poke m n (set_prev (next (slot m n)))
  else
    let r := head m in
    let m := poke m n (set_next (head m)) in
    let m := poke m n (set_prev (prev (slot m r))) in
    let m := poke m (prev (slot m n)) (set_next n) in
    poke m r (set_prev n).

(** [___unlink_node(m, n)] *)
Definition ___unlink_node (m : map_s) (n : Z) : map_s :=
  let m := poke m (next (slot m n)) (set_prev (prev (slot m n))) in
  let m := poke m (prev (slot m n)) (set_next (next (slot m n))) in
  let m := if next (slot m n) =? head m
           then poke m n (set_hash FIO_MAP_HASH_INVALID) else m in
  let m := if head m =? n
           then set_head m (if next (slot m n) =? n then NIL else next (slot m n))
           else m in
  let m := poke m n (set_next NIL) in
  poke m n (set_prev NIL).

Definition zero_slot : _map_s := mk_slot 0 0 0 (mk_couplet key0 value0).

(** [FIO_MEM_CALLOC_] of [n] slots *)
Definition calloc_table (n : Z) : option (list _map_s) :=
  if calloc_fails n then None else Some (zrepeat zero_slot n).

(** The loop of [_remap2bits] over the ring of the source, from index [i].
    [None]: the walk has not come back to the head after [fuel] nodes;
    [Some None]: a node found no place; [Some (Some dest)]: done.  The
    destination never has a rehash pending (its [has_collisions] starts at 0
    and only a removal sets bit 1), so [_find_map_pos] on it is
    [find_settled]. *)
Fixpoint remap_loop (fuel : nat) (src : map_s) (dest : map_s) (i : Z)
  : option (option map_s) :=
  match fuel with
  | O => None
  | S fuel' =>
    let s := slot src i in
    let '(pos, dest) := find_settled dest (obj s) (hash s) in
    match pos with
    | None => Some None
    | Some k =>
      let dest := poke dest k (set_hash (hash s)) in
      let dest := poke dest k (set_obj (obj s)) in
      let dest := ___link_node dest k in
      let dest := set_count dest (count dest + 1) in
      let i := next s in
      if i =? head src then Some (Some dest) else remap_loop fuel' src dest i
    end
  end.

(** [_remap2bits(m, bits)]: the value returned and the map left *)
Definition _remap2bits (m : map_s) (bits : Z) : option (Z * map_s) :=
  let dest := mk_map (calloc_table (u32 (Z.shiftl 1 (Z.land bits 31))))
                     NIL 0 bits 0 (under_attack m) in
  if match map m with None => true | Some _ => false end || (head m =? NIL)
  then Some (match map dest with None => -1 | Some _ => 0 end, dest)
  else
    r <- remap_loop (S (length (table m))) m dest (head m) ;;
    match r with
    | None => Some (-1, m)
    | Some dest => Some (0, dest)
    end.

(** [_find_map_pos(m, obj, hash)] *)
Definition _find_map_pos (m : map_s) (o : couplet_s) (hash_ : Z)
  : option (option Z * map_s) :=
  match map m with
  | None => Some (None, m)
  | Some _ =>
    m <- (if negb FIO_MAP_OBJ_COMPARE_SIMPLE && negb (Z.land (has_collisions m) 2 =? 0)
          then '(_, m) <- _remap2bits m (used_bits m) ;; Some m
          else Some m) ;;
    Some (let '(pos, m, _) := seek_from_key m o (valid_hash hash_) in (pos, m))
  end.

(** the code at the label [found_pos] of [_insert_or_overwrite]: the slot
    returned, the map, and what is written to [old] (if anything) *)
Definition found_pos (m : map_s) (pos : Z) (o : couplet_s) (hash_ : Z)
           (overwrite : bool) : option Z * map_s * option V :=
  let s := slot m pos in
  if (hash s =? FIO_MAP_HASH_INVALID) || (next s =? NIL) then
    let m := poke m pos (set_hash hash_) in
    let m := poke m pos (set_obj o) in
    let m := ___link_node m pos in
    let m := set_count m (count m + 1) in
    (Some pos, m, Some FIO_MAP_TYPE_INVALID)
  else if overwrite then
    (Some pos, poke m pos (set_obj (mk_couplet (key (obj s)) (value o))),
     Some (value (obj s)))
  else (Some pos, m, None).

(** the growth attempts at the label [remap_and_find_pos] *)
Fixpoint grow_and_find (tries : nat) (m : map_s) (o : couplet_s) (hash_ : Z)
  : option (option Z * map_s) :=
  match tries with
  | O => Some (None, m)
  | S tries' =>
    '(_, m) <- _remap2bits m (u8 (used_bits m + 1)) ;;
    '(pos, m) <- _find_map_pos m o hash_ ;;
    match pos with
    | Some k => Some (Some k, m)
    | None => grow_and_find tries' m o hash_
    end
  end.

(** [_insert_or_overwrite(m, obj, hash, old, overwrite)] with
    [FIO_MAP_MAX_ELEMENTS] at 0 *)
Definition _insert_or_overwrite (m : map_s) (o : couplet_s) (hash_ : Z)
           (overwrite : bool) : option (option Z * map_s * option V) :=
  let hash_ := valid_hash hash_ in
  '(pos, m) <- _find_map_pos m o hash_ ;;
  match pos with
  | Some k => Some (found_pos m k o hash_ overwrite)
  | None =>
    '(pos, m) <- (if u32 (Z.shiftl (count m) 1) <=? u32 (Z.shiftl 1 (used_bits m))
                  then '(_, m) <- _remap2bits m (used_bits m) ;;
                       _find_map_pos m o hash_
                  else Some (None, m)) ;;
    match pos with
    | Some k => Some (found_pos m k o hash_ overwrite)
    | None =>
      '(pos, m) <- grow_and_find 3 m o hash_ ;;
      match pos with
      | Some k => Some (found_pos m k o hash_ overwrite)
      | None =>
        let m := set_under_attack m 1 in
        '(pos, m) <- _find_map_pos m o hash_ ;;
        match pos with
        | Some k => Some (found_pos m k o hash_ overwrite)
        | None => Some (None, m, None)
        end
      end
    end
  end.

(** the slot is not one to remove: no slot, an empty slot or a hole *)
Definition nothing_to_remove (m : map_s) (pos : option Z) : bool :=
  match pos with
  | None => true
  | Some k => (hash (slot m k) =? FIO_MAP_HASH_INVALID) || (next (slot m k) =? NIL)
  end.

(** the removal proper: unlink, count down, remember that holes exist where
    collisions were seen *)
Definition remove_at (m : map_s) (k : Z) : map_s :=
  let m := ___unlink_node m k in
  let m := set_count m (count m - 1) in
  set_has_collisions m (Z.lor (has_collisions m) (Z.shiftl (has_collisions m) 1)).

(** the test that guards the shrinking of the table in [_remove] *)
Definition should_shrink (m : map_s) : bool :=
  (8 <=? used_bits m) && (u32 (Z.shiftl (count m) 3) <? u32 (Z.shiftl 1 (used_bits m))).

(** [_remove(m, obj, hash, old)]: the map, the value returned and what is
    written to [old] *)
Definition _remove (m : map_s) (o : couplet_s) (hash_ : Z) : option (map_s * Z * V) :=
  let hash_ := valid_hash hash_ in
  '(pos, m) <- _find_map_pos m o hash_ ;;
  match pos with
  | Some k =>
    if nothing_to_remove m pos then Some (m, -1, FIO_MAP_TYPE_INVALID)
    else
      let old := value (obj (slot m k)) in
      let m := remove_at m k in
      if should_shrink m
      then '(_, m) <- _remap2bits m (u8 (used_bits m - 1)) ;; Some (m, 0, old)
      else Some (m, 0, old)
  | None => Some (m, -1, FIO_MAP_TYPE_INVALID)
  end.

(** [find(m, hash, key)] *)
Definition find (m : map_s) (hash_ : Z) (k : K) : option (map_s * V) :=
  '(pos, m) <- _find_map_pos m (mk_couplet k value0) hash_ ;;
  match pos with
  | Some i =>
    if nothing_to_remove m pos then Some (m, FIO_MAP_TYPE_INVALID)
    else Some (m, value (obj (slot m i)))
  | None => Some (m, FIO_MAP_TYPE_INVALID)
  end.

(** [insert(m, hash, key, value, old)]: the map, what is written to [old] and
    the value returned, read through the slot (nothing when the slot is NULL) *)
Definition insert (m : map_s) (hash_ : Z) (k : K) (v : V)
  : option (map_s * option V * option V) :=
  '(pos, m, old) <- _insert_or_overwrite m (mk_couplet k v) hash_ true ;;
  Some (m, old, option_map (fun i => value (obj (slot m i))) pos).

(** [remove(m, hash, key, old)] *)
Definition remove (m : map_s) (hash_ : Z) (k : K) : option (map_s * Z * V) :=
  _remove m (mk_couplet k value0) hash_.

Definition capa (m : map_s) : Z :=
  u64 (Z.shiftl (if used_bits m =? 0 then 0 else 1) (used_bits m)).

Fixpoint reserve_bits (fuel : nat) (capa_ bits : Z) : Z :=
  match fuel with
  | O => bits
  | S fuel' =>
    if u64 (Z.shiftl 1 bits) <? capa_ then reserve_bits fuel' capa_ (u8 (bits + 1))
    else bits
  end.

(** [reserve(m, capa)], [capa] being a [uint32_t] *)
Definition reserve (m : map_s) (capa_ : Z) : option (map_s * Z) :=
  if capa_ <=? u64 (Z.shiftl 1 (used_bits m)) then Some (m, capa m)
  else
    let bits := reserve_bits 64 capa_ (u8 (used_bits m + 1)) in
    '(_, m) <- _remap2bits m bits ;;
    Some (m, capa m).

(** the slots [FIO_MAP_EACH] visits from index [i] on, in order *)
Fixpoint each_from (fuel : nat) (m : map_s) (i : Z) : list _map_s :=
  match fuel with
  | O => []
  | S fuel' =>
    let s := slot m i in
    s :: (if next s =? head m then [] else each_from fuel' m (next s))
  end.

(** the logical content: the couplets of the ring, oldest first *)
Definition entries (m : map_s) : list (K * V) :=
  match map m with
  | None => []
  | Some t =>
    if head m =? NIL then []
    else List.map (fun s => (key (obj s), value (obj s)))
                  (each_from (length t) m (head m))
  end.

(** *** What a seek changes: two flags and nothing else *)

Definition same_store (m m' : map_s) : Prop :=
  map m' = map m /\ head m' = head m /\ count m' = count m /\
  used_bits m' = used_bits m.

Lemma same_store_refl m : same_store m m.
Proof. repeat split. Qed.

Lemma same_store_trans a b c : same_store a b -> same_store b c -> same_store a c.
Proof.
  intros (H1 & H2 & H3 & H4) (G1 & G2 & G3 & G4).
  repeat split; congruence.
Qed.

Lemma same_store_slot m m' i : same_store m m' -> slot m' i = slot m i.
Proof. intros (H & _). unfold slot, table. rewrite H. reflexivity. Qed.

Lemma seek_same_store n :
  forall m o h pk mask c, same_store m (snd (fst (seek n m o h pk mask c))).
Proof.
  induction n as [|n IH]; intros m o h pk mask c; cbn [seek].
  - apply same_store_refl.
  - destruct (hash (slot m pk) =? FIO_MAP_HASH_INVALID); [apply same_store_refl|].
    destruct (hash (slot m pk) =? h); [|apply IH].
    destruct ((next (slot m pk) =? NIL) || negb (under_attack m =? 0)
              || FIO_MAP_OBJ_COMPARE (obj (slot m pk)) o); [apply same_store_refl|].
    eapply same_store_trans; [|apply IH].
    destruct (FIO_MAP_MAX_FULL_COLLISIONS <=? u8 (c + 1)); repeat split.
Qed.


Lemma seek_attack_same_map n :
  forall m o h pk mask c,
    under_attack m <> 0 -> snd (fst (seek n m o h pk mask c)) = m.
Proof.
  induction n as [|n IH]; intros m o h pk mask c Hua; cbn [seek]; [reflexivity|].
  destruct (hash (slot m pk) =? FIO_MAP_HASH_INVALID); [reflexivity|].
  destruct (hash (slot m pk) =? h); [|apply IH, Hua].
  pose proof Hua as Hua'. apply Z.eqb_neq in Hua'. rewrite Hua'. cbn [negb].
  rewrite !Bool.orb_true_r. reflexivity.
Qed.

Lemma find_settled_attack m o h :
  under_attack m <> 0 -> under_attack (snd (find_settled m o h)) <> 0.
Proof.
  intros Hua. unfold find_settled. destruct (map m); [|exact Hua].
  unfold seek_from_key.
  match goal with |- context [seek ?n ?m ?o ?h ?pk ?mask ?c] =>
    pose proof (seek_attack_same_map n m o h pk mask c Hua) as E;
    destruct (seek n m o h pk mask c) as [[pos m1] c1] end.
  cbn [fst snd] in *. subst m1. exact Hua.
Qed.

Lemma link_node_flags m n :
  under_attack (___link_node m n) = under_attack m /\
  has_collisions (___link_node m n) = has_collisions m /\
  used_bits (___link_node m n) = used_bits m /\
  count (___link_node m n) = count m.
Proof. unfold ___link_node. destruct (head m =? NIL); repeat split. Qed.

Lemma unlink_node_flags m n :
  under_attack (___unlink_node m n) = under_attack m /\
  has_collisions (___unlink_node m n) = has_collisions m /\
  used_bits (___unlink_node m n) = used_bits m /\
  count (___unlink_node m n) = count m.
Proof.
  unfold ___unlink_node.
  repeat match goal with |- context [if ?b then _ else _] => destruct b end;
    repeat split.
Qed.

Lemma remap_loop_attack fuel :
  forall src dest i d,
    remap_loop fuel src dest i = Some (Some d) ->
    under_attack dest <> 0 -> under_attack d <> 0.
Proof.
  induction fuel as [|fuel IH]; intros src dest i d H Hua; [discriminate|].
  cbn [remap_loop] in H.
  pose proof (find_settled_attack dest (obj (slot src i)) (hash (slot src i)) Hua) as Hf.
  destruct (find_settled dest (obj (slot src i)) (hash (slot src i))) as [[k|] d1];
    [|discriminate].
  cbn [snd] in Hf.
  match type of H with
  | (if ?b then _ else _) = _ => destruct b
  end.
  - inversion H; subst d. cbn [under_attack set_count].
    rewrite (proj1 (link_node_flags _ _)). exact Hf.
  - eapply IH; [exact H|]. cbn [under_attack set_count].
    rewrite (proj1 (link_node_flags _ _)). exact Hf.
Qed.

Lemma remap2bits_attack m bits r m1 :
  _remap2bits m bits = Some (r, m1) ->
  under_attack m <> 0 -> under_attack m1 <> 0.
Proof.
  unfold _remap2bits. intros H Hua.
  match type of H with
  | (if ?b then _ else _) = _ => destruct b
  end.
  - inversion H; subst. exact Hua.
  - destruct (remap_loop (S (length (table m))) m _ (head m)) as [[d|]|] eqn:E;
      cbn [bind] in H; inversion H; subst; [|exact Hua].
    eapply remap_loop_attack; [exact E|exact Hua].
Qed.



(** *** The full collisions a seek meets *)

(** the slots a seek of [n] attempts visits from [pos_key], in order, when
    nothing ends it before *)
Fixpoint probes (n : nat) (pos_key mask : Z) : list Z :=
  match n with
  | O => []
  | S n' => pos_key :: probes n' (Z.land (u64 (pos_key + FIO_MAP_CUCKOO_STEPS)) mask) mask
  end.

(** the probe sequence of [_find_map_pos] for the hash [h] *)
Definition seek_path (m : map_s) (h : Z) : list Z :=
  let mask := u64 (Z.shiftl 1 (used_bits m) - 1) in
  let pos_key := Z.land (FIO_MAP_HASH_OFFSET h (used_bits m)) mask in
  let max_seek := u8 (if FIO_MAP_MAX_SEEK <? mask then FIO_MAP_MAX_SEEK else mask) in
  probes (S (Z.to_nat max_seek)) pos_key mask.

(** the slot ends a seek whatever the flags of the map: it is empty, or it
    has the hash sought and is a hole or holds an equal key *)
Definition ends_seek (m : map_s) (o : couplet_s) (h i : Z) : bool :=
  (hash (slot m i) =? FIO_MAP_HASH_INVALID) ||
  ((hash (slot m i) =? h) &&
   ((next (slot m i) =? NIL) || FIO_MAP_OBJ_COMPARE (obj (slot m i)) o)).

(** a full collision: the stored hash is the one sought and the keys do not
    compare equal *)
Definition full_collision (m : map_s) (o : couplet_s) (h i : Z) : bool :=
  (hash (slot m i) =? h) && negb (FIO_MAP_OBJ_COMPARE (obj (slot m i)) o).

(** the number of full collisions among the slots of [l] that come before
    the first slot that ends the seek *)
Fixpoint collisions_met (m : map_s) (o : couplet_s) (h : Z) (l : list Z) : Z :=
  match l with
  | [] => 0
  | i :: l' =>
    if ends_seek m o h i then 0
    else (if full_collision m o h i then 1 else 0) + collisions_met m o h l'
  end.





(** *** The rehash comes back when the ring does *)

(** following [next] from index [i] leads to the head within [fuel] nodes *)
Fixpoint walk_returns (fuel : nat) (m : map_s) (i : Z) : bool :=
  match fuel with
  | O => false
  | S fuel' =>
    (next (slot m i) =? head m) || walk_returns fuel' m (next (slot m i))
  end.

(** the ring of [m] is closed: there is no table, no ring, or the walk from
    the head is back at the head after at most one node per slot *)
Definition ring_closes (m : map_s) : bool :=
  match map m with
  | None => true
  | Some t => (head m =? NIL) || walk_returns (S (length t)) m (head m)
  end.

Lemma remap_loop_returns fuel :
  forall src dest i,
    walk_returns fuel src i = true ->
    exists r, remap_loop fuel src dest i = Some r.
Proof.
  induction fuel as [|fuel IH]; intros src dest i H; [discriminate|].
  cbn [remap_loop walk_returns] in *.
  destruct (find_settled dest (obj (slot src i)) (hash (slot src i))) as [[k|] d1];
    [|eexists; reflexivity].
  destruct (next (slot src i) =? head src); [eexists; reflexivity|].
  cbn [orb] in H. apply IH, H.
Qed.

Lemma remap2bits_returns m bits :
  ring_closes m = true -> exists r, _remap2bits m bits = Some r.
Proof.
  unfold ring_closes, _remap2bits, table. intros H.
  destruct (map m) as [t|]; cbn [orb]; [|eexists; reflexivity].
  destruct (head m =? NIL); [eexists; reflexivity|].
  cbn [orb] in H.
  match goal with |- context [remap_loop ?f ?s ?d ?i] =>
    destruct (remap_loop_returns f s d i H) as [r Hr]; rewrite Hr
  end.
  cbn [bind]. destruct r; eexists; reflexivity.
Qed.

Lemma find_settled_same_store m o h : same_store m (snd (find_settled m o h)).
Proof.
  unfold find_settled. destruct (map m) eqn:E; [|apply same_store_refl].
  unfold seek_from_key.
  match goal with |- context [seek ?n ?m ?o ?h ?pk ?mask ?c] =>
    pose proof (seek_same_store n m o h pk mask c) as Hs;
    destruct (seek n m o h pk mask c) as [[pos m1] c1]
  end.
  exact Hs.
Qed.

Lemma remap_loop_used_bits fuel :
  forall src dest i d,
    remap_loop fuel src dest i = Some (Some d) -> used_bits d = used_bits dest.
Proof.
  induction fuel as [|fuel IH]; intros src dest i d H; [discriminate|].
  cbn [remap_loop] in H.
  pose proof (find_settled_same_store dest (obj (slot src i)) (hash (slot src i)))
    as (_ & _ & _ & Hu).
  destruct (find_settled dest (obj (slot src i)) (hash (slot src i))) as [[k|] d1];
    [|discriminate].
  cbn [snd] in Hu.
  match type of H with
  | (if ?b then _ else _) = _ => destruct b
  end.
  - inversion H; subst d. cbn [used_bits set_count].
    rewrite (proj1 (proj2 (proj2 (link_node_flags _ _)))). exact Hu.
  - rewrite (IH _ _ _ _ H). cbn [used_bits set_count].
    rewrite (proj1 (proj2 (proj2 (link_node_flags _ _)))). exact Hu.
Qed.

(** a rehash leaves a table of the size asked for, or fails and leaves the
    map as it was *)
Lemma remap2bits_result m bits r m1 :
  _remap2bits m bits = Some (r, m1) ->
  (used_bits m1 = bits /\ (r = 0 \/ map m1 = None)) \/ (r = -1 /\ m1 = m).
Proof.
  unfold _remap2bits. intros H.
  match type of H with
  | (if ?b then _ else _) = _ => destruct b
  end.
  - inversion H; subst. left. split; [reflexivity|].
    cbn [map]. destruct (calloc_table _); [left|right]; reflexivity.
  - destruct (remap_loop (S (length (table m))) m _ (head m)) as [[d|]|] eqn:E;
      cbn [bind] in H; inversion H; subst.
    + left. split; [|left; reflexivity].
      rewrite (remap_loop_used_bits _ _ _ _ _ E). reflexivity.
    + right. split; reflexivity.
Qed.

Lemma find_map_pos_used_bits m o h pos m1 :
  _find_map_pos m o h = Some (pos, m1) -> used_bits m1 = used_bits m.
Proof.
  unfold _find_map_pos. intros H.
  destruct (map m); [|inversion H; reflexivity].
  assert (Hseek : forall a, used_bits (snd (let '(pos, m, _) := seek_from_key a o (valid_hash h)
                                            in (pos, m))) = used_bits a).
  { intros a. unfold seek_from_key.
    match goal with |- context [seek ?n ?m ?o ?h ?pk ?mask ?c] =>
      pose proof (seek_same_store n m o h pk mask c) as (_ & _ & _ & Hs);
      destruct (seek n m o h pk mask c) as [[p1 a1] c1]
    end.
    exact Hs. }
  destruct (negb FIO_MAP_OBJ_COMPARE_SIMPLE && negb (Z.land (has_collisions m) 2 =? 0)).
  - destruct (_remap2bits m (used_bits m)) as [[r m2]|] eqn:E; [|discriminate].
    cbn [bind] in H. inversion H as [H1].
    specialize (Hseek m2). rewrite H1 in Hseek. cbn [snd] in Hseek. rewrite Hseek.
    destruct (remap2bits_result _ _ _ _ E) as [[Hu _]|[_ Hu]]; [exact Hu|].
    subst m2. reflexivity.
  - cbn [bind] in H. inversion H as [H1].
    specialize (Hseek m). rewrite H1 in Hseek. exact Hseek.
Qed.

Lemma remove_at_used_bits m k : used_bits (remove_at m k) = used_bits m.
Proof.
  unfold remove_at. cbn [used_bits set_has_collisions set_count].
  apply (unlink_node_flags m k).
Qed.

Lemma should_shrink_spec m :
  0 <= used_bits m < 32 -> 0 <= count m < 2 ^ 29 ->
  (should_shrink m = true <-> 8 <= used_bits m /\ 8 * count m < 2 ^ used_bits m).
Proof.
  intros Hb Hc. unfold should_shrink.
  rewrite !Z.shiftl_mul_pow2 by lia.
  assert (H1 : u32 (count m * 2 ^ 3) = 8 * count m).
  { unfold u32. rewrite Z.mod_small; lia. }
  assert (H2 : u32 (1 * 2 ^ used_bits m) = 2 ^ used_bits m).
  { unfold u32. rewrite Z.mod_small; [lia|].
    split; [lia|]. rewrite Z.mul_1_l.
    change 4294967296 with (2 ^ 32). apply Z.pow_lt_mono_r; lia. }
  rewrite H1, H2, Bool.andb_true_iff, Z.leb_le, Z.ltb_lt. reflexivity.
Qed.

(** C4, as amended.  When [_remove] removes an entry (the seek chose the
    live slot [k]; the ring left is closed), the table is left as it is
    unless [used_bits] is at least 8 and eight times the count after the
    removal is below the number of slots.  In that case a rehash into a table
    of half the size is attempted, and what is left is what the rehash
    leaves: [used_bits] one less when it succeeds, the map untouched, with
    [used_bits] as before, when it returns -1 because some entry found no
    place within the seek limit. *)
Theorem remove_halves_when_sparse (m m1 : map_s) (o : couplet_s) (h k : Z) :
  _find_map_pos m o (valid_hash h) = Some (Some k, m1) ->
  nothing_to_remove m1 (Some k) = false ->
  ring_closes (remove_at m1 k) = true ->
  0 <= used_bits m < 32 ->
  0 <= count (remove_at m1 k) < 2 ^ 29 ->
  let m2 := remove_at m1 k in
  let sparse := 8 <= used_bits m /\ 8 * count m2 < 2 ^ used_bits m in
  exists m3,
    _remove m o h = Some (m3, 0, value (obj (slot m1 k))) /\
    (~ sparse -> m3 = m2 /\ used_bits m3 = used_bits m) /\
    (sparse ->
     exists r, _remap2bits m2 (used_bits m - 1) = Some (r, m3) /\
               (used_bits m3 = used_bits m - 1 \/
                (r = -1 /\ m3 = m2 /\ used_bits m3 = used_bits m))) /\
    (used_bits m3 = used_bits m - 1 -> sparse).
Proof.
  intros Hfind Hlive Hring Hbits Hcount m2 sparse.
  assert (Hu1 : used_bits m1 = used_bits m) by (eapply find_map_pos_used_bits; exact Hfind).
  assert (Hu2 : used_bits m2 = used_bits m)
    by (unfold m2; rewrite remove_at_used_bits; exact Hu1).
  assert (Hspec : should_shrink m2 = true <-> sparse).
  { unfold sparse. rewrite <- Hu2. apply should_shrink_spec; [rewrite Hu2; exact Hbits|].
    exact Hcount. }
  unfold _remove. rewrite Hfind. cbn [bind]. rewrite Hlive. fold m2.
  destruct (should_shrink m2) eqn:E.
  - assert (Hs : sparse) by (apply Hspec; reflexivity).
    assert (Hb8 : u8 (used_bits m2 - 1) = used_bits m - 1).
    { rewrite Hu2. unfold u8. apply Z.mod_small. destruct Hs. lia. }
    rewrite Hb8.
    destruct (remap2bits_returns m2 (used_bits m - 1) Hring) as [[r m3] Hr].
    rewrite Hr. cbn [bind]. exists m3. split; [reflexivity|]. split; [|split].
    + intros Hn. contradiction.
    + intros _. exists r. split; [reflexivity|].
      destruct (remap2bits_result _ _ _ _ Hr) as [[Hu _]|[Hr1 Hm]].
      * left. exact Hu.
      * right. subst m3. repeat split; [exact Hr1|exact Hu2].
    + intros _. exact Hs.
  - assert (Hs : ~ sparse) by (intros Hs; apply Hspec in Hs; discriminate).
    exists m2. split; [reflexivity|]. split; [|split].
    + intros _. split; [reflexivity|exact Hu2].
    + intros Hn. contradiction.
    + intros Hn. rewrite Hu2 in Hn. lia.
Qed.

(** *** A seek that meets no live match *)

(** some slot the seek can read is live and holds the hash and the key *)
Definition live_match (m : map_s) (o : couplet_s) (h : Z) : bool :=
  existsb (fun s => (hash s =? valid_hash h) && negb (next s =? NIL)
                    && FIO_MAP_OBJ_COMPARE (obj s) o)
          (junk :: table m).

Lemma slot_in m i : In (slot m i) (junk :: table m).
Proof.
  unfold slot, zget. destruct (i <? 0); [left; reflexivity|].
  destruct (Nat.lt_ge_cases (Z.to_nat i) (length (table m))) as [H|H].
  - right. apply nth_In, H.
  - left. symmetry. apply nth_overflow, H.
Qed.

Lemma seek_miss n :
  forall m o h pk mask c,
    (forall i, (hash (slot m i) =? h) && negb (next (slot m i) =? NIL)
               && FIO_MAP_OBJ_COMPARE (obj (slot m i)) o = false) ->
    under_attack (snd (fst (seek n m o h pk mask c))) = 0 ->
    nothing_to_remove (snd (fst (seek n m o h pk mask c)))
                      (fst (fst (seek n m o h pk mask c))) = true.
Proof.
  induction n as [|n IH]; intros m o h pk mask c Hno Hua; cbn [seek] in *; [reflexivity|].
  destruct (hash (slot m pk) =? FIO_MAP_HASH_INVALID) eqn:E0.
  { cbn [fst snd nothing_to_remove]. rewrite E0. reflexivity. }
  destruct (hash (slot m pk) =? h) eqn:Eh; [|apply IH; assumption].
  destruct (next (slot m pk) =? NIL) eqn:En.
  { cbn [orb fst snd nothing_to_remove]. rewrite En. apply Bool.orb_true_r. }
  destruct (under_attack m =? 0) eqn:Eu.
  - specialize (Hno pk) as Hpk. rewrite Eh, En in Hpk. cbn [negb andb] in Hpk.
    rewrite Hpk in *. cbn [negb orb] in *.
    apply IH; [|exact Hua].
    intros i. specialize (Hno i).
    destruct (FIO_MAP_MAX_FULL_COLLISIONS <=? u8 (c + 1)); exact Hno.
  - cbn [negb orb fst snd] in *. apply Z.eqb_neq in Eu. contradiction.
Qed.

Lemma each_from_same_store fuel :
  forall m m' i, same_store m m' -> each_from fuel m' i = each_from fuel m i.
Proof.
  induction fuel as [|fuel IH]; intros m m' i H; [reflexivity|].
  cbn [each_from]. rewrite (same_store_slot _ _ _ H).
  pose proof H as (_ & H2 & _). rewrite H2.
  destruct (next (slot m i) =? head m); [reflexivity|].
  f_equal. apply IH, H.
Qed.

Lemma entries_same_store m m' : same_store m m' -> entries m' = entries m.
Proof.
  intros H. unfold entries. pose proof H as (H1 & H2 & _).
  rewrite H1, H2. destruct (map m); [|reflexivity].
  destruct (head m =? NIL); [reflexivity|].
  f_equal. apply each_from_same_store, H.
Qed.

Lemma valid_hash_idem h : valid_hash (valid_hash h) = valid_hash h.
Proof.
  unfold valid_hash, FIO_MAP_HASH_INVALID.
  destruct (h =? 0) eqn:E; [reflexivity|]. rewrite E. reflexivity.
Qed.

(** On a map with no rehash pending (the comparison is simple, or bit 1 of
    [has_collisions] is clear), whatever its shape, a removal that misses
    does not touch the table: when no live slot holds both the hash and a
    key equal to the one given, and the map is not under attack once the
    seek is over, [_remove] returns -1 and writes the invalid value to [old];
    the table, the head of the ring and the count are what they were. *)
Lemma remove_miss_keeps_table (m : map_s) (o : couplet_s) (h : Z) :
  FIO_MAP_OBJ_COMPARE_SIMPLE = true \/ Z.land (has_collisions m) 2 = 0 ->
  live_match m o h = false ->
  under_attack (snd (find_settled m o h)) = 0 ->
  exists m1,
    _remove m o h = Some (m1, -1, FIO_MAP_TYPE_INVALID) /\
    map m1 = map m /\ head m1 = head m /\ count m1 = count m /\
    used_bits m1 = used_bits m /\
    entries m1 = entries m.
Proof.
  intros Hpend Hno Hua.
  assert (Hstore : forall m1, same_store m m1 ->
            map m1 = map m /\ head m1 = head m /\ count m1 = count m /\
            used_bits m1 = used_bits m /\ entries m1 = entries m).
  { intros m1 Hs. pose proof (entries_same_store _ _ Hs) as He.
    destruct Hs as (H1 & H2 & H3 & H4). repeat split; assumption. }
  unfold _remove, _find_map_pos. unfold find_settled in Hua.
  destruct (map m) as [t|] eqn:Emap.
  - assert (Hc : negb FIO_MAP_OBJ_COMPARE_SIMPLE
                 && negb (Z.land (has_collisions m) 2 =? 0) = false).
    { destruct Hpend as [Hp|Hp]; rewrite Hp; [reflexivity|]. apply Bool.andb_false_r. }
    rewrite Hc. cbn [bind]. rewrite valid_hash_idem.
    unfold seek_from_key in *.
    match goal with |- context [seek ?n ?m ?o ?h ?pk ?mask ?c] =>
      pose proof (seek_miss n m o h pk mask c) as Hmiss;
      pose proof (seek_same_store n m o h pk mask c) as Hs;
      destruct (seek n m o h pk mask c) as [[pos m1] c1]
    end.
    cbn [fst snd] in *.
    assert (Hnt : nothing_to_remove m1 pos = true).
    { apply Hmiss; [|exact Hua]. intros i.
      unfold live_match in Hno. rewrite <- Bool.not_true_iff_false in Hno.
      apply Bool.not_true_iff_false. intros Hi. apply Hno.
      apply existsb_exists. exists (slot m i). split; [apply slot_in|exact Hi]. }
    exists m1. destruct pos as [k|].
    + rewrite Hnt. split; [reflexivity|]. apply Hstore, Hs.
    + split; [reflexivity|]. apply Hstore, Hs.
  - cbn [bind]. exists m. split; [reflexivity|]. apply Hstore, same_store_refl.
Qed.

(** *** Reading the table after a store *)

Lemma nth_update {A} (l : list A) :
  forall (i j : nat) (x d : A),
    (i < length l)%nat ->
    nth j (firstn i l ++ x :: skipn (S i) l) d = if (j =? i)%nat then x else nth j l d.
Proof.
  induction l as [|a l IH]; intros i j x d Hi; cbn [length] in Hi; [lia|].
  destruct i as [|i]; destruct j as [|j]; cbn [firstn skipn app nth Nat.eqb]; try reflexivity.
  apply IH. lia.
Qed.

Lemma zget_zset {A} (d : A) (l : list A) (i j : Z) (x : A) :
  zget d (zset l i x) j =
  if (j =? i) && (0 <=? i) && (i <? zlen l) then x else zget d l j.
Proof.
  unfold zget, zset, zlen.
  destruct (0 <=? i) eqn:E0; destruct (i <? Z.of_nat (length l)) eqn:E1;
    cbn [andb]; rewrite ?Bool.andb_false_r; try reflexivity.
  apply Z.leb_le in E0. apply Z.ltb_lt in E1. rewrite Bool.andb_true_r.
  destruct (j <? 0) eqn:Ej.
  - apply Z.ltb_lt in Ej. replace (j =? i) with false by (symmetry; apply Z.eqb_neq; lia).
    reflexivity.
  - apply Z.ltb_ge in Ej. rewrite nth_update by lia.
    destruct (j =? i) eqn:Eji.
    + apply Z.eqb_eq in Eji. subst j. rewrite Nat.eqb_refl. reflexivity.
    + apply Z.eqb_neq in Eji.
      replace (Z.to_nat j =? Z.to_nat i)%nat with false
        by (symmetry; apply Nat.eqb_neq; lia).
      reflexivity.
Qed.

Definition in_table (m : map_s) (i : Z) : bool := (0 <=? i) && (i <? zlen (table m)).

Lemma table_poke m i f : zlen (table (poke m i f)) = zlen (table m).
Proof.
  unfold poke, set_table, table. cbn [map]. destruct (map m); [|reflexivity].
  apply zlen_zset.
Qed.

Lemma slot_poke m i f j :
  slot (poke m i f) j = if (j =? i) && in_table m i then f (slot m i) else slot m j.
Proof.
  unfold in_table, slot at 1, poke, set_table, table at 1. cbn [map].
  destruct (map m) as [t|] eqn:E.
  - rewrite zget_zset. unfold table. rewrite E.
    rewrite Bool.andb_assoc. unfold slot, table. rewrite E. reflexivity.
  - unfold table. rewrite E. change (zlen (@nil _map_s)) with 0.
    replace ((0 <=? i) && (i <? 0)) with false
      by (symmetry; apply Bool.andb_false_iff; destruct (i <? 0) eqn:Ei;
          [left; apply Z.leb_gt; apply Z.ltb_lt in Ei; lia|right; reflexivity]).
    rewrite Bool.andb_false_r. unfold slot, table. rewrite E. reflexivity.
Qed.

Lemma in_table_poke m i f j : in_table (poke m i f) j = in_table m j.
Proof. unfold in_table. rewrite table_poke. reflexivity. Qed.

Lemma map_poke_some m i f : map m <> None -> map (poke m i f) <> None.
Proof. unfold poke, set_table. cbn [map]. destruct (map m); congruence. Qed.

(** *** The ring as a list of indices *)

(** the indices [FIO_MAP_EACH] visits from index [i] on *)
Fixpoint ring_from (fuel : nat) (m : map_s) (i : Z) : list Z :=
  match fuel with
  | O => []
  | S fuel' =>
    i :: (if next (slot m i) =? head m then [] else ring_from fuel' m (next (slot m i)))
  end.

Definition ring (m : map_s) : list Z :=
  if head m =? NIL then [] else ring_from (length (table m)) m (head m).

Definition couplet_of (s : _map_s) : K * V := (key (obj s), value (obj s)).

Lemma each_from_ring fuel :
  forall m i, each_from fuel m i = List.map (slot m) (ring_from fuel m i).
Proof.
  induction fuel as [|fuel IH]; intros m i; [reflexivity|].
  cbn [each_from ring_from List.map].
  destruct (next (slot m i) =? head m); [reflexivity|].
  rewrite IH. reflexivity.
Qed.

Lemma entries_ring m :
  entries m = match map m with
              | None => []
              | Some _ => List.map (fun i => couplet_of (slot m i)) (ring m)
              end.
Proof.
  unfold entries, ring, table. destruct (map m) as [t|]; [|reflexivity].
  destruct (head m =? NIL); [reflexivity|].
  rewrite each_from_ring, map_map. reflexivity.
Qed.

(** from node [i] the nodes of [l] follow through [next], and the last one
    leads back to the head *)
Fixpoint chain (m : map_s) (i : Z) (l : list Z) : Prop :=
  match l with
  | [] => next (slot m i) = head m
  | y :: l' => next (slot m i) = y /\ chain m y l'
  end.

Lemma chain_ring_from m l :
  forall i fuel,
    chain m i l -> ~ In (head m) l -> (length l < fuel)%nat ->
    ring_from fuel m i = i :: l.
Proof.
  induction l as [|y l IH]; intros i fuel Hc Hh Hf;
    (destruct fuel as [|fuel]; [cbn [length] in Hf; lia|]); cbn [ring_from chain] in *.
  - rewrite Hc, Z.eqb_refl. reflexivity.
  - destruct Hc as [Hn Hc]. rewrite Hn.
    replace (y =? head m) with false
      by (symmetry; apply Z.eqb_neq; intros E; apply Hh; left; exact E).
    rewrite (IH y fuel Hc); [reflexivity| |cbn [length] in Hf; lia].
    intros Hin. apply Hh. right. exact Hin.
Qed.

Lemma walk_ring_chain fuel :
  forall m i,
    walk_returns fuel m i = true ->
    exists l, ring_from fuel m i = i :: l /\ chain m i l.
Proof.
  induction fuel as [|fuel IH]; intros m i H; [discriminate|].
  cbn [walk_returns ring_from] in *.
  destruct (next (slot m i) =? head m) eqn:E.
  - exists []. split; [reflexivity|]. apply Z.eqb_eq in E. exact E.
  - cbn [orb] in H. destruct (IH _ _ H) as (l & Hl & Hc).
    exists (next (slot m i) :: l). rewrite Hl. split; [reflexivity|].
    cbn [chain]. split; [reflexivity|exact Hc].
Qed.

Lemma last_cons (l : list Z) : forall y i, last (y :: l) i = last l y.
Proof.
  induction l as [|z l IH]; intros y i; [reflexivity|].
  change (last (y :: z :: l) i) with (last (z :: l) i).
  rewrite !IH. reflexivity.
Qed.

Lemma last_in (l : list Z) : forall y, In (last l y) (y :: l).
Proof.
  induction l as [|z l IH]; intros y; [left; reflexivity|].
  right. rewrite (last_cons l z y). apply IH.
Qed.

Lemma chain_append m m' k :
  forall l i,
    chain m i l ->
    NoDup (i :: l) ->
    ~ In k (i :: l) ->
    head m' = head m ->
    (forall j, next (slot m' j) =
               if j =? k then head m
               else if j =? last l i then k else next (slot m j)) ->
    chain m' i (l ++ [k]).
Proof.
  induction l as [|y l IH]; intros i Hc Hnd Hk Hh Hn.
  - cbn [chain app last] in *. split.
    + rewrite Hn. replace (i =? k) with false
        by (symmetry; apply Z.eqb_neq; intros E; apply Hk; left; exact E).
      rewrite Z.eqb_refl. reflexivity.
    + rewrite Hn, Z.eqb_refl. symmetry. exact Hh.
  - cbn [chain] in Hc. destruct Hc as [Hy Hc].
    change ((y :: l) ++ [k]) with (y :: (l ++ [k])). cbn [chain].
    assert (Hni : ~ In i (y :: l)) by (inversion Hnd; assumption).
    assert (Hnd' : NoDup (y :: l)) by (inversion Hnd; assumption).
    split.
    + rewrite Hn. replace (i =? k) with false
        by (symmetry; apply Z.eqb_neq; intros E; apply Hk; left; exact E).
      replace (i =? last (y :: l) i) with false; [exact Hy|].
      symmetry. apply Z.eqb_neq. intros E. apply Hni.
      rewrite E, last_cons. apply last_in.
    + apply IH; [exact Hc|exact Hnd'| |exact Hh|].
      * intros Hin. apply Hk. right. exact Hin.
      * intros j. rewrite Hn, last_cons. reflexivity.
Qed.

(** *** Linking a node at the end of the ring *)

Lemma u32_in_table m i :
  zlen (table m) <= 4294967296 -> in_table m i = true -> u32 i = i.
Proof.
  unfold in_table, u32. intros Hl Hi.
  apply Bool.andb_true_iff in Hi. destruct Hi as [H0 H1].
  apply Z.leb_le in H0. apply Z.ltb_lt in H1. apply Z.mod_small. lia.
Qed.

Lemma slot_poke_hash m i f j :
  (forall s, hash (f s) = hash s) -> hash (slot (poke m i f) j) = hash (slot m j).
Proof.
  intros Hf. rewrite slot_poke.
  destruct ((j =? i) && in_table m i) eqn:E; [|reflexivity].
  apply Bool.andb_true_iff in E. destruct E as [E _]. apply Z.eqb_eq in E. subst j.
  apply Hf.
Qed.

Lemma slot_poke_obj m i f j :
  (forall s, obj (f s) = obj s) -> obj (slot (poke m i f) j) = obj (slot m j).
Proof.
  intros Hf. rewrite slot_poke.
  destruct ((j =? i) && in_table m i) eqn:E; [|reflexivity].
  apply Bool.andb_true_iff in E. destruct E as [E _]. apply Z.eqb_eq in E. subst j.
  apply Hf.
Qed.

Lemma link_node_rest m n :
  head m <> NIL ->
  zlen (table m) <= 4294967296 ->
  in_table m n = true ->
  in_table m (head m) = true ->
  in_table m (prev (slot m (head m))) = true ->
  n <> head m ->
  n <> prev (slot m (head m)) ->
  let m' := ___link_node m n in
  head m' = head m /\
  (forall j, next (slot m' j) =
             if j =? n then head m
             else if j =? prev (slot m (head m)) then n else next (slot m j)) /\
  prev (slot m' (head m)) = n /\
  (forall j, hash (slot m' j) = hash (slot m j) /\ obj (slot m' j) = obj (slot m j)).
Proof.
  intros Hh Hlen Hn Hr Hl Hnr Hnl m'.
  assert (Un : u32 n = n) by (eapply u32_in_table; eassumption).
  assert (Ur : u32 (head m) = head m) by (eapply u32_in_table; eassumption).
  assert (Ul : u32 (prev (slot m (head m))) = prev (slot m (head m)))
    by (eapply u32_in_table; eassumption).
  unfold m', ___link_node.
  replace (head m =? NIL) with false by (symmetry; apply Z.eqb_neq; exact Hh).
  split; [reflexivity|].
  cbn [head poke set_table].
  split; [|split].
  - intros j. rewrite !slot_poke, !in_table_poke.
    repeat (rewrite ?slot_poke, ?in_table_poke, ?Hn, ?Hr, ?Hl, ?Z.eqb_refl;
            cbn [andb next prev set_next set_prev hash obj]).
    replace (head m =? n) with false by (symmetry; apply Z.eqb_neq; congruence).
    cbn [andb next prev set_next set_prev].
    rewrite ?Ul, ?Hl. cbn [andb].
    destruct (Z.eqb_spec j (head m)) as [E1|E1];
      destruct (Z.eqb_spec j n) as [E2|E2];
      destruct (Z.eqb_spec j (prev (slot m (head m)))) as [E3|E3];
      cbn [andb next prev set_next set_prev]; try congruence;
      rewrite ?Hl; cbn [andb next prev set_next set_prev];
      try (destruct (Z.eqb_spec (head m) (prev (slot m (head m)))); try congruence);
      try (destruct (Z.eqb_spec (prev (slot m (head m))) n); try congruence);
      cbn [andb next prev set_next set_prev]; try congruence.
  - rewrite !slot_poke, !in_table_poke.
    repeat (rewrite ?slot_poke, ?in_table_poke, ?Hn, ?Hr, ?Hl, ?Z.eqb_refl;
            cbn [andb next prev set_next set_prev hash obj]).
    exact Un.
  - intros j. rewrite !slot_poke_hash, !slot_poke_obj by (intros; reflexivity).
    split; reflexivity.
Qed.

Lemma link_node_first m n :
  head m = NIL ->
  zlen (table m) <= 4294967296 ->
  in_table m n = true ->
  let m' := ___link_node m n in
  head m' = n /\
  next (slot m' n) = n /\
  prev (slot m' n) = n /\
  (forall j, hash (slot m' j) = hash (slot m j) /\ obj (slot m' j) = obj (slot m j)).
Proof.
  intros Hh Hlen Hn m'.
  assert (Un : u32 n = n) by (eapply u32_in_table; eassumption).
  assert (Hn' : in_table (set_head m n) n = true) by exact Hn.
  unfold m', ___link_node. rewrite Hh, Z.eqb_refl.
  cbn [head set_head poke set_table]. rewrite Un.
  split; [reflexivity|].
  split; [|split].
  - repeat (rewrite ?slot_poke, ?in_table_poke, ?Z.eqb_refl, ?Hn';
            cbn [andb next prev set_next set_prev hash obj]).
    exact Un.
  - repeat (rewrite ?slot_poke, ?in_table_poke, ?Z.eqb_refl, ?Hn';
            cbn [andb next prev set_next set_prev hash obj]).
    rewrite !Un. reflexivity.
  - intros j. rewrite !slot_poke_hash, !slot_poke_obj by (intros; reflexivity).
    split; reflexivity.
Qed.


(** *** A seek in a table of [2^bits] slots that holds no live match *)

Definition no_match_in (m : map_s) (o : couplet_s) (h mask : Z) : Prop :=
  forall i, 0 <= i <= mask ->
            (hash (slot m i) =? h) && negb (next (slot m i) =? NIL)
            && FIO_MAP_OBJ_COMPARE (obj (slot m i)) o = false.

Lemma land_mask_range x bits : 0 <= bits -> 0 <= Z.land x (2 ^ bits - 1) <= 2 ^ bits - 1.
Proof.
  intros Hb. replace (2 ^ bits - 1) with (Z.ones bits)
    by (rewrite Z.ones_equiv; lia).
  rewrite Z.land_ones by exact Hb.
  pose proof (Z.mod_pos_bound x (2 ^ bits)). rewrite Z.ones_equiv. lia.
Qed.

Lemma seek_fresh n :
  forall m0 m o h pk c bits,
    (forall i, slot m i = slot m0 i) ->
    0 <= bits ->
    0 <= pk <= 2 ^ bits - 1 ->
    no_match_in m0 o h (2 ^ bits - 1) ->
    under_attack (snd (fst (seek n m o h pk (2 ^ bits - 1) c))) = 0 ->
    match fst (fst (seek n m o h pk (2 ^ bits - 1) c)) with
    | None => True
    | Some k => 0 <= k <= 2 ^ bits - 1 /\
                (hash (slot m0 k) = FIO_MAP_HASH_INVALID \/ next (slot m0 k) = NIL)
    end.
Proof.
  induction n as [|n IH]; intros m0 m o h pk c bits Hs Hb Hpk Hno Hua; cbn [seek] in *;
    [exact I|].
  rewrite Hs in *.
  destruct (hash (slot m0 pk) =? FIO_MAP_HASH_INVALID) eqn:E0.
  { cbn [fst snd]. split; [exact Hpk|]. left. apply Z.eqb_eq, E0. }
  assert (Hnext : 0 <= Z.land (u64 (pk + FIO_MAP_CUCKOO_STEPS)) (2 ^ bits - 1)
                  <= 2 ^ bits - 1) by (apply land_mask_range, Hb).
  destruct (hash (slot m0 pk) =? h) eqn:Eh; [|apply IH; assumption].
  destruct (next (slot m0 pk) =? NIL) eqn:En.
  { cbn [orb fst snd]. split; [exact Hpk|]. right. apply Z.eqb_eq, En. }
  destruct (under_attack m =? 0) eqn:Eu.
  - pose proof (Hno pk Hpk) as Hm. rewrite Eh, En in Hm. cbn [negb andb] in Hm.
    rewrite Hm in *. cbn [negb orb] in *.
    apply IH; try assumption.
    intros i. rewrite <- Hs.
    destruct (FIO_MAP_MAX_FULL_COLLISIONS <=? u8 (c + 1)); reflexivity.
  - cbn [negb orb fst snd] in *. apply Z.eqb_neq in Eu. contradiction.
Qed.

(** *** The table a rehash builds *)

Lemma link_node_table m n :
  zlen (table (___link_node m n)) = zlen (table m) /\
  (map m <> None -> map (___link_node m n) <> None).
Proof.
  unfold ___link_node. destruct (head m =? NIL).
  - rewrite !table_poke. split; [reflexivity|].
    intros H. apply map_poke_some, map_poke_some. exact H.
  - rewrite !table_poke. split; [reflexivity|].
    intros H. repeat apply map_poke_some. exact H.
Qed.

Lemma chain_ext m m' :
  head m' = head m ->
  (forall j, next (slot m' j) = next (slot m j)) ->
  forall l i, chain m i l -> chain m' i l.
Proof.
  intros Hh Hn. induction l as [|y l IH]; intros i Hc; cbn [chain] in *.
  - rewrite Hn, Hh. exact Hc.
  - destruct Hc as [H1 H2]. split; [rewrite Hn; exact H1|apply IH, H2].
Qed.

Lemma last_snoc (l : list Z) (k d : Z) : last (l ++ [k]) d = k.
Proof. apply last_last. Qed.

(** [d] is the destination of a rehash after the source slots [ss] were
    placed, in that order, at the indices [ks] *)
Definition filled (d : map_s) (bits : Z) (ks : list Z) (ss : list _map_s) : Prop :=
  map d <> None /\
  zlen (table d) = 2 ^ bits /\
  used_bits d = bits /\
  count d = u32 (zlen ks) /\
  NoDup ks /\
  Forall (fun k => in_table d k = true) ks /\
  Forall (fun k => next (slot d k) <> NIL) ks /\
  List.map (fun k => (hash (slot d k), obj (slot d k))) ks
    = List.map (fun s => (hash s, obj s)) ss /\
  (forall i, in_table d i = true -> ~ In i ks -> hash (slot d i) = FIO_MAP_HASH_INVALID) /\
  match ks with
  | [] => head d = NIL
  | k0 :: ks' => head d = k0 /\ chain d k0 ks' /\ prev (slot d k0) = last ks' k0
  end.

Lemma in_table_lt m i bits :
  zlen (table m) = 2 ^ bits -> 0 <= bits < 32 -> in_table m i = true ->
  0 <= i < 2147483648.
Proof.
  unfold in_table. intros Hl Hb Hi. apply Bool.andb_true_iff in Hi.
  destruct Hi as [H0 H1]. apply Z.leb_le in H0. apply Z.ltb_lt in H1.
  rewrite Hl in H1.
  assert (2 ^ bits <= 2 ^ 31) by (apply Z.pow_le_mono_r; lia).
  change (2 ^ 31) with 2147483648 in *. lia.
Qed.

Lemma filled_same_store d d1 bits ks ss :
  same_store d d1 -> filled d bits ks ss -> filled d1 bits ks ss.
Proof.
  intros Hs (F1 & F2 & F3 & F4 & F5 & F6 & F7 & F8 & F9 & F10).
  pose proof Hs as (S1 & S2 & S3 & S4).
  assert (Hsl : forall i, slot d1 i = slot d i) by (intros; apply same_store_slot, Hs).
  assert (Hit : forall i, in_table d1 i = in_table d i)
    by (intros; unfold in_table, table; rewrite S1; reflexivity).
  unfold filled. rewrite S1, S3, S4, S2.
  repeat split; try assumption.
  - unfold table. rewrite S1. exact F2.
  - eapply Forall_impl; [|exact F6]. intros a Ha. rewrite Hit. exact Ha.
  - eapply Forall_impl; [|exact F7]. intros a Ha. rewrite Hsl. exact Ha.
  - rewrite <- F8. apply map_ext. intros a. rewrite Hsl. reflexivity.
  - intros i Hi Hn. rewrite Hsl. apply F9; [rewrite <- Hit; exact Hi|exact Hn].
  - destruct ks as [|k0 ks']; [exact F10|].
    destruct F10 as (G1 & G2 & G3). split; [exact G1|]. split.
    + apply (chain_ext d d1); [exact S2|intros; rewrite Hsl; reflexivity|exact G2].
    + rewrite Hsl. exact G3.
Qed.

(** the body of the loop of [_remap2bits] once the slot is found *)
Definition place (d : map_s) (k : Z) (s : _map_s) : map_s :=
  let d := poke d k (set_hash (hash s)) in
  let d := poke d k (set_obj (obj s)) in
  let d := ___link_node d k in
  set_count d (count d + 1).

Lemma filled_step d bits ks ss s k :
  0 <= bits < 32 ->
  filled d bits ks ss ->
  in_table d k = true ->
  ~ In k ks ->
  filled (place d k s) bits (ks ++ [k]) (ss ++ [s]).
Proof.
  intros Hb (F1 & F2 & F3 & F4 & F5 & F6 & F7 & F8 & F9 & F10) Hk Hnk.
  set (d2 := poke (poke d k (set_hash (hash s))) k (set_obj (obj s))).
  assert (Hlen : zlen (table d) <= 4294967296).
  { rewrite F2. assert (2 ^ bits <= 2 ^ 32) by (apply Z.pow_le_mono_r; lia).
    change (2 ^ 32) with 4294967296 in *. lia. }
  assert (T2 : zlen (table d2) = zlen (table d)) by (unfold d2; rewrite !table_poke; reflexivity).
  assert (I2 : forall i, in_table d2 i = in_table d i)
    by (intros; unfold d2; rewrite !in_table_poke; reflexivity).
  assert (M2 : map d2 <> None) by (unfold d2; apply map_poke_some, map_poke_some, F1).
  assert (N2 : forall j, next (slot d2 j) = next (slot d j)).
  { intros j. unfold d2. rewrite !slot_poke, !in_table_poke, Hk.
    destruct (j =? k) eqn:E; cbn [andb]; [|reflexivity].
    apply Z.eqb_eq in E. subst j. rewrite Z.eqb_refl. reflexivity. }
  assert (P2 : forall j, prev (slot d2 j) = prev (slot d j)).
  { intros j. unfold d2. rewrite !slot_poke, !in_table_poke, Hk.
    destruct (j =? k) eqn:E; cbn [andb]; [|reflexivity].
    apply Z.eqb_eq in E. subst j. rewrite Z.eqb_refl. reflexivity. }
  assert (H2 : forall j, hash (slot d2 j) = (if j =? k then hash s else hash (slot d j)) /\
                         obj (slot d2 j) = (if j =? k then obj s else obj (slot d j))).
  { intros j. unfold d2. rewrite !slot_poke, !in_table_poke, Hk.
    destruct (j =? k) eqn:E; cbn [andb]; [|split; reflexivity].
    apply Z.eqb_eq in E. subst j. rewrite Z.eqb_refl. split; reflexivity. }
  assert (Hd2 : head d2 = head d) by reflexivity.
  assert (C2 : count d2 = count d) by reflexivity.
  assert (U2 : used_bits d2 = used_bits d) by reflexivity.
  set (d3 := ___link_node d2 k).
  assert (T3 : zlen (table d3) = zlen (table d))
    by (unfold d3; rewrite (proj1 (link_node_table d2 k)); exact T2).
  assert (I3 : forall i, in_table d3 i = in_table d i)
    by (intros; unfold in_table; rewrite T3; reflexivity).
  assert (M3 : map d3 <> None) by (apply link_node_table, M2).
  destruct (link_node_flags d2 k) as (_ & _ & U3 & C3). fold d3 in U3, C3.
  assert (Hplace : place d k s = set_count d3 (count d3 + 1)) by reflexivity.
  rewrite Hplace.
  assert (Hk2 : in_table d2 k = true) by (rewrite I2; exact Hk).
  assert (Hcount : u32 (count d3 + 1) = u32 (zlen (ks ++ [k]))).
  { rewrite C3, C2, F4, zlen_app. unfold zlen at 2. cbn [length].
    unfold u32. rewrite Zplus_mod_idemp_l. reflexivity. }
  assert (Hnd : NoDup (ks ++ [k])).
  { apply NoDup_app; [exact F5|constructor; [intros []|constructor]|].
    intros a Ha [E|[]]. subst a. exact (Hnk Ha). }
  assert (Hslots : forall (Hh3 : forall j, hash (slot d3 j) = hash (slot d2 j) /\
                                           obj (slot d3 j) = obj (slot d2 j)),
             List.map (fun k0 => (hash (slot d3 k0), obj (slot d3 k0))) (ks ++ [k])
             = List.map (fun s0 => (hash s0, obj s0)) (ss ++ [s]) /\
             (forall i, in_table d3 i = true -> ~ In i (ks ++ [k]) ->
                        hash (slot d3 i) = FIO_MAP_HASH_INVALID)).
  { intros Hh3. split.
    - rewrite !map_app. cbn [List.map].
      rewrite (proj1 (Hh3 k)), (proj2 (Hh3 k)).
      rewrite (proj1 (H2 k)), (proj2 (H2 k)), !Z.eqb_refl.
      f_equal. rewrite <- F8. apply map_ext_in. intros a Ha.
      rewrite (proj1 (Hh3 a)), (proj2 (Hh3 a)), (proj1 (H2 a)), (proj2 (H2 a)).
      replace (a =? k) with false; [reflexivity|].
      symmetry. apply Z.eqb_neq. intros E. subst a. exact (Hnk Ha).
    - intros i Hi Hni. rewrite (proj1 (Hh3 i)), (proj1 (H2 i)).
      replace (i =? k) with false.
      + apply F9; [rewrite <- I3; exact Hi|].
        intros Hin. apply Hni, in_or_app. left. exact Hin.
      + symmetry. apply Z.eqb_neq. intros E. subst i.
        apply Hni, in_or_app. right. left. reflexivity. }
  assert (Hkr : 0 <= k < 2147483648) by (eapply in_table_lt; eassumption).
  destruct ks as [|k0 ks'].
  - destruct (link_node_first d2 k F10 (eq_ind_r (fun z => z <= _) Hlen T2) Hk2)
      as (L1 & L2 & L3 & L4). fold d3 in L1, L2, L3, L4.
    destruct (Hslots L4) as [Hs1 Hs2].
    unfold filled. cbn [map head count used_bits set_count table app].
    change (slot (set_count d3 (count d3 + 1))) with (slot d3).
    change (in_table (set_count d3 (count d3 + 1))) with (in_table d3).
    change (table (set_count d3 (count d3 + 1))) with (table d3).
    repeat split; try assumption.
    + rewrite T3. exact F2.
    + rewrite U3. exact F3.
    + constructor; [rewrite I3; exact Hk|constructor].
    + constructor; [|constructor]. cbv beta. rewrite L2. unfold NIL. lia.
    + cbn [chain head set_count].
      change (slot (set_count d3 (count d3 + 1)) k) with (slot d3 k).
      rewrite L2. symmetry. exact L1.
  - destruct F10 as (G1 & G2 & G3).
    assert (Hin0 : In k0 (k0 :: ks')) by (left; reflexivity).
    assert (Hlast : In (last ks' k0) (k0 :: ks')) by apply last_in.
    rewrite Forall_forall in F6, F7.
    assert (Hne0 : k <> k0) by (intros E; apply Hnk; subst; exact Hin0).
    assert (Hnel : k <> last ks' k0) by (intros E; apply Hnk; rewrite E; exact Hlast).
    assert (Hhead2 : head d2 <> NIL).
    { rewrite Hd2, G1. pose proof (F6 _ Hin0) as Hi.
      pose proof (in_table_lt _ _ _ F2 Hb Hi). unfold NIL. lia. }
    assert (Hprev2 : prev (slot d2 (head d2)) = last ks' k0)
      by (rewrite Hd2, G1, P2; exact G3).
    destruct (link_node_rest d2 k Hhead2 (eq_ind_r (fun z => z <= _) Hlen T2) Hk2)
      as (L1 & L2 & L3 & L4).
    { rewrite Hd2, G1, I2. apply F6, Hin0. }
    { rewrite Hprev2, I2. apply F6, Hlast. }
    { rewrite Hd2, G1. exact Hne0. }
    { rewrite Hprev2. exact Hnel. }
    fold d3 in L1, L2, L3, L4.
    destruct (Hslots L4) as [Hs1 Hs2].
    unfold filled. cbn [map head count used_bits set_count table].
    change (slot (set_count d3 (count d3 + 1))) with (slot d3).
    change (in_table (set_count d3 (count d3 + 1))) with (in_table d3).
    change (table (set_count d3 (count d3 + 1))) with (table d3).
    repeat split; try assumption.
    + rewrite T3. exact F2.
    + rewrite U3. exact F3.
    + apply Forall_forall. intros a Ha. rewrite I3.
      apply in_app_or in Ha. destruct Ha as [Ha|[Ha|[]]]; [apply F6, Ha|subst a; exact Hk].
    + apply Forall_forall. intros a Ha. rewrite L2.
      destruct (a =? k) eqn:E1.
      * rewrite Hd2, G1. pose proof (in_table_lt _ _ _ F2 Hb (F6 _ Hin0)).
        unfold NIL. lia.
      * destruct (a =? prev (slot d2 (head d2))) eqn:E2; [unfold NIL; lia|].
        rewrite N2. apply in_app_or in Ha. destruct Ha as [Ha|[Ha|[]]].
        -- apply F7, Ha.
        -- subst a. rewrite Z.eqb_refl in E1. discriminate.
    + change ((k0 :: ks') ++ [k]) with (k0 :: (ks' ++ [k])). cbn iota.
      rewrite L1, Hd2. exact G1.
    + change ((k0 :: ks') ++ [k]) with (k0 :: (ks' ++ [k])). cbn iota.
      apply (chain_append d2 (set_count d3 (count d3 + 1)) k).
      * apply (chain_ext d d2); [exact Hd2|exact N2|exact G2].
      * exact F5.
      * exact Hnk.
      * cbn [head set_count]. exact L1.
      * intros j. change (slot (set_count d3 (count d3 + 1)) j) with (slot d3 j).
        rewrite L2, Hprev2. reflexivity.
    + change ((k0 :: ks') ++ [k]) with (k0 :: (ks' ++ [k])). cbn iota.
      rewrite last_snoc. rewrite <- G1, <- Hd2. exact L3.
Qed.

(** no slot of the list has the hash and a key equal to those of a later one *)
Fixpoint distinct (ss : list _map_s) : bool :=
  match ss with
  | [] => true
  | s :: r =>
    forallb (fun s' => negb ((hash s =? hash s') && FIO_MAP_OBJ_COMPARE (obj s) (obj s'))) r
    && distinct r
  end.

Lemma distinct_before ss : forall s r,
  distinct (ss ++ s :: r) = true ->
  forall s', In s' ss -> (hash s' =? hash s) && FIO_MAP_OBJ_COMPARE (obj s') (obj s) = false.
Proof.
  induction ss as [|a ss IH]; intros s r H s' Hin; [destruct Hin|].
  cbn [app distinct] in H. apply Bool.andb_true_iff in H. destruct H as [H1 H2].
  destruct Hin as [E|Hin]; [subst a|exact (IH _ _ H2 _ Hin)].
  rewrite forallb_forall in H1.
  assert (Hs : In s (ss ++ s :: r)) by (apply in_or_app; right; left; reflexivity).
  specialize (H1 s Hs).
  apply Bool.negb_true_iff in H1. exact H1.
Qed.

Lemma valid_hash_nonzero h : valid_hash h <> 0.
Proof.
  unfold valid_hash, FIO_MAP_HASH_INVALID. destruct (h =? 0) eqn:E; [discriminate|].
  apply Z.eqb_neq, E.
Qed.

Lemma valid_hash_id h : h <> 0 -> valid_hash h = h.
Proof.
  intros H. unfold valid_hash, FIO_MAP_HASH_INVALID.
  replace (h =? 0) with false by (symmetry; apply Z.eqb_neq, H). reflexivity.
Qed.

Lemma mask_bits bits : 0 <= bits < 32 -> u64 (Z.shiftl 1 bits - 1) = 2 ^ bits - 1.
Proof.
  intros Hb. rewrite Z.shiftl_mul_pow2, Z.mul_1_l by lia.
  unfold u64. apply Z.mod_small.
  assert (0 < 2 ^ bits) by (apply Z.pow_pos_nonneg; lia).
  assert (2 ^ bits <= 2 ^ 32) by (apply Z.pow_le_mono_r; lia).
  change (2 ^ 32) with 4294967296 in *. lia.
Qed.

Lemma in_table_mask m bits i :
  zlen (table m) = 2 ^ bits -> (in_table m i = true <-> 0 <= i <= 2 ^ bits - 1).
Proof.
  intros Hl. unfold in_table. rewrite Hl, Bool.andb_true_iff, Z.leb_le, Z.ltb_lt. lia.
Qed.

(** the seek in the destination, for a source slot that matches none of the
    slots placed so far, chooses a slot of the table that is not taken *)
Lemma find_settled_fresh dest bits ks ss o h :
  0 <= bits < 32 ->
  filled dest bits ks ss ->
  Forall (fun s => hash s <> 0) ss ->
  h <> 0 ->
  (forall s', In s' ss -> (hash s' =? h) && FIO_MAP_OBJ_COMPARE (obj s') o = false) ->
  under_attack (snd (find_settled dest o h)) = 0 ->
  match fst (find_settled dest o h) with
  | None => True
  | Some k => in_table dest k = true /\ ~ In k ks
  end.
Proof.
  intros Hb Hf Hnz Hh Hdist Hua.
  pose proof Hf as (F1 & F2 & F3 & F4 & F5 & F6 & F7 & F8 & F9 & F10).
  assert (Hslot : forall i, In i ks ->
            exists s', In s' ss /\ hash (slot dest i) = hash s' /\ obj (slot dest i) = obj s').
  { intros i Hi.
    pose proof (in_map (fun k => (hash (slot dest k), obj (slot dest k))) _ _ Hi) as Hin.
    rewrite F8 in Hin. apply in_map_iff in Hin. destruct Hin as (s' & E & Hs').
    exists s'. inversion E as [[E1 E2]]. split; [exact Hs'|]. split; reflexivity. }
  unfold find_settled in *. destruct (map dest) as [t|] eqn:Em; [|congruence].
  rewrite valid_hash_id in * by exact Hh.
  unfold seek_from_key in *. rewrite F3, mask_bits in * by exact Hb.
  match type of Hua with context [seek ?n ?m ?o ?h ?pk ?mask ?c] =>
    pose proof (seek_fresh n m m o h pk c bits (fun _ => eq_refl) (proj1 Hb)
                           (land_mask_range _ _ (proj1 Hb))) as Hfresh;
    destruct (seek n m o h pk mask c) as [[pos m1] c1]
  end.
  cbn [fst snd] in *.
  assert (Hno : no_match_in dest o h (2 ^ bits - 1)).
  { intros i Hi. apply (in_table_mask dest bits i F2) in Hi.
    destruct (in_dec Z.eq_dec i ks) as [Hin|Hin].
    - destruct (Hslot i Hin) as (s' & Hs' & E1 & E2). rewrite E1, E2.
      specialize (Hdist s' Hs'). apply Bool.andb_false_iff in Hdist.
      destruct Hdist as [Hd|Hd]; rewrite Hd; [reflexivity|].
      apply Bool.andb_false_r.
    - rewrite (F9 i Hi Hin).
      replace (FIO_MAP_HASH_INVALID =? h) with false; [reflexivity|].
      symmetry. apply Z.eqb_neq. unfold FIO_MAP_HASH_INVALID. congruence. }
  specialize (Hfresh Hno Hua). destruct pos as [k|]; [|exact I].
  destruct Hfresh as [Hk Hfree]. split; [apply (in_table_mask dest bits k F2), Hk|].
  intros Hin. destruct (Hslot k Hin) as (s' & Hs' & E1 & E2).
  rewrite Forall_forall in Hnz, F7.
  destruct Hfree as [H0|H0].
  - rewrite E1 in H0. exact (Hnz _ Hs' H0).
  - exact (F7 _ Hin H0).
Qed.

Lemma remap_loop_unfold fuel src dest i :
  remap_loop (S fuel) src dest i =
  match find_settled dest (obj (slot src i)) (hash (slot src i)) with
  | (None, _) => Some None
  | (Some k, d1) =>
    if next (slot src i) =? head src then Some (Some (place d1 k (slot src i)))
    else remap_loop fuel src (place d1 k (slot src i)) (next (slot src i))
  end.
Proof.
  cbn [remap_loop].
  destruct (find_settled dest (obj (slot src i)) (hash (slot src i))) as [[k|] d1];
    reflexivity.
Qed.

Lemma place_under_attack d k s : under_attack (place d k s) = under_attack d.
Proof.
  unfold place. cbn [under_attack set_count].
  rewrite (proj1 (link_node_flags _ _)). reflexivity.
Qed.

(** the loop of the rehash, when it ends with the destination not under
    attack, has placed the slots of the source ring, in order *)
Lemma remap_loop_fills fuel :
  forall src dest i ks ss d bits,
    0 <= bits < 32 ->
    filled dest bits ks ss ->
    Forall (fun s => hash s <> 0) ss ->
    Forall (fun s => hash s <> 0) (List.map (slot src) (ring_from fuel src i)) ->
    distinct (ss ++ List.map (slot src) (ring_from fuel src i)) = true ->
    remap_loop fuel src dest i = Some (Some d) ->
    under_attack d = 0 ->
    exists ks', filled d bits (ks ++ ks') (ss ++ List.map (slot src) (ring_from fuel src i)).
Proof.
  induction fuel as [|fuel IH]; intros src dest i ks ss d bits Hb Hf Hnz Hnz' Hd Hr Hua;
    [discriminate|].
  rewrite remap_loop_unfold in Hr. cbn [ring_from List.map] in *.
  set (s := slot src i) in *.
  inversion Hnz' as [|? ? Hs Hrest]; subst.
  pose proof (find_settled_same_store dest (obj s) (hash s)) as Hss.
  pose proof (find_settled_fresh dest bits ks ss (obj s) (hash s) Hb Hf Hnz Hs
                                 (distinct_before _ _ _ Hd)) as Hfresh.
  destruct (find_settled dest (obj s) (hash s)) as [[k|] d1]; [|discriminate].
  cbn [fst snd] in *.
  assert (Hua1 : under_attack d1 = 0).
  { destruct (Z.eq_dec (under_attack d1) 0) as [E|E]; [exact E|exfalso].
    destruct (next s =? head src).
    - inversion Hr; subst d. rewrite place_under_attack in Hua. exact (E Hua).
    - apply (remap_loop_attack _ _ _ _ _ Hr); [|exact Hua].
      rewrite place_under_attack. exact E. }
  destruct (Hfresh Hua1) as [Hk Hnk].
  assert (Hf1 : filled (place d1 k s) bits (ks ++ [k]) (ss ++ [s])).
  { apply filled_step; [exact Hb| | |exact Hnk].
    - apply (filled_same_store dest); assumption.
    - unfold in_table, table in *. rewrite (proj1 Hss). exact Hk. }
  destruct (next s =? head src).
  - inversion Hr; subst d. exists [k]. exact Hf1.
  - destruct (IH src (place d1 k s) (next s) (ks ++ [k]) (ss ++ [s]) d bits Hb Hf1)
      as [ks' Hks']; try assumption.
    + apply Forall_app. split; [exact Hnz|]. constructor; [exact Hs|constructor].
    + rewrite <- app_assoc. exact Hd.
    + exists (k :: ks'). rewrite <- !app_assoc in Hks'. exact Hks'.
Qed.

(** *** Well-formed maps *)

(** some entry of the ring has the hash and a key equal to the one given *)
Definition ring_match (m : map_s) (o : couplet_s) (h : Z) : bool :=
  existsb (fun i => (hash (slot m i) =? valid_hash h)
                    && FIO_MAP_OBJ_COMPARE (obj (slot m i)) o)
          (ring m).

(** The invariants of the data model, as a test: the table has [2^used_bits]
    slots, [used_bits] being below 32; the ring closes and [count] is its
    length; the entries of the ring have a valid hash and no two of them the
    same hash and equal keys; every other slot is empty or a hole. *)
Definition well_formed (m : map_s) : bool :=
  match map m with
  | None => true
  | Some t =>
    (0 <=? used_bits m) && (used_bits m <? 32) && (zlen t =? 2 ^ used_bits m)
    && (count m =? zlen (ring m))
    && ((head m =? NIL) || walk_returns (length t) m (head m))
    && forallb (fun i => negb (hash (slot m i) =? 0)) (ring m)
    && forallb (fun i => existsb (Z.eqb i) (ring m) || (hash (slot m i) =? 0)
                         || (next (slot m i) =? NIL))
               (List.map Z.of_nat (seq 0 (length t)))
    && distinct (List.map (slot m) (ring m))
  end.

Lemma walk_returns_S fuel :
  forall m i, walk_returns fuel m i = true -> walk_returns (S fuel) m i = true.
Proof.
  induction fuel as [|fuel IH]; intros m i H; [discriminate|].
  cbn [walk_returns] in H. change (walk_returns (S (S fuel)) m i)
    with ((next (slot m i) =? head m) || walk_returns (S fuel) m (next (slot m i))).
  destruct (next (slot m i) =? head m); [reflexivity|]. cbn [orb] in *. apply IH, H.
Qed.

Lemma ring_from_eq fuel m i :
  ring_from (S fuel) m i =
  i :: (if next (slot m i) =? head m then [] else ring_from fuel m (next (slot m i))).
Proof. reflexivity. Qed.

Lemma ring_from_S fuel :
  forall m i, walk_returns fuel m i = true -> ring_from (S fuel) m i = ring_from fuel m i.
Proof.
  induction fuel as [|fuel IH]; intros m i H; [discriminate|].
  cbn [walk_returns] in H.
  rewrite (ring_from_eq (S fuel) m i), (ring_from_eq fuel m i).
  destruct (next (slot m i) =? head m); [reflexivity|].
  cbn [orb] in H. rewrite (IH _ _ H). reflexivity.
Qed.

Lemma ring_from_length fuel : forall m i, (length (ring_from fuel m i) <= fuel)%nat.
Proof.
  induction fuel as [|fuel IH]; intros m i; cbn [ring_from length]; [lia|].
  destruct (next (slot m i) =? head m); cbn [length]; [lia|].
  specialize (IH m (next (slot m i))). lia.
Qed.

Lemma zget_zrepeat {A} (d x : A) n i : 0 <= i < n -> zget d (zrepeat x n) i = x.
Proof.
  intros Hi. unfold zget, zrepeat.
  replace (i <? 0) with false by (symmetry; apply Z.ltb_ge; lia).
  apply nth_repeat_lt. lia.
Qed.

Lemma filled_init n bits ua :
  0 <= bits < 32 ->
  n = 2 ^ bits ->
  calloc_fails n = false ->
  filled (mk_map (calloc_table n) NIL 0 bits 0 ua) bits [] [].
Proof.
  intros Hb Hn Hc. unfold calloc_table. rewrite Hc.
  assert (Hpos : 0 <= n) by (subst n; apply Z.pow_nonneg; lia).
  unfold filled. cbn [map head count used_bits table].
  repeat split; try (constructor; fail); try reflexivity.
  - discriminate.
  - rewrite zlen_zrepeat by exact Hpos. exact Hn.
  - intros i Hi _. unfold slot, table, in_table, table in *. cbn [map] in *.
    rewrite zlen_zrepeat in Hi by exact Hpos.
    apply Bool.andb_true_iff in Hi. destruct Hi as [H0 H1].
    apply Z.leb_le in H0. apply Z.ltb_lt in H1.
    rewrite zget_zrepeat by lia. reflexivity.
Qed.

Lemma filled_ring d bits ks ss :
  0 <= bits < 32 ->
  filled d bits ks ss ->
  (length ks <= length (table d))%nat ->
  ring d = ks.
Proof.
  intros Hb (F1 & F2 & F3 & F4 & F5 & F6 & F7 & F8 & F9 & F10) Hlen. unfold ring.
  destruct ks as [|k0 ks']; [rewrite F10; reflexivity|].
  destruct F10 as (G1 & G2 & G3).
  rewrite Forall_forall in F6.
  pose proof (in_table_lt _ _ _ F2 Hb (F6 k0 (or_introl eq_refl))) as Hk0.
  replace (head d =? NIL) with false
    by (symmetry; apply Z.eqb_neq; rewrite G1; unfold NIL; lia).
  rewrite G1. apply chain_ring_from; [exact G2| |cbn [length] in Hlen; lia].
  rewrite G1. inversion F5; assumption.
Qed.

Lemma seek_miss_content a o h bits :
  0 <= bits < 32 ->
  used_bits a = bits ->
  no_match_in a o h (2 ^ bits - 1) ->
  under_attack (snd (fst (seek_from_key a o h))) = 0 ->
  nothing_to_remove (snd (fst (seek_from_key a o h))) (fst (fst (seek_from_key a o h)))
  = true /\
  same_store a (snd (fst (seek_from_key a o h))).
Proof.
  intros Hb Hu Hno Hua. unfold seek_from_key in *. rewrite Hu, mask_bits in * by exact Hb.
  match type of Hua with context [seek ?n ?m ?o ?h ?pk ?mask ?c] =>
    pose proof (seek_fresh n m m o h pk c bits (fun _ => eq_refl) (proj1 Hb)
                           (land_mask_range _ _ (proj1 Hb)) Hno Hua) as Hfresh;
    pose proof (seek_same_store n m o h pk mask c) as Hs;
    destruct (seek n m o h pk mask c) as [[pos m1] c1]
  end.
  cbn [fst snd] in *. split; [|exact Hs].
  destruct pos as [k|]; [|reflexivity].
  cbn [nothing_to_remove]. rewrite (same_store_slot _ _ _ Hs).
  destruct Hfresh as [_ [H0|H0]]; rewrite H0.
  - reflexivity.
  - rewrite Z.eqb_refl. apply Bool.orb_true_r.
Qed.

Lemma filled_no_match d bits ks ss o h :
  filled d bits ks ss ->
  h <> 0 ->
  (forall s', In s' ss -> (hash s' =? h) && FIO_MAP_OBJ_COMPARE (obj s') o = false) ->
  no_match_in d o h (2 ^ bits - 1).
Proof.
  intros (F1 & F2 & F3 & F4 & F5 & F6 & F7 & F8 & F9 & F10) Hh Hdist i Hi.
  apply (in_table_mask d bits i F2) in Hi.
  destruct (in_dec Z.eq_dec i ks) as [Hin|Hin].
  - pose proof (in_map (fun k => (hash (slot d k), obj (slot d k))) _ _ Hin) as Hm.
    rewrite F8 in Hm. apply in_map_iff in Hm. destruct Hm as (s' & E & Hs').
    inversion E as [[E1 E2]].
    specialize (Hdist s' Hs'). apply Bool.andb_false_iff in Hdist.
    destruct Hdist as [Hd|Hd]; rewrite Hd; [reflexivity|].
    apply Bool.andb_false_r.
  - rewrite (F9 i Hi Hin).
    replace (FIO_MAP_HASH_INVALID =? h) with false; [reflexivity|].
    symmetry. apply Z.eqb_neq. unfold FIO_MAP_HASH_INVALID. congruence.
Qed.

Lemma ring_match_false m o h :
  ring_match m o h = false ->
  forall i, In i (ring m) ->
            (hash (slot m i) =? valid_hash h) && FIO_MAP_OBJ_COMPARE (obj (slot m i)) o
            = false.
Proof.
  unfold ring_match. intros H i Hi.
  apply Bool.not_true_iff_false. intros Ht.
  apply Bool.not_true_iff_false in H. apply H.
  apply existsb_exists. exists i. split; assumption.
Qed.

Lemma wf_no_match m t o h :
  map m = Some t ->
  well_formed m = true ->
  ring_match m o h = false ->
  no_match_in m o (valid_hash h) (2 ^ used_bits m - 1).
Proof.
  intros Em Hwf Hrm i Hi. unfold well_formed in Hwf. rewrite Em in Hwf.
  repeat (apply Bool.andb_true_iff in Hwf; destruct Hwf as [Hwf ?]).
  match goal with H : forallb _ (List.map Z.of_nat _) = true |- _ =>
    rewrite forallb_forall in H; specialize (H i) end.
  match goal with H : (zlen t =? _) = true |- _ => apply Z.eqb_eq in H; rename H into Hlen end.
  match goal with H : In i _ -> _ |- _ => rename H into Hall end.
  assert (Hin : In i (List.map Z.of_nat (seq 0 (length t)))).
  { apply in_map_iff. exists (Z.to_nat i). split; [lia|].
    apply in_seq. unfold zlen in Hlen. lia. }
  specialize (Hall Hin).
  apply Bool.orb_true_iff in Hall. destruct Hall as [Hall|Hall];
    [apply Bool.orb_true_iff in Hall; destruct Hall as [Hall|Hall]|].
  - apply existsb_exists in Hall. destruct Hall as (j & Hj & E).
    apply Z.eqb_eq in E. subst j.
    pose proof (ring_match_false m o h Hrm i Hj) as Hf.
    apply Bool.andb_false_iff in Hf. destruct Hf as [Hf|Hf]; rewrite Hf;
      [reflexivity|apply Bool.andb_false_r].
  - apply Z.eqb_eq in Hall. rewrite Hall.
    replace (0 =? valid_hash h) with false; [reflexivity|].
    symmetry. apply Z.eqb_neq. pose proof (valid_hash_nonzero h). congruence.
  - rewrite Hall. cbn [negb]. rewrite Bool.andb_false_r. reflexivity.
Qed.

Lemma table_size_bits bits :
  0 <= bits < 32 -> u32 (Z.shiftl 1 (Z.land bits 31)) = 2 ^ bits.
Proof.
  intros Hb. change 31 with (Z.ones 5). rewrite Z.land_ones by lia.
  change (2 ^ 5) with 32. rewrite Z.mod_small by lia.
  rewrite Z.shiftl_mul_pow2, Z.mul_1_l by lia.
  unfold u32. apply Z.mod_small.
  assert (0 < 2 ^ bits) by (apply Z.pow_pos_nonneg; lia).
  assert (2 ^ bits < 2 ^ 32) by (apply Z.pow_lt_mono_r; lia).
  change (2 ^ 32) with 4294967296 in *. lia.
Qed.

(** a rehash of a well-formed map into a table of the same size either fails
    and leaves the map, or, when the map it leaves is not under attack, has
    placed the entries of the ring in their order *)
Lemma remap_content m t r d :
  map m = Some t ->
  well_formed m = true ->
  calloc_fails (2 ^ used_bits m) = false ->
  _remap2bits m (used_bits m) = Some (r, d) ->
  under_attack d = 0 ->
  (r = -1 /\ d = m) \/
  (exists ks, filled d (used_bits m) ks (List.map (slot m) (ring m))).
Proof.
  intros Em Hwf Hcalloc Hr Hua. unfold well_formed in Hwf. rewrite Em in Hwf.
  repeat (apply Bool.andb_true_iff in Hwf; destruct Hwf as [Hwf ?]).
  apply Z.leb_le in Hwf.
  match goal with H : (used_bits m <? 32) = true |- _ => apply Z.ltb_lt in H end.
  assert (Hb : 0 <= used_bits m < 32) by lia.
  unfold _remap2bits in Hr. rewrite Em in Hr. cbn [orb] in Hr.
  rewrite table_size_bits in Hr by exact Hb.
  pose proof (filled_init (2 ^ used_bits m) (used_bits m) (under_attack m) Hb eq_refl
                          Hcalloc) as Hinit.
  unfold ring in *.
  destruct (head m =? NIL) eqn:Eh.
  - inversion Hr; subst. right. exists []. exact Hinit.
  - cbn [orb] in *. unfold table in *. rewrite Em in *.
    match goal with H : walk_returns _ _ _ = true |- _ => rename H into Hwalk end.
    pose proof (ring_from_S _ _ _ Hwalk) as HS.
    match type of Hr with context [remap_loop ?f ?s ?dd ?i] =>
      destruct (remap_loop f s dd i) as [[d0|]|] eqn:El; cbn [bind] in Hr;
        inversion Hr; subst
    end.
    + right. apply (remap_loop_fills _ m _ (head m) [] [] d (used_bits m) Hb Hinit)
        in El; try assumption.
      * cbn [app] in El. rewrite HS in El. exact El.
      * constructor.
      * rewrite HS. apply Forall_forall. intros s Hs.
        apply in_map_iff in Hs. destruct Hs as (i & E & Hi). subst s.
        match goal with H : forallb _ (ring_from _ _ _) = true |- _ =>
          rewrite forallb_forall in H; specialize (H i Hi);
            apply Bool.negb_true_iff, Z.eqb_neq in H; exact H end.
      * cbn [app]. rewrite HS. assumption.
    + left. split; reflexivity.
Qed.

Lemma wf_ring_closes m : well_formed m = true -> ring_closes m = true.
Proof.
  unfold well_formed, ring_closes. destruct (map m) as [t|]; [|reflexivity].
  intros Hwf. repeat (apply Bool.andb_true_iff in Hwf; destruct Hwf as [Hwf ?]).
  match goal with H : (_ =? NIL) || _ = true |- _ =>
    apply Bool.orb_true_iff in H; destruct H as [H|H]; [rewrite H; reflexivity|] end.
  match goal with H : walk_returns _ _ _ = true |- _ =>
    rewrite (walk_returns_S _ _ _ H) end.
  apply Bool.orb_true_r.
Qed.

Lemma seek_result_pair a o h :
  (let '(pos, m, _) := seek_from_key a o h in (pos, m))
  = (fst (fst (seek_from_key a o h)), snd (fst (seek_from_key a o h))).
Proof. destruct (seek_from_key a o h) as [[pos m1] c]. reflexivity. Qed.

Lemma miss_after a m o h bits :
  0 <= bits < 32 ->
  used_bits a = bits ->
  no_match_in a o h (2 ^ bits - 1) ->
  count a = count m ->
  entries a = entries m ->
  under_attack (snd (fst (seek_from_key a o h))) = 0 ->
  nothing_to_remove (snd (fst (seek_from_key a o h))) (fst (fst (seek_from_key a o h)))
  = true /\
  count (snd (fst (seek_from_key a o h))) = count m /\
  entries (snd (fst (seek_from_key a o h))) = entries m.
Proof.
  intros Hb Hu Hno Hc He Hua.
  destruct (seek_miss_content a o h bits Hb Hu Hno Hua) as [Hn Hs].
  split; [exact Hn|].
  rewrite (entries_same_store _ _ Hs). destruct Hs as (_ & _ & Hc' & _).
  rewrite Hc'. split; assumption.
Qed.

Lemma filled_entries d bits ks ss :
  filled d bits ks ss ->
  List.map (fun k => couplet_of (slot d k)) ks = List.map couplet_of ss.
Proof.
  intros (_ & _ & _ & _ & _ & _ & _ & F8 & _).
  apply (f_equal (List.map (fun p : Z * couplet_s => (key (snd p), value (snd p))))) in F8.
  rewrite !map_map in F8. exact F8.
Qed.

Lemma wf_bits m t :
  map m = Some t -> well_formed m = true ->
  0 <= used_bits m < 32 /\ zlen t = 2 ^ used_bits m /\ count m = zlen (ring m).
Proof.
  intros Em Hwf. unfold well_formed in Hwf. rewrite Em in Hwf.
  repeat (apply Bool.andb_true_iff in Hwf; destruct Hwf as [Hwf ?]).
  apply Z.leb_le in Hwf.
  repeat match goal with
         | H : (_ <? _) = true |- _ => apply Z.ltb_lt in H
         | H : (_ =? _) = true |- _ => apply Z.eqb_eq in H
         end.
  repeat split; assumption.
Qed.

Lemma ring_length m : (length (ring m) <= length (table m))%nat.
Proof.
  unfold ring. destruct (head m =? NIL); [cbn [length]; lia|apply ring_from_length].
Qed.

(** the seek of [_find_map_pos] for a key that is not in a well-formed map:
    whatever the rehash did, the slot chosen is not a live one and the count
    and the entries are those of the map *)
Lemma find_miss_content (m : map_s) (t : list _map_s) (o : couplet_s) (h : Z) :
  map m = Some t ->
  well_formed m = true ->
  calloc_fails (2 ^ used_bits m) = false ->
  ring_match m o h = false ->
  (forall pos m1, _find_map_pos m o (valid_hash h) = Some (pos, m1) ->
                  under_attack m1 = 0) ->
  exists pos m1,
    _find_map_pos m o (valid_hash h) = Some (pos, m1) /\
    nothing_to_remove m1 pos = true /\
    count m1 = count m /\
    entries m1 = entries m.
Proof.
  intros Em Hwf Hcalloc Hrm Hua.
  destruct (wf_bits m t Em Hwf) as (Hb & Hlen & Hcount).
  pose proof (wf_no_match m t o h Em Hwf Hrm) as Hno.
  assert (Hseek : forall a r,
             (if negb FIO_MAP_OBJ_COMPARE_SIMPLE && negb (Z.land (has_collisions m) 2 =? 0)
              then '(_, m0) <- _remap2bits m (used_bits m) ;; Some m0
              else Some m) = Some a ->
             r = seek_from_key a o (valid_hash h) ->
             _find_map_pos m o (valid_hash h) = Some (fst (fst r), snd (fst r))).
  { intros a r Ha Hr. unfold _find_map_pos. rewrite Em, Ha. cbn [bind].
    rewrite valid_hash_idem, seek_result_pair. subst r. reflexivity. }
  destruct (negb FIO_MAP_OBJ_COMPARE_SIMPLE && negb (Z.land (has_collisions m) 2 =? 0)).
  - destruct (remap2bits_returns m (used_bits m) (wf_ring_closes m Hwf)) as [[r d] Hr].
    rewrite Hr in Hseek. cbn [bind] in Hseek.
    specialize (Hseek d _ eq_refl eq_refl).
    pose proof (Hua _ _ Hseek) as Hua1.
    assert (Huad : under_attack d = 0).
    { destruct (Z.eq_dec (under_attack d) 0) as [E|E]; [exact E|exfalso].
      unfold seek_from_key in Hua1. rewrite seek_attack_same_map in Hua1 by exact E.
      exact (E Hua1). }
    exists (fst (fst (seek_from_key d o (valid_hash h)))),
           (snd (fst (seek_from_key d o (valid_hash h)))).
    split; [exact Hseek|].
    destruct (remap_content m t r d Em Hwf Hcalloc Hr Huad) as [[_ Ed]|[ks Hf]].
    + subst d. apply (miss_after m m o (valid_hash h) (used_bits m)); auto.
    + pose proof Hf as (F1 & F2 & F3 & F4 & F5 & F6 & F7 & F8 & F9 & F10).
      assert (Hlk : length ks = length (ring m)).
      { apply (f_equal (@length _)) in F8. rewrite !length_map in F8. exact F8. }
      pose proof (ring_length m) as Hrl. unfold table in Hrl. rewrite Em in Hrl.
      assert (Htd : length (table d) = length t).
      { unfold zlen in F2, Hlen. lia. }
      apply (miss_after d m o (valid_hash h) (used_bits m)); auto.
      * apply (filled_no_match d _ ks _ o (valid_hash h) Hf (valid_hash_nonzero h)).
        intros s' Hs'. apply in_map_iff in Hs'. destruct Hs' as (i & E & Hi). subst s'.
        apply (ring_match_false m o h Hrm i Hi).
      * rewrite F4, Hcount. unfold zlen. rewrite Hlk. unfold u32.
        apply Z.mod_small. unfold zlen in Hlen.
        assert (2 ^ used_bits m < 2 ^ 32) by (apply Z.pow_lt_mono_r; lia).
        change (2 ^ 32) with 4294967296 in *. lia.
      * rewrite !entries_ring, Em.
        destruct (map d) eqn:Ed; [|congruence].
        rewrite (filled_ring d _ ks _ Hb Hf) by lia.
        rewrite (filled_entries _ _ _ _ Hf), map_map. reflexivity.
  - specialize (Hseek m _ eq_refl eq_refl).
    pose proof (Hua _ _ Hseek) as Hua1.
    exists (fst (fst (seek_from_key m o (valid_hash h)))),
           (snd (fst (seek_from_key m o (valid_hash h)))).
    split; [exact Hseek|].
    apply (miss_after m m o (valid_hash h) (used_bits m)); auto.
Qed.

(** C9, as amended.  On a well-formed map, when no entry of the ring has the
    hash and a key equal to the one given, and the map is not under attack
    once the seek of [_find_map_pos] is over (the allocation of its rehash,
    if one is pending, succeeding), [_remove] returns -1 and writes the
    invalid value to [old]; the count and the entries the ring gives, in
    their order, are what they were. *)
Theorem remove_miss_keeps_content (m : map_s) (o : couplet_s) (h : Z) :
  well_formed m = true ->
  calloc_fails (2 ^ used_bits m) = false ->
  ring_match m o h = false ->
  (forall pos m1, _find_map_pos m o (valid_hash h) = Some (pos, m1) ->
                  under_attack m1 = 0) ->
  exists m1,
    _remove m o h = Some (m1, -1, FIO_MAP_TYPE_INVALID) /\
    count m1 = count m /\
    entries m1 = entries m.
Proof.
  intros Hwf Hcalloc Hrm Hua. unfold _remove.
  destruct (map m) as [t|] eqn:Em.
  - destruct (find_miss_content m t o h Em Hwf Hcalloc Hrm Hua)
      as (pos & m1 & Hf & Hn & Hc & He).
    rewrite Hf. cbn [bind]. exists m1. rewrite Hn.
    destruct pos; split; try reflexivity; split; assumption.
  - unfold _find_map_pos. rewrite Em. cbn [bind]. exists m.
    repeat split; reflexivity.
Qed.

(** *** Maps built by insertions *)

Lemma filled_length d bits ks ss :
  filled d bits ks ss -> (length ks <= length (table d))%nat.
Proof.
  intros (F1 & F2 & F3 & F4 & F5 & F6 & _).
  replace (length (table d))
    with (length (List.map Z.of_nat (seq 0 (length (table d)))))
    by (rewrite length_map, length_seq; reflexivity).
  apply NoDup_incl_length; [exact F5|].
  intros k Hk. rewrite Forall_forall in F6. specialize (F6 k Hk).
  unfold in_table in F6. apply Bool.andb_true_iff in F6. destruct F6 as [H0 H1].
  apply Z.leb_le in H0. apply Z.ltb_lt in H1.
  apply in_map_iff. exists (Z.to_nat k). split; [lia|].
  apply in_seq. unfold zlen in H1. lia.
Qed.

Lemma chain_walk m l :
  forall i fuel, chain m i l -> (length l < fuel)%nat -> walk_returns fuel m i = true.
Proof.
  induction l as [|y l IH]; intros i fuel Hc Hf;
    (destruct fuel as [|fuel]; [cbn [length] in Hf; lia|]); cbn [walk_returns chain] in *.
  - rewrite Hc, Z.eqb_refl. reflexivity.
  - destruct Hc as [Hn Hc]. rewrite Hn. rewrite (IH y fuel Hc); [|cbn [length] in Hf; lia].
    apply Bool.orb_true_r.
Qed.

Lemma filled_ring_closes d bits ks ss :
  filled d bits ks ss -> ring_closes d = true.
Proof.
  intros Hf. pose proof (filled_length _ _ _ _ Hf) as Hlen.
  destruct Hf as (F1 & F2 & F3 & F4 & F5 & F6 & F7 & F8 & F9 & F10).
  unfold ring_closes. unfold table in Hlen. destruct (map d) as [t|]; [|reflexivity].
  destruct ks as [|k0 ks']; [rewrite F10; reflexivity|].
  destruct F10 as (G1 & G2 & G3). rewrite G1.
  rewrite (chain_walk d ks' k0 (S (length t)) G2); [apply Bool.orb_true_r|].
  cbn [length] in Hlen. lia.
Qed.

Lemma filled_ring_all d bits ks ss :
  0 <= bits < 32 -> filled d bits ks ss -> ring d = ks.
Proof.
  intros Hb Hf. apply (filled_ring d bits ks ss Hb Hf). apply (filled_length _ _ _ _ Hf).
Qed.

Lemma filled_content d bits ks ss :
  0 <= bits < 32 -> filled d bits ks ss ->
  entries d = List.map couplet_of ss /\ count d = u32 (zlen ss).
Proof.
  intros Hb Hf. split.
  - rewrite entries_ring, (filled_ring_all d bits ks ss Hb Hf).
    pose proof (filled_entries d bits ks ss Hf) as He.
    destruct Hf as (F1 & _). destruct (map d); [exact He|congruence].
  - destruct Hf as (_ & _ & _ & F4 & _ & _ & _ & F8 & _).
    rewrite F4. f_equal. apply (f_equal (@length _)) in F8.
    rewrite !length_map in F8. unfold zlen. lia.
Qed.

(** [filled] looks at the hash and the object of the slots only *)
Lemma filled_retag d bits ks ss ss' :
  List.map (fun s => (hash s, obj s)) ss = List.map (fun s => (hash s, obj s)) ss' ->
  filled d bits ks ss -> filled d bits ks ss'.
Proof.
  intros E (F1 & F2 & F3 & F4 & F5 & F6 & F7 & F8 & F9 & F10).
  unfold filled. rewrite <- E. repeat split; assumption.
Qed.

Lemma distinct_retag (ss : list _map_s) :
  forall ss',
    List.map (fun s => (hash s, obj s)) ss = List.map (fun s => (hash s, obj s)) ss' ->
    distinct ss = distinct ss'.
Proof.
  induction ss as [|s ss IH]; intros [|s' ss'] E; try discriminate; [reflexivity|].
  cbn [List.map] in E. inversion E as [[E1 E2 E3]]. cbn [distinct].
  rewrite (IH ss' E3). f_equal. rewrite E1, E2. clear -E3.
  revert ss' E3. induction ss as [|a ss IH]; intros [|a' ss'] E; try discriminate;
    [reflexivity|].
  cbn [List.map] in E. inversion E as [[E1 E2 E3]]. cbn [forallb].
  rewrite E1, E2, (IH ss' E3). reflexivity.
Qed.

Lemma nonzero_retag (ss ss' : list _map_s) :
  List.map (fun s => (hash s, obj s)) ss = List.map (fun s => (hash s, obj s)) ss' ->
  Forall (fun s => hash s <> 0) ss -> Forall (fun s => hash s <> 0) ss'.
Proof.
  revert ss'. induction ss as [|s ss IH]; intros [|s' ss'] E H; try discriminate;
    [constructor|].
  cbn [List.map] in E. inversion E as [[E1 E2 E3]]. inversion H; subst.
  constructor; [rewrite <- E1; assumption|apply IH; assumption].
Qed.

Lemma filled_slots d bits ks ss :
  filled d bits ks ss ->
  List.map (fun s => (hash s, obj s)) (List.map (slot d) ks)
  = List.map (fun s => (hash s, obj s)) ss.
Proof.
  intros (_ & _ & _ & _ & _ & _ & _ & F8 & _). rewrite map_map. exact F8.
Qed.

(** A rehash of a map built by insertions, into a table of [2 ^ bits']
    slots: it returns, and either it failed and left the map as it was, or
    the map it leaves holds the same entries in the same order. *)
Lemma rehash_filled m bits ks ss bits' :
  0 <= bits < 32 -> filled m bits ks ss ->
  Forall (fun s => hash s <> 0) ss -> distinct ss = true ->
  0 <= bits' < 32 -> calloc_fails (2 ^ bits') = false ->
  exists r d,
    _remap2bits m bits' = Some (r, d) /\
    (under_attack m <> 0 -> under_attack d <> 0) /\
    (under_attack d = 0 -> d = m \/ exists ks', filled d bits' ks' ss).
Proof.
  intros Hb Hf Hnz Hd Hb' Hcalloc.
  destruct (remap2bits_returns m bits' (filled_ring_closes _ _ _ _ Hf)) as ([r d] & Hr).
  exists r, d. split; [exact Hr|]. split; [apply (remap2bits_attack _ _ _ _ Hr)|].
  intros Hua.
  pose proof (filled_length _ _ _ _ Hf) as Hlen.
  pose proof (filled_slots _ _ _ _ Hf) as Hslots.
  pose proof Hf as (F1 & F2 & F3 & F4 & F5 & F6 & F7 & F8 & F9 & F10).
  unfold _remap2bits in Hr. rewrite table_size_bits in Hr by exact Hb'.
  pose proof (filled_init (2 ^ bits') bits' (under_attack m) Hb' eq_refl Hcalloc) as Hinit.
  destruct (map m) as [t|] eqn:Em; [|congruence]. cbn [orb] in Hr.
  destruct ks as [|k0 ks'].
  - rewrite F10, Z.eqb_refl in Hr. inversion Hr; subst. right. exists [].
    destruct ss; [exact Hinit|discriminate].
  - destruct F10 as (G1 & G2 & G3).
    rewrite Forall_forall in F6.
    pose proof (in_table_lt _ _ _ F2 Hb (F6 k0 (or_introl eq_refl))) as Hk0.
    replace (head m =? NIL) with false in Hr
      by (symmetry; apply Z.eqb_neq; rewrite G1; unfold NIL; lia).
    assert (Hring : ring_from (S (length (table m))) m (head m) = k0 :: ks').
    { rewrite G1. apply chain_ring_from; [exact G2| |cbn [length] in Hlen; lia].
      rewrite G1. inversion F5; assumption. }
    set (dest0 := mk_map (calloc_table (2 ^ bits')) NIL 0 bits' 0 (under_attack m)) in *.
    assert (Hnz' : Forall (fun s => hash s <> 0)
                     (List.map (slot m) (ring_from (S (length (table m))) m (head m)))).
    { rewrite Hring. apply (nonzero_retag ss); [symmetry; exact Hslots|exact Hnz]. }
    assert (Hd' : distinct ([] ++ List.map (slot m)
                     (ring_from (S (length (table m))) m (head m))) = true).
    { rewrite Hring. cbn [app]. rewrite (distinct_retag _ ss Hslots). exact Hd. }
    destruct (remap_loop (S (length (table m))) m dest0 (head m)) as [[d'|]|] eqn:El;
      cbn [bind] in Hr; [| |discriminate].
    + assert (d' = d) by congruence. subst d'. right.
      destruct (remap_loop_fills _ _ _ _ [] [] d bits' Hb' Hinit (Forall_nil _)
                                 Hnz' Hd' El Hua) as (ks2 & Hfill).
      exists ks2. cbn [app] in Hfill. rewrite Hring in Hfill.
      apply (filled_retag _ _ _ _ _ Hslots Hfill).
    + left. congruence.
Qed.

(** no rehash is pending: bit 1 of [has_collisions], which only a removal
    sets, is clear *)
Definition settled (m : map_s) : Prop := Z.land (has_collisions m) 2 = 0.

Lemma land2_lor1 (x : Z) : Z.land (u8 (Z.lor x 1)) 2 = Z.land x 2.
Proof.
  apply Z.bits_inj'. intros n Hn. rewrite !Z.land_spec.
  destruct (Z.eq_dec n 1) as [->|Hne].
  - unfold u8. change 256 with (2 ^ 8). rewrite Z.testbit_mod_pow2 by lia.
    rewrite Z.lor_spec. change (Z.testbit 1 1) with false.
    rewrite Bool.orb_false_r. reflexivity.
  - assert (T : Z.testbit 2 n = false)
      by (change 2 with (2 ^ 1); apply Z.pow2_bits_false; lia).
    rewrite T, !Bool.andb_false_r. reflexivity.
Qed.

Lemma seek_settled n :
  forall m o h pk mask c,
    Z.land (has_collisions (snd (fst (seek n m o h pk mask c)))) 2
    = Z.land (has_collisions m) 2.
Proof.
  induction n as [|n IH]; intros m o h pk mask c; cbn [seek]; [reflexivity|].
  destruct (hash (slot m pk) =? FIO_MAP_HASH_INVALID); [reflexivity|].
  destruct (hash (slot m pk) =? h); [|apply IH].
  destruct ((next (slot m pk) =? NIL) || negb (under_attack m =? 0)
            || FIO_MAP_OBJ_COMPARE (obj (slot m pk)) o); [reflexivity|].
  rewrite IH.
  destruct (FIO_MAP_MAX_FULL_COLLISIONS <=? u8 (c + 1));
    cbn [has_collisions set_under_attack set_has_collisions]; apply land2_lor1.
Qed.

Lemma find_settled_settled m o h :
  Z.land (has_collisions (snd (find_settled m o h))) 2 = Z.land (has_collisions m) 2.
Proof.
  unfold find_settled. destruct (map m); [|reflexivity].
  unfold seek_from_key.
  match goal with |- context [seek ?n ?m ?o ?h ?pk ?mask ?c] =>
    pose proof (seek_settled n m o h pk mask c) as E;
    destruct (seek n m o h pk mask c) as [[pos m1] c1] end.
  exact E.
Qed.

Lemma place_has_collisions d k s : has_collisions (place d k s) = has_collisions d.
Proof.
  unfold place. cbn [has_collisions set_count].
  rewrite (proj1 (proj2 (link_node_flags _ _))). reflexivity.
Qed.

Lemma remap_loop_settled fuel :
  forall src dest i d,
    remap_loop fuel src dest i = Some (Some d) -> settled dest -> settled d.
Proof.
  induction fuel as [|fuel IH]; intros src dest i d H Hs; [discriminate|].
  rewrite remap_loop_unfold in H.
  pose proof (find_settled_settled dest (obj (slot src i)) (hash (slot src i))) as E.
  destruct (find_settled dest (obj (slot src i)) (hash (slot src i))) as [[k|] d1];
    [|discriminate].
  cbn [snd] in E.
  assert (Hp : settled (place d1 k (slot src i))).
  { unfold settled in *. rewrite place_has_collisions, E. exact Hs. }
  destruct (next (slot src i) =? head src).
  - inversion H; subst d. exact Hp.
  - apply (IH _ _ _ _ H Hp).
Qed.

Lemma remap2bits_settled m bits r d :
  _remap2bits m bits = Some (r, d) -> settled m -> settled d.
Proof.
  unfold _remap2bits. intros H Hs.
  match type of H with (if ?b then _ else _) = _ => destruct b end.
  - inversion H; subst. reflexivity.
  - match type of H with context [remap_loop ?f ?s ?d0 ?i] =>
      destruct (remap_loop f s d0 i) as [[d'|]|] eqn:E end;
      cbn [bind] in H; inversion H; subst; [|exact Hs].
    apply (remap_loop_settled _ _ _ _ _ E). reflexivity.
Qed.

(** *** Outcomes: a result with the map not under attack, or none such *)

Definition good_or_attack {R} (r : option R) (ua : R -> Z) (P : R -> Prop) : Prop :=
  (exists x, r = Some x /\ ua x = 0 /\ P x) \/
  (forall x, r = Some x -> ua x <> 0).

Lemma goa_bind {R S} (r : option R) (f : R -> option S) ua ub (P : R -> Prop)
      (Q : S -> Prop) :
  good_or_attack r ua P ->
  (forall x y, ua x <> 0 -> f x = Some y -> ub y <> 0) ->
  (forall x, ua x = 0 -> P x -> good_or_attack (f x) ub Q) ->
  good_or_attack (bind r f) ub Q.
Proof.
  intros [(x & Er & Hx & Px)|Hatt] Hmono Hgood.
  - rewrite Er. cbn [bind]. apply Hgood; assumption.
  - right. intros y Hy. destruct r as [x|]; [|discriminate].
    cbn [bind] in Hy. apply (Hmono x y); [apply Hatt; reflexivity|exact Hy].
Qed.

Lemma goa_weaken {R} (r : option R) ua (P Q : R -> Prop) :
  good_or_attack r ua P -> (forall x, P x -> Q x) -> good_or_attack r ua Q.
Proof.
  intros [(x & Er & Hx & Px)|Hatt] H; [left|right; exact Hatt].
  exists x. repeat split; auto.
Qed.

(** *** The stages of [_insert_or_overwrite] *)

(** the slot an insertion writes, up to its links *)
Definition new_slot (h : Z) (o : couplet_s) : _map_s := mk_slot 0 0 h o.

(** the key is new: no slot of the list has the hash and an equal key *)
Definition is_new (ss : list _map_s) (o : couplet_s) (h : Z) : Prop :=
  forall s, In s ss -> (hash s =? h) && FIO_MAP_OBJ_COMPARE (obj s) o = false.

(** [m] holds the slots [ss], in a table of [2 ^ bits] slots with
    [lo <= bits <= hi], and has no rehash pending *)
Definition holds (m : map_s) (ss : list _map_s) (lo hi : Z) : Prop :=
  exists bits ks, lo <= bits <= hi /\ filled m bits ks ss /\ settled m.

(** [m'] is a map that held [ss] after the seek for a new key chose the slot
    [k0] and the entry was written there *)
Definition landed (m' : map_s) (ss : list _map_s) (o : couplet_s) (h lo hi k0 : Z)
  : Prop :=
  exists a bits ks,
    lo <= bits <= hi /\ filled a bits ks ss /\ settled a /\
    fst (fst (seek_from_key a o h)) = Some k0 /\
    under_attack (snd (fst (seek_from_key a o h))) = 0 /\
    m' = place (snd (fst (seek_from_key a o h))) k0 (new_slot h o) /\
    in_table a k0 = true /\ ~ In k0 ks.

Lemma holds_weaken m ss lo hi hi' : hi <= hi' -> holds m ss lo hi -> holds m ss lo hi'.
Proof.
  intros H (bits & ks & Hb & Hf). exists bits, ks. split; [lia|exact Hf].
Qed.

Lemma landed_weaken m ss o h lo hi hi' k0 :
  hi <= hi' -> landed m ss o h lo hi k0 -> landed m ss o h lo hi' k0.
Proof.
  intros H (a & bits & ks & Hb & Hf). exists a, bits, ks. split; [lia|exact Hf].
Qed.

Lemma find_settled_seek a o h :
  map a <> None -> h <> 0 ->
  find_settled a o h
  = (fst (fst (seek_from_key a o h)), snd (fst (seek_from_key a o h))).
Proof.
  intros Hm Hh. unfold find_settled. rewrite (valid_hash_id h Hh).
  destruct (map a); [|congruence]. apply seek_result_pair.
Qed.

Lemma poke_under_attack m i f : under_attack (poke m i f) = under_attack m.
Proof. reflexivity. Qed.

Lemma found_pos_attack m k o h ow :
  under_attack (snd (fst (found_pos m k o h ow))) = under_attack m.
Proof.
  unfold found_pos.
  destruct ((hash (slot m k) =? FIO_MAP_HASH_INVALID) || (next (slot m k) =? NIL)).
  - cbn [fst snd under_attack set_count].
    rewrite (proj1 (link_node_flags _ _)). reflexivity.
  - destruct ow; reflexivity.
Qed.

Lemma find_map_pos_attack m o h pos m1 :
  _find_map_pos m o h = Some (pos, m1) -> under_attack m <> 0 -> under_attack m1 <> 0.
Proof.
  unfold _find_map_pos. intros H Hua.
  destruct (map m); [|inversion H; subst; exact Hua].
  assert (Hseek : forall a, under_attack a <> 0 ->
            under_attack (snd (fst (seek_from_key a o (valid_hash h)))) <> 0).
  { intros a Ha. unfold seek_from_key.
    rewrite seek_attack_same_map by exact Ha. exact Ha. }
  destruct (negb FIO_MAP_OBJ_COMPARE_SIMPLE && negb (Z.land (has_collisions m) 2 =? 0)).
  - destruct (_remap2bits m (used_bits m)) as [[r m2]|] eqn:E; [|discriminate].
    cbn [bind] in H. rewrite seek_result_pair in H. inversion H as [[E1 E2]].
    apply Hseek. apply (remap2bits_attack _ _ _ _ E Hua).
  - cbn [bind] in H. rewrite seek_result_pair in H. inversion H as [[E1 E2]].
    apply Hseek. exact Hua.
Qed.

Lemma seek_on_filled a bits ks ss o h :
  0 <= bits < 32 -> filled a bits ks ss ->
  Forall (fun s => hash s <> 0) ss -> h <> 0 -> is_new ss o h ->
  under_attack (snd (fst (seek_from_key a o h))) = 0 ->
  forall k0, fst (fst (seek_from_key a o h)) = Some k0 ->
    in_table a k0 = true /\ ~ In k0 ks /\
    found_pos (snd (fst (seek_from_key a o h))) k0 o h true
    = (Some k0, place (snd (fst (seek_from_key a o h))) k0 (new_slot h o),
       Some FIO_MAP_TYPE_INVALID).
Proof.
  intros Hb Hf Hnz Hh Hnew Hua k0 Hk.
  pose proof Hf as (F1 & F2 & F3 & F4 & F5 & F6 & F7 & F8 & F9 & F10).
  pose proof (find_settled_fresh a bits ks ss o h Hb Hf Hnz Hh Hnew) as Hfresh.
  rewrite (find_settled_seek a o h F1 Hh) in Hfresh. cbn [fst snd] in Hfresh.
  specialize (Hfresh Hua). rewrite Hk in Hfresh. destruct Hfresh as [Hin Hnk].
  split; [exact Hin|]. split; [exact Hnk|].
  assert (Hss : same_store a (snd (fst (seek_from_key a o h))))
    by (unfold seek_from_key; apply seek_same_store).
  unfold found_pos. rewrite (same_store_slot _ _ k0 Hss).
  rewrite (F9 k0 Hin Hnk). rewrite Z.eqb_refl. cbn [orb]. reflexivity.
Qed.

Lemma find_good m ss o h lo hi :
  0 <= lo -> hi < 32 -> holds m ss lo hi ->
  Forall (fun s => hash s <> 0) ss -> h <> 0 -> is_new ss o h ->
  good_or_attack (_find_map_pos m o h) (fun r => under_attack (snd r))
    (fun r => holds (snd r) ss lo hi /\
              forall k0, fst r = Some k0 ->
                found_pos (snd r) k0 o h true
                = (Some k0, place (snd r) k0 (new_slot h o), Some FIO_MAP_TYPE_INVALID) /\
                landed (place (snd r) k0 (new_slot h o)) ss o h lo hi k0).
Proof.
  intros Hlo Hhi (bits & ks & Hb & Hf & Hs) Hnz Hh Hnew.
  pose proof Hf as (F1 & _).
  unfold _find_map_pos. destruct (map m) as [t|] eqn:Em; [|congruence].
  unfold settled in Hs. rewrite Hs. change (0 =? 0) with true.
  rewrite Bool.andb_false_r. cbn [bind negb].
  rewrite (valid_hash_id h Hh), seek_result_pair.
  set (pos := fst (fst (seek_from_key m o h))).
  set (m1 := snd (fst (seek_from_key m o h))).
  destruct (Z.eq_dec (under_attack m1) 0) as [Hua|Hua].
  - left. exists (pos, m1). split; [reflexivity|]. split; [exact Hua|].
    assert (Hss : same_store m m1)
      by (unfold m1, seek_from_key; apply seek_same_store).
    cbn [fst snd]. split.
    + exists bits, ks. split; [exact Hb|]. split.
      * apply (filled_same_store _ _ _ _ _ Hss Hf).
      * unfold settled, m1, seek_from_key. rewrite seek_settled. exact Hs.
    + intros k0 Hk.
      destruct (seek_on_filled m bits ks ss o h ltac:(lia) Hf Hnz Hh Hnew Hua k0 Hk)
        as (Hin & Hnk & Hfound).
      split; [exact Hfound|].
      exists m, bits, ks. split; [lia|]. split; [exact Hf|]. split; [exact Hs|].
      split; [exact Hk|]. split; [exact Hua|]. split; [reflexivity|].
      split; assumption.
  - right. intros x Hx. inversion Hx; subst x. exact Hua.
Qed.

Lemma rehash_good m ss lo hi bits' :
  0 <= lo -> hi < 32 -> holds m ss lo hi -> lo <= bits' < 32 ->
  Forall (fun s => hash s <> 0) ss -> distinct ss = true ->
  (forall n, calloc_fails n = false) ->
  good_or_attack (_remap2bits m bits') (fun r => under_attack (snd r))
    (fun r => holds (snd r) ss lo (Z.max hi bits')).
Proof.
  intros Hlo Hhi (bits & ks & Hb & Hf & Hs) Hb' Hnz Hd Hcalloc.
  destruct (rehash_filled m bits ks ss bits' ltac:(lia) Hf Hnz Hd ltac:(lia)
              (Hcalloc _)) as (r & d & Hr & Hmono & Hgood).
  rewrite Hr. destruct (Z.eq_dec (under_attack d) 0) as [Hua|Hua].
  - left. exists (r, d). split; [reflexivity|]. split; [exact Hua|]. cbn [snd].
    pose proof (remap2bits_settled _ _ _ _ Hr Hs) as Hs'.
    destruct (Hgood Hua) as [->|(ks' & Hf')].
    + exists bits, ks. split; [lia|]. split; assumption.
    + exists bits', ks'. split; [lia|]. split; assumption.
  - right. intros x Hx. inversion Hx; subst x. exact Hua.
Qed.

Lemma grow_attack tries :
  forall m o h pos m1,
    grow_and_find tries m o h = Some (pos, m1) ->
    under_attack m <> 0 -> under_attack m1 <> 0.
Proof.
  induction tries as [|n IH]; intros m o h pos m1 H Hua; cbn [grow_and_find] in H.
  - inversion H; subst. exact Hua.
  - destruct (_remap2bits m (u8 (used_bits m + 1))) as [[r m2]|] eqn:E1; [|discriminate].
    cbn [bind] in H.
    destruct (_find_map_pos m2 o h) as [[pos3 m3]|] eqn:E2; [|discriminate].
    cbn [bind] in H.
    pose proof (find_map_pos_attack _ _ _ _ _ E2 (remap2bits_attack _ _ _ _ E1 Hua)) as H3.
    destruct pos3; [inversion H; subst; exact H3|].
    apply (IH _ _ _ _ _ H H3).
Qed.

Lemma grow_good ss o h lo tries :
  forall m hi,
    0 <= lo -> hi + Z.of_nat tries < 32 -> holds m ss lo hi ->
    Forall (fun s => hash s <> 0) ss -> distinct ss = true ->
    (forall n, calloc_fails n = false) -> h <> 0 -> is_new ss o h ->
    good_or_attack (grow_and_find tries m o h) (fun r => under_attack (snd r))
      (fun r => holds (snd r) ss lo (hi + Z.of_nat tries) /\
                forall k0, fst r = Some k0 ->
                  found_pos (snd r) k0 o h true
                  = (Some k0, place (snd r) k0 (new_slot h o),
                     Some FIO_MAP_TYPE_INVALID) /\
                  landed (place (snd r) k0 (new_slot h o)) ss o h lo
                         (hi + Z.of_nat tries) k0).
Proof.
  induction tries as [|n IH]; intros m hi Hlo Hhi Hm Hnz Hd Hcalloc Hh Hnew;
    cbn [grow_and_find].
  - destruct (Z.eq_dec (under_attack m) 0) as [Hua|Hua].
    + left. exists (None, m). split; [reflexivity|]. split; [exact Hua|].
      cbn [fst snd]. split; [apply (holds_weaken _ _ _ hi); [lia|exact Hm]|].
      intros k0 Hk. discriminate.
    + right. intros x Hx. inversion Hx; subst x. exact Hua.
  - assert (Hbits : exists bits, used_bits m = bits /\ lo <= bits <= hi).
    { destruct Hm as (bits & ks & Hb & (_ & _ & F3 & _) & _). exists bits. split; assumption. }
    destruct Hbits as (bits & Eb & Hb). rewrite Eb.
    assert (Eu : u8 (bits + 1) = bits + 1) by (unfold u8; apply Z.mod_small; lia).
    rewrite Eu.
    apply (goa_bind _ _ (fun r => under_attack (snd r)) _
                    (fun r => holds (snd r) ss lo (hi + 1))).
    + apply (goa_weaken _ _ (fun r => holds (snd r) ss lo (Z.max hi (bits + 1)))).
      * apply rehash_good; try assumption; lia.
      * intros x Hx. apply (holds_weaken _ _ _ (Z.max hi (bits + 1))); [lia|exact Hx].
    + intros [r m2] [pos m1] Hua H. cbn [snd] in *.
      destruct (_find_map_pos m2 o h) as [[pos3 m3]|] eqn:E2; [|discriminate].
      cbn [bind] in H.
      pose proof (find_map_pos_attack _ _ _ _ _ E2 Hua) as H3.
      destruct pos3; [inversion H; subst; exact H3|].
      apply (grow_attack _ _ _ _ _ _ H H3).
    + intros [r m2] Hua Hm2. cbn [snd] in *.
      apply (goa_bind _ _ (fun r => under_attack (snd r)) _
               (fun r => holds (snd r) ss lo (hi + 1) /\
                 forall k0, fst r = Some k0 ->
                   found_pos (snd r) k0 o h true
                   = (Some k0, place (snd r) k0 (new_slot h o),
                      Some FIO_MAP_TYPE_INVALID) /\
                   landed (place (snd r) k0 (new_slot h o)) ss o h lo (hi + 1) k0)).
      * apply find_good; try assumption; lia.
      * intros [pos3 m3] [pos m1] Hua3 H. cbn [snd] in *.
        destruct pos3; [inversion H; subst; exact Hua3|].
        apply (grow_attack _ _ _ _ _ _ H Hua3).
      * intros [pos3 m3] Hua3 (Hm3 & Hk3). cbn [fst snd] in *.
        destruct pos3 as [k|].
        -- left. exists (Some k, m3). split; [reflexivity|]. split; [exact Hua3|].
           cbn [fst snd]. split; [apply (holds_weaken _ _ _ (hi + 1)); [lia|exact Hm3]|].
           intros k0 Hk. destruct (Hk3 k0 Hk) as [Hf Hl]. split; [exact Hf|].
           apply (landed_weaken _ _ _ _ _ (hi + 1)); [lia|exact Hl].
        -- replace (hi + Z.of_nat (S n)) with (hi + 1 + Z.of_nat n) by lia.
           apply IH; try assumption; lia.
Qed.

(** [_insert_or_overwrite] cut at its labels: what follows a seek that found
    a slot ([found_pos]) or none *)
Definition finish (m : map_s) (pos : option Z) (o : couplet_s) (h : Z) (ow : bool)
           (otherwise : map_s -> option (option Z * map_s * option V))
  : option (option Z * map_s * option V) :=
  match pos with
  | Some k => Some (found_pos m k o h ow)
  | None => otherwise m
  end.

(** the last resort: the map is declared under attack *)
Definition last_resort (m : map_s) (o : couplet_s) (h : Z) (ow : bool) :=
  let m := set_under_attack m 1 in
  '(pos, m) <- _find_map_pos m o h ;;
  finish m pos o h ow (fun m => Some (None, m, None)).

(** the label [remap_and_find_pos] *)
Definition remap_and_find_pos (m : map_s) (o : couplet_s) (h : Z) (ow : bool) :=
  '(pos, m) <- grow_and_find 3 m o h ;;
  finish m pos o h ow (fun m => last_resort m o h ow).

(** the rehash in place that is tried first *)
Definition rehash_and_find (m : map_s) (o : couplet_s) (h : Z) (ow : bool) :=
  '(pos, m) <- (if u32 (Z.shiftl (count m) 1) <=? u32 (Z.shiftl 1 (used_bits m))
                then '(_, m) <- _remap2bits m (used_bits m) ;; _find_map_pos m o h
                else Some (None, m)) ;;
  finish m pos o h ow (fun m => remap_and_find_pos m o h ow).

Lemma insert_stages m o h ow :
  _insert_or_overwrite m o h ow
  = '(pos, m) <- _find_map_pos m o (valid_hash h) ;;
    finish m pos o (valid_hash h) ow (fun m => rehash_and_find m o (valid_hash h) ow).
Proof. reflexivity. Qed.

(** the outcome wanted of an insertion of a new key *)
Definition lands (ss : list _map_s) (o : couplet_s) (h lo hi : Z)
           (r : option Z * map_s * option V) : Prop :=
  snd r = Some FIO_MAP_TYPE_INVALID /\
  exists k0, fst (fst r) = Some k0 /\ landed (snd (fst r)) ss o h lo hi k0.

Lemma finish_attack m pos o h ow otherwise y :
  under_attack m <> 0 ->
  (forall y, otherwise m = Some y -> under_attack (snd (fst y)) <> 0) ->
  finish m pos o h ow otherwise = Some y -> under_attack (snd (fst y)) <> 0.
Proof.
  intros Hua Ho H. unfold finish in H. destruct pos as [k|]; [|apply Ho, H].
  inversion H; subst y. rewrite found_pos_attack. exact Hua.
Qed.

Lemma finish_good m pos o h ss lo hi otherwise :
  under_attack m = 0 ->
  (forall k0, pos = Some k0 ->
     found_pos m k0 o h true
     = (Some k0, place m k0 (new_slot h o), Some FIO_MAP_TYPE_INVALID) /\
     landed (place m k0 (new_slot h o)) ss o h lo hi k0) ->
  (pos = None ->
   good_or_attack (otherwise m) (fun r => under_attack (snd (fst r))) (lands ss o h lo hi)) ->
  good_or_attack (finish m pos o h true otherwise) (fun r => under_attack (snd (fst r)))
                 (lands ss o h lo hi).
Proof.
  intros Hua Hk Ho. unfold finish. destruct pos as [k|]; [|apply Ho; reflexivity].
  destruct (Hk k eq_refl) as [Hf Hl]. left.
  exists (found_pos m k o h true). split; [reflexivity|].
  split; [rewrite found_pos_attack; exact Hua|].
  rewrite Hf. split; [reflexivity|]. exists k. split; [reflexivity|exact Hl].
Qed.

Lemma last_resort_attack m o h ow y :
  last_resort m o h ow = Some y -> under_attack (snd (fst y)) <> 0.
Proof.
  unfold last_resort. intros H.
  destruct (_find_map_pos (set_under_attack m 1) o h) as [[pos m1]|] eqn:E;
    [|discriminate].
  cbn [bind] in H.
  assert (H1 : under_attack m1 <> 0).
  { apply (find_map_pos_attack _ _ _ _ _ E). cbn. discriminate. }
  apply (finish_attack _ _ _ _ _ _ _ H1) in H; [exact H|].
  intros y' Hy'. inversion Hy'; subst y'. exact H1.
Qed.

Lemma remap_and_find_pos_attack m o h ow y :
  under_attack m <> 0 ->
  remap_and_find_pos m o h ow = Some y -> under_attack (snd (fst y)) <> 0.
Proof.
  unfold remap_and_find_pos. intros Hua H.
  destruct (grow_and_find 3 m o h) as [[pos m1]|] eqn:E; [|discriminate].
  cbn [bind] in H.
  apply (finish_attack _ _ _ _ _ _ _ (grow_attack _ _ _ _ _ _ E Hua)) in H; [exact H|].
  intros y' Hy'. apply (last_resort_attack _ _ _ _ _ Hy').
Qed.

Lemma rehash_and_find_attack m o h ow y :
  under_attack m <> 0 ->
  rehash_and_find m o h ow = Some y -> under_attack (snd (fst y)) <> 0.
Proof.
  unfold rehash_and_find. intros Hua H.
  match type of H with bind ?r _ = _ => destruct r as [[pos m1]|] eqn:E end;
    [|discriminate].
  cbn [bind] in H.
  assert (H1 : under_attack m1 <> 0).
  { destruct (u32 (Z.shiftl (count m) 1) <=? u32 (Z.shiftl 1 (used_bits m))).
    - destruct (_remap2bits m (used_bits m)) as [[r m2]|] eqn:E2; [|discriminate].
      cbn [bind] in E.
      apply (find_map_pos_attack _ _ _ _ _ E (remap2bits_attack _ _ _ _ E2 Hua)).
    - inversion E; subst. exact Hua. }
  apply (finish_attack _ _ _ _ _ _ _ H1) in H; [exact H|].
  intros y' Hy'. apply (remap_and_find_pos_attack _ _ _ _ _ H1 Hy').
Qed.

Section NewKey.

Variable ss : list _map_s.
Variable o : couplet_s.
Variable h : Z.
Hypothesis nonzero : Forall (fun s => hash s <> 0) ss.
Hypothesis no_duplicates : distinct ss = true.
Hypothesis memory : forall n, calloc_fails n = false.
Hypothesis valid : h <> 0.
Hypothesis new_key : is_new ss o h.

Lemma remap_and_find_pos_good m lo hi :
  0 <= lo -> hi + 3 < 32 -> holds m ss lo hi ->
  good_or_attack (remap_and_find_pos m o h true) (fun r => under_attack (snd (fst r)))
                 (lands ss o h lo (hi + 3)).
Proof.
  intros Hlo Hhi Hm. unfold remap_and_find_pos.
  apply (goa_bind _ _ (fun r => under_attack (snd r)) _
           (fun r => holds (snd r) ss lo (hi + 3) /\
             forall k0, fst r = Some k0 ->
               found_pos (snd r) k0 o h true
               = (Some k0, place (snd r) k0 (new_slot h o), Some FIO_MAP_TYPE_INVALID) /\
               landed (place (snd r) k0 (new_slot h o)) ss o h lo (hi + 3) k0)).
  - apply (grow_good ss o h lo 3 m hi); try assumption; cbn; lia.
  - intros [pos m1] y Hua H. cbn [snd] in Hua.
    apply (finish_attack _ _ _ _ _ _ _ Hua) in H; [exact H|].
    intros y' Hy'. apply (last_resort_attack _ _ _ _ _ Hy').
  - intros [pos m1] Hua (Hm1 & Hk). cbn [fst snd] in *.
    apply finish_good; [exact Hua|exact Hk|].
    intros _. right. intros y Hy. apply (last_resort_attack _ _ _ _ _ Hy).
Qed.

(** a seek in a map that holds [ss], then what follows it *)
Lemma find_and_finish_good m lo hi otherwise :
  0 <= lo -> hi < 32 -> holds m ss lo hi ->
  (forall m1 y, under_attack m1 <> 0 -> otherwise m1 = Some y ->
                under_attack (snd (fst y)) <> 0) ->
  (forall m1, under_attack m1 = 0 -> holds m1 ss lo hi ->
     good_or_attack (otherwise m1) (fun r => under_attack (snd (fst r)))
                    (lands ss o h lo (hi + 3))) ->
  good_or_attack ('(pos, m) <- _find_map_pos m o h ;; finish m pos o h true otherwise)
                 (fun r => under_attack (snd (fst r))) (lands ss o h lo (hi + 3)).
Proof.
  intros Hlo Hhi Hm Hmono Hgood.
  apply (goa_bind _ _ (fun r => under_attack (snd r)) _
           (fun r => holds (snd r) ss lo hi /\
             forall k0, fst r = Some k0 ->
               found_pos (snd r) k0 o h true
               = (Some k0, place (snd r) k0 (new_slot h o), Some FIO_MAP_TYPE_INVALID) /\
               landed (place (snd r) k0 (new_slot h o)) ss o h lo hi k0)).
  - apply find_good; assumption.
  - intros [pos m1] y Hua H. cbn [snd] in Hua.
    apply (finish_attack _ _ _ _ _ _ _ Hua) in H; [exact H|].
    intros y' Hy'. apply (Hmono m1 y' Hua Hy').
  - intros [pos m1] Hua (Hm1 & Hk). cbn [fst snd] in *.
    apply finish_good; [exact Hua| |intros _; apply Hgood; assumption].
    intros k0 Hk0. destruct (Hk k0 Hk0) as [Hf Hl]. split; [exact Hf|].
    apply (landed_weaken _ _ _ _ _ hi); [lia|exact Hl].
Qed.

Lemma rehash_and_find_good m lo hi :
  0 <= lo -> hi + 3 < 32 -> holds m ss lo hi -> under_attack m = 0 ->
  good_or_attack (rehash_and_find m o h true) (fun r => under_attack (snd (fst r)))
                 (lands ss o h lo (hi + 3)).
Proof.
  intros Hlo Hhi Hm Hua. unfold rehash_and_find.
  assert (Hbits : exists bits, used_bits m = bits /\ lo <= bits <= hi).
  { destruct Hm as (bits & ks & Hb & (_ & _ & F3 & _) & _). exists bits. split; assumption. }
  destruct Hbits as (bits & Eb & Hb).
  destruct (u32 (Z.shiftl (count m) 1) <=? u32 (Z.shiftl 1 (used_bits m))).
  - pose proof (rehash_good m ss lo hi (used_bits m) Hlo ltac:(lia) Hm ltac:(lia)
                  nonzero no_duplicates memory) as Hr.
    destruct Hr as [([r d] & Er & Hd & Hhold)|Hatt].
    + rewrite Er. cbn [bind snd] in *.
      apply find_and_finish_good; try lia.
      * apply (holds_weaken _ _ _ (Z.max hi (used_bits m))); [lia|exact Hhold].
      * intros m1 y H1 Hy. apply (remap_and_find_pos_attack _ _ _ _ _ H1 Hy).
      * intros m1 H1 Hm1. apply remap_and_find_pos_good; assumption.
    + right. intros y Hy.
      destruct (_remap2bits m (used_bits m)) as [[r d]|] eqn:Er; [|discriminate].
      cbn [bind] in Hy.
      destruct (_find_map_pos d o h) as [[pos m1]|] eqn:Ef; [|discriminate].
      cbn [bind] in Hy.
      pose proof (find_map_pos_attack _ _ _ _ _ Ef (Hatt _ eq_refl)) as H1.
      apply (finish_attack _ _ _ _ _ _ _ H1) in Hy; [exact Hy|].
      intros y' Hy'. apply (remap_and_find_pos_attack _ _ _ _ _ H1 Hy').
  - cbn [bind finish]. apply remap_and_find_pos_good; assumption.
Qed.

(** the insertion of a new key into a map that holds [ss] *)
Lemma insert_lands m lo hi :
  0 <= lo -> hi + 3 < 32 -> holds m ss lo hi ->
  good_or_attack (_insert_or_overwrite m o h true) (fun r => under_attack (snd (fst r)))
                 (lands ss o h lo (hi + 3)).
Proof.
  intros Hlo Hhi Hm. rewrite insert_stages, (valid_hash_id h valid).
  apply find_and_finish_good; try assumption; try lia.
  - intros m1 y H1 Hy. apply (rehash_and_find_attack _ _ _ _ _ H1 Hy).
  - intros m1 H1 Hm1. apply rehash_and_find_good; assumption.
Qed.

End NewKey.

Lemma landed_filled m' ss o h lo hi k0 :
  0 <= lo -> hi < 32 -> landed m' ss o h lo hi k0 ->
  exists bits ks,
    lo <= bits <= hi /\ filled m' bits (ks ++ [k0]) (ss ++ [new_slot h o]) /\
    settled m' /\ under_attack m' = 0.
Proof.
  intros Hlo Hhi (a & bits & ks & Hb & Hf & Hs & Hk & Hua & -> & Hin & Hnk).
  exists bits, ks. split; [exact Hb|].
  assert (Hss : same_store a (snd (fst (seek_from_key a o h))))
    by (unfold seek_from_key; apply seek_same_store).
  split; [|split].
  - apply filled_step; [lia| | |exact Hnk].
    + apply (filled_same_store _ _ _ _ _ Hss Hf).
    + unfold in_table, table in *. destruct Hss as (E & _). rewrite E. exact Hin.
  - unfold settled. rewrite place_has_collisions. unfold seek_from_key.
    rewrite seek_settled. exact Hs.
  - rewrite place_under_attack. exact Hua.
Qed.

Lemma filled_last d bits ks k0 ss s :
  filled d bits (ks ++ [k0]) (ss ++ [s]) ->
  hash (slot d k0) = hash s /\ obj (slot d k0) = obj s /\ next (slot d k0) <> NIL.
Proof.
  intros (_ & _ & _ & _ & _ & _ & F7 & F8 & _).
  rewrite !map_app in F8. cbn [List.map] in F8.
  apply app_inj_tail in F8. destruct F8 as [_ E]. inversion E as [[E1 E2]].
  split; [reflexivity|]. split; [reflexivity|].
  rewrite Forall_forall in F7. apply F7. apply in_or_app. right. left. reflexivity.
Qed.

Lemma distinct_snoc (ss : list _map_s) (s : _map_s) :
  distinct ss = true ->
  (forall s', In s' ss -> (hash s' =? hash s) && FIO_MAP_OBJ_COMPARE (obj s') (obj s) = false) ->
  distinct (ss ++ [s]) = true.
Proof.
  induction ss as [|a ss IH]; intros Hd Hn; [reflexivity|].
  cbn [app distinct] in *. apply Bool.andb_true_iff in Hd. destruct Hd as [H1 H2].
  apply Bool.andb_true_iff. split.
  - rewrite forallb_app, H1. cbn [forallb andb].
    rewrite (Hn a (or_introl eq_refl)). reflexivity.
  - apply IH; [exact H2|]. intros s' Hs'. apply Hn. right. exact Hs'.
Qed.

(** A map built by insertions alone: a fresh map, or one whose table holds
    the slots [ss] in the order of insertion, without holes and with no
    rehash pending.  The slots have valid hashes and no two of them the same
    hash and equal keys. *)
Definition built (m : map_s) (ss : list _map_s) : Prop :=
  Forall (fun s => hash s <> 0) ss /\ distinct ss = true /\
  ((m = FIO_MAP_INIT /\ ss = []) \/ holds m ss 0 31).

Lemma built_content m ss :
  built m ss -> entries m = List.map couplet_of ss /\ count m = u32 (zlen ss).
Proof.
  intros (_ & _ & [(-> & ->)|(bits & ks & Hb & Hf & _)]).
  - split; reflexivity.
  - apply (filled_content m bits ks ss); [lia|exact Hf].
Qed.

(** the first insertion allocates a table of one slot *)
Lemma insert_lands_init o h :
  (forall n, calloc_fails n = false) -> h <> 0 ->
  good_or_attack (_insert_or_overwrite FIO_MAP_INIT o h true)
                 (fun r => under_attack (snd (fst r))) (lands [] o h 0 3).
Proof.
  intros Hmem Hh. rewrite insert_stages, (valid_hash_id h Hh).
  change (_find_map_pos FIO_MAP_INIT o h) with (Some (@None Z, FIO_MAP_INIT)).
  cbn [bind finish]. unfold rehash_and_find.
  change (u32 (Z.shiftl (count FIO_MAP_INIT) 1) <=? u32 (Z.shiftl 1 (used_bits FIO_MAP_INIT)))
    with true. cbv iota.
  set (dest := mk_map (calloc_table 1) NIL 0 0 0 0).
  assert (Er : _remap2bits FIO_MAP_INIT (used_bits FIO_MAP_INIT)
               = Some (match map dest with None => -1 | Some _ => 0 end, dest))
    by reflexivity.
  rewrite Er. cbn [bind].
  assert (Hdest : holds dest [] 0 0).
  { exists 0, []. split; [lia|]. split; [|reflexivity].
    apply (filled_init 1 0 0); [lia|reflexivity|apply Hmem]. }
  assert (Hnew : is_new [] o h) by (intros s []).
  apply (find_and_finish_good [] o h (Forall_nil _) Hh Hnew dest 0 0); try lia;
    try exact Hdest.
  - intros m1 y H1 Hy. apply (remap_and_find_pos_attack _ _ _ _ _ H1 Hy).
  - intros m1 H1 Hm1.
    apply (remap_and_find_pos_good [] o h (Forall_nil _) eq_refl Hmem Hh Hnew); try lia.
    exact Hm1.
Qed.

(** the insertion of a new key into a map built by insertions: it lands, or
    the map is under attack afterwards *)
Lemma insert_outcome (m : map_s) (ss : list _map_s) (h : Z) (k : K) (v : V) :
  built m ss -> used_bits m <= 28 -> (forall n, calloc_fails n = false) ->
  is_new ss (mk_couplet k v) (valid_hash h) ->
  (exists m' k0,
     insert m h k v = Some (m', Some FIO_MAP_TYPE_INVALID, Some v) /\
     landed m' ss (mk_couplet k v) (valid_hash h) 0 31 k0) \/
  (forall r, insert m h k v = Some r -> under_attack (fst (fst r)) <> 0).
Proof.
  intros (Hnz & Hd & Hm) Hbits Hmem Hnew.
  pose proof (valid_hash_nonzero h) as Hh.
  assert (G : good_or_attack
                (_insert_or_overwrite m (mk_couplet k v) (valid_hash h) true)
                (fun r => under_attack (snd (fst r)))
                (lands ss (mk_couplet k v) (valid_hash h) 0 31)).
  { destruct Hm as [(-> & ->)|(bits & ks & Hb & Hf & Hs)].
    - apply (goa_weaken _ _ (lands [] (mk_couplet k v) (valid_hash h) 0 3)).
      + apply insert_lands_init; assumption.
      + intros x (Hx & k0 & Hk & Hl). split; [exact Hx|]. exists k0.
        split; [exact Hk|]. apply (landed_weaken _ _ _ _ _ 3); [lia|exact Hl].
    - change 31 with (28 + 3).
      apply (insert_lands ss (mk_couplet k v) (valid_hash h) Hnz Hd Hmem Hh Hnew);
        try lia.
      exists bits, ks. pose proof Hf as (_ & _ & F3 & _).
      split; [lia|]. split; assumption. }
  assert (Ei : _insert_or_overwrite m (mk_couplet k v) h true
               = _insert_or_overwrite m (mk_couplet k v) (valid_hash h) true).
  { rewrite !insert_stages, valid_hash_idem. reflexivity. }
  unfold insert. rewrite Ei.
  destruct G as [([[pos m'] old] & Er & Hua & Hold & k0 & Hk & Hl)|Hatt].
  - left. cbn [fst snd] in *. subst pos old. exists m', k0. rewrite Er. cbn [bind option_map].
    split; [|exact Hl].
    destruct (landed_filled m' ss _ _ 0 31 k0 ltac:(lia) ltac:(lia) Hl)
      as (bits & ks & Hb & Hf & _).
    destruct (filled_last _ _ _ _ _ _ Hf) as (_ & Eo & _). rewrite Eo. reflexivity.
  - right. intros r Hr.
    destruct (_insert_or_overwrite m (mk_couplet k v) (valid_hash h) true)
      as [[[pos m'] old]|] eqn:Er; [|discriminate].
    cbn [bind] in Hr. inversion Hr; subst r. cbn [fst].
    apply (Hatt _ eq_refl).
Qed.

(** the insertion of a new key, in full: the outcome, the content and the
    invariant *)
Lemma insert_new_core (m : map_s) (ss : list _map_s) (h : Z) (k : K) (v : V) :
  built m ss -> used_bits m <= 28 -> (forall n, calloc_fails n = false) ->
  is_new ss (mk_couplet k v) (valid_hash h) ->
  (exists m',
     insert m h k v = Some (m', Some FIO_MAP_TYPE_INVALID, Some v) /\
     under_attack m' = 0 /\
     entries m' = entries m ++ [(k, v)] /\ count m' = count m + 1 /\
     built m' (ss ++ [new_slot (valid_hash h) (mk_couplet k v)])) \/
  (forall r, insert m h k v = Some r -> under_attack (fst (fst r)) <> 0).
Proof.
  intros Hm Hbits Hmem Hnew.
  destruct (insert_outcome m ss h k v Hm Hbits Hmem Hnew) as [(m' & k0 & Ei & Hl)|Hatt];
    [left|right; exact Hatt].
  exists m'. split; [exact Ei|].
  destruct (landed_filled m' ss _ _ 0 31 k0 ltac:(lia) ltac:(lia) Hl)
    as (bits & ks & Hb & Hf & Hs & Hua).
  split; [exact Hua|].
  destruct (built_content m ss Hm) as (Ee & Ec).
  destruct (filled_content m' bits _ _ ltac:(lia) Hf) as (Ee' & Ec').
  pose proof (filled_length _ _ _ _ Hf) as Hlen.
  assert (Htab : zlen (table m') <= 2147483648).
  { destruct Hf as (_ & F2 & _). rewrite F2.
    assert (2 ^ bits <= 2 ^ 31) by (apply Z.pow_le_mono_r; lia).
    change (2 ^ 31) with 2147483648 in *. lia. }
  assert (Hzl : zlen (ss ++ [new_slot (valid_hash h) (mk_couplet k v)]) = zlen ss + 1)
    by (rewrite zlen_app; reflexivity).
  assert (Hsz : zlen ss + 1 <= 2147483648).
  { destruct Hf as (_ & _ & _ & _ & _ & _ & _ & F8 & _).
    apply (f_equal (@length _)) in F8. rewrite !length_map, !length_app in F8.
    rewrite length_app in Hlen. cbn [length] in F8, Hlen.
    unfold zlen in *. lia. }
  pose proof (zlen_nonneg ss) as Hss0.
  split; [|split].
  - rewrite Ee', Ee, map_app. reflexivity.
  - rewrite Ec', Ec, Hzl. unfold u32. rewrite !Z.mod_small by lia. reflexivity.
  - destruct Hm as (Hnz & Hd & _). split; [|split].
    + apply Forall_app. split; [exact Hnz|].
      constructor; [apply valid_hash_nonzero|constructor].
    + apply distinct_snoc; [exact Hd|exact Hnew].
    + right. exists bits, (ks ++ [k0]). split; [lia|]. split; assumption.
Qed.

(** *** Hashes that are all different: no full collision, and a result *)












Section Spread.

Variable ss : list _map_s.
Variable o : couplet_s.
Variable h : Z.
Hypothesis nonzero : Forall (fun s => hash s <> 0) ss.
Hypothesis memory : forall n, calloc_fails n = false.
Hypothesis spread : NoDup (h :: List.map hash ss).
Hypothesis valid : h <> 0.














End Spread.




(** *** Looking up what was inserted *)





(** X16.  A lookup that misses.  On a well-formed map in which no entry of
    the ring has the hash and a key equal to the one sought, and which is
    not under attack once the seek is over, [find] returns the invalid value;
    the count and the entries are what they were (also when a pending rehash
    was carried out on the way). *)
Theorem find_miss_returns_invalid (m : map_s) (h : Z) (k : K) :
  well_formed m = true ->
  calloc_fails (2 ^ used_bits m) = false ->
  ring_match m (mk_couplet k value0) h = false ->
  (forall pos m1, _find_map_pos m (mk_couplet k value0) (valid_hash h) = Some (pos, m1) ->
                  under_attack m1 = 0) ->
  exists m1,
    find m h k = Some (m1, FIO_MAP_TYPE_INVALID) /\
    count m1 = count m /\ entries m1 = entries m.
Proof.
  intros Hwf Hcalloc Hrm Hua.
  assert (Ev : _find_map_pos m (mk_couplet k value0) h
               = _find_map_pos m (mk_couplet k value0) (valid_hash h)).
  { unfold _find_map_pos. rewrite valid_hash_idem. reflexivity. }
  unfold find. rewrite Ev.
  destruct (map m) as [t|] eqn:Em.
  - destruct (find_miss_content m t _ h Em Hwf Hcalloc Hrm Hua)
      as (pos & m1 & Hf & Hn & Hc & He).
    rewrite Hf. cbn [bind]. exists m1. rewrite Hn.
    destruct pos; split; try reflexivity; split; assumption.
  - unfold _find_map_pos. rewrite Em. cbn [bind]. exists m.
    repeat split; reflexivity.
Qed.

(** *** Rehashing and reserving *)

(** [rehash(m)]: the value returned and the map left *)
Definition rehash (m : map_s) : option (Z * map_s) := _remap2bits m (used_bits m).

Lemma reserve_bits_spec (capa_ : Z) (fuel : nat) :
  forall b,
    0 <= b <= 31 -> capa_ <= 2147483648 -> 31 - b < Z.of_nat fuel ->
    b <= reserve_bits fuel capa_ b <= 31 /\ capa_ <= 2 ^ reserve_bits fuel capa_ b.
Proof.
  induction fuel as [|n IH]; intros b Hb Hc Hf; [lia|]. cbn [reserve_bits].
  assert (E : u64 (Z.shiftl 1 b) = 2 ^ b).
  { rewrite Z.shiftl_mul_pow2, Z.mul_1_l by lia. unfold u64. apply Z.mod_small.
    assert (0 < 2 ^ b) by (apply Z.pow_pos_nonneg; lia).
    assert (2 ^ b <= 2 ^ 31) by (apply Z.pow_le_mono_r; lia).
    change (2 ^ 31) with 2147483648 in *. lia. }
  rewrite E.
  destruct (2 ^ b <? capa_) eqn:El; [apply Z.ltb_lt in El|apply Z.ltb_ge in El].
  - assert (Hb31 : b < 31).
    { destruct (Z.eq_dec b 31) as [->|]; [|lia].
      change (2 ^ 31) with 2147483648 in El. lia. }
    assert (Eu : u8 (b + 1) = b + 1) by (unfold u8; apply Z.mod_small; lia).
    rewrite Eu. destruct (IH (b + 1)) as [H1 H2]; try lia.
  - split; [lia|exact El].
Qed.

Lemma rehash_built m ss bits' :
  built m ss -> 0 <= bits' < 32 -> (forall n, calloc_fails n = false) ->
  exists r d,
    _remap2bits m bits' = Some (r, d) /\
    (under_attack d = 0 ->
     entries d = entries m /\ count d = count m /\
     (d = m \/ (used_bits d = bits' /\ built d ss))).
Proof.
  intros (Hnz & Hd & [(-> & ->)|(bits & ks & Hb & Hf & Hs)]) Hb' Hmem.
  - exists 0, (mk_map (calloc_table (2 ^ bits')) NIL 0 bits' 0 0).
    unfold _remap2bits. cbn [map FIO_MAP_INIT orb under_attack].
    rewrite table_size_bits by exact Hb'.
    pose proof (filled_init (2 ^ bits') bits' 0 Hb' eq_refl (Hmem _)) as Hinit.
    unfold calloc_table in *. rewrite (Hmem _) in *. cbn [map].
    split; [reflexivity|]. intros _.
    destruct (filled_content _ _ _ _ Hb' Hinit) as (Ee & Ec).
    split; [exact Ee|]. split; [reflexivity|]. right. split; [reflexivity|].
    split; [constructor|]. split; [reflexivity|]. right.
    exists bits', []. split; [lia|]. split; [exact Hinit|reflexivity].
  - destruct (rehash_filled m bits ks ss bits' ltac:(lia) Hf Hnz Hd Hb' (Hmem _))
      as (r & d & Hr & _ & Hgood).
    exists r, d. split; [exact Hr|]. intros Hua.
    destruct (Hgood Hua) as [->|(ks' & Hf')].
    + split; [reflexivity|]. split; [reflexivity|]. left. reflexivity.
    + destruct (filled_content m bits ks ss ltac:(lia) Hf) as (Ee & Ec).
      destruct (filled_content _ _ _ _ Hb' Hf') as (Ee' & Ec').
      split; [congruence|]. split; [congruence|]. right.
      split; [exact (proj1 (proj2 (proj2 Hf')))|].
      split; [exact Hnz|]. split; [exact Hd|]. right.
      exists bits', ks'. split; [lia|]. split; [exact Hf'|].
      apply (remap2bits_settled _ _ _ _ Hr Hs).
Qed.

(** X17.  Rehashing and reserving keep the content.  On a map built by
    insertions, the allocator not failing, [rehash] and [reserve] return;
    unless the map is under attack afterwards, the entries, their order and
    the count are what they were.  [reserve] returns the capacity of the map
    it leaves; it leaves the map alone when the table already has [capa]
    slots, and otherwise the table has at least [capa] slots afterwards
    unless the rehash found no place for some entry and gave up. *)
Theorem rehash_reserve_keep_entries (m : map_s) (ss : list _map_s) (capa_ : Z) :
  built m ss -> used_bits m <= 30 -> (forall n, calloc_fails n = false) ->
  0 <= capa_ <= 2147483648 ->
  (exists r m',
     rehash m = Some (r, m') /\
     (under_attack m' = 0 -> entries m' = entries m /\ count m' = count m)) /\
  (exists m' c,
     reserve m capa_ = Some (m', c) /\ c = capa m' /\
     (capa_ <= 2 ^ used_bits m -> m' = m) /\
     (under_attack m' = 0 ->
      entries m' = entries m /\ count m' = count m /\
      (m' = m \/ capa_ <= 2 ^ used_bits m'))).
Proof.
  intros Hm Hbits Hmem Hc.
  assert (Hb0 : 0 <= used_bits m).
  { destruct Hm as (_ & _ & [(-> & _)|(bits & ks & Hb & (_ & _ & F3 & _) & _)]);
      [cbn; lia|lia]. }
  split.
  - destruct (rehash_built m ss (used_bits m) Hm ltac:(lia) Hmem) as (r & d & Hr & Hgood).
    exists r, d. split; [exact Hr|]. intros Hua.
    destruct (Hgood Hua) as (Ee & Ec & _). split; assumption.
  - unfold reserve.
    assert (E : u64 (Z.shiftl 1 (used_bits m)) = 2 ^ used_bits m).
    { rewrite Z.shiftl_mul_pow2, Z.mul_1_l by lia. unfold u64. apply Z.mod_small.
      assert (0 < 2 ^ used_bits m) by (apply Z.pow_pos_nonneg; lia).
      assert (2 ^ used_bits m <= 2 ^ 30) by (apply Z.pow_le_mono_r; lia).
      change (2 ^ 30) with 1073741824 in *. lia. }
    rewrite E.
    destruct (capa_ <=? 2 ^ used_bits m) eqn:El; [apply Z.leb_le in El|apply Z.leb_gt in El].
    + exists m, (capa m). split; [reflexivity|]. split; [reflexivity|].
      split; [reflexivity|]. intros _. split; [reflexivity|]. split; [reflexivity|].
      left. reflexivity.
    + assert (Eu : u8 (used_bits m + 1) = used_bits m + 1)
        by (unfold u8; apply Z.mod_small; lia).
      rewrite Eu.
      destruct (reserve_bits_spec capa_ 64 (used_bits m + 1)) as [Hr1 Hr2]; try lia.
      set (bits' := reserve_bits 64 capa_ (used_bits m + 1)) in *.
      destruct (rehash_built m ss bits' Hm ltac:(lia) Hmem) as (r & d & Hr & Hgood).
      rewrite Hr. cbn [bind]. exists d, (capa d).
      split; [reflexivity|]. split; [reflexivity|]. split; [lia|].
      intros Hua. destruct (Hgood Hua) as (Ee & Ec & Hd).
      split; [exact Ee|]. split; [exact Ec|].
      destruct Hd as [->|[Eb _]]; [left; reflexivity|right]. rewrite Eb. exact Hr2.
Qed.

(** *** The map as a stack: [last] and [pop] *)

(** [last(m)] *)
Definition last (m : map_s) : V :=
  if (count m =? 0) || (head m =? NIL) then FIO_MAP_TYPE_INVALID
  else value (obj (slot m (prev (slot m (head m))))).

(** [pop(m)] *)
Definition pop (m : map_s) : map_s :=
  if (count m =? 0) || (head m =? NIL) then m
  else
    let n := prev (slot m (head m)) in
    let m := ___unlink_node m n in
    set_count m (count m - 1).














Lemma last_map {A B} (f : A -> B) (l : list A) (a : A) (b : B) :
  l <> [] -> List.last (List.map f l) b = f (List.last l a).
Proof.
  induction l as [|x l IH]; intros Hl; [congruence|].
  destruct l as [|y l]; [reflexivity|].
  change (List.last (List.map f (x :: y :: l)) b) with (List.last (List.map f (y :: l)) b).
  change (List.last (x :: y :: l) a) with (List.last (y :: l) a).
  apply IH. discriminate.
Qed.

Lemma last_filled d bits ks ss :
  0 <= bits < 32 -> filled d bits ks ss ->
  last d = List.last (List.map (fun s => value (obj s)) ss) FIO_MAP_TYPE_INVALID.
Proof.
  intros Hb Hf. pose proof (filled_length _ _ _ _ Hf) as Hfl.
  destruct Hf as (F1 & F2 & F3 & F4 & F5 & F6 & F7 & F8 & F9 & F10).
  unfold last. destruct ks as [|k0 ks'].
  - destruct ss as [|s ss]; [|discriminate F8].
    rewrite F4. reflexivity.
  - destruct F10 as (G1 & G2 & G3).
    assert (Hpow : 2 ^ bits <= 2147483648).
    { assert (2 ^ bits <= 2 ^ 31) by (apply Z.pow_le_mono_r; lia).
      change (2 ^ 31) with 2147483648 in *. lia. }
    assert (Hz : 0 < zlen (k0 :: ks') <= 2147483648).
    { unfold zlen in *. cbn [length] in *. lia. }
    rewrite Forall_forall in F6.
    assert (Hi : in_table d k0 = true) by (apply F6; left; reflexivity).
    pose proof (in_table_lt _ _ _ F2 Hb Hi) as Hk0.
    replace (count d =? 0) with false
      by (symmetry; apply Z.eqb_neq; rewrite F4; unfold u32; rewrite Z.mod_small; lia).
    replace (head d =? NIL) with false
      by (symmetry; apply Z.eqb_neq; rewrite G1; unfold NIL; lia).
    cbn [orb]. rewrite G1, G3, <- (last_cons ks' k0 k0).
    assert (E : List.map (fun s => value (obj s)) ss
                = List.map (fun k => value (obj (slot d k))) (k0 :: ks')).
    { apply (f_equal (List.map (fun p : Z * couplet_s => value (snd p)))) in F8.
      rewrite !map_map in F8. cbn [snd] in F8. symmetry. exact F8. }
    rewrite E. symmetry.
    apply (last_map (fun k => value (obj (slot d k))) (k0 :: ks') k0). discriminate.
Qed.

Lemma entries_values ss :
  List.map snd (List.map couplet_of ss) = List.map (fun s => value (obj s)) ss.
Proof. rewrite map_map. reflexivity. Qed.

(** X18.  [last] returns the value of the entry inserted last.  On a map
    built by insertions it is the value of the last of the entries in the
    order of insertion, and the invalid value when the map is empty. *)
Theorem last_is_newest (m : map_s) (ss : list _map_s) :
  built m ss ->
  last m = List.last (List.map snd (entries m)) FIO_MAP_TYPE_INVALID.
Proof.
  intros Hm. destruct (built_content m ss Hm) as (Ee & _). rewrite Ee, entries_values.
  destruct Hm as (_ & _ & [(-> & ->)|(bits & ks & Hb & Hf & _)]); [reflexivity|].
  apply (last_filled m bits ks ss); [lia|exact Hf].
Qed.


(** *** Removing what was inserted *)






End Template.

(** An instance: integer keys compared with [==], integer values, the
    defaults for the rest, an allocator that does not fail. *)
Module IntMap.
Definition compare : option (Z -> Z -> bool) := Some Z.eqb.
Definition never (n : Z) : bool := false.
Definition zero : _map_s Z Z := mk_slot Z Z 0 0 0 (mk_couplet Z Z 0 0).
Definition INIT : map_s Z Z := FIO_MAP_INIT Z Z.

Definition insert (m : map_s Z Z) (h k v : Z) := insert Z Z 0 0 0 compare never zero m h k v.
Definition remove (m : map_s Z Z) (h k : Z) := remove Z Z 0 0 0 compare never zero m h k.
Definition find (m : map_s Z Z) (h k : Z) := find Z Z 0 0 0 compare never zero m h k.
Definition entries (m : map_s Z Z) := entries Z Z zero m.
Definition seek_from_key (m : map_s Z Z) (k h : Z) :=
  seek_from_key Z Z compare zero m (mk_couplet Z Z k 0) h.

(** [insert(m, h, k, k + 1000)] for every [(h, k)] of the list, in order; a
    call that does not come back leaves the map as it was *)
Definition insert_all (l : list (Z * Z)) (m : map_s Z Z) : map_s Z Z :=
  fold_left (fun m hk => match insert m (fst hk) (snd hk) (snd hk + 1000) with
                         | Some (m', _, _) => m'
                         | None => m
                         end) l m.

(** [n] keys, 0 to [n - 1], all with the hash 42 *)
Definition colliding (n : nat) : map_s Z Z :=
  insert_all (List.map (fun k => (42, Z.of_nat k)) (seq 0 n)) INIT.

(** [n] keys with the hashes [1 + 512 * k] *)
Definition strided (n : nat) : map_s Z Z :=
  insert_all (List.map (fun k => (1 + 512 * Z.of_nat k, Z.of_nat k)) (seq 0 n)) INIT.

(** the same keys put in a map for which 1024 slots were reserved *)
Definition reserved : map_s Z Z :=
  match reserve Z Z 0 0 compare never zero INIT 1024 with
  | Some (m, _) => m
  | None => INIT
  end.
Definition strided_1024 (n : nat) : map_s Z Z :=
  insert_all (List.map (fun k => (1 + 512 * Z.of_nat k, Z.of_nat k)) (seq 0 n)) reserved.

(** 12 keys with one hash, then key 3 removed: a hole is left among
    collisions, so that a rehash is pending *)
Definition holed : map_s Z Z :=
  match remove (colliding 12) 42 3 with
  | Some (m, _, _) => m
  | None => INIT
  end.
End IntMap.


(** the two sides of the limit: 95 keys with one hash are 95 full collisions
    for a 96th key and leave the flag clear; 96 of them are 96 full
    collisions for a 97th key and set it *)
Lemma collisions_at_the_limit :
  (let m := IntMap.colliding 95 in
   under_attack Z Z m = 0 /\
   collisions_met Z Z IntMap.compare IntMap.zero m (mk_couplet Z Z 999 0) 42
                  (seek_path Z Z m 42) = 95 /\
   snd (IntMap.seek_from_key m 999 42) = 95 /\
   under_attack Z Z (snd (fst (IntMap.seek_from_key m 999 42))) = 0) /\
  (let m := IntMap.colliding 96 in
   under_attack Z Z m = 0 /\
   collisions_met Z Z IntMap.compare IntMap.zero m (mk_couplet Z Z 999 0) 42
                  (seek_path Z Z m 42) = 96 /\
   snd (IntMap.seek_from_key m 999 42) = 96 /\
   under_attack Z Z (snd (fst (IntMap.seek_from_key m 999 42))) = 1).
Proof. vm_compute. repeat split. Qed.


Lemma remove_halves_when_sparse_witness :
  let m := IntMap.strided_1024 20 in
  let o := mk_couplet Z Z 0 0 in
  let m2 := remove_at Z Z IntMap.zero m 1 in
  let sparse := 8 <= used_bits Z Z m /\ 8 * count Z Z m2 < 2 ^ used_bits Z Z m in
  exists m3,
    _remove Z Z 0 0 0 IntMap.compare IntMap.never IntMap.zero m o 1
      = Some (m3, 0, value Z Z (obj Z Z (slot Z Z IntMap.zero m 1))) /\
    (~ sparse -> m3 = m2 /\ used_bits Z Z m3 = used_bits Z Z m) /\
    (sparse ->
     exists r, _remap2bits Z Z 0 0 IntMap.compare IntMap.never IntMap.zero m2
                           (used_bits Z Z m - 1) = Some (r, m3) /\
               (used_bits Z Z m3 = used_bits Z Z m - 1 \/
                (r = -1 /\ m3 = m2 /\ used_bits Z Z m3 = used_bits Z Z m))) /\
    (used_bits Z Z m3 = used_bits Z Z m - 1 -> sparse).
Proof.
  apply (remove_halves_when_sparse Z Z 0 0 0 IntMap.compare IntMap.never IntMap.zero
           (IntMap.strided_1024 20) (IntMap.strided_1024 20) (mk_couplet Z Z 0 0) 1 1).
  - vm_compute. reflexivity.
  - vm_compute. reflexivity.
  - vm_compute. reflexivity.
  - vm_compute. split; [discriminate|reflexivity].
  - vm_compute. split; [discriminate|reflexivity].
Defined.

(** C4 as stated does not hold: 99 entries with the hashes [1 + 512 * k] sit
    in a table of 2^10 slots; removing the first leaves 98, less than an
    eighth of 1024, with [used_bits] at 10, which is at least 8, and the
    table is not halved: in a table of 2^9 slots all of them start their seek
    at slot 1 and the 98th finds no place in 97 attempts, so the rehash fails.
    With 20 such entries in a table of 2^10 slots the removal does halve
    the table. *)
Lemma sparse_table_not_halved :
  used_bits Z Z (IntMap.strided 99) = 10 /\
  option_map (fun r => (snd (fst r), snd r, count Z Z (fst (fst r)),
                        should_shrink Z Z (fst (fst r)),
                        used_bits Z Z (fst (fst r))))
             (IntMap.remove (IntMap.strided 99) 1 0)
    = Some (0, 1000, 98, true, 10) /\
  used_bits Z Z (IntMap.strided_1024 20) = 10 /\
  option_map (fun r => (snd (fst r), snd r, count Z Z (fst (fst r)),
                        used_bits Z Z (fst (fst r))))
             (IntMap.remove (IntMap.strided_1024 20) 1 0)
    = Some (0, 1000, 19, 9).
Proof. vm_compute. repeat split. Qed.

Lemma remove_miss_keeps_content_witness :
  let m := IntMap.holed in
  exists m1,
    _remove Z Z 0 0 0 IntMap.compare IntMap.never IntMap.zero m (mk_couplet Z Z 999 0) 42
      = Some (m1, -1, 0) /\
    count Z Z m1 = count Z Z m /\
    entries Z Z IntMap.zero m1 = entries Z Z IntMap.zero m.
Proof.
  apply (remove_miss_keeps_content Z Z 0 0 0 IntMap.compare IntMap.never IntMap.zero
           IntMap.holed (mk_couplet Z Z 999 0) 42).
  - vm_compute. reflexivity.
  - reflexivity.
  - vm_compute. reflexivity.
  - intros pos m1 H. vm_compute in H. inversion H. reflexivity.
Defined.

(** C9 as stated does not hold on a map under attack: 97 keys with one hash
    put the map under attack; no entry has the key 999, yet removing the key
    999 with that hash returns 0, hands back the value of the oldest entry
    and takes that entry out of the ring. *)
Lemma remove_miss_under_attack :
  let m := IntMap.colliding 97 in
  under_attack Z Z m = 1 /\
  well_formed Z Z IntMap.compare IntMap.zero m = true /\
  ring_match Z Z IntMap.compare IntMap.zero m (mk_couplet Z Z 999 0) 42 = false /\
  live_match Z Z IntMap.compare IntMap.zero m (mk_couplet Z Z 999 0) 42 = false /\
  existsb (fun e => fst e =? 999) (IntMap.entries m) = false /\
  count Z Z m = 97 /\
  hd_error (IntMap.entries m) = Some (0, 1000) /\
  option_map (fun r => (snd (fst r), snd r, count Z Z (fst (fst r)),
                        hd_error (IntMap.entries (fst (fst r))),
                        length (IntMap.entries (fst (fst r)))))
             (IntMap.remove m 42 999)
    = Some (0, 1000, 96, Some (1, 1001), 96%nat).
Proof. vm_compute. repeat split. Qed.


(** one insertion into the empty map: the key 0 with the hash 1 *)
Lemma built_strided_1 :
  built Z Z IntMap.compare IntMap.zero (IntMap.strided 1)
        [new_slot Z Z 1 (mk_couplet Z Z 0 1000)].
Proof.
  destruct (insert_new_core Z Z 0 0 0 IntMap.compare IntMap.never IntMap.zero
              IntMap.INIT [] 1 0 1000) as [(m' & Ei & _ & _ & _ & Hb)|Hatt].
  - split; [constructor|]. split; [reflexivity|]. left. split; reflexivity.
  - vm_compute. discriminate.
  - intros n. reflexivity.
  - intros s [].
  - vm_compute in Ei. inversion Ei; subst m'. exact Hb.
  - exfalso. specialize (Hatt _ eq_refl). apply Hatt. vm_compute. reflexivity.
Qed.



Lemma find_miss_returns_invalid_witness :
  let m := IntMap.holed in
  exists m1,
    IntMap.find m 42 999 = Some (m1, 0) /\
    count Z Z m1 = count Z Z m /\
    IntMap.entries m1 = IntMap.entries m.
Proof.
  apply (find_miss_returns_invalid Z Z 0 0 0 IntMap.compare IntMap.never IntMap.zero
           IntMap.holed 42 999).
  - vm_compute. reflexivity.
  - reflexivity.
  - vm_compute. reflexivity.
  - intros pos m1 H. vm_compute in H. inversion H. reflexivity.
Defined.

Lemma rehash_reserve_keep_entries_witness :
  let m := IntMap.strided 1 in
  (exists r m',
     rehash Z Z 0 0 IntMap.compare IntMap.never IntMap.zero m = Some (r, m') /\
     (under_attack Z Z m' = 0 ->
      IntMap.entries m' = IntMap.entries m /\ count Z Z m' = count Z Z m)) /\
  (exists m' c,
     reserve Z Z 0 0 IntMap.compare IntMap.never IntMap.zero m 8 = Some (m', c) /\
     c = capa Z Z m' /\
     (8 <= 2 ^ used_bits Z Z m -> m' = m) /\
     (under_attack Z Z m' = 0 ->
      IntMap.entries m' = IntMap.entries m /\ count Z Z m' = count Z Z m /\
      (m' = m \/ 8 <= 2 ^ used_bits Z Z m'))).
Proof.
  apply (rehash_reserve_keep_entries Z Z 0 0 IntMap.compare IntMap.never IntMap.zero
           (IntMap.strided 1) [new_slot Z Z 1 (mk_couplet Z Z 0 1000)] 8).
  - exact built_strided_1.
  - vm_compute. discriminate.
  - intros n. reflexivity.
  - lia.
Defined.

Lemma last_is_newest_witness :
  last Z Z 0 IntMap.zero (IntMap.strided 1)
  = List.last (List.map snd (IntMap.entries (IntMap.strided 1))) 0.
Proof.
  apply (last_is_newest Z Z 0 IntMap.compare IntMap.zero (IntMap.strided 1)
           [new_slot Z Z 1 (mk_couplet Z Z 0 1000)]).
  exact built_strided_1.
Defined.



End Map.
